(** * Towers: a shallow embedding of the skyscraper-puzzle solver

    The Go program keeps one mutable [Board] and runs deduction rules on
    it until nothing changes.  Here the board is a record, every method
    with a pointer receiver is a computation in a state-and-failure
    monad over that record, and a Go run-time panic (index out of range,
    division by zero, negative slice size) is the failure [None]. *)

From Stdlib Require Import ZArith Lia List Bool Ascii String.
From stdpp Require Import base tactics option list list_numbers numbers sets gmap.
From stdpp Require Import strings pretty.

Local Open Scope Z_scope.

(** ** Machine integers

    Go's [int] is taken to be 64 bits wide and [rune] is [int32]; both
    wrap around in two's complement. *)

Definition wrap (w : Z) (x : Z) : Z := (x + 2 ^ (w - 1)) mod 2 ^ w - 2 ^ (w - 1).
Definition int (x : Z) : Z := wrap 64 x.
Definition rune (x : Z) : Z := wrap 32 x.
Definition maxInt : Z := 2 ^ 63 - 1.
Definition minInt : Z := - 2 ^ 63.
Definition is_int (x : Z) : Prop := minInt <= x <= maxInt.

(** ** Slices indexed by an [int]

    [idx l i] is [l[i]]; it fails where Go panics. [upd l i x] is the
    assignment [l[i] = x]. *)

Definition idx {A} (l : list A) (i : Z) : option A :=
  if decide (0 <= i) then l !! Z.to_nat i else None.

Definition upd {A} (l : list A) (i : Z) (x : A) : option (list A) :=
  _ ← idx l i; Some (<[Z.to_nat i := x]> l).

Definition len {A} (l : list A) : Z := Z.of_nat (length l).

Definition cell {A} (g : list (list A)) (r c : Z) : option A :=
  row ← idx g r; idx row c.

Definition upd_cell {A} (g : list (list A)) (r c : Z) (x : A) : option (list (list A)) :=
  row ← idx g r; row' ← upd row c x; upd g r row'.

(** ** Data model (main.go) *)

Definition OBS_ROW : Z := 0.
Definition OBS_COL : Z := 1.
Definition OBS_FWD : Z := 0.
Definition OBS_BWD : Z := 1.
Definition EMPTY : Z := 0.

Record Observer := mkObserver {
  Type_ : Z;
  Index : Z;
  Direction : Z;
  Count : Z
}.

(** [Allowed] holds one Go map per cell, used as a set of ints;
    [NewAllowed] allocates a fresh map for every cell and no other code
    creates or copies one, so the cells never alias and a value per cell
    is exact.  A line's permutation list is a nilable pointer to a slice
    that is only ever replaced as a whole. *)
Record Board := mkBoard {
  Grid : list (list Z);
  Allowed : list (list (gset Z));
  NumEmpty : Z;
  Size : Z;
  Observers : list Observer;
  ObsSorted : list (option Observer);
  Perms : list (list Z);
  RowPerms : list (option (list Z));
  ColPerms : list (option (list Z))
}.

Definition with_Grid (g : list (list Z)) (b : Board) : Board :=
  mkBoard g (Allowed b) (NumEmpty b) (Size b) (Observers b) (ObsSorted b)
          (Perms b) (RowPerms b) (ColPerms b).
Definition with_Allowed (a : list (list (gset Z))) (b : Board) : Board :=
  mkBoard (Grid b) a (NumEmpty b) (Size b) (Observers b) (ObsSorted b)
          (Perms b) (RowPerms b) (ColPerms b).
Definition with_NumEmpty (n : Z) (b : Board) : Board :=
  mkBoard (Grid b) (Allowed b) n (Size b) (Observers b) (ObsSorted b)
          (Perms b) (RowPerms b) (ColPerms b).
Definition with_RowPerms (p : list (option (list Z))) (b : Board) : Board :=
  mkBoard (Grid b) (Allowed b) (NumEmpty b) (Size b) (Observers b) (ObsSorted b)
          (Perms b) p (ColPerms b).
Definition with_ColPerms (p : list (option (list Z))) (b : Board) : Board :=
  mkBoard (Grid b) (Allowed b) (NumEmpty b) (Size b) (Observers b) (ObsSorted b)
          (Perms b) (RowPerms b) p.

(** ** The monad of board methods *)

Definition M (A : Type) : Type := Board -> option (A * Board).

Definition ret {A} (a : A) : M A := fun b => Some (a, b).
Definition bind {A B} (m : M A) (k : A -> M B) : M B :=
  fun b => match m b with Some (a, b') => k a b' | None => None end.
Definition panic {A} : M A := fun _ => None.
(** Read something off the board; the read may itself panic. *)
Definition query {A} (f : Board -> option A) : M A :=
  fun b => match f b with Some a => Some (a, b) | None => None end.
Definition modify (f : Board -> Board) : M unit := fun b => Some (tt, f b).

Declare Scope board_scope.
Delimit Scope board_scope with board.
Notation "x <- m ;; k" := (bind m (fun x => k))
  (at level 100, m at next level, right associativity) : board_scope.
Notation "m ;;; k" := (bind m (fun _ => k))
  (at level 100, right associativity) : board_scope.

(** A loop over [l] that carries the local variables [s] of the
    enclosing function from one iteration to the next. *)
Fixpoint for_acc {A S} (l : list A) (s : S) (body : A -> S -> M S) : M S :=
  match l with
  | [] => ret s
  | x :: l' => (s' <- body x s ;; for_acc l' s' body)%board
  end.

(** [for x in l { body }] *)
Definition for_ {A} (l : list A) (body : A -> M unit) : M unit :=
  for_acc l tt (fun x _ => body x).

(** A loop that raises the flag [changed] whenever its body reports a
    change. *)
Definition for_flag {A} (l : list A) (body : A -> M bool) : M bool :=
  for_acc l false (fun x changed => (c <- body x ;; ret (changed || c))%board).

(** A loop whose body may [return true] out of the enclosing function:
    the body yields [true] to return at once. *)
Fixpoint for_return {A} (l : list A) (body : A -> M bool) : M bool :=
  match l with
  | [] => ret false
  | x :: l' => (stop <- body x ;; if stop : bool then ret true else for_return l' body)%board
  end.

(** The counting loop [for i := lo; i < hi; i++]. *)
Definition range (lo hi : Z) : list Z := seqZ lo (hi - lo).

(** ** Puzzle state primitives (main.go) *)

Definition Get (ri ci : Z) (b : Board) : option Z := cell (Grid b) ri ci.

Definition IsAllowed (ri ci n : Z) (b : Board) : option bool :=
  s ← cell (Allowed b) ri ci; Some (bool_decide (n ∈ s)).

(** [delete(b.Allowed[ri][ci], n)] *)
Definition delete_allowed (ri ci n : Z) : M unit :=
  fun b =>
    s ← cell (Allowed b) ri ci;
    a ← upd_cell (Allowed b) ri ci (s ∖ {[n]});
    Some (tt, with_Allowed a b).

Definition Set' (ri ci val : Z) : M bool :=
  (old <- query (Get ri ci) ;;
   if decide (old = val) then ret false
   else
     (if decide (old <> EMPTY /\ val = EMPTY)
      then modify (fun b => with_NumEmpty (int (NumEmpty b + 1)) b)
      else if decide (old = EMPTY /\ val <> EMPTY)
      then modify (fun b => with_NumEmpty (int (NumEmpty b - 1)) b)
      else ret tt) ;;;
     (fun b => g ← upd_cell (Grid b) ri ci val; Some (tt, with_Grid g b)) ;;;
     ret true)%board.

Definition Unset (ri ci : Z) : M bool := Set' ri ci EMPTY.

(** [if b.IsAllowed(i, j, val) { delete(b.Allowed[i][j], val); flag = true }] *)
Definition strike (i j val : Z) : M bool :=
  (a <- query (IsAllowed i j val) ;;
   if a : bool then delete_allowed i j val ;;; ret true else ret false)%board.

Definition Mark (ri ci val : Z) : M (bool * bool) :=
  (changed <- Set' ri ci val ;;
   if negb changed then ret (false, false)
   else
     sz <- query (fun b => Some (Size b)) ;;
     neighborUpdated <- for_flag (range 0 sz) (fun i =>
       n1 <- (if decide (i <> ri) then strike i ci val else ret false) ;;
       n2 <- (if decide (i <> ci) then strike ri i val else ret false) ;;
       ret (n1 || n2)) ;;
     for_ (range 1 (sz + 1)) (fun i =>
       if decide (i <> val) then delete_allowed ri ci i else ret tt) ;;;
     ret (true, neighborUpdated))%board.

(** ** Character encoding (main.go) *)

Definition IntToCh (n : Z) : Z :=
  if decide (n > 9) then rune (97 + rune (int (n - 10)))
  else rune (48 + rune n).

Definition ChToInt (ch : Z) : Z :=
  if decide (49 <= ch /\ ch <= 57) then int (rune (ch - 48))
  else if decide (97 <= ch /\ ch <= 122) then int (int (rune (ch - 97)) + 10)
  else 0.

(** ** Visibility (main.go) *)

(** One directional scan of [PermFitsObs]: [vis] counts the new maxima
    and the scan gives up as soon as it exceeds the clue.  [vis] counts
    positions of a slice, whose length is an [int], so it cannot
    overflow. *)
Fixpoint fits_scan (p : list Z) (count vis highest : Z) : bool :=
  match p with
  | [] => bool_decide (vis = count)
  | x :: p' =>
      if decide (x > highest) then
        if decide (vis + 1 > count) then false
        else fits_scan p' count (vis + 1) x
      else fits_scan p' count vis highest
  end.

Definition PermFitsObs (p : list Z) (fwd bwd : option Observer) : bool :=
  match fwd with
  | Some o => fits_scan p (Count o) 0 0
  | None => true
  end
  &&
  match bwd with
  | Some o => fits_scan (reverse p) (Count o) 0 0
  | None => true
  end.

Definition PermsForObs (fwd bwd : option Observer) (b : Board) : option (list Z) :=
  match fwd, bwd with
  | None, None => None
  | _, _ =>
      Some (omap (fun ip : Z * list Z =>
                    if PermFitsObs ip.2 fwd bwd then Some ip.1 else None)
                 (zip (range 0 (len (Perms b))) (Perms b)))
  end.

(** [b.RowPerms[ri] = v] and [b.ColPerms[ci] = v] *)
Definition set_RowPerms (ri : Z) (v : option (list Z)) : M unit :=
  fun b => rp ← upd (RowPerms b) ri v; Some (tt, with_RowPerms rp b).
Definition set_ColPerms (ci : Z) (v : option (list Z)) : M unit :=
  fun b => cp ← upd (ColPerms b) ci v; Some (tt, with_ColPerms cp b).

Definition PopulateRowColPerms : M unit :=
  (sz <- query (fun b => Some (Size b)) ;;
   pi <- for_acc (range 0 sz) 0 (fun ri pi =>
     fwd <- query (fun b => idx (ObsSorted b) pi) ;;
     bwd <- query (fun b => idx (ObsSorted b) (pi + 1)) ;;
     perms <- query (fun b => Some (PermsForObs fwd bwd b)) ;;
     set_RowPerms ri perms ;;;
     ret (pi + 2)) ;;
   for_acc (range 0 sz) pi (fun ci pi =>
     fwd <- query (fun b => idx (ObsSorted b) pi) ;;
     bwd <- query (fun b => idx (ObsSorted b) (pi + 1)) ;;
     perms <- query (fun b => Some (PermsForObs fwd bwd b)) ;;
     set_ColPerms ci perms ;;;
     ret (pi + 2)) ;;;
   ret tt)%board.

(** The scan of [ObserverSatisfied]: [n] iterations from cell
    [(ri, ci)] in steps of [(dr, dc)]. *)
Fixpoint obs_scan (n : nat) (ri ci dr dc vis highest : Z) (b : Board) : option Z :=
  match n with
  | O => Some vis
  | S n' =>
      val ← Get ri ci b;
      if decide (val > highest)
      then obs_scan n' (ri + dr) (ci + dc) dr dc (vis + 1) val b
      else obs_scan n' (ri + dr) (ci + dc) dr dc vis highest b
  end.

Definition ObserverSatisfied (o : Observer) (b : Board) : option bool :=
  let '(ri, ci, dr, dc) :=
    if decide (Type_ o = OBS_ROW) then
      if decide (Direction o = OBS_BWD)
      then (Index o, Size b - 1, 0, -1)
      else (Index o, 0, 0, 1)
    else if decide (Type_ o = OBS_COL) then
      if decide (Direction o = OBS_BWD)
      then (Size b - 1, Index o, -1, 0)
      else (0, Index o, 1, 0)
    else (0, 0, 0, 0) in
  vis ← obs_scan (Z.to_nat (Size b)) ri ci dr dc 0 0 b;
  Some (bool_decide (vis = Count o)).

Definition AddObserver (o : Observer) : M unit :=
  if decide (Count o = 0) then ret tt
  else fun b =>
    let ind0 := if decide (Type_ o = OBS_ROW) then Index o * 2
                else Size b * 2 + Index o * 2 in
    let ind := if decide (Direction o = OBS_BWD) then ind0 + 1 else ind0 in
    old ← idx (ObsSorted b) ind;
    match old with
    | Some _ => None
    | None =>
        os ← upd (ObsSorted b) ind (Some o);
        Some (tt, mkBoard (Grid b) (Allowed b) (NumEmpty b) (Size b)
                          (Observers b ++ [o]) os
                          (Perms b) (RowPerms b) (ColPerms b))
    end.

(** The two errors of [Solved], with what they report. *)
Inductive error :=
  | ErrEmptyCells (n : Z)
  | ErrObserver (o : Observer).

(** [nil] is [None]. *)
Fixpoint first_unsatisfied (os : list Observer) (b : Board) : option (option error) :=
  match os with
  | [] => Some None
  | o :: os' =>
      sat ← ObserverSatisfied o b;
      if sat : bool then first_unsatisfied os' b else Some (Some (ErrObserver o))
  end.

Definition Solved (b : Board) : option (option error) :=
  if decide (NumEmpty b <> 0) then Some (Some (ErrEmptyCells (NumEmpty b)))
  else first_unsatisfied (Observers b) b.

(** ** Permutation generator (main.go) *)

Record permuter := mkPermuter {
  N : Z;
  R : Z;
  Lowest : Z;
  Seq : list Z;
  Used : list bool
}.

(** [fact] recurses on [n - 1] down to [n <= 1]; the products wrap. *)
Fixpoint fact_from (k : nat) : Z :=
  match k with
  | O => 1
  | S k' =>
      if decide (Z.of_nat k <= 1) then 1
      else if decide (Z.of_nat k = 2) then 2
      else int (Z.of_nat k * fact_from k')
  end.

Definition fact (n : Z) : Z :=
  if decide (n <= 1) then 1 else fact_from (Z.to_nat n).

(** [make([]T, n)] and [make([]T, 0, n)] panic on a negative [n]; [n]
    is an [int], and no slice is longer than the largest one. *)
Definition make {A} (n : Z) (x : A) : option (list A) :=
  if decide (n < 0 \/ maxInt < n) then None else Some (replicate (Z.to_nat n) x).

(** [append(s, x)]: the length of a slice is an [int], and the run-time
    panics rather than grow a slice past the largest one. *)
Definition append {A} (s : list A) (x : A) : option (list A) :=
  if decide (len s < maxInt) then Some (s ++ [x]) else None.

(** [x / y] on ints: truncated, panics on a zero divisor. *)
Definition div (x y : Z) : option Z :=
  if decide (y = 0) then None else Some (int (Z.quot x y)).

(** One round of the loop of [permute] at [depth], for index [i];
    [deeper] is the recursive call [p.permute(depth+1, output)]. *)
Definition permute_round
    (deeper : permuter * list (list Z) -> option (permuter * list (list Z)))
    (depth : Z) (acc : option (permuter * list (list Z))) (i : Z)
  : option (permuter * list (list Z)) :=
  st ← acc;
  let p := st.1 in
  used ← idx (Used p) i;
  if used : bool then Some st
  else
    seq1 ← upd (Seq p) depth (int (i + Lowest p));
    used1 ← upd (Used p) i true;
    st' ← deeper (mkPermuter (N p) (R p) (Lowest p) seq1 used1, st.2);
    let p' := st'.1 in
    seq2 ← upd (Seq p') depth 0;
    used2 ← upd (Used p') i false;
    Some (mkPermuter (N p') (R p') (Lowest p') seq2 used2, st'.2).

(** The recursion of [permute] goes one level deeper at each call and
    stops at depth [R]; [fuel] bounds the levels still to come. *)
Fixpoint permute (fuel : nat) (depth : Z) (st : permuter * list (list Z))
  : option (permuter * list (list Z)) :=
  if decide (depth = R st.1) then
    out ← append st.2 (Seq st.1);
    Some (st.1, out)
  else
    match fuel with
    | O => None
    | S fuel' =>
        foldl (permute_round (permute fuel' (int (depth + 1))) depth)
              (Some st) (range 0 (N st.1))
    end.

Definition Permute (low high r : Z) : option (list (list Z)) :=
  let popSize := int (int (high - low) + 1) in
  cap ← div (fact popSize) (fact (int (popSize - r)));
  _ ← make cap ([] : list Z);
  seq ← make r 0;
  used ← make popSize false;
  st ← permute (Z.to_nat r) 0 (mkPermuter popSize r low seq used, []);
  Some st.2.

Definition NPermuteR (n r : Z) : option (list (list Z)) := Permute 1 n r.
Definition PermuteN (n : Z) : option (list (list Z)) := Permute 1 n n.

(** ** Board construction (main.go) *)

Definition NumSet (n : Z) : gset Z := list_to_set (range 1 (n + 1)).

Definition NewAllowed (n : Z) : list (list (gset Z)) :=
  replicate (Z.to_nat n) (replicate (Z.to_nat n) (NumSet n)).

(** ** Propagation rules (solve.go) *)

(** [filter_ok ok l] keeps, in order, the entries that pass a test that
    may panic. *)
Fixpoint filter_ok {A} (ok : A -> option bool) (l : list A) : option (list A) :=
  match l with
  | [] => Some []
  | x :: l' =>
      k ← ok x;
      rest ← filter_ok ok l';
      Some (if k : bool then x :: rest else rest)
  end.

(** A loop that leaves with [false] at the first entry failing the test. *)
Fixpoint all_ok {A} (ok : A -> option bool) (l : list A) : option bool :=
  match l with
  | [] => Some true
  | x :: l' => k ← ok x; if k : bool then all_ok ok l' else Some false
  end.

(** A loop that leaves with [true] at the first entry passing the test. *)
Fixpoint any_ok {A} (ok : A -> option bool) (l : list A) : option bool :=
  match l with
  | [] => Some false
  | x :: l' => k ← ok x; if k : bool then Some true else any_ok ok l'
  end.

(** Is permutation [pi] compatible with the candidate sets along the
    line whose [i]-th cell is [at i]? *)
Definition perm_allowed (at_ : Z -> Z * Z) (pi : Z) (b : Board) : option bool :=
  all_ok (fun i => p ← idx (Perms b) pi; v ← idx p i;
                   IsAllowed (at_ i).1 (at_ i).2 v b)
         (range 0 (Size b)).

(** The body of the loop over the rows, and of the loop over the
    columns: [get] and [set] are the field [RowPerms] or [ColPerms],
    and [at_ li i] is the [i]-th cell of line [li]. *)
Definition trim_perms (get : Board -> list (option (list Z)))
    (set : list (option (list Z)) -> Board -> Board)
    (at_ : Z -> Z -> Z * Z) (li : Z) : M bool :=
  (rp <- query (fun b => idx (get b) li) ;;
   match rp with
   | None => ret false
   | Some rp =>
       newPerms <- query (fun b => filter_ok (fun pi => perm_allowed (at_ li) pi b) rp) ;;
       if decide (len rp <> len newPerms) then
         (fun b => l ← upd (get b) li (Some newPerms); Some (true, set l b))
       else ret false
   end)%board.

Definition TrimPermsFromAllowed : M bool :=
  (nrows <- query (fun b => Some (len (RowPerms b))) ;;
   ch1 <- for_flag (range 0 nrows)
            (trim_perms RowPerms with_RowPerms (fun ri i => (ri, i))) ;;
   ncols <- query (fun b => Some (len (ColPerms b))) ;;
   ch2 <- for_flag (range 0 ncols)
            (trim_perms ColPerms with_ColPerms (fun ci i => (i, ci))) ;;
   ret (ch1 || ch2))%board.

(** The keys of a Go map come in no fixed order.  Every loop over a map
    below either deletes nothing from it or deletes only the key in
    hand, so each key present at the start is visited exactly once, and
    what is done for a key does not depend on the other keys: the loops
    are run over [elements]. *)

(** One pass of [MarkMandatory] over all cells; yields [(changed, redo)]. *)
Definition MarkMandatory_pass : M (bool * bool) :=
  (nrows <- query (fun b => Some (len (Allowed b))) ;;
   for_acc (range 0 nrows) (false, false) (fun ri flags =>
     ncols <- query (fun b => row ← idx (Allowed b) ri; Some (len row)) ;;
     for_acc (range 0 ncols) flags (fun ci flags =>
       allowed <- query (fun b => cell (Allowed b) ri ci) ;;
       if decide (size allowed <> 1%nat) then ret flags
       else
         g <- query (Get ri ci) ;;
         if decide (g <> EMPTY) then ret flags
         else
           let k := match elements allowed with key :: _ => key | [] => 0 end in
           r <- Mark ri ci k ;;
           ret (flags.1 || r.1, flags.2 || r.2))))%board.

Fixpoint MarkMandatory (fuel : nat) : M bool :=
  match fuel with
  | O => panic
  | S fuel' =>
      (flags <- MarkMandatory_pass ;;
       (if flags.2 : bool then MarkMandatory fuel' ;;; ret tt else ret tt) ;;;
       ret flags.1)%board
  end.

(** Does some permutation of the list place [n] at position [pos]? *)
Definition perm_places (perms : list Z) (pos n : Z) (b : Board) : option bool :=
  any_ok (fun permI => p ← idx (Perms b) permI; v ← idx p pos;
                       Some (bool_decide (v = n))) perms.

(** The body of the loop over the candidates [n] of cell [(ri, ci)]. *)
Definition trim_candidate (ri ci n : Z) : M bool :=
  (rp <- query (fun b => idx (RowPerms b) ri) ;;
   rowMiss <- match rp with
              | Some rp => found <- query (perm_places rp ci n) ;; ret (negb found)
              | None => ret false
              end ;;
   if rowMiss : bool then delete_allowed ri ci n ;;; ret true
   else
     cp <- query (fun b => idx (ColPerms b) ci) ;;
     colMiss <- match cp with
                | Some cp => found <- query (perm_places cp ri n) ;; ret (negb found)
                | None => ret false
                end ;;
     if colMiss : bool then delete_allowed ri ci n ;;; ret true
     else ret false)%board.

(** [for n, _ := range b.Allowed[ri][ci] { ... }] *)
Definition trim_cell (ri ci : Z) : M bool :=
  (allowed <- query (fun b => cell (Allowed b) ri ci) ;;
   for_flag (elements allowed) (trim_candidate ri ci))%board.

Definition TrimAllowedFromPerms : M bool :=
  (sz <- query (fun b => Some (Size b)) ;;
   for_flag (range 0 sz) (fun ri =>
     for_flag (range 0 sz) (fun ci => trim_cell ri ci)))%board.

(** ** Pattern heuristics (solve.go) *)

Definition NumSetsEqual (a b : gset Z) : bool :=
  if decide (size a <> size b) then false
  else forallb (fun k => bool_decide (k ∈ b)) (elements a).

(** [at_ idx] is the cell of the line at position [idx]: [(row, idx)]
    for [CheckRowNakedSet], [(idx, col)] for [CheckColumnNakedSet]. *)
Definition CheckNakedSet (at_ : Z -> Z * Z) (indices : list Z) (b : Board) : option bool :=
  match indices with
  | [] => Some false
  | i0 :: rest =>
      a0 ← cell (Allowed b) (at_ i0).1 (at_ i0).2;
      if decide (len indices <> Z.of_nat (size a0)) then Some false
      else
        all_ok (fun i =>
                  g ← cell (Grid b) (at_ i).1 (at_ i).2;
                  if decide (g <> EMPTY) then Some false
                  else
                    a ← cell (Allowed b) (at_ i).1 (at_ i).2;
                    a0 ← cell (Allowed b) (at_ i0).1 (at_ i0).2;
                    Some (NumSetsEqual a a0))
               rest
  end.

Definition CheckRowNakedSet (indices : list Z) (rowIndex : Z) : Board -> option bool :=
  CheckNakedSet (fun i => (rowIndex, i)) indices.
Definition CheckColumnNakedSet (indices : list Z) (colIndex : Z) : Board -> option bool :=
  CheckNakedSet (fun i => (i, colIndex)) indices.

Definition SliceContains (haystack : list Z) (needle : Z) : bool :=
  existsb (fun x => bool_decide (x = needle)) haystack.

(** In [TrimNakedSets] the map [toRemove] belongs to a cell other than
    [(ri, ci)], so it does not change while it is ranged over. *)
Definition DisallowAll (ri ci : Z) (toRemove : gset Z) : M bool :=
  for_flag (elements toRemove) (fun k => strike ri ci k).

Definition DisallowOthers (ri ci : Z) (toKeep : list Z) : M bool :=
  (allowed <- query (fun b => cell (Allowed b) ri ci) ;;
   for_flag (elements allowed) (fun k =>
     if existsb (fun v => bool_decide (v = k)) toKeep then ret false
     else strike ri ci k))%board.

Definition TrimNakedSets (n : Z) : M bool :=
  (sz <- query (fun b => Some (Size b)) ;;
   indices <- query (fun b => Permute 0 (int (Size b - 1)) n) ;;
   r <- for_return (range 0 sz) (fun ri =>
     for_return indices (fun idxs =>
       ok <- query (CheckRowNakedSet idxs ri) ;;
       if ok : bool then
         for_return (range 0 sz) (fun ci =>
           if SliceContains idxs ci then ret false
           else
             toRemove <- query (fun b => i0 ← idx idxs 0; cell (Allowed b) ri i0) ;;
             DisallowAll ri ci toRemove)
       else ret false)) ;;
   if r : bool then ret true
   else
     for_return (range 0 sz) (fun ci =>
       for_return indices (fun idxs =>
         ok <- query (CheckColumnNakedSet idxs ci) ;;
         if ok : bool then
           for_return (range 0 sz) (fun ri =>
             if SliceContains idxs ri then ret false
             else
               toRemove <- query (fun b => i0 ← idx idxs 0; cell (Allowed b) i0 ci) ;;
               DisallowAll ri ci toRemove)
         else ret false)))%board.

(** [numberCells[k]] collects the positions of the line where
    [numbers[k]] is still a candidate. *)
Definition CheckFoundGroup (at_ : Z -> Z * Z) (numbers : list Z) (b : Board) : option bool :=
  numberCells ←
    foldl (fun acc pos =>
             foldl (fun acc (kn : Z * Z) =>
                      cells ← acc;
                      a ← IsAllowed (at_ pos).1 (at_ pos).2 kn.2 b;
                      if a : bool then
                        s ← idx cells kn.1;
                        upd cells kn.1 ({[pos]} ∪ s)
                      else Some cells)
                   acc (zip (range 0 (len numbers)) numbers))
          (Some (replicate (length numbers) (∅ : gset Z)))
          (range 0 (Size b));
  c0 ← idx numberCells 0;
  if decide (Z.of_nat (size c0) <> len numbers) then Some false
  else
    all_ok (fun i => ci ← idx numberCells i; c0 ← idx numberCells 0;
                     Some (NumSetsEqual ci c0))
           (range 1 (len numbers)).

Definition CheckRowFoundGroup (numbers : list Z) (rowIndex : Z) : Board -> option bool :=
  CheckFoundGroup (fun i => (rowIndex, i)) numbers.
Definition CheckColFoundGroup (numbers : list Z) (colIndex : Z) : Board -> option bool :=
  CheckFoundGroup (fun i => (i, colIndex)) numbers.

(** [if b.IsAllowed(ri, ci, nums[0]) { if b.DisallowOthers(ri, ci, nums) { changed = true } }] *)
Definition keep_group (ri ci : Z) (nums : list Z) : M bool :=
  (a <- query (fun b => n0 ← idx nums 0; IsAllowed ri ci n0 b) ;;
   if a : bool then DisallowOthers ri ci nums else ret false)%board.

(** The body of the loop over the value subsets: all rows, then all
    columns, for the subset [nums]. *)
Definition found_group_sweep (sz : Z) (nums : list Z) : M bool :=
  (c1 <- for_flag (range 0 sz) (fun ri =>
     ok <- query (CheckRowFoundGroup nums ri) ;;
     if ok : bool then for_flag (range 0 sz) (fun ci => keep_group ri ci nums)
     else ret false) ;;
   c2 <- for_flag (range 0 sz) (fun ci =>
     ok <- query (CheckColFoundGroup nums ci) ;;
     if ok : bool then for_flag (range 0 sz) (fun ri => keep_group ri ci nums)
     else ret false) ;;
   ret (c1 || c2))%board.

Definition TrimFoundGroups (n : Z) : M bool :=
  (sz <- query (fun b => Some (Size b)) ;;
   numbers <- query (fun b => Permute 1 (Size b) n) ;;
   for_flag numbers (found_group_sweep sz))%board.

(** ** Reading the puzzle text (main.go)

    A Go string is a sequence of bytes; [range] over it decodes UTF-8
    and yields each rune with the byte offset it starts at. *)

Fixpoint bytes (s : string) : list Z :=
  match s with
  | EmptyString => []
  | String a s' => Z.of_N (N_of_ascii a) :: bytes s'
  end.

Definition RuneError : Z := 65533.

Definition continuation (lo hi x : Z) : bool := bool_decide (lo <= x <= hi).

(** [utf8.DecodeRuneInString]: the rune at the head of [bs] and its
    width in bytes; a malformed sequence is [RuneError] of width 1. *)
Definition DecodeRune (bs : list Z) : Z * nat :=
  match bs with
  | [] => (RuneError, 0%nat)
  | s0 :: rest =>
      if decide (s0 < 128) then (s0, 1%nat)
      else
        let '(sz, lo, hi) :=
          if decide (194 <= s0 <= 223) then (2, 128, 191)
          else if decide (s0 = 224) then (3, 160, 191)
          else if decide (225 <= s0 <= 236 \/ 238 <= s0 <= 239) then (3, 128, 191)
          else if decide (s0 = 237) then (3, 128, 159)
          else if decide (s0 = 240) then (4, 144, 191)
          else if decide (241 <= s0 <= 243) then (4, 128, 191)
          else if decide (s0 = 244) then (4, 128, 143)
          else (1, 0, 0) in
        if decide (sz = 1) then (RuneError, 1%nat)
        else
          match rest with
          | s1 :: rest1 =>
              if negb (continuation lo hi s1) then (RuneError, 1%nat)
              else if decide (sz = 2) then
                (Z.lor (Z.shiftl (Z.land s0 31) 6) (Z.land s1 63), 2%nat)
              else
                match rest1 with
                | s2 :: rest2 =>
                    if negb (continuation 128 191 s2) then (RuneError, 1%nat)
                    else if decide (sz = 3) then
                      (Z.lor (Z.lor (Z.shiftl (Z.land s0 15) 12)
                                    (Z.shiftl (Z.land s1 63) 6))
                             (Z.land s2 63), 3%nat)
                    else
                      match rest2 with
                      | s3 :: _ =>
                          if negb (continuation 128 191 s3) then (RuneError, 1%nat)
                          else
                            (Z.lor (Z.lor (Z.lor (Z.shiftl (Z.land s0 7) 18)
                                                 (Z.shiftl (Z.land s1 63) 12))
                                          (Z.shiftl (Z.land s2 63) 6))
                                   (Z.land s3 63), 4%nat)
                      | [] => (RuneError, 1%nat)
                      end
                | [] => (RuneError, 1%nat)
                end
          | [] => (RuneError, 1%nat)
          end
  end.

(** [for ci, ch := range row]: the pairs [(ci, ch)]. Each rune is at
    least a byte wide, so [length row] steps are enough. *)
Fixpoint runes_from (fuel : nat) (off : Z) (bs : list Z) : list (Z * Z) :=
  match fuel, bs with
  | S fuel', _ :: _ =>
      let '(r, w) := DecodeRune bs in
      (off, r) :: runes_from fuel' (off + Z.of_nat w) (drop w bs)
  | _, _ => []
  end.

Definition runes (row : list Z) : list (Z * Z) := runes_from (length row) 0 row.

(** [strings.Split(input, "\n")] *)
Fixpoint Split_newline (bs : list Z) : list (list Z) :=
  match bs with
  | [] => [[]]
  | x :: bs' =>
      if decide (x = 10) then [] :: Split_newline bs'
      else match Split_newline bs' with
           | l :: ls => (x :: l) :: ls
           | [] => [[x]]
           end
  end.

(** [strings.Trim(txt, "\r\n")] *)
Definition Trim_crlf (txt : list Z) : list Z :=
  let cut x := bool_decide (x = 13 \/ x = 10) in
  let drop_while := fix go (l : list Z) :=
    match l with
    | x :: l' => if cut x then go l' else l
    | [] => []
    end in
  reverse (drop_while (reverse (drop_while txt))).

Definition input_lines (input : string) : list (list Z) :=
  List.filter (fun txt => bool_decide (len txt > 0))
              (Trim_crlf <$> Split_newline (bytes input)).

(** The board as [BoardFromString] first allocates it. *)
Definition blank_board (size : Z) : option Board :=
  let allowed := NewAllowed size in
  _ ← make (int (size * 4)) (mkObserver 0 0 0 0);
  obsSorted ← make (int (size * 4)) (None : option Observer);
  rowPerms ← make size (None : option (list Z));
  colPerms ← make size (None : option (list Z));
  grid ← make size ([] : list Z);
  let grid := replicate (Z.to_nat size) (replicate (Z.to_nat size) 0) in
  Some (mkBoard grid allowed (int (size * size)) size [] obsSorted [] rowPerms colPerms).

(** [inputs[ri][ci] = ChToInt(ch)] for every rune of every line. *)
Definition parse_inputs (lines : list (list Z)) : option (list (list Z)) :=
  let n := len lines in
  foldl (fun acc (rl : Z * list Z) =>
           foldl (fun acc (cc : Z * Z) =>
                    inputs ← acc; upd_cell inputs rl.1 cc.1 (ChToInt cc.2))
                 acc (runes rl.2))
        (Some (replicate (Z.to_nat n) (replicate (Z.to_nat n) 0)))
        (zip (range 0 n) lines).

(** The sweep over [inputs] that registers the clues of the border and
    marks the given cells of the interior. *)
Definition load_inputs (inputs : list (list Z)) : M unit :=
  for_ (zip (range 0 (len inputs)) inputs) (fun rr =>
    let ri := rr.1 in
    for_ (zip (range 0 (len rr.2)) rr.2) (fun cc =>
      let ci := cc.1 in
      let cell := cc.2 in
      (sz <- query (fun b => Some (Size b)) ;;
       if decide (ri = 0 \/ ri = sz + 1) then
         if decide (ci = 0 \/ ci = sz + 1) then ret tt
         else
           AddObserver (mkObserver OBS_COL (ci - 1)
                          (if decide (ri = sz + 1) then OBS_BWD else OBS_FWD) cell)
       else if decide (ci = 0 \/ ci = sz + 1) then
         AddObserver (mkObserver OBS_ROW (ri - 1)
                        (if decide (ci = sz + 1) then OBS_BWD else OBS_FWD) cell)
       else
         Mark (ri - 1) (ci - 1) cell ;;; ret tt)%board)).

Definition BoardFromString (input : string) : option Board :=
  let lines := input_lines input in
  b ← blank_board (len lines - 2);
  inputs ← parse_inputs lines;
  '(_, b) ← load_inputs inputs b;
  perms ← PermuteN (Size b);
  let b := mkBoard (Grid b) (Allowed b) (NumEmpty b) (Size b) (Observers b)
                   (ObsSorted b) perms (RowPerms b) (ColPerms b) in
  '(_, b) ← PopulateRowColPerms b;
  '(_, b) ← TrimAllowedFromPerms b;
  Some b.

(** ** Solve driver (solve.go) *)

(** [for n := 2; n < b.Size-1 && !changed; n++ { if rule(n) { changed = true } }] *)
Definition escalate (rule : Z -> M bool) : M bool :=
  (sz <- query (fun b => Some (Size b)) ;;
   for_return (range 2 (sz - 1)) rule)%board.

(** The loop of [AutoSolve], entered with the current value of
    [changed]; [fuel] bounds the rounds. *)
Fixpoint AutoSolve_loop (fuel : nat) (changed : bool) : M unit :=
  if negb changed then ret tt
  else
    (s <- query Solved ;;
     match s with
     | None => ret tt
     | Some _ =>
         match fuel with
         | O => panic
         | S fuel' =>
             c1 <- MarkMandatory fuel ;;
             c2 <- TrimAllowedFromPerms ;;
             c3 <- TrimPermsFromAllowed ;;
             let changed := c1 || c2 || c3 in
             changed <- (if negb changed then escalate TrimNakedSets else ret changed) ;;
             changed <- (if negb changed then escalate TrimFoundGroups else ret changed) ;;
             AutoSolve_loop fuel' changed
         end
     end)%board.

Definition AutoSolve (fuel : nat) : M (option error) :=
  (AutoSolve_loop fuel true ;;; query Solved)%board.

(** ** Vocabulary of the statements and example boards *)

Definition grid22 : list (list Z) := [[1; 2]; [0; 1]].
Definition board22 : Board :=
  mkBoard grid22 (NewAllowed 2) 1 2 [] [None; None; None; None; None; None; None; None]
          [[1; 2]; [2; 1]] [None; None] [None; None].

Definition newline : string := String (ascii_of_nat 10) EmptyString.

(** A filled 2x2 puzzle whose rows repeat a value. *)
Definition repeated_rows : string :=
  ("    " ++ newline ++ "1111" ++ newline ++ " 22 " ++ newline ++ "    ")%string.

(** The sequence of cells an observer looks along: row [Index] from
    the left, or column [Index] from the top. *)
Definition line_of (o : Observer) (b : Board) : option (list Z) :=
  if decide (Type_ o = OBS_ROW) then idx (Grid b) (Index o)
  else mapM (fun row => idx row (Index o)) (Grid b).

(** The number of new maxima of a scan, continuing from [vis] seen and
    [highest] so far. *)
Fixpoint visible (p : list Z) (vis highest : Z) : Z :=
  match p with
  | [] => vis
  | x :: p' => if decide (x > highest) then visible p' (vis + 1) x
               else visible p' vis highest
  end.

Definition board_filled : Board :=
  mkBoard [[1; 2; 3]; [3; 1; 2]; [2; 3; 1]] [] 0 3
          [mkObserver OBS_COL 1 OBS_BWD 2] [] [] [] [].

(** *** How a board may change *)

(** [preserves R m]: whenever [m] returns, the board it leaves is
    related by [R] to the board it started from. *)
Definition preserves {A} (R : relation Board) (m : M A) : Prop :=
  forall b a b', m b = Some (a, b') -> R b b'.

(** [reports R mu m]: [m] keeps [R], a [true] result comes with a
    strictly smaller measure, and a [false] result with an untouched
    board. *)
Definition reports (R : relation Board) (mu : Board -> nat) (m : M bool) : Prop :=
  forall b c b',
    m b = Some (c, b') ->
    R b b' /\ (if c then (mu b' < mu b)%nat else b' = b).

Definition sets_shrunk (a a' : list (list (gset Z))) : Prop :=
  Forall2 (Forall2 (fun s s' : gset Z => s' ⊆ s)) a a'.

(** A nil list stays nil; a list loses entries but keeps their order. *)
Definition perm_le (o o' : option (list Z)) : Prop :=
  match o, o' with
  | None, None => True
  | Some l, Some l' => l' `sublist_of` l
  | _, _ => False
  end.

Definition lists_shrunk (p p' : list (option (list Z))) : Prop :=
  Forall2 perm_le p p'.

Definition same_shape {A} (g g' : list (list A)) : Prop :=
  Forall2 (fun r r' => length r = length r') g g'.

(** Only the candidate set of cell [(r, c)] changed, and it shrank. *)
Definition cell_shrunk (r c : Z) (b b' : Board) : Prop :=
  b' = b \/
  exists s s' a',
    cell (Allowed b) r c = Some s /\ s' ⊆ s /\
    upd_cell (Allowed b) r c s' = Some a' /\ b' = with_Allowed a' b.

(** Only candidate sets changed, and none grew. *)
Definition allowed_shrunk (b b' : Board) : Prop :=
  b' = with_Allowed (Allowed b') b /\ sets_shrunk (Allowed b) (Allowed b').

(** Only permutation lists changed, and none grew. *)
Definition perms_shrunk (b b' : Board) : Prop :=
  b' = with_RowPerms (RowPerms b') (with_ColPerms (ColPerms b') b) /\
  lists_shrunk (RowPerms b) (RowPerms b') /\
  lists_shrunk (ColPerms b) (ColPerms b').

(** What every solving operation guarantees: the clues and the
    permutation universe stay, the grid keeps its shape, and neither a
    candidate set nor a permutation list grows. *)
Definition evolves (b b' : Board) : Prop :=
  Size b' = Size b /\ Perms b' = Perms b /\
  Observers b' = Observers b /\ ObsSorted b' = ObsSorted b /\
  same_shape (Grid b) (Grid b') /\
  sets_shrunk (Allowed b) (Allowed b') /\
  lists_shrunk (RowPerms b) (RowPerms b') /\
  lists_shrunk (ColPerms b) (ColPerms b').

(** Sizes that can only go down. *)
Definition sum_nat (l : list nat) : nat := foldr Nat.add 0%nat l.
Definition allowed_total (b : Board) : nat :=
  sum_nat ((fun row => sum_nat (size <$> row)) <$> Allowed b).
Definition perms_len (o : option (list Z)) : nat :=
  match o with Some l => length l | None => 0%nat end.
Definition perms_total (b : Board) : nat :=
  (sum_nat (perms_len <$> RowPerms b) + sum_nat (perms_len <$> ColPerms b))%nat.

(** A nil permutation list supports every value; a list supports [v]
    at position [pos] when one of its permutations has [v] there. *)
Definition supports (perms : option (list Z)) (pos v : Z) (b : Board) : Prop :=
  match perms with
  | None => True
  | Some l => exists permI p, permI ∈ l /\ idx (Perms b) permI = Some p /\ idx p pos = Some v
  end.

(** What the body of [TrimAllowedFromPerms] decides for candidate [n]
    of cell [(ri, ci)], read off the permutation lists alone: [true]
    when [n] is to be deleted. *)
Definition unsupported (ri ci n : Z) (b : Board) : option bool :=
  rp ← idx (RowPerms b) ri;
  rowMiss ← match rp with
            | Some rp => negb <$> perm_places rp ci n b
            | None => Some false
            end;
  if rowMiss : bool then Some true
  else
    cp ← idx (ColPerms b) ci;
    match cp with
    | Some cp => negb <$> perm_places cp ri n b
    | None => Some false
    end.

(** Cell [(r, c)] is left alone and no candidate set grows. *)
Definition keeps (r c : Z) (b b' : Board) : Prop :=
  allowed_shrunk b b' /\ cell (Allowed b') r c = cell (Allowed b) r c.

(** The 2x2 board with a clue of 2 above the first column, as it is
    when [BoardFromString] reaches its call of [TrimAllowedFromPerms]:
    the rows have no list, the first column is left with the single
    permutation 1 2. *)
Definition board_one_clue : Board :=
  mkBoard [[0; 0]; [0; 0]] (NewAllowed 2) 4 2
          [mkObserver OBS_COL 0 OBS_FWD 2]
          [None; None; None; None; Some (mkObserver OBS_COL 0 OBS_FWD 2); None; None; None]
          [[1; 2]; [2; 1]] [None; None] [Some [0]; None].

(** The narrowing rule as the specification words it: a candidate goes
    exactly when neither the row's list nor the column's list supports
    it. *)
Definition removes_when_neither_supports (b : Board) : Prop :=
  forall ch b' r c s s' rp cp v,
    TrimAllowedFromPerms b = Some (ch, b') ->
    cell (Allowed b) r c = Some s ->
    cell (Allowed b') r c = Some s' ->
    idx (RowPerms b) r = Some rp ->
    idx (ColPerms b) c = Some cp ->
    v ∈ s ->
    v ∉ s' <-> (~ supports rp c v b /\ ~ supports cp r v b).

(** One call of a solving operation, and any sequence of such calls. *)
Inductive solving_step : Board -> Board -> Prop :=
  | step_Mark ri ci val b r b' :
      Mark ri ci val b = Some (r, b') -> solving_step b b'
  | step_MarkMandatory fuel b r b' :
      MarkMandatory fuel b = Some (r, b') -> solving_step b b'
  | step_TrimAllowedFromPerms b r b' :
      TrimAllowedFromPerms b = Some (r, b') -> solving_step b b'
  | step_TrimPermsFromAllowed b r b' :
      TrimPermsFromAllowed b = Some (r, b') -> solving_step b b'
  | step_TrimNakedSets n b r b' :
      TrimNakedSets n b = Some (r, b') -> solving_step b b'
  | step_TrimFoundGroups n b r b' :
      TrimFoundGroups n b = Some (r, b') -> solving_step b b'.

Definition solving_steps : relation Board := rtc solving_step.

(** [board_one_clue] after [TrimAllowedFromPerms]. *)
Definition board_one_clue_trimmed : Board :=
  with_Allowed [[{[1]}; {[1; 2]}]; [{[2]}; {[1; 2]}]] board_one_clue.

(** A board that [BoardFromString] builds and solving operations then
    work on. *)
Definition reachable (b : Board) : Prop :=
  exists input b0, BoardFromString input = Some b0 /\ solving_steps b0 b.

(** Candidates are values of the puzzle. *)
Definition candidates_in_range (b : Board) : Prop :=
  forall r c s v, cell (Allowed b) r c = Some s -> v ∈ s -> 1 <= v <= Size b.

(** A filled cell has no candidate other than its value. *)
Definition decided_cells_collapsed (b : Board) : Prop :=
  forall r c g s,
    cell (Grid b) r c = Some g -> g <> EMPTY ->
    cell (Allowed b) r c = Some s -> s ⊆ {[g]}.

Definition candidates_ok (b : Board) : Prop :=
  candidates_in_range b /\ decided_cells_collapsed b.

Definition keeps_candidates_ok (b b' : Board) : Prop :=
  candidates_ok b -> candidates_ok b'.

(** Neither the grid, nor a candidate set, nor the size changed. *)
Definition same_cells (b b' : Board) : Prop :=
  Grid b' = Grid b /\ Allowed b' = Allowed b /\ Size b' = Size b.

(** The invariant as the specification words it: the candidate set of
    a filled cell is the singleton of its value. *)
Definition decided_cells_singleton (b : Board) : Prop :=
  forall r c g,
    Get r c b = Some g -> g <> EMPTY -> cell (Allowed b) r c = Some {[g]}.

(** The 1x1 puzzle whose only cell is given as 1. *)
Definition puzzle_one : string :=
  ("   " ++ newline ++ " 1 " ++ newline ++ "   ")%string.

(** [stops_at_first P m]: a [false] result comes with an untouched
    board, a [true] result with a board related to the start by [P]. *)
Definition stops_at_first (P : relation Board) (m : M bool) : Prop :=
  forall b c b', m b = Some (c, b') -> if c then P b b' else b' = b.

(** Exactly one candidate set changed, and it lost members. *)
Definition one_cell_struck (b b' : Board) : Prop :=
  exists r c s s' a',
    cell (Allowed b) r c = Some s /\ s' ⊂ s /\
    upd_cell (Allowed b) r c s' = Some a' /\ b' = with_Allowed a' b.

(** The board that [testRowFoundGroup] of solve.go prepares before it
    calls [TrimFoundGroups(2)]: an empty 5x5 puzzle whose first row is
    narrowed by hand. *)
Definition blank5 : string :=
  let row := "       "%string in
  (row ++ newline ++ row ++ newline ++ row ++ newline ++ row ++ newline ++
   row ++ newline ++ row ++ newline ++ row ++ newline)%string.

Definition testRowFoundGroup_board : option Board :=
  b ← BoardFromString blank5;
  r ← (DisallowOthers 0 0 [2; 3; 4] ;;;
       DisallowOthers 0 1 [2; 3; 5] ;;;
       DisallowOthers 0 2 [1; 4; 5] ;;;
       DisallowOthers 0 3 [1; 4; 5] ;;;
       DisallowOthers 0 4 [1; 4; 5])%board b;
  Some r.2.

(** What one call of [TrimFoundGroups(2)] does to the first two cells
    of the first row of a board, as a check that computes. *)
Definition shrinks_two_cells (o : option Board) : bool :=
  match o with
  | Some b =>
      match TrimFoundGroups 2 b with
      | Some (true, b') =>
          bool_decide (cell (Allowed b) 0 0 = Some {[2; 3; 4]}) &&
          bool_decide (cell (Allowed b') 0 0 = Some {[2; 3]}) &&
          bool_decide (cell (Allowed b) 0 1 = Some {[2; 3; 5]}) &&
          bool_decide (cell (Allowed b') 0 1 = Some {[2; 3]})
      | _ => false
      end
  | None => false
  end.

(** *** What the permutation generator enumerates *)

(** The index sequences [permute] walks through from a state of the
    [Used] markers: [k] distinct unused indices, lowest first. *)
Fixpoint selections (k : nat) (used : list bool) : list (list Z) :=
  match k with
  | O => [[]]
  | S k' =>
      range 0 (len used) ≫= fun i =>
        match idx used i with
        | Some false => cons i <$> selections k' (<[Z.to_nat i := true]> used)
        | _ => []
        end
  end.

(** The sequences [permute] appends: the part of [Seq] already chosen,
    followed by the values of a selection. *)
Definition completions (low : Z) (k : nat) (used : list bool) (chosen : list Z)
  : list (list Z) :=
  (fun sel => chosen ++ ((fun i => int (i + low)) <$> sel)) <$> selections k used.

(** Appending the sequences [xs] one by one to [out]. *)
Definition appends {A} (out xs : list A) : option (list A) :=
  if decide (xs = [] \/ len out + len xs <= maxInt) then Some (out ++ xs) else None.

(** The number of unused markers, and the falling factorial
    [m (m-1) ... (m-k+1)]. *)
Definition unused (used : list bool) : nat :=
  length (filter (fun i => idx used i = Some false) (range 0 (len used))).

Fixpoint falling (m k : nat) : nat :=
  match k with
  | O => 1
  | S k' => m * falling (m - 1) k'
  end.

(** The state of the generator at depth [len chosen], with [k] levels
    to go: [Seq] holds the values chosen so far and zeros after them. *)
Definition permuter_ok (p : permuter) (chosen : list Z) (k : nat) : Prop :=
  Seq p = chosen ++ replicate k 0 /\
  len (Used p) = N p /\
  R p = len chosen + Z.of_nat k /\
  R p <= 9223372036854775807.

(** What one round of the loop of [permute] appends for index [i]. *)
Definition branch (low : Z) (k : nat) (used : list bool) (chosen : list Z) (i : Z)
  : list (list Z) :=
  match idx used i with
  | Some false =>
      completions low k (<[Z.to_nat i := true]> used) (chosen ++ [int (i + low)])
  | _ => []
  end.

(** The falling factorial and the factorial as integers without
    wrap-around. *)
Fixpoint fallingZ (m : Z) (k : nat) : Z :=
  match k with
  | O => 1
  | S k' => m * fallingZ (m - 1) k'
  end.

Definition factorial (n : Z) : Z := fallingZ n (Z.to_nat n).

(** *** Exact effects on one candidate set *)

(** The board with the candidate set of cell [(r, c)] replaced by [f]
    of it; there is none when the cell is outside the grid. *)
Definition narrow (r c : Z) (f : gset Z -> gset Z) (b : Board) : option Board :=
  s ← cell (Allowed b) r c;
  a ← upd_cell (Allowed b) r c (f s);
  Some (with_Allowed a b).

(** *** Well-formed boards *)

(** A grid of [n] rows of [n] entries. *)
Definition square {A} (n : Z) (g : list (list A)) : Prop :=
  len g = n /\ Forall (fun row => len row = n) g.

(** The entries of a permutation list are indices below [m]. *)
Definition indices_ok (m : Z) (o : option (list Z)) : Prop :=
  match o with
  | Some l => Forall (fun pi => 0 <= pi < m) l
  | None => True
  end.

(** The shape [BoardFromString] gives a board and the solving
    operations keep: a grid and a table of candidate sets of [Size]
    rows and columns, four clue slots per unit of size, a permutation
    list per line holding indices into [Perms], permutations as long
    as a line, and clues on lines of the grid.  [Size] is at most 20
    because [PermuteN] panics beyond. *)
Definition wf (b : Board) : Prop :=
  0 <= Size b <= 20 /\
  square (Size b) (Grid b) /\
  square (Size b) (Allowed b) /\
  len (ObsSorted b) = Size b * 4 /\
  len (RowPerms b) = Size b /\
  len (ColPerms b) = Size b /\
  Forall (fun p => len p = Size b) (Perms b) /\
  Forall (indices_ok (len (Perms b))) (RowPerms b) /\
  Forall (indices_ok (len (Perms b))) (ColPerms b) /\
  Forall (fun o => 0 <= Index o < Size b) (Observers b).

(** A well-formed board of size [n] over the permutations [P]. *)
Definition ok (n : Z) (P : list (list Z)) (b : Board) : Prop :=
  wf b /\ Size b = n /\ Perms b = P.

(** [runs I m]: from a board satisfying [I] the computation [m]
    returns, with a board satisfying [I]. *)
Definition runs {A} (I : Board -> Prop) (m : M A) : Prop :=
  forall b, I b -> exists a b', m b = Some (a, b') /\ I b'.

(** [maintains I]: the later board satisfies [I] if the earlier one
    did. *)
Definition maintains (I : Board -> Prop) : relation Board :=
  fun b b' => I b -> I b'.

Definition same_size : relation Board := fun b b' => Size b' = Size b.

(** *** Progress of the solver *)

(** The number of empty cells of the grid. *)
Definition empties (b : Board) : nat :=
  sum_nat ((fun row => length (filter (fun v => v = EMPTY) row)) <$> Grid b).

(** What a round of [AutoSolve] can only lower: candidates, entries of
    the permutation lists, and empty cells. *)
Definition measure (b : Board) : nat :=
  (allowed_total b + perms_total b + empties b)%nat.

(** The board evolves and no cell is emptied. *)
Definition advances (b b' : Board) : Prop :=
  evolves b b' /\ (empties b' <= empties b)%nat.

(** No rule that [AutoSolve] tries changes the board: every one of
    them returns false and leaves the board as it is. *)
Definition stalled (b : Board) : Prop :=
  (forall fuel, MarkMandatory (S fuel) b = Some (false, b)) /\
  TrimAllowedFromPerms b = Some (false, b) /\
  TrimPermsFromAllowed b = Some (false, b) /\
  (forall n, 2 <= n < Size b - 1 -> TrimNakedSets n b = Some (false, b)) /\
  (forall n, 2 <= n < Size b - 1 -> TrimFoundGroups n b = Some (false, b)).

(** One round of the loop of [AutoSolve]; it yields [changed]. *)
Definition round (fuel : nat) : M bool :=
  (c1 <- MarkMandatory fuel ;;
   c2 <- TrimAllowedFromPerms ;;
   c3 <- TrimPermsFromAllowed ;;
   let changed := c1 || c2 || c3 in
   changed <- (if negb changed then escalate TrimNakedSets else ret changed) ;;
   (if negb changed then escalate TrimFoundGroups else ret changed))%board.

(** The counter of empty cells tells the truth about the grid. *)
Definition counted (b : Board) : Prop := NumEmpty b = Z.of_nat (empties b).

(** *** Solutions of a puzzle *)

(** Column [c] of a grid, from the top. *)
Definition column (g : list (list Z)) (c : Z) : option (list Z) :=
  mapM (fun row => idx row c) g.

(** A Latin square of size [n]: every row and every column is a
    rearrangement of 1, ..., n. *)
Definition latin (n : Z) (sol : list (list Z)) : Prop :=
  len sol = n /\
  (forall r row, idx sol r = Some row -> row ≡ₚ seqZ 1 n) /\
  (forall c, 0 <= c < n -> exists col, column sol c = Some col /\ col ≡ₚ seqZ 1 n).

(** A line of a Latin square as the heuristics walk it: [at_ i] is the
    cell at position [i].  The values along the line are in range,
    pairwise different, and every value occurs. *)
Definition latin_line (n : Z) (sol : list (list Z)) (at_ : Z -> Z * Z) : Prop :=
  (forall i, 0 <= i < n -> exists v, cell sol (at_ i).1 (at_ i).2 = Some v /\ 1 <= v <= n) /\
  (forall i j v, 0 <= i < n -> 0 <= j < n ->
     cell sol (at_ i).1 (at_ i).2 = Some v -> cell sol (at_ j).1 (at_ j).2 = Some v ->
     i = j) /\
  (forall v, 1 <= v <= n ->
     exists i, 0 <= i < n /\ cell sol (at_ i).1 (at_ i).2 = Some v).

(** The board has not ruled [sol] out: every value of [sol] is still a
    candidate of its cell, every filled cell holds the value of [sol],
    and the permutation list of a line, where there is one, still has
    an index of the line of [sol]. *)
Definition admits (sol : list (list Z)) (b : Board) : Prop :=
  (forall r c v, cell sol r c = Some v ->
     exists s, cell (Allowed b) r c = Some s /\ v ∈ s) /\
  (forall r c g, cell (Grid b) r c = Some g -> g <> EMPTY -> cell sol r c = Some g) /\
  (forall r l row, idx (RowPerms b) r = Some (Some l) -> idx sol r = Some row ->
     exists pi, pi ∈ l /\ idx (Perms b) pi = Some row) /\
  (forall c l col, idx (ColPerms b) c = Some (Some l) -> column sol c = Some col ->
     exists pi, pi ∈ l /\ idx (Perms b) pi = Some col).

(** The invariant of the deductions with respect to a Latin square
    [sol]. *)
Definition sound_for (sol : list (list Z)) (b : Board) : Prop :=
  wf b /\ latin (Size b) sol /\ admits sol b.

(** *** Solutions of a puzzle *)

(** [sol] solves the puzzle that the board [b] states: it is a Latin
    square, it agrees with the cells already filled, and with [sol] as
    the grid every observer of the board sees its count. *)
Definition solution (sol : list (list Z)) (b : Board) : Prop :=
  latin (Size b) sol /\
  (forall r c g, cell (Grid b) r c = Some g -> g <> EMPTY -> cell sol r c = Some g) /\
  (forall o, o ∈ Observers b -> ObserverSatisfied o (with_Grid sol b) = Some true).

(** The body of the two loops of [BoardFromString] over the input
    grid, at row [ri] and column [ci] of it. *)
Definition load_cell (ri ci cell : Z) : M unit :=
  (sz <- query (fun b => Some (Size b)) ;;
   if decide (ri = 0 \/ ri = sz + 1) then
     if decide (ci = 0 \/ ci = sz + 1) then ret tt
     else
       AddObserver (mkObserver OBS_COL (ci - 1)
                      (if decide (ri = sz + 1) then OBS_BWD else OBS_FWD) cell)
   else if decide (ci = 0 \/ ci = sz + 1) then
     AddObserver (mkObserver OBS_ROW (ri - 1)
                    (if decide (ci = sz + 1) then OBS_BWD else OBS_FWD) cell)
   else
     Mark (ri - 1) (ci - 1) cell ;;; ret tt)%board.

(** The index of [ObsSorted] at which [AddObserver] files an observer
    on a board of size [n]. *)
Definition slot (n : Z) (o : Observer) : Z :=
  let ind0 := if decide (Type_ o = OBS_ROW) then Index o * 2
              else n * 2 + Index o * 2 in
  if decide (Direction o = OBS_BWD) then ind0 + 1 else ind0.

(** What the loading loops keep: the board is well formed, and any
    Latin square that agrees with the cells filled so far has all its
    values among the candidates. *)
Definition loaded (n : Z) (b : Board) : Prop :=
  ok n [] b /\
  forall sol, latin n sol ->
    (forall r c g, cell (Grid b) r c = Some g -> g <> EMPTY -> cell sol r c = Some g) ->
    sound_for sol b.

(** Every filed observer is a row or column observer of the board,
    filed at its own slot. *)
Definition filed (b : Board) : Prop :=
  forall ind o, idx (ObsSorted b) ind = Some (Some o) ->
    o ∈ Observers b /\ (Type_ o = OBS_ROW \/ Type_ o = OBS_COL) /\
    ind = slot (Size b) o.

(** A two-by-two puzzle with one clue: two towers are seen from the
    top of the left column. *)
Definition puzzle_clue : string :=
  (" 2  " ++ newline ++ "    " ++ newline ++ "    " ++ newline ++ "    ")%string.

(** * Properties *)

(** ** Machine integers *)

Lemma wrap_small (w x : Z) :
  0 < w -> - 2 ^ (w - 1) <= x < 2 ^ (w - 1) -> wrap w x = x.
Proof.
  intros Hw Hx. unfold wrap.
  assert (2 ^ w = 2 * 2 ^ (w - 1)) as E.
  { replace w with (Z.succ (w - 1)) at 1 by lia. rewrite Z.pow_succ_r; lia. }
  rewrite Z.mod_small; lia.
Qed.

Lemma is_int_bounds (x : Z) :
  is_int x <-> -9223372036854775808 <= x <= 9223372036854775807.
Proof. reflexivity. Qed.

Lemma int_small (x : Z) :
  -9223372036854775808 <= x <= 9223372036854775807 -> int x = x.
Proof. intros H. apply wrap_small; [lia|]. change (2 ^ (64 - 1)) with 9223372036854775808. lia. Qed.

Lemma rune_small (x : Z) : -2147483648 <= x <= 2147483647 -> rune x = x.
Proof. intros H. apply wrap_small; [lia|]. change (2 ^ (32 - 1)) with 2147483648. lia. Qed.

Ltac unwrap :=
  repeat match goal with
         | |- context [int ?x] => rewrite (int_small x) by lia
         | |- context [rune ?x] => rewrite (rune_small x) by lia
         end.

(** ** Slices *)

Section slices.
Context {A : Type}.
Implicit Types (l : list A) (g : list (list A)) (i j r c : Z) (x y : A).

Lemma idx_Some l i x : idx l i = Some x <-> 0 <= i /\ l !! Z.to_nat i = Some x.
Proof. unfold idx. destruct (decide (0 <= i)); naive_solver. Qed.

Lemma idx_lt l i x : idx l i = Some x -> 0 <= i < len l.
Proof.
  rewrite idx_Some. intros [? H%lookup_lt_Some]. unfold len. lia.
Qed.

Lemma idx_is_Some l i : is_Some (idx l i) <-> 0 <= i < len l.
Proof.
  split.
  - intros [x H]. by eapply idx_lt.
  - intros [? ?]. unfold idx, len in *. rewrite decide_True by done.
    apply lookup_lt_is_Some. lia.
Qed.

Lemma idx_None l i : idx l i = None <-> ~ (0 <= i < len l).
Proof. rewrite <- idx_is_Some, eq_None_not_Some. done. Qed.

Lemma idx_of_nat l (n : nat) : idx l (Z.of_nat n) = l !! n.
Proof. unfold idx. rewrite decide_True by lia. by rewrite Nat2Z.id. Qed.

Lemma elem_of_idx l i x : idx l i = Some x -> x ∈ l.
Proof. rewrite idx_Some. intros [_ H]. by eapply list_elem_of_lookup_2. Qed.

Lemma upd_Some l i x l' :
  upd l i x = Some l' <-> 0 <= i < len l /\ l' = <[Z.to_nat i := x]> l.
Proof.
  unfold upd. rewrite <- idx_is_Some.
  destruct (idx l i); simpl; split; naive_solver.
Qed.

Lemma upd_is_Some l i x : is_Some (upd l i x) <-> 0 <= i < len l.
Proof.
  split.
  - intros [l' H%upd_Some]. tauto.
  - intros H. eexists. apply upd_Some. eauto.
Qed.

Lemma len_upd l i x l' : upd l i x = Some l' -> len l' = len l.
Proof. intros [_ ->]%upd_Some. unfold len. by rewrite length_insert. Qed.

Lemma idx_upd l i x l' j :
  upd l i x = Some l' -> idx l' j = if decide (j = i) then Some x else idx l j.
Proof.
  intros [[? Hlt] ->]%upd_Some. unfold idx, len in *.
  destruct (decide (j = i)) as [->|Hj].
  - rewrite decide_True by done. apply list_lookup_insert_eq. lia.
  - destruct (decide (0 <= j)); [|done]. apply list_lookup_insert_ne. lia.
Qed.

Lemma upd_same l i x : idx l i = Some x -> upd l i x = Some l.
Proof.
  intros H. apply upd_Some. split; [by eapply idx_lt|].
  apply idx_Some in H as [_ H]. by rewrite list_insert_id.
Qed.

End slices.

Section grids.
Context {A : Type}.
Implicit Types (l : list A) (g : list (list A)) (i j r c : Z) (x y : A).

Lemma cell_Some g r c x :
  cell g r c = Some x <-> exists row, idx g r = Some row /\ idx row c = Some x.
Proof. unfold cell. destruct (idx g r); simpl; naive_solver. Qed.

Lemma upd_cell_Some g r c x g' :
  upd_cell g r c x = Some g' <->
  exists row row', idx g r = Some row /\ upd row c x = Some row' /\ upd g r row' = Some g'.
Proof.
  unfold upd_cell. destruct (idx g r) as [row|]; simpl.
  - destruct (upd row c x) as [row'|] eqn:E; simpl.
    + split; [by exists row, row'|]. intros (? & ? & ? & ? & ?). by simplify_eq.
    + split; [done|]. intros (? & ? & ? & ? & ?). by simplify_eq.
  - split; [done|]. by intros (? & ? & ? & _).
Qed.

Lemma upd_cell_is_Some g r c x : is_Some (upd_cell g r c x) <-> is_Some (cell g r c).
Proof.
  unfold upd_cell, cell. destruct (idx g r) as [row|] eqn:Hr; simpl; [|done].
  split.
  - intros [g' H]. destruct (upd row c x) eqn:Hu; [|done].
    apply idx_is_Some. apply upd_Some in Hu. tauto.
  - intros H%idx_is_Some.
    assert (is_Some (upd row c x)) as [row' Hu] by (by apply upd_is_Some).
    rewrite Hu. simpl. apply upd_is_Some. by eapply idx_lt.
Qed.

Lemma cell_upd_cell g r c x g' r' c' :
  upd_cell g r c x = Some g' ->
  cell g' r' c' = if decide (r' = r /\ c' = c) then Some x else cell g r' c'.
Proof.
  intros (row & row' & Hrow & Hrow' & Hg)%upd_cell_Some.
  unfold cell. rewrite (idx_upd _ _ _ _ r' Hg).
  destruct (decide (r' = r)) as [->|Hr]; simpl.
  - rewrite (idx_upd _ _ _ _ c' Hrow'), Hrow. simpl.
    repeat case_decide; naive_solver.
  - rewrite decide_False by naive_solver. done.
Qed.

Lemma upd_cell_same g r c x : cell g r c = Some x -> upd_cell g r c x = Some g.
Proof.
  intros (row & Hr & Hc)%cell_Some. apply upd_cell_Some.
  exists row, row. split_and!; [done|by apply upd_same..].
Qed.

Lemma len_upd_cell g r c x g' : upd_cell g r c x = Some g' -> len g' = len g.
Proof.
  intros (row & row' & _ & _ & Hg)%upd_cell_Some. by eapply len_upd.
Qed.
End grids.
(** ** The monad *)

Lemma bind_Some {A B} (m : M A) (k : A -> M B) b r :
  bind m k b = Some r <-> exists a b1, m b = Some (a, b1) /\ k a b1 = Some r.
Proof.
  unfold bind. destruct (m b) as [[a b1]|]; split.
  - intros H. by exists a, b1.
  - intros (? & ? & ? & ?). by simplify_eq.
  - done.
  - intros (? & ? & ? & ?). done.
Qed.

Lemma ret_Some {A} (a : A) b r : ret a b = Some r <-> r = (a, b).
Proof. unfold ret. split; intros; by simplify_eq. Qed.

Lemma query_Some {A} (f : Board -> option A) b r :
  query f b = Some r <-> exists a, f b = Some a /\ r = (a, b).
Proof.
  unfold query. destruct (f b) as [a|]; split.
  - intros. exists a. by simplify_eq.
  - intros (? & ? & ?). by simplify_eq.
  - done.
  - intros (? & ? & ?). done.
Qed.

Lemma modify_Some (f : Board -> Board) b r : modify f b = Some r <-> r = (tt, f b).
Proof. unfold modify. split; intros; by simplify_eq. Qed.

(** Take apart a hypothesis saying that a computation returned. *)
Ltac inv_run :=
  repeat match goal with
         | H : bind _ _ _ = Some _ |- _ =>
             apply bind_Some in H as (? & ? & ? & H)
         | H : ret _ _ = Some _ |- _ => apply ret_Some in H
         | H : query _ _ = Some _ |- _ => apply query_Some in H as (? & ? & H)
         | H : modify _ _ = Some _ |- _ => apply modify_Some in H
         | H : panic _ = Some _ |- _ => discriminate H
         | H : (_, _) = (_, _) |- _ => injection H as ? ?
         | _ => progress subst
         end.


(** ** Character encoding *)

(** C10: for every n from 0 to 35, reading back the character that
    [IntToCh] writes for n gives n again. *)
Theorem ChToInt_IntToCh (n : Z) : 0 <= n <= 35 -> ChToInt (IntToCh n) = n.
Proof.
  intros Hn. unfold IntToCh.
  destruct (decide (n > 9)) as [Hbig|Hsmall].
  - unwrap. unfold ChToInt.
    rewrite decide_False by lia. rewrite decide_True by lia.
    unwrap. lia.
  - unwrap. unfold ChToInt.
    destruct (decide (n = 0)) as [->|Hnz].
    + reflexivity.
    + rewrite decide_True by lia. unwrap. lia.
Qed.

Lemma ChToInt_IntToCh_witness : 0 <= 17 <= 35 /\ ChToInt (IntToCh 17) = 17.
Proof. split; [lia | apply (ChToInt_IntToCh 17); lia]. Defined.

(** ** The setter *)

(** C7: on a cell of the grid, [Set'] returns false and changes nothing
    when the cell already holds the value; otherwise it writes the
    value into that cell alone, moves the empty-cell counter by the
    change in emptiness, and returns true.  The candidate sets are the
    same afterwards in every case. *)
Theorem Set_spec (ri ci val old : Z) (b : Board) :
  Get ri ci b = Some old ->
  exists changed b',
    Set' ri ci val b = Some (changed, b') /\
    Allowed b' = Allowed b /\
    (old = val -> changed = false /\ b' = b) /\
    (old <> val ->
       changed = true /\
       upd_cell (Grid b) ri ci val = Some (Grid b') /\
       NumEmpty b' =
         (if decide (old <> EMPTY /\ val = EMPTY) then int (NumEmpty b + 1)
          else if decide (old = EMPTY /\ val <> EMPTY) then int (NumEmpty b - 1)
          else NumEmpty b) /\
       b' = with_Grid (Grid b') (with_NumEmpty (NumEmpty b') b)).
Proof.
  intros Hget. unfold Set', bind, query. rewrite Hget.
  destruct (decide (old = val)) as [->|Hne].
  - exists false, b. split; [done|]. split; [done|]. split; [done|]. done.
  - assert (is_Some (upd_cell (Grid b) ri ci val)) as [g' Hg'].
    { apply upd_cell_is_Some. by exists old. }
    set (n' := if decide (old <> EMPTY /\ val = EMPTY) then int (NumEmpty b + 1)
               else if decide (old = EMPTY /\ val <> EMPTY) then int (NumEmpty b - 1)
               else NumEmpty b).
    exists true, (with_Grid g' (with_NumEmpty n' b)).
    split.
    { subst n'. repeat case_decide; simpl; rewrite Hg'; simpl;
        unfold ret; try done; by destruct b. }
    split; [done|]. split; [done|]. intros _. done.
Qed.

Lemma Set_spec_witness :
  Get 0 1 board22 = Some 2 /\
  exists changed b',
    Set' 0 1 1 board22 = Some (changed, b') /\
    Allowed b' = Allowed board22 /\
    (2 = 1 -> changed = false /\ b' = board22) /\
    (2 <> 1 ->
       changed = true /\
       upd_cell (Grid board22) 0 1 1 = Some (Grid b') /\
       NumEmpty b' =
         (if decide (2 <> EMPTY /\ 1 = EMPTY) then int (NumEmpty board22 + 1)
          else if decide (2 = EMPTY /\ 1 <> EMPTY) then int (NumEmpty board22 - 1)
          else NumEmpty board22) /\
       b' = with_Grid (Grid b') (with_NumEmpty (NumEmpty b') board22)).
Proof. split; [reflexivity | apply (Set_spec 0 1 1 2 board22); reflexivity]. Defined.

(** ** The solved check *)

Lemma first_unsatisfied_all os b :
  (forall o, o ∈ os -> ObserverSatisfied o b = Some true) ->
  first_unsatisfied os b = Some None.
Proof.
  induction os as [|o os IH]; intros H; simpl; [done|].
  rewrite (H o) by left. simpl. apply IH. intros o' Ho'. apply H. by right.
Qed.

Lemma first_unsatisfied_first os1 o os2 b :
  (forall o', o' ∈ os1 -> ObserverSatisfied o' b = Some true) ->
  ObserverSatisfied o b = Some false ->
  first_unsatisfied (os1 ++ o :: os2) b = Some (Some (ErrObserver o)).
Proof.
  induction os1 as [|o1 os1 IH]; intros H Ho; simpl.
  - by rewrite Ho.
  - rewrite (H o1) by left. simpl. apply IH; [|done].
    intros o' Ho'. apply H. by right.
Qed.


(** ** Visibility *)

Lemma visible_ge p vis highest : vis <= visible p vis highest.
Proof.
  revert vis highest. induction p as [|x p IH]; intros vis highest; simpl; [lia|].
  case_decide.
  - specialize (IH (vis + 1) x). lia.
  - apply IH.
Qed.

Lemma fits_scan_visible p count vis highest :
  fits_scan p count vis highest = bool_decide (visible p vis highest = count).
Proof.
  revert vis highest. induction p as [|x p IH]; intros vis highest; simpl; [done|].
  destruct (decide (x > highest)); [|apply IH].
  destruct (decide (vis + 1 > count)); [|apply IH].
  symmetry. apply bool_decide_eq_false.
  pose proof (visible_ge p (vis + 1) x). lia.
Qed.

(** The grid scan along any arithmetic progression of cells reads the
    values [q] it passes and counts their new maxima. *)
Lemma obs_scan_visible q ri ci dr dc vis highest b :
  (forall (k : nat) v, q !! k = Some v ->
     Get (ri + Z.of_nat k * dr) (ci + Z.of_nat k * dc) b = Some v) ->
  obs_scan (length q) ri ci dr dc vis highest b = Some (visible q vis highest).
Proof.
  revert ri ci vis highest.
  induction q as [|x q IH]; intros ri ci vis highest H; simpl; [done|].
  pose proof (H 0%nat x eq_refl) as H0. simpl in H0.
  rewrite !Z.add_0_r in H0. rewrite H0. simpl.
  assert (forall (k : nat) v, q !! k = Some v ->
            Get (ri + dr + Z.of_nat k * dr) (ci + dc + Z.of_nat k * dc) b = Some v) as H'.
  { intros k v Hk. specialize (H (S k) v Hk).
    replace (ri + dr + Z.of_nat k * dr) with (ri + Z.of_nat (S k) * dr) by lia.
    replace (ci + dc + Z.of_nat k * dc) with (ci + Z.of_nat (S k) * dc) by lia.
    done. }
  case_decide; by apply IH.
Qed.

Lemma lookup_reverse_Some {A} (l : list A) (k : nat) (v : A) :
  reverse l !! k = Some v ->
  (k < length l)%nat /\ l !! (length l - 1 - k)%nat = Some v.
Proof.
  intros H. assert (k < length l)%nat as Hk.
  { apply lookup_lt_Some in H. by rewrite length_reverse in H. }
  split; [done|]. rewrite reverse_lookup in H by done.
  replace (length l - 1 - k)%nat with (length l - S k)%nat by lia. done.
Qed.

Lemma mapM_idx_lookup (g : list (list Z)) (i : Z) (p : list Z) (k : nat) (v : Z) :
  mapM (fun row => idx row i) g = Some p ->
  p !! k = Some v -> cell g (Z.of_nat k) i = Some v.
Proof.
  intros Hm Hk. apply mapM_Some in Hm.
  destruct (Forall2_lookup_r _ _ _ _ _ Hm Hk) as (row & Hrow & Hv).
  apply cell_Some. exists row. by rewrite idx_of_nat.
Qed.

(** C8: for an observer on row or column [Index], whose cells read in
    increasing index order are the sequence p, the scan of the live
    grid answers what [PermFitsObs] answers on p with the observer on
    its own side and nothing on the other.  This holds whatever the
    values of p are, so in particular on a complete line without
    zeros. *)
Theorem ObserverSatisfied_PermFitsObs (b : Board) (o : Observer) (p : list Z) :
  Type_ o = OBS_ROW \/ Type_ o = OBS_COL ->
  line_of o b = Some p ->
  len p = Size b ->
  ObserverSatisfied o b =
    Some (if decide (Direction o = OBS_BWD)
          then PermFitsObs p None (Some o)
          else PermFitsObs p (Some o) None).
Proof.
  intros Hty Hline Hlen. unfold ObserverSatisfied, PermFitsObs, line_of in *.
  assert (Z.to_nat (Size b) = length p) as Hn by (unfold len in Hlen; lia).
  assert (Z.to_nat (Size b) = length (reverse p)) as Hn'
    by (rewrite length_reverse; done).
  assert (OBS_ROW <> OBS_COL) as Hrc by done.
  destruct (decide (Type_ o = OBS_ROW)) as [Hrow|Hnrow].
  - destruct (decide (Direction o = OBS_BWD)) as [Hbwd|Hfwd]; simpl.
    + rewrite Hn', (obs_scan_visible (reverse p)); simpl.
      { by rewrite fits_scan_visible. }
      intros k v [Hk Hv]%lookup_reverse_Some.
      apply cell_Some. exists p. split; [by rewrite Z.mul_0_r, Z.add_0_r|].
      rewrite <- Hlen. unfold len.
      replace (Z.of_nat (length p) - 1 + Z.of_nat k * -1)
        with (Z.of_nat (length p - 1 - k)) by lia.
      by rewrite idx_of_nat.
    + rewrite Hn, (obs_scan_visible p); simpl.
      { by rewrite fits_scan_visible, andb_true_r. }
      intros k v Hv. apply cell_Some. exists p.
      split; [by rewrite Z.mul_0_r, Z.add_0_r|].
      rewrite Z.mul_1_r, Z.add_0_l. by rewrite idx_of_nat.
  - destruct Hty as [?|Hcol]; [done|]. rewrite decide_True by done.
    destruct (decide (Direction o = OBS_BWD)) as [Hbwd|Hfwd]; simpl.
    + rewrite Hn', (obs_scan_visible (reverse p)); simpl.
      { by rewrite fits_scan_visible. }
      intros k v [Hk Hv]%lookup_reverse_Some.
      rewrite Z.mul_0_r, Z.add_0_r. rewrite <- Hlen. unfold len.
      replace (Z.of_nat (length p) - 1 + Z.of_nat k * -1)
        with (Z.of_nat (length p - 1 - k)) by lia.
      by eapply mapM_idx_lookup.
    + rewrite Hn, (obs_scan_visible p); simpl.
      { by rewrite fits_scan_visible, andb_true_r. }
      intros k v Hv. rewrite Z.mul_0_r, Z.add_0_r, Z.mul_1_r, Z.add_0_l.
      by eapply mapM_idx_lookup.
Qed.

Lemma ObserverSatisfied_PermFitsObs_witness :
  let o := mkObserver OBS_COL 1 OBS_BWD 2 in
  (Type_ o = OBS_ROW \/ Type_ o = OBS_COL) /\
  line_of o board_filled = Some [2; 1; 3] /\
  len [2; 1; 3] = Size board_filled /\
  ObserverSatisfied o board_filled =
    Some (if decide (Direction o = OBS_BWD)
          then PermFitsObs [2; 1; 3] None (Some o)
          else PermFitsObs [2; 1; 3] (Some o) None).
Proof.
  intros o. split; [by right|]. split; [reflexivity|]. split; [reflexivity|].
  apply (ObserverSatisfied_PermFitsObs board_filled o [2; 1; 3]);
    [by right | reflexivity | reflexivity].
Defined.

(** ** Rules for computations on the board *)

Section rules.
Context (R : relation Board) `{!PreOrder R}.

Lemma preserves_ret {A} (a : A) : preserves R (ret a).
Proof. intros b a' b' H%ret_Some. by simplify_eq. Qed.

Lemma preserves_query {A} (f : Board -> option A) : preserves R (query f).
Proof. intros b a b' (a' & _ & ?)%query_Some. by simplify_eq. Qed.

Lemma preserves_panic {A} : preserves R (@panic A).
Proof. intros b a b' H. discriminate. Qed.

Lemma preserves_bind {A B} (m : M A) (k : A -> M B) :
  preserves R m -> (forall a, preserves R (k a)) -> preserves R (bind m k).
Proof.
  intros Hm Hk b c b' (a & b1 & H1 & H2)%bind_Some.
  transitivity b1; [by eapply Hm | by eapply Hk].
Qed.

Lemma preserves_for_acc {A S} (l : list A) (s : S) (body : A -> S -> M S) :
  (forall x s, x ∈ l -> preserves R (body x s)) -> preserves R (for_acc l s body).
Proof.
  revert s. induction l as [|x l IH]; intros s H; simpl.
  - apply preserves_ret.
  - apply preserves_bind; [apply H; left|].
    intros s'. apply IH. intros y s'' Hy. apply H. by right.
Qed.

Lemma preserves_for_ {A} (l : list A) (body : A -> M unit) :
  (forall x, x ∈ l -> preserves R (body x)) -> preserves R (for_ l body).
Proof. intros H. apply preserves_for_acc. intros x _ Hx. by apply H. Qed.

Lemma preserves_for_flag {A} (l : list A) (body : A -> M bool) :
  (forall x, x ∈ l -> preserves R (body x)) -> preserves R (for_flag l body).
Proof.
  intros H. apply preserves_for_acc. intros x c Hx.
  apply preserves_bind; [by apply H|]. intros c'. apply preserves_ret.
Qed.

Lemma preserves_for_return {A} (l : list A) (body : A -> M bool) :
  (forall x, x ∈ l -> preserves R (body x)) -> preserves R (for_return l body).
Proof.
  induction l as [|x l IH]; intros H; simpl.
  - apply preserves_ret.
  - apply preserves_bind; [apply H; left|].
    intros [|]; [apply preserves_ret|]. apply IH. intros y Hy. apply H. by right.
Qed.

(** *** Flags that tell the truth *)

Context (mu : Board -> nat) (mu_mono : forall b b', R b b' -> (mu b' <= mu b)%nat).

Lemma reports_preserves (m : M bool) : reports R mu m -> preserves R m.
Proof. intros H b c b' Hm. by apply H in Hm as [? _]. Qed.

Lemma reports_ret_false : reports R mu (ret false).
Proof. intros b c b' H%ret_Some. by simplify_eq. Qed.

Lemma reports_query {A} (f : Board -> option A) (k : A -> M bool) :
  (forall a, reports R mu (k a)) -> reports R mu (bind (query f) k).
Proof.
  intros Hk b c b' (a & b1 & (a' & _ & ?)%query_Some & H2)%bind_Some.
  simplify_eq. by eapply Hk.
Qed.

(** [c1 := m1; c2 := m2 c1; return c1 || c2'] and the like. *)
Lemma reports_seq (m1 : M bool) (m2 : bool -> M bool) (f : bool -> bool -> bool) :
  reports R mu m1 -> (forall c, reports R mu (m2 c)) ->
  (forall c1 c2, f c1 c2 = c1 || c2) ->
  reports R mu (c1 <- m1 ;; c2 <- m2 c1 ;; ret (f c1 c2))%board.
Proof.
  intros H1 H2 Hf b c b' (c1 & b1 & Hm1 & (c2 & b2 & Hm2 & Hr%ret_Some)%bind_Some)%bind_Some.
  simplify_eq. apply H1 in Hm1 as [HR1 Hc1]. apply H2 in Hm2 as [HR2 Hc2].
  split; [by transitivity b1|]. rewrite Hf.
  destruct c1, c2; simpl; simplify_eq; try done.
  - apply mu_mono in HR2. lia.
Qed.

Lemma reports_for_flag {A} (l : list A) (body : A -> M bool) :
  (forall x, x ∈ l -> reports R mu (body x)) -> reports R mu (for_flag l body).
Proof.
  unfold for_flag. intros H.
  assert (forall c0 b c b',
            for_acc l c0 (fun x changed => (c <- body x ;; ret (changed || c))%board) b
              = Some (c, b') ->
            R b b' /\ (if c0 then c = true else if c then (mu b' < mu b)%nat else b' = b))
    as Hgen.
  { induction l as [|x l IH]; intros c0 b c b' Hrun; simpl in Hrun.
    - apply ret_Some in Hrun. simplify_eq. split; [done|]. by destruct c0.
    - apply bind_Some in Hrun as (c1 & b1 & (cx & bx & Hx & Hr%ret_Some)%bind_Some & Hrest).
      simplify_eq. apply H in Hx as [HRx Hcx]; [|left].
      apply IH in Hrest as [HRr Hcr]; [|intros y Hy; apply H; by right].
      split; [by etransitivity|].
      destruct c0; simpl in *; [done|].
      destruct cx; simpl in *; simplify_eq.
      + apply mu_mono in HRr. lia.
      + done. }
  intros b c b' Hrun. by apply Hgen in Hrun.
Qed.

Lemma reports_for_return {A} (l : list A) (body : A -> M bool) :
  (forall x, x ∈ l -> reports R mu (body x)) -> reports R mu (for_return l body).
Proof.
  induction l as [|x l IH]; intros H b c b' Hrun; simpl in Hrun.
  - apply ret_Some in Hrun. by simplify_eq.
  - apply bind_Some in Hrun as (cx & b1 & Hx & Hrest).
    apply H in Hx as [HRx Hcx]; [|left]. destruct cx.
    + apply ret_Some in Hrest. by simplify_eq.
    + simplify_eq. apply IH in Hrest; [done|]. intros y Hy. apply H. by right.
Qed.

(** [if m1 { return true }; return m2] *)
Lemma reports_or_else (m1 m2 : M bool) :
  reports R mu m1 -> reports R mu m2 ->
  reports R mu (r <- m1 ;; if r : bool then ret true else m2)%board.
Proof.
  intros H1 H2 b c b' (r & b1 & Hm1 & Hrest)%bind_Some.
  apply H1 in Hm1 as [HR1 Hc1]. destruct r.
  - apply ret_Some in Hrest. by simplify_eq.
  - simplify_eq. by apply H2.
Qed.

End rules.

(** ** The order on boards *)

Global Instance superset_preorder : PreOrder (fun s s' : gset Z => s' ⊆ s).
Proof. split; [intros s; done | intros s1 s2 s3 ? ?; set_solver]. Qed.

Global Instance sets_shrunk_preorder : PreOrder sets_shrunk.
Proof.
  change (PreOrder (Forall2 (Forall2 (fun s s' : gset Z => s' ⊆ s)))). apply _.
Qed.

Global Instance perm_le_preorder : PreOrder perm_le.
Proof.
  split.
  - intros [l|]; simpl; done.
  - intros [l1|] [l2|] [l3|]; simpl; try done. intros. by transitivity l2.
Qed.

Global Instance lists_shrunk_preorder : PreOrder lists_shrunk.
Proof. change (PreOrder (Forall2 perm_le)). apply _. Qed.

Global Instance same_shape_preorder {A} : PreOrder (@same_shape A).
Proof.
  assert (PreOrder (fun r r' : list A => length r = length r')).
  { split; [intros l; done | intros l1 l2 l3; congruence]. }
  change (PreOrder (Forall2 (fun r r' : list A => length r = length r'))). apply _.
Qed.

Global Instance evolves_preorder : PreOrder evolves.
Proof.
  split.
  - intros b. unfold evolves. split_and!; reflexivity.
  - intros b1 b2 b3 (?&?&?&?&?&?&?&?) (?&?&?&?&?&?&?&?).
    unfold evolves. split_and!; try congruence; by etransitivity.
Qed.

Global Instance allowed_shrunk_preorder : PreOrder allowed_shrunk.
Proof.
  split.
  - intros b. split; [by destruct b|reflexivity].
  - intros b1 b2 b3 [E1 ?] [E2 ?]. split; [|by etransitivity].
    destruct b1, b2, b3. unfold with_Allowed in *. simpl in *. congruence.
Qed.

Global Instance perms_shrunk_preorder : PreOrder perms_shrunk.
Proof.
  split.
  - intros b. split_and!; [by destruct b|reflexivity..].
  - intros b1 b2 b3 (E1&?&?) (E2&?&?). split_and!; [|by etransitivity..].
    destruct b1, b2, b3. unfold with_RowPerms, with_ColPerms in *. simpl in *.
    congruence.
Qed.

Lemma allowed_shrunk_evolves b b' : allowed_shrunk b b' -> evolves b b'.
Proof.
  intros [E H]. unfold evolves. rewrite E. simpl. split_and!; (done || reflexivity).
Qed.

Lemma perms_shrunk_evolves b b' : perms_shrunk b b' -> evolves b b'.
Proof.
  intros (E & H1 & H2). unfold evolves.
  destruct b, b'. unfold with_RowPerms, with_ColPerms in E. simpl in *.
  inversion E; subst. split_and!; (done || reflexivity).
Qed.

Lemma sets_shrunk_upd_cell (a a' : list (list (gset Z))) r c s s' :
  cell a r c = Some s -> s' ⊆ s -> upd_cell a r c s' = Some a' -> sets_shrunk a a'.
Proof.
  intros (row & Hr & Hc)%cell_Some Hsub (row0 & row' & Hr0 & Hrow' & Ha')%upd_cell_Some.
  simplify_eq. apply upd_Some in Hrow' as [_ ->]. apply upd_Some in Ha' as [_ ->].
  apply idx_Some in Hr as [_ Hr]. apply idx_Some in Hc as [_ Hc].
  unfold sets_shrunk.
  rewrite <- (list_insert_id a (Z.to_nat r) row) at 1 by done.
  apply Forall2_insert; [done|].
  rewrite <- (list_insert_id row (Z.to_nat c) s) at 1 by done.
  apply Forall2_insert; [done|done].
Qed.

Lemma cell_shrunk_allowed_shrunk r c b b' : cell_shrunk r c b b' -> allowed_shrunk b b'.
Proof.
  intros [->|(s & s' & a' & Hs & Hsub & Ha' & ->)]; [reflexivity|].
  split; [done|]. simpl. by eapply sets_shrunk_upd_cell.
Qed.

Lemma upd_cell_twice {A} (g g1 g2 : list (list A)) r c x y :
  upd_cell g r c x = Some g1 -> upd_cell g1 r c y = Some g2 ->
  upd_cell g r c y = Some g2.
Proof.
  intros (row & row1 & Hr & Hrow1 & Hg1)%upd_cell_Some
         (row1' & row2 & Hr1 & Hrow2 & Hg2)%upd_cell_Some.
  rewrite (idx_upd _ _ _ _ r Hg1), decide_True in Hr1 by done. simplify_eq.
  apply upd_cell_Some. exists row, row2. split; [done|].
  apply upd_Some in Hrow1 as [Hc ->]. apply upd_Some in Hrow2 as [_ ->].
  apply upd_Some in Hg1 as [Hrr ->]. apply upd_Some in Hg2 as [_ ->].
  rewrite !list_insert_insert_eq. split; by apply upd_Some.
Qed.

Global Instance cell_shrunk_preorder r c : PreOrder (cell_shrunk r c).
Proof.
  split.
  - intros b. by left.
  - intros b1 b2 b3 [->|(s & s' & a' & Hs & Hsub & Ha' & ->)]; [done|].
    intros [->|(t & t' & a'' & Ht & Hsub' & Ha'' & ->)].
    + right. by exists s, s', a'.
    + simpl in *. rewrite (cell_upd_cell _ _ _ _ _ r c Ha'), decide_True in Ht by done.
      simplify_eq. right. exists s, t', a''. split_and!; [done|set_solver| |done].
      by eapply upd_cell_twice.
Qed.

(** *** Measures *)

Lemma sum_nat_le (l l' : list nat) :
  Forall2 (fun n n' => (n' <= n)%nat) l l' -> (sum_nat l' <= sum_nat l)%nat.
Proof. induction 1; simpl; lia. Qed.

Lemma allowed_total_mono b b' :
  sets_shrunk (Allowed b) (Allowed b') -> (allowed_total b' <= allowed_total b)%nat.
Proof.
  intros H. unfold allowed_total. apply sum_nat_le.
  apply Forall2_fmap. eapply Forall2_impl; [exact H|].
  intros row row' Hrow. simpl. apply sum_nat_le.
  apply Forall2_fmap. eapply Forall2_impl; [exact Hrow|].
  intros s s' Hs. simpl. by apply subseteq_size.
Qed.

Lemma perms_total_mono b b' :
  lists_shrunk (RowPerms b) (RowPerms b') -> lists_shrunk (ColPerms b) (ColPerms b') ->
  (perms_total b' <= perms_total b)%nat.
Proof.
  assert (forall p p', lists_shrunk p p' ->
            (sum_nat (perms_len <$> p') <= sum_nat (perms_len <$> p))%nat) as H.
  { intros p p' Hp. apply sum_nat_le. apply Forall2_fmap.
    eapply Forall2_impl; [exact Hp|].
    intros [l|] [l'|]; simpl; try done. apply sublist_length. }
  intros H1%H H2%H. unfold perms_total. lia.
Qed.

Lemma sum_nat_insert (l : list nat) (i : nat) (n n' : nat) :
  l !! i = Some n -> (sum_nat (<[i := n']> l) + n = sum_nat l + n')%nat.
Proof.
  revert i. induction l as [|x l IH]; intros [|i] H; simpl in *; simplify_eq.
  - lia.
  - specialize (IH i H). lia.
Qed.

Lemma allowed_total_upd_cell b r c s s' a' :
  cell (Allowed b) r c = Some s -> upd_cell (Allowed b) r c s' = Some a' ->
  (allowed_total (with_Allowed a' b) + size s = allowed_total b + size s')%nat.
Proof.
  intros (row & Hr & Hc)%cell_Some (row0 & row' & Hr0 & Hrow' & Ha')%upd_cell_Some.
  simplify_eq. apply upd_Some in Hrow' as [_ ->]. apply upd_Some in Ha' as [_ ->].
  apply idx_Some in Hr as [_ Hr]. apply idx_Some in Hc as [_ Hc].
  unfold allowed_total. simpl. rewrite !list_fmap_insert.
  pose proof (sum_nat_insert (size <$> row) (Z.to_nat c) (size s) (size s')) as H1.
  rewrite list_lookup_fmap, Hc in H1. specialize (H1 eq_refl).
  pose proof (sum_nat_insert ((fun row => sum_nat (size <$> row)) <$> Allowed b)
                (Z.to_nat r) (sum_nat (size <$> row))
                (sum_nat (<[Z.to_nat c := size s']> (size <$> row)))) as H2.
  rewrite list_lookup_fmap, Hr in H2. specialize (H2 eq_refl). lia.
Qed.

(** ** Deleting candidates *)

Lemma delete_allowed_Some r c n b u b' :
  delete_allowed r c n b = Some (u, b') <->
  exists s a', cell (Allowed b) r c = Some s /\
               upd_cell (Allowed b) r c (s ∖ {[n]}) = Some a' /\
               b' = with_Allowed a' b.
Proof.
  unfold delete_allowed. destruct (cell (Allowed b) r c) as [s|] eqn:Hs; simpl.
  - destruct (upd_cell (Allowed b) r c (s ∖ {[n]})) as [a'|] eqn:Ha; simpl; split.
    + intros ?. simplify_eq. by exists s, a'.
    + intros (? & ? & ? & ? & ?). destruct u. by simplify_eq.
    + done.
    + intros (? & ? & ? & ? & ?). by simplify_eq.
  - split; [done|]. by intros (? & ? & ? & _).
Qed.

Lemma delete_allowed_cell_shrunk r c n : preserves (cell_shrunk r c) (delete_allowed r c n).
Proof.
  intros b u b' (s & a' & Hs & Ha' & ->)%delete_allowed_Some.
  right. exists s, (s ∖ {[n]}), a'. split_and!; [done|set_solver|done|done].
Qed.

Lemma IsAllowed_Some r c n b x :
  IsAllowed r c n b = Some x <->
  exists s, cell (Allowed b) r c = Some s /\ x = bool_decide (n ∈ s).
Proof.
  unfold IsAllowed. destruct (cell (Allowed b) r c) as [s|] eqn:Hs; simpl; split.
  - intros ?. simplify_eq. by exists s.
  - intros (? & ? & ?). by simplify_eq.
  - done.
  - by intros (? & ? & _).
Qed.

Lemma allowed_total_shrunk b b' : allowed_shrunk b b' -> (allowed_total b' <= allowed_total b)%nat.
Proof. intros [_ H]. by apply allowed_total_mono. Qed.

Lemma allowed_total_cell_shrunk r c b b' :
  cell_shrunk r c b b' -> (allowed_total b' <= allowed_total b)%nat.
Proof. intros H%cell_shrunk_allowed_shrunk. by apply allowed_total_shrunk. Qed.

Lemma reports_weaken (R R' : relation Board) mu (m : M bool) :
  (forall b b', R b b' -> R' b b') -> reports R mu m -> reports R' mu m.
Proof. intros HR H b c b' Hm. apply H in Hm as [? ?]. split; [by apply HR|done]. Qed.

Lemma preserves_weaken {A} (R R' : relation Board) (m : M A) :
  (forall b b', R b b' -> R' b b') -> preserves R m -> preserves R' m.
Proof. intros HR H b c b' Hm. apply HR. by eapply H. Qed.

Lemma strike_reports r c v : reports (cell_shrunk r c) allowed_total (strike r c v).
Proof.
  intros b x b' Hrun. unfold strike in Hrun.
  apply bind_Some in Hrun as (a & b1 & (a' & (s & Hs & ->)%IsAllowed_Some & ?)%query_Some & Hrun).
  simplify_eq. case_bool_decide as Hin.
  - apply bind_Some in Hrun as ([] & b2 & Hdel & Hr%ret_Some). simplify_eq.
    split; [by eapply delete_allowed_cell_shrunk|].
    apply delete_allowed_Some in Hdel as (s0 & a' & Hs0 & Ha' & ->). simplify_eq.
    pose proof (allowed_total_upd_cell _ _ _ _ _ _ Hs Ha') as Htot.
    assert (size (s ∖ {[v]}) < size s)%nat; [|lia].
    apply subset_size. set_solver.
  - apply ret_Some in Hrun. by simplify_eq.
Qed.

Lemma DisallowAll_reports r c toRemove :
  reports (cell_shrunk r c) allowed_total (DisallowAll r c toRemove).
Proof.
  apply reports_for_flag; [apply _|apply allowed_total_cell_shrunk|].
  intros k _. apply strike_reports.
Qed.

Lemma DisallowOthers_reports r c toKeep :
  reports (cell_shrunk r c) allowed_total (DisallowOthers r c toKeep).
Proof.
  apply reports_query. intros allowed.
  apply reports_for_flag; [apply _|apply allowed_total_cell_shrunk|].
  intros k _. destruct (existsb _ _); [apply reports_ret_false; apply _|apply strike_reports].
Qed.

Lemma keep_group_reports r c nums :
  reports (cell_shrunk r c) allowed_total (keep_group r c nums).
Proof.
  apply reports_query. intros [|];
    [apply DisallowOthers_reports|apply reports_ret_false; apply _].
Qed.

(** A loop of reporting steps on the cells of the board. *)
Ltac reports_allowed :=
  repeat first
    [ eapply reports_weaken; [apply cell_shrunk_allowed_shrunk|];
      first [ apply DisallowAll_reports | apply keep_group_reports | apply strike_reports ]
    | apply reports_query; intros
    | apply reports_ret_false; apply _
    | apply reports_for_flag; [apply _ | apply allowed_total_shrunk | intros]
    | apply reports_for_return; [apply _ | intros]
    | apply reports_seq; [apply _ | apply allowed_total_shrunk | | intros | done]
    | match goal with
      | |- reports _ _ (if ?c then _ else _) => destruct c
      end ].

Lemma TrimNakedSets_reports n : reports allowed_shrunk allowed_total (TrimNakedSets n).
Proof.
  unfold TrimNakedSets. apply reports_query. intros sz.
  apply reports_query. intros indices.
  apply reports_or_else; try apply _; reports_allowed.
Qed.

Lemma found_group_sweep_reports sz nums :
  reports allowed_shrunk allowed_total (found_group_sweep sz nums).
Proof. unfold found_group_sweep. reports_allowed. Qed.

Lemma TrimFoundGroups_reports n : reports allowed_shrunk allowed_total (TrimFoundGroups n).
Proof.
  unfold TrimFoundGroups. apply reports_query. intros sz.
  apply reports_query. intros numbers.
  apply reports_for_flag; [apply _|apply allowed_total_shrunk|].
  intros nums _. apply found_group_sweep_reports.
Qed.

(** ** Loops, one iteration at a time *)

Lemma bind_eq {A B} (m : M A) (k : A -> M B) b :
  bind m k b = match m b with Some (a, b') => k a b' | None => None end.
Proof. done. Qed.

Lemma for_flag_acc {A} (l : list A) (body : A -> M bool) (c0 : bool) b :
  for_acc l c0 (fun x changed => (c <- body x ;; ret (changed || c))%board) b =
  (fun r : bool * Board => (c0 || r.1, r.2)) <$> for_flag l body b.
Proof.
  unfold for_flag. revert c0 b. induction l as [|x l IH]; intros c0 b; simpl.
  - unfold ret. simpl. by rewrite orb_false_r.
  - rewrite !bind_eq. destruct (body x b) as [[c b1]|]; simpl; [|done].
    unfold ret at 1 2. rewrite (IH (c0 || c)), (IH (false || c)). simpl.
    destruct (for_acc l false _ b1) as [[c' b']|]; simpl; [|done].
    by rewrite orb_assoc.
Qed.

Lemma for_flag_cons {A} (x : A) (l : list A) (body : A -> M bool) b :
  for_flag (x :: l) body b =
  (c <- body x ;; c' <- for_flag l body ;; ret (c || c'))%board b.
Proof.
  unfold for_flag at 1. simpl. rewrite !bind_eq.
  destruct (body x b) as [[c b1]|]; simpl; [|done].
  unfold ret at 1. rewrite for_flag_acc, bind_eq.
  destruct (for_flag l body b1) as [[c' b']|]; simpl; done.
Qed.

Lemma for_flag_nil {A} (body : A -> M bool) b : for_flag [] body b = Some (false, b).
Proof. done. Qed.

(** A [changed] loop runs through its whole list: what it does on
    [l1 ++ l2] is what it does on [l1] followed by what it does on
    [l2], whatever [l1] reported. *)
Lemma for_flag_app {A} (l1 l2 : list A) (body : A -> M bool) b :
  for_flag (l1 ++ l2) body b =
  (c1 <- for_flag l1 body ;; c2 <- for_flag l2 body ;; ret (c1 || c2))%board b.
Proof.
  revert b. induction l1 as [|x l1 IH]; intros b; simpl.
  - rewrite bind_eq, for_flag_nil, bind_eq.
    destruct (for_flag l2 body b) as [[c b']|]; reflexivity.
  - rewrite (for_flag_cons x (l1 ++ l2)), bind_eq, (bind_eq (for_flag (x :: l1) body)).
    rewrite (for_flag_cons x l1), bind_eq.
    destruct (body x b) as [[c b1]|]; simpl; [|done].
    rewrite !bind_eq, IH, !bind_eq.
    destruct (for_flag l1 body b1) as [[c1 b2]|]; simpl; [|done].
    unfold ret at 2. rewrite !bind_eq.
    destruct (for_flag l2 body b2) as [[c2 b3]|]; simpl; [|done].
    unfold ret. by rewrite orb_assoc.
Qed.

(** A [return true] loop stops at the first [true]. *)
Lemma for_return_app {A} (l1 l2 : list A) (body : A -> M bool) b :
  for_return (l1 ++ l2) body b =
  (c1 <- for_return l1 body ;; if c1 : bool then ret true else for_return l2 body)%board b.
Proof.
  revert b. induction l1 as [|x l1 IH]; intros b; simpl; [done|].
  rewrite !bind_eq. destruct (body x b) as [[[|] b1]|]; simpl; [done| |done].
  apply IH.
Qed.

Lemma range_split (lo hi x : Z) :
  lo <= x < hi -> range lo hi = range lo x ++ x :: range (x + 1) hi.
Proof.
  intros H. unfold range.
  replace (hi - lo) with ((x - lo) + (hi - x)) by lia.
  rewrite seqZ_app by lia. f_equal.
  replace (lo + (x - lo)) with x by lia.
  rewrite (seqZ_cons x) by lia. f_equal. f_equal; lia.
Qed.

Lemma elem_of_range (lo hi x : Z) : x ∈ range lo hi <-> lo <= x < hi.
Proof. unfold range. rewrite elem_of_seqZ. lia. Qed.

Lemma for_flag_cons_Some {A} (x : A) (l : list A) (body : A -> M bool) b c b' :
  for_flag (x :: l) body b = Some (c, b') <->
  exists c1 b1 c2, body x b = Some (c1, b1) /\ for_flag l body b1 = Some (c2, b') /\
                   c = c1 || c2.
Proof.
  rewrite for_flag_cons, bind_Some. split.
  - intros (c1 & b1 & H1 & (c2 & b2 & H2 & Hr%ret_Some)%bind_Some).
    simplify_eq. by exists c1, b1, c2.
  - intros (c1 & b1 & c2 & H1 & H2 & ->). exists c1, b1. split; [done|].
    apply bind_Some. by exists c2, b'.
Qed.

Lemma for_flag_app_Some {A} (l1 l2 : list A) (body : A -> M bool) b c b' :
  for_flag (l1 ++ l2) body b = Some (c, b') <->
  exists c1 b1 c2, for_flag l1 body b = Some (c1, b1) /\
                   for_flag l2 body b1 = Some (c2, b') /\ c = c1 || c2.
Proof.
  rewrite for_flag_app, bind_Some. split.
  - intros (c1 & b1 & H1 & (c2 & b2 & H2 & Hr%ret_Some)%bind_Some).
    simplify_eq. by exists c1, b1, c2.
  - intros (c1 & b1 & c2 & H1 & H2 & ->). exists c1, b1. split; [done|].
    apply bind_Some. by exists c2, b'.
Qed.

(** ** Permutation lists against candidate sets *)

Lemma any_ok_true {A} (ok : A -> option bool) (l : list A) :
  any_ok ok l = Some true -> exists x, x ∈ l /\ ok x = Some true.
Proof.
  induction l as [|x l IH]; simpl; [done|].
  destruct (ok x) as [[|]|] eqn:E; simpl; [|intros H|done].
  - intros _. exists x. split; [left|done].
  - destruct (IH H) as (y & ? & ?). exists y. split; [by right|done].
Qed.

Lemma any_ok_false {A} (ok : A -> option bool) (l : list A) :
  any_ok ok l = Some false -> forall x, x ∈ l -> ok x = Some false.
Proof.
  induction l as [|x l IH]; simpl; intros H y Hy; [by apply elem_of_nil in Hy|].
  destruct (ok x) as [[|]|] eqn:E; simpl in H; [done| |done].
  apply elem_of_cons in Hy as [->|Hy]; [done|by apply IH].
Qed.

Lemma perm_places_supports (l : list Z) (pos n : Z) (b : Board) (found : bool) :
  perm_places l pos n b = Some found ->
  found = true <-> supports (Some l) pos n b.
Proof.
  unfold perm_places, supports. intros H. destruct found; split; try done.
  - intros _. apply any_ok_true in H as (permI & Hin & Hok).
    destruct (idx (Perms b) permI) as [p|] eqn:Hp; simpl in Hok; [|done].
    destruct (idx p pos) as [v|] eqn:Hv; simpl in Hok; [|done].
    simplify_eq. case_bool_decide; [|done]. subst. by exists permI, p.
  - intros (permI & p & Hin & Hp & Hv).
    pose proof (any_ok_false _ _ H permI Hin) as Hok. simpl in Hok.
    rewrite Hp in Hok. simpl in Hok. rewrite Hv in Hok. simpl in Hok.
    simplify_eq. by case_bool_decide.
Qed.

Lemma unsupported_false ri ci n b :
  unsupported ri ci n b = Some false ->
  exists rp cp, idx (RowPerms b) ri = Some rp /\ idx (ColPerms b) ci = Some cp /\
                supports rp ci n b /\ supports cp ri n b.
Proof.
  unfold unsupported. destruct (idx (RowPerms b) ri) as [rp|] eqn:Hrp; simpl; [|done].
  assert (forall o pos (x : bool),
            match o with
            | Some l => negb <$> perm_places l pos n b
            | None => Some false
            end = Some x -> x = false <-> supports o pos n b) as Hmiss.
  { intros [l|] pos x; simpl; [|intros; by simplify_eq].
    destruct (perm_places l pos n b) as [found|] eqn:Hf; simpl; [|done].
    intros ?. simplify_eq. rewrite <- (perm_places_supports _ _ _ _ _ Hf).
    by destruct found. }
  destruct (match rp with Some _ => _ | None => _ end) as [[|]|] eqn:Hrow; simpl; try done.
  destruct (idx (ColPerms b) ci) as [cp|] eqn:Hcp; simpl; [|done].
  intros Hcol. exists rp, cp. split_and!; try done.
  - by apply (Hmiss rp ci false Hrow).
  - by apply (Hmiss cp ri false Hcol).
Qed.

Lemma unsupported_true ri ci n b rp cp :
  unsupported ri ci n b = Some true ->
  idx (RowPerms b) ri = Some rp -> idx (ColPerms b) ci = Some cp ->
  ~ (supports rp ci n b /\ supports cp ri n b).
Proof.
  unfold unsupported. intros H Hrp Hcp [Hr Hc]. rewrite Hrp in H. simpl in H.
  assert (forall o pos, supports o pos n b ->
            match o with
            | Some l => negb <$> perm_places l pos n b
            | None => Some false
            end <> Some true) as Hmiss.
  { intros [l|] pos Hs; simpl; [|done].
    destruct (perm_places l pos n b) as [found|] eqn:Hf; simpl; [|done].
    apply (perm_places_supports _ _ _ _ _ Hf) in Hs. by subst. }
  destruct (match rp with Some _ => _ | None => _ end) as [[|]|] eqn:Hrow;
    simpl in H; try done.
  - by apply (Hmiss rp ci Hr).
  - rewrite Hcp in H. simpl in H. by apply (Hmiss cp ri Hc).
Qed.

Lemma unsupported_frame ri ci n b a : unsupported ri ci n (with_Allowed a b) = unsupported ri ci n b.
Proof. done. Qed.

Lemma trim_candidate_eq ri ci n b :
  trim_candidate ri ci n b =
  (d <- query (unsupported ri ci n) ;;
   if d : bool then delete_allowed ri ci n ;;; ret true else ret false)%board b.
Proof.
  unfold trim_candidate, unsupported, bind, query, ret.
  destruct (idx (RowPerms b) ri) as [[rp|]|]; simpl; [| |done].
  - destruct (perm_places rp ci n b) as [[|]|]; simpl; [|done|done].
    destruct (idx (ColPerms b) ci) as [[cp|]|]; simpl; [|done|done].
    destruct (perm_places cp ri n b) as [[|]|]; simpl; done.
  - destruct (idx (ColPerms b) ci) as [[cp|]|]; simpl; [|done|done].
    destruct (perm_places cp ri n b) as [[|]|]; simpl; done.
Qed.

Lemma with_Allowed_twice a a' b : with_Allowed a (with_Allowed a' b) = with_Allowed a b.
Proof. done. Qed.

Lemma with_Allowed_same b : with_Allowed (Allowed b) b = b.
Proof. by destruct b. Qed.

(** The loop over the candidates of one cell deletes exactly those
    the permutation lists do not support. *)
Lemma trim_keys_spec ri ci (keys : list Z) b ch b' :
  for_flag keys (trim_candidate ri ci) b = Some (ch, b') ->
  Forall (fun n => is_Some (unsupported ri ci n b)) keys /\
  let removed := filter (fun n => unsupported ri ci n b = Some true) keys in
  (removed = [] /\ ch = false /\ b' = b) \/
  (removed <> [] /\ ch = true /\
   exists s a', cell (Allowed b) ri ci = Some s /\
                upd_cell (Allowed b) ri ci (s ∖ list_to_set removed) = Some a' /\
                b' = with_Allowed a' b).
Proof.
  revert b ch b'. induction keys as [|n keys IH]; intros b ch b' Hrun.
  - rewrite for_flag_nil in Hrun. simplify_eq. split; [done|]. left. done.
  - apply for_flag_cons_Some in Hrun as (c1 & b1 & c2 & Hn & Hrest & ->).
    rewrite trim_candidate_eq in Hn.
    apply bind_Some in Hn as (d0 & b0 & (d & Hd & ?)%query_Some & Hn). simplify_eq.
    apply IH in Hrest as [Hall Hrest]. destruct d.
    + apply bind_Some in Hn as ([] & b2 & (s & a1 & Hs & Ha1 & ->)%delete_allowed_Some
                                  & Hr%ret_Some).
      simplify_eq. split.
      { constructor; [by eexists|]. eapply Forall_impl; [exact Hall|].
        intros k Hk. exact Hk. }
      right. rewrite filter_cons_True by done. split; [done|]. split; [done|].
      exists s. simpl in Hrest.
      assert (filter (fun k => unsupported ri ci k (with_Allowed a1 b) = Some true) keys
              = filter (fun k => unsupported ri ci k b = Some true) keys) as Ef
        by (apply list_filter_iff; intros k; done).
      rewrite Ef in Hrest.
      destruct Hrest as [(Hnil & -> & ->)|(Hne & -> & s1 & a' & Hs1 & Ha' & ->)].
      * rewrite Hnil. exists a1. split; [done|]. split; [|done].
        replace (s ∖ list_to_set [n]) with (s ∖ {[n]}) by set_solver. done.
      * simpl in Hs1. rewrite (cell_upd_cell _ _ _ _ _ ri ci Ha1), decide_True in Hs1 by done.
        simplify_eq. exists a'. split; [done|]. split; [|done].
        replace (s ∖ list_to_set (n :: filter (fun k => unsupported ri ci k b = Some true) keys))
          with (s ∖ {[n]} ∖ list_to_set (filter (fun k => unsupported ri ci k b = Some true) keys))
          by set_solver.
        by eapply upd_cell_twice.
    + apply ret_Some in Hn. simplify_eq. split.
      { constructor; [by eexists|done]. }
      rewrite filter_cons_False by (rewrite Hd; done). simpl. done.
Qed.

Lemma trim_cell_spec ri ci b ch b' :
  trim_cell ri ci b = Some (ch, b') ->
  exists s a',
    cell (Allowed b) ri ci = Some s /\
    (forall n, n ∈ s -> is_Some (unsupported ri ci n b)) /\
    let s' := filter (fun n => unsupported ri ci n b <> Some true) s in
    upd_cell (Allowed b) ri ci s' = Some a' /\ b' = with_Allowed a' b /\
    ch = bool_decide (s' <> s).
Proof.
  unfold trim_cell. intros (s0 & b0 & (s & Hs & ?)%query_Some & Hrun)%bind_Some.
  simplify_eq. apply trim_keys_spec in Hrun as [Hall Hrun].
  set (removed := filter (fun n => unsupported ri ci n b = Some true) (elements s)) in *.
  assert (s ∖ list_to_set removed = filter (fun n => unsupported ri ci n b <> Some true) s) as Es.
  { apply set_eq. intros k. subst removed.
    rewrite elem_of_difference, elem_of_list_to_set, list_elem_of_filter, elem_of_filter,
      elem_of_elements.
    destruct (decide (unsupported ri ci k b = Some true)); tauto. }
  rewrite Forall_forall in Hall. setoid_rewrite elem_of_elements in Hall.
  simpl in Hrun. destruct Hrun as [(Hnil & -> & ->)|(Hne & -> & s1 & a' & Hs1 & Ha' & ->)].
  - rewrite Hnil in Es. replace (s ∖ list_to_set []) with s in Es by set_solver.
    exists s, (Allowed b). split; [done|]. split; [done|]. simpl. rewrite <- Es.
    split; [by apply upd_cell_same|]. split; [by rewrite with_Allowed_same|].
    by rewrite bool_decide_eq_false_2 by (intros H; by apply H).
  - simplify_eq. exists s, a'. split; [done|]. split; [done|]. simpl. rewrite <- Es.
    split; [done|]. split; [done|]. symmetry. apply bool_decide_eq_true_2.
    destruct removed as [|k removed'] eqn:Er; [done|].
    assert (k ∈ s) as Hk.
    { assert (k ∈ removed) as Hkr by (rewrite Er; left).
      unfold removed in Hkr. apply list_elem_of_filter in Hkr as [_ Hkr].
      by apply elem_of_elements. }
    intros Heq. assert (k ∈ s ∖ list_to_set (k :: removed')) as Hk' by (by rewrite Heq).
    set_solver.
Qed.

Lemma trim_cell_reports ri ci : reports (cell_shrunk ri ci) allowed_total (trim_cell ri ci).
Proof.
  intros b ch b' (s & a' & Hs & _ & Ha' & -> & ->)%trim_cell_spec.
  set (s' := filter (fun n => unsupported ri ci n b <> Some true) s) in *.
  assert (s' ⊆ s) as Hsub by (subst s'; intros k Hk; by apply elem_of_filter in Hk as [_ ?]).
  split; [right; by exists s, s', a'|].
  case_bool_decide as Hne.
  - pose proof (allowed_total_upd_cell _ _ _ _ _ _ Hs Ha') as Htot.
    assert (size s' < size s)%nat; [|lia]. apply subset_size. set_solver.
  - rewrite Hne in Ha'.
    rewrite (upd_cell_same _ _ _ _ Hs) in Ha'. simplify_eq. apply with_Allowed_same.
Qed.

Lemma TrimAllowedFromPerms_reports : reports allowed_shrunk allowed_total TrimAllowedFromPerms.
Proof.
  unfold TrimAllowedFromPerms. apply reports_query. intros sz.
  apply reports_for_flag; [apply _|apply allowed_total_shrunk|]. intros ri _.
  apply reports_for_flag; [apply _|apply allowed_total_shrunk|]. intros ci _.
  eapply reports_weaken; [apply cell_shrunk_allowed_shrunk|apply trim_cell_reports].
Qed.

(** ** Permutation-to-candidate narrowing *)

Global Instance keeps_preorder r c : PreOrder (keeps r c).
Proof.
  split.
  - intros b. split; [reflexivity|done].
  - intros b1 b2 b3 [H1 E1] [H2 E2]. split; [by etransitivity|congruence].
Qed.

Lemma cell_shrunk_keeps ri ci r c b b' :
  cell_shrunk ri ci b b' -> ri <> r \/ ci <> c -> keeps r c b b'.
Proof.
  intros H Hne. split; [by eapply cell_shrunk_allowed_shrunk|].
  destruct H as [->|(s & s' & a' & Hs & Hsub & Ha' & ->)]; [done|]. simpl.
  rewrite (cell_upd_cell _ _ _ _ _ r c Ha'). apply decide_False. naive_solver.
Qed.

Lemma trim_row_keeps ri cols r c :
  ri <> r \/ c ∉ cols ->
  preserves (keeps r c) (for_flag cols (fun ci => trim_cell ri ci)).
Proof.
  intros Hne. apply preserves_for_flag; [apply _|]. intros ci Hci.
  intros b ch b' Hrun. eapply cell_shrunk_keeps.
  - by eapply trim_cell_reports.
  - destruct Hne as [?|Hc]; [by left|]. right. intros ->. done.
Qed.

Lemma not_elem_of_range_l lo x : x ∉ range lo x.
Proof. rewrite elem_of_range. lia. Qed.

Lemma not_elem_of_range_r x hi : x ∉ range (x + 1) hi.
Proof. rewrite elem_of_range. lia. Qed.

(** A sweep over rows and columns that meets cell [(r, c)] once
    leaves there what [trim_cell] makes of it. *)
Lemma trim_sweep_cell (r1 r2 c1 c2 : list Z) r c b ch b' :
  r ∉ r1 -> r ∉ r2 -> c ∉ c1 -> c ∉ c2 ->
  for_flag (r1 ++ r :: r2)
    (fun ri => for_flag (c1 ++ c :: c2) (fun ci => trim_cell ri ci)) b = Some (ch, b') ->
  exists s,
    cell (Allowed b) r c = Some s /\
    (forall n, n ∈ s -> is_Some (unsupported r c n b)) /\
    cell (Allowed b') r c = Some (filter (fun n => unsupported r c n b <> Some true) s).
Proof.
  intros Hr1 Hr2 Hc1 Hc2 Hrun.
  apply for_flag_app_Some in Hrun as (f1 & b1 & f2 & Hpre & Hrun & ->).
  apply for_flag_cons_Some in Hrun as (f3 & b2 & f4 & Hrow & Hpost & ->).
  assert (keeps r c b b1) as K1.
  { eapply (preserves_for_flag (keeps r c)); [| exact Hpre].
    intros ri Hri. apply trim_row_keeps. left. by intros ->. }
  assert (keeps r c b2 b') as K3.
  { eapply (preserves_for_flag (keeps r c)); [| exact Hpost].
    intros ri Hri. apply trim_row_keeps. left. by intros ->. }
  apply for_flag_app_Some in Hrow as (f5 & b3 & f6 & Hleft & Hrow & ->).
  apply for_flag_cons_Some in Hrow as (f7 & b4 & f8 & Hcell & Hright & ->).
  assert (keeps r c b1 b3) as K2a by (eapply trim_row_keeps; [|exact Hleft]; by right).
  assert (keeps r c b4 b2) as K2b by (eapply trim_row_keeps; [|exact Hright]; by right).
  assert (keeps r c b b3) as K03 by (by etransitivity).
  assert (keeps r c b4 b') as K4 by (by etransitivity).
  apply trim_cell_spec in Hcell as (s & a' & Hs & Hall & Ha' & -> & _).
  exists s. destruct K03 as [K03 E03]. destruct K4 as [_ E4].
  split; [congruence|]. split.
  - intros n Hn. specialize (Hall n Hn). destruct K03 as [E _]. by rewrite E in Hall.
  - rewrite E4. simpl. rewrite (cell_upd_cell _ _ _ _ _ r c Ha'), decide_True by done.
    f_equal. apply set_eq. intros n. rewrite !elem_of_filter.
    destruct K03 as [E _]. by rewrite E.
Qed.

(** After [TrimAllowedFromPerms] every cell holds exactly the
    candidates that were not found unsupported. *)
Lemma TrimAllowedFromPerms_cell b ch b' r c :
  TrimAllowedFromPerms b = Some (ch, b') ->
  0 <= r < Size b -> 0 <= c < Size b ->
  exists s,
    cell (Allowed b) r c = Some s /\
    (forall n, n ∈ s -> is_Some (unsupported r c n b)) /\
    cell (Allowed b') r c = Some (filter (fun n => unsupported r c n b <> Some true) s).
Proof.
  unfold TrimAllowedFromPerms.
  intros (sz & bq & (sz0 & Hsz & ?)%query_Some & Hrun)%bind_Some Hr Hc. simplify_eq.
  eapply (trim_sweep_cell (range 0 r) (range (r + 1) (Size b))
                          (range 0 c) (range (c + 1) (Size b)));
    [apply not_elem_of_range_l|apply not_elem_of_range_r
    |apply not_elem_of_range_l|apply not_elem_of_range_r|].
  rewrite <- !range_split by done. exact Hrun.
Qed.

(** C1, as the code has it: a candidate v of a cell survives
    [TrimAllowedFromPerms] exactly when both the row's list and the
    column's list support it, a nil list supporting everything; so v is
    deleted as soon as one of the two lists fails to support it. *)
Theorem TrimAllowedFromPerms_keeps_supported b ch b' r c s rp cp :
  TrimAllowedFromPerms b = Some (ch, b') ->
  0 <= r < Size b -> 0 <= c < Size b ->
  cell (Allowed b) r c = Some s ->
  idx (RowPerms b) r = Some rp ->
  idx (ColPerms b) c = Some cp ->
  exists s',
    cell (Allowed b') r c = Some s' /\
    forall v, v ∈ s' <-> v ∈ s /\ supports rp c v b /\ supports cp r v b.
Proof.
  intros Hrun Hr Hc Hs Hrp Hcp.
  destruct (TrimAllowedFromPerms_cell _ _ _ r c Hrun Hr Hc) as (s0 & Hs0 & Hall & Hs').
  simplify_eq. eexists. split; [exact Hs'|]. intros v. rewrite elem_of_filter.
  split.
  - intros [Hv Hin]. split; [done|].
    destruct (Hall v Hin) as [[|] Hd]; [done|].
    apply unsupported_false in Hd as (rp' & cp' & ? & ? & ? & ?). by simplify_eq.
  - intros (Hin & Hrow & Hcol). split; [|done]. intros Hd.
    by eapply (unsupported_true _ _ _ _ rp cp Hd).
Qed.

Lemma TrimAllowedFromPerms_keeps_supported_witness :
  exists s',
    cell (Allowed board_one_clue) 0 0 = Some ({[1; 2]} : gset Z) /\
    cell (Allowed (with_Allowed [[{[1]}; {[1; 2]}]; [{[2]}; {[1; 2]}]] board_one_clue)) 0 0
      = Some s' /\
    forall v, v ∈ s' <->
              v ∈ ({[1; 2]} : gset Z) /\ supports None 0 v board_one_clue /\
              supports (Some [0]) 0 v board_one_clue.
Proof.
  destruct (TrimAllowedFromPerms_keeps_supported board_one_clue true
              (with_Allowed [[{[1]}; {[1; 2]}]; [{[2]}; {[1; 2]}]] board_one_clue)
              0 0 {[1; 2]} None (Some [0])) as (s' & Hs' & Hv).
  - vm_compute. reflexivity.
  - simpl. lia.
  - simpl. lia.
  - vm_compute. reflexivity.
  - reflexivity.
  - reflexivity.
  - exists s'. split; [vm_compute; reflexivity|]. split; [exact Hs'|exact Hv].
Defined.

(** C1 as worded fails: with no list on the row and a column list that
    only admits 1 in the first cell, candidate 2 of that cell is
    deleted although the (nil) row list supports it. *)
Lemma TrimAllowedFromPerms_not_neither_nor :
  ~ removes_when_neither_supports board_one_clue.
Proof.
  intros H.
  assert (TrimAllowedFromPerms board_one_clue =
          Some (true, with_Allowed [[{[1]}; {[1; 2]}]; [{[2]}; {[1; 2]}]] board_one_clue))
    as Hrun by (vm_compute; reflexivity).
  assert (2 ∉ ({[1]} : gset Z) <->
          ~ supports None 0 2 board_one_clue /\
          ~ supports (Some [0]) 0 2 board_one_clue) as [H1 _].
  { apply (H _ _ 0 0 {[1; 2]} {[1]} None (Some [0]) 2 Hrun);
      [vm_compute; reflexivity..|set_solver]. }
  destruct H1 as [Hrow _]; [set_solver|]. by apply Hrow.
Qed.

(** ** Candidate-to-permutation narrowing *)

Lemma filter_ok_sublist {A} (ok : A -> option bool) (l l' : list A) :
  filter_ok ok l = Some l' -> l' `sublist_of` l.
Proof.
  revert l'. induction l as [|x l IH]; intros l' H; simpl in H.
  - by simplify_eq.
  - destruct (ok x) as [k|]; simpl in H; [|done].
    destruct (filter_ok ok l) as [rest|]; simpl in H; [|done].
    simplify_eq. destruct k.
    + apply sublist_skip. by apply IH.
    + apply sublist_cons. by apply IH.
Qed.

Lemma lists_shrunk_upd (p p' : list (option (list Z))) li l l' :
  idx p li = Some (Some l) -> l' `sublist_of` l -> upd p li (Some l') = Some p' ->
  lists_shrunk p p'.
Proof.
  intros [_ Hl]%idx_Some Hsub [_ ->]%upd_Some. unfold lists_shrunk.
  rewrite <- (list_insert_id p (Z.to_nat li) (Some l)) at 1 by done.
  apply Forall2_insert; [reflexivity|done].
Qed.

Lemma perms_len_upd (p p' : list (option (list Z))) li l l' :
  idx p li = Some (Some l) -> upd p li (Some l') = Some p' ->
  (sum_nat (perms_len <$> p') + length l = sum_nat (perms_len <$> p) + length l')%nat.
Proof.
  intros [_ Hl]%idx_Some [_ ->]%upd_Some. rewrite list_fmap_insert.
  apply (sum_nat_insert (perms_len <$> p) (Z.to_nat li) (length l) (length l')).
  by rewrite list_lookup_fmap, Hl.
Qed.

Lemma perms_total_shrunk b b' : perms_shrunk b b' -> (perms_total b' <= perms_total b)%nat.
Proof. intros (_ & H1 & H2). by apply perms_total_mono. Qed.

Lemma sublist_shorter {A} (l l' : list A) :
  l' `sublist_of` l -> len l <> len l' -> (length l' < length l)%nat.
Proof. intros H%sublist_length Hne. unfold len in Hne. lia. Qed.

Lemma trim_perms_row_reports at_ li :
  reports perms_shrunk perms_total (trim_perms RowPerms with_RowPerms at_ li).
Proof.
  intros b ch b' Hrun. unfold trim_perms in Hrun.
  apply bind_Some in Hrun as (rp0 & b0 & (rp & Hrp & ?)%query_Some & Hrun). simplify_eq.
  destruct rp as [rp|]; [|apply ret_Some in Hrun; by simplify_eq].
  apply bind_Some in Hrun as (new0 & b0 & (new & Hnew & ?)%query_Some & Hrun). simplify_eq.
  apply filter_ok_sublist in Hnew.
  destruct (decide (len rp <> len new)) as [Hne|_];
    [|apply ret_Some in Hrun; by simplify_eq].
  destruct (upd (RowPerms b) li (Some new)) as [l|] eqn:Hl; simpl in Hrun; [|done].
  simplify_eq. split.
  - split_and!; [by destruct b| |reflexivity]. simpl. by eapply lists_shrunk_upd.
  - pose proof (perms_len_upd _ _ _ _ _ Hrp Hl) as Hsum.
    pose proof (sublist_shorter _ _ Hnew Hne). unfold perms_total. simpl. lia.
Qed.

Lemma trim_perms_col_reports at_ li :
  reports perms_shrunk perms_total (trim_perms ColPerms with_ColPerms at_ li).
Proof.
  intros b ch b' Hrun. unfold trim_perms in Hrun.
  apply bind_Some in Hrun as (rp0 & b0 & (rp & Hrp & ?)%query_Some & Hrun). simplify_eq.
  destruct rp as [rp|]; [|apply ret_Some in Hrun; by simplify_eq].
  apply bind_Some in Hrun as (new0 & b0 & (new & Hnew & ?)%query_Some & Hrun). simplify_eq.
  apply filter_ok_sublist in Hnew.
  destruct (decide (len rp <> len new)) as [Hne|_];
    [|apply ret_Some in Hrun; by simplify_eq].
  destruct (upd (ColPerms b) li (Some new)) as [l|] eqn:Hl; simpl in Hrun; [|done].
  simplify_eq. split.
  - split_and!; [by destruct b|reflexivity|]. simpl. by eapply lists_shrunk_upd.
  - pose proof (perms_len_upd _ _ _ _ _ Hrp Hl) as Hsum.
    pose proof (sublist_shorter _ _ Hnew Hne). unfold perms_total. simpl. lia.
Qed.

Lemma TrimPermsFromAllowed_reports : reports perms_shrunk perms_total TrimPermsFromAllowed.
Proof.
  unfold TrimPermsFromAllowed. apply reports_query. intros nrows.
  apply (reports_seq perms_shrunk perms_total perms_total_shrunk
           (for_flag (range 0 nrows) (trim_perms RowPerms with_RowPerms (fun ri i => (ri, i))))
           (fun _ => (ncols <- query (fun b => Some (len (ColPerms b))) ;;
                      for_flag (range 0 ncols)
                        (trim_perms ColPerms with_ColPerms (fun ci i => (i, ci))))%board)
           orb).
  - apply reports_for_flag; [apply _|apply perms_total_shrunk|].
    intros ri _. apply trim_perms_row_reports.
  - intros _. apply reports_query. intros ncols.
    apply reports_for_flag; [apply _|apply perms_total_shrunk|].
    intros ci _. apply trim_perms_col_reports.
  - done.
Qed.

(** ** Marking *)

Lemma same_shape_upd_cell {A} (g g' : list (list A)) r c x :
  upd_cell g r c x = Some g' -> same_shape g g'.
Proof.
  intros (row & row' & Hr & Hrow' & Hg)%upd_cell_Some.
  apply upd_Some in Hrow' as [_ ->]. apply upd_Some in Hg as [_ ->].
  apply idx_Some in Hr as [_ Hr]. unfold same_shape.
  rewrite <- (list_insert_id g (Z.to_nat r) row) at 1 by done.
  apply Forall2_insert; [reflexivity|]. by rewrite length_insert.
Qed.

Lemma Set'_Some ri ci val b changed b' :
  Set' ri ci val b = Some (changed, b') ->
  exists old, Get ri ci b = Some old /\
    if changed then
      old <> val /\ exists g n, upd_cell (Grid b) ri ci val = Some g /\
                                b' = with_Grid g (with_NumEmpty n b)
    else old = val /\ b' = b.
Proof.
  unfold Set'. intros (old0 & b0 & (old & Hget & ?)%query_Some & Hrun)%bind_Some.
  simplify_eq. exists old. split; [done|].
  destruct (decide (old = val)) as [->|Hne].
  - apply ret_Some in Hrun. by simplify_eq.
  - apply bind_Some in Hrun as ([] & b1 & Hcount & Hrun).
    apply bind_Some in Hrun as ([] & b2 & Hwrite & Hrun%ret_Some). simplify_eq.
    destruct (upd_cell (Grid b1) ri ci val) as [g|] eqn:Hg; simpl in Hwrite; [|done].
    simplify_eq. split; [done|].
    repeat case_decide;
      first [apply modify_Some in Hcount | apply ret_Some in Hcount];
      simplify_eq; simpl in *; by eexists _, _.
Qed.

Lemma Set'_evolves ri ci val : preserves evolves (Set' ri ci val).
Proof.
  intros b changed b' (old & _ & H)%Set'_Some. destruct changed.
  - destruct H as (_ & g & n & Hg & ->). unfold evolves. simpl.
    split_and!; try reflexivity. by eapply same_shape_upd_cell.
  - destruct H as [_ ->]. reflexivity.
Qed.

Lemma strike_evolves i j v : preserves evolves (strike i j v).
Proof.
  eapply preserves_weaken; [|eapply reports_preserves, strike_reports].
  intros b b' H. by eapply allowed_shrunk_evolves, cell_shrunk_allowed_shrunk.
Qed.

Lemma delete_allowed_evolves i j v : preserves evolves (delete_allowed i j v).
Proof.
  eapply preserves_weaken; [|apply delete_allowed_cell_shrunk].
  intros b b' H. by eapply allowed_shrunk_evolves, cell_shrunk_allowed_shrunk.
Qed.

(** Preservation of a preorder by a computation built from the
    primitives known to [preserves_db]. *)
Create HintDb preserves_db.

Ltac preserves_tac :=
  repeat first
    [ solve [eauto with preserves_db]
    | apply preserves_ret; apply _
    | apply preserves_query; apply _
    | apply preserves_panic
    | apply preserves_bind; [apply _ | | intros]
    | apply preserves_for_flag; [apply _ | intros]
    | apply preserves_for_; [apply _ | intros]
    | apply preserves_for_acc; [apply _ | intros]
    | apply preserves_for_return; [apply _ | intros]
    | match goal with
      | |- preserves _ (if ?c then _ else _) => destruct c
      | |- preserves _ (match ?c with _ => _ end) => destruct c
      end ].

#[global] Hint Resolve Set'_evolves strike_evolves delete_allowed_evolves : preserves_db.

Lemma Mark_evolves ri ci val : preserves evolves (Mark ri ci val).
Proof. unfold Mark. preserves_tac. Qed.

#[global] Hint Resolve Mark_evolves : preserves_db.

Lemma MarkMandatory_pass_evolves : preserves evolves MarkMandatory_pass.
Proof. unfold MarkMandatory_pass. preserves_tac. Qed.

#[global] Hint Resolve MarkMandatory_pass_evolves : preserves_db.

Lemma MarkMandatory_evolves fuel : preserves evolves (MarkMandatory fuel).
Proof.
  induction fuel as [|fuel IH]; simpl; [apply preserves_panic|]. preserves_tac.
Qed.

Lemma TrimAllowedFromPerms_evolves : preserves evolves TrimAllowedFromPerms.
Proof.
  eapply preserves_weaken; [apply allowed_shrunk_evolves|].
  eapply reports_preserves, TrimAllowedFromPerms_reports.
Qed.

Lemma TrimPermsFromAllowed_evolves : preserves evolves TrimPermsFromAllowed.
Proof.
  eapply preserves_weaken; [apply perms_shrunk_evolves|].
  eapply reports_preserves, TrimPermsFromAllowed_reports.
Qed.

Lemma TrimNakedSets_evolves n : preserves evolves (TrimNakedSets n).
Proof.
  eapply preserves_weaken; [apply allowed_shrunk_evolves|].
  eapply reports_preserves, TrimNakedSets_reports.
Qed.

Lemma TrimFoundGroups_evolves n : preserves evolves (TrimFoundGroups n).
Proof.
  eapply preserves_weaken; [apply allowed_shrunk_evolves|].
  eapply reports_preserves, TrimFoundGroups_reports.
Qed.

(** ** Monotonicity *)

Lemma solving_step_evolves b b' : solving_step b b' -> evolves b b'.
Proof.
  destruct 1 as [ri ci val b r b' H|fuel b r b' H|b r b' H|b r b' H|n b r b' H|n b r b' H].
  - by eapply Mark_evolves.
  - by eapply MarkMandatory_evolves.
  - by eapply TrimAllowedFromPerms_evolves.
  - by eapply TrimPermsFromAllowed_evolves.
  - by eapply TrimNakedSets_evolves.
  - by eapply TrimFoundGroups_evolves.
Qed.

Lemma solving_steps_evolves b b' : solving_steps b b' -> evolves b b'.
Proof.
  induction 1 as [b|b1 b2 b3 H12 _ IH]; [reflexivity|].
  transitivity b2; [by apply solving_step_evolves|done].
Qed.

Lemma sets_shrunk_cell (a a' : list (list (gset Z))) r c s' :
  sets_shrunk a a' -> cell a' r c = Some s' ->
  exists s, cell a r c = Some s /\ s' ⊆ s.
Proof.
  intros H (row' & [Hr0 Hr]%idx_Some & [Hc0 Hc]%idx_Some)%cell_Some.
  destruct (Forall2_lookup_r _ _ _ _ _ H Hr) as (row & Hrow & Hrows).
  destruct (Forall2_lookup_r _ _ _ _ _ Hrows Hc) as (s & Hs & Hsub).
  exists s. split; [|done]. apply cell_Some. exists row.
  split; apply idx_Some; done.
Qed.

Lemma lists_shrunk_idx (p p' : list (option (list Z))) i o' :
  lists_shrunk p p' -> idx p' i = Some o' ->
  exists o, idx p i = Some o /\ perm_le o o'.
Proof.
  intros H [Hi0 Hi]%idx_Some.
  destruct (Forall2_lookup_r _ _ _ _ _ H Hi) as (o & Ho & Hle).
  exists o. split; [by apply idx_Some|done].
Qed.

(** C3: across any sequence of calls of the six solving operations,
    every candidate set of the later board is contained in the set the
    same cell had before, every permutation list of the later board is
    a sublist of the list the same line had before, and a line without
    a list stays without one; so no size and no length grows. *)
Theorem solving_steps_monotone (b b' : Board) :
  solving_steps b b' ->
  (forall r c s', cell (Allowed b') r c = Some s' ->
     exists s, cell (Allowed b) r c = Some s /\ s' ⊆ s /\ (size s' <= size s)%nat) /\
  (forall i l', idx (RowPerms b') i = Some (Some l') ->
     exists l, idx (RowPerms b) i = Some (Some l) /\
               l' `sublist_of` l /\ (length l' <= length l)%nat) /\
  (forall i l', idx (ColPerms b') i = Some (Some l') ->
     exists l, idx (ColPerms b) i = Some (Some l) /\
               l' `sublist_of` l /\ (length l' <= length l)%nat) /\
  (forall i, idx (RowPerms b') i = Some None -> idx (RowPerms b) i = Some None) /\
  (forall i, idx (ColPerms b') i = Some None -> idx (ColPerms b) i = Some None).
Proof.
  intros (_ & _ & _ & _ & _ & Ha & Hr & Hc)%solving_steps_evolves.
  assert (forall p p', lists_shrunk p p' ->
            (forall i l', idx p' i = Some (Some l') ->
               exists l, idx p i = Some (Some l) /\
                         l' `sublist_of` l /\ (length l' <= length l)%nat) /\
            (forall i, idx p' i = Some None -> idx p i = Some None)) as Hlists.
  { intros p p' Hp. split.
    - intros i l' Hi. destruct (lists_shrunk_idx _ _ _ _ Hp Hi) as ([l|] & Hl & Hle); [|done].
      exists l. split; [done|]. split; [done|]. by apply sublist_length.
    - intros i Hi. destruct (lists_shrunk_idx _ _ _ _ Hp Hi) as ([l|] & Hl & Hle); done. }
  split; [|split; [apply (Hlists _ _ Hr)|split; [apply (Hlists _ _ Hc)|]]].
  - intros r c s' Hs'. destruct (sets_shrunk_cell _ _ _ _ _ Ha Hs') as (s & Hs & Hsub).
    exists s. split; [done|]. split; [done|]. by apply subseteq_size.
  - split; [apply (Hlists _ _ Hr)|apply (Hlists _ _ Hc)].
Qed.

Lemma board_one_clue_step : solving_steps board_one_clue board_one_clue_trimmed.
Proof.
  apply rtc_once. apply (step_TrimAllowedFromPerms _ true). vm_compute. reflexivity.
Defined.

Lemma solving_steps_monotone_witness :
  solving_steps board_one_clue board_one_clue_trimmed /\
  (forall r c s', cell (Allowed board_one_clue_trimmed) r c = Some s' ->
     exists s, cell (Allowed board_one_clue) r c = Some s /\
               s' ⊆ s /\ (size s' <= size s)%nat) /\
  (forall i l', idx (RowPerms board_one_clue_trimmed) i = Some (Some l') ->
     exists l, idx (RowPerms board_one_clue) i = Some (Some l) /\
               l' `sublist_of` l /\ (length l' <= length l)%nat) /\
  (forall i l', idx (ColPerms board_one_clue_trimmed) i = Some (Some l') ->
     exists l, idx (ColPerms board_one_clue) i = Some (Some l) /\
               l' `sublist_of` l /\ (length l' <= length l)%nat) /\
  (forall i, idx (RowPerms board_one_clue_trimmed) i = Some None ->
             idx (RowPerms board_one_clue) i = Some None) /\
  (forall i, idx (ColPerms board_one_clue_trimmed) i = Some None ->
             idx (ColPerms board_one_clue) i = Some None).
Proof.
  split; [exact board_one_clue_step|].
  apply (solving_steps_monotone board_one_clue board_one_clue_trimmed).
  exact board_one_clue_step.
Defined.

(** ** Filled cells and their candidates *)

Global Instance keeps_candidates_ok_preorder : PreOrder keeps_candidates_ok.
Proof.
  split; [intros b H; exact H|]. intros b1 b2 b3 H1 H2 H. by apply H2, H1.
Qed.

Global Instance same_cells_preorder : PreOrder same_cells.
Proof.
  split; [intros b; by split_and!|].
  intros b1 b2 b3 (?&?&?) (?&?&?). split_and!; congruence.
Qed.

Lemma same_cells_keeps b b' : same_cells b b' -> keeps_candidates_ok b b'.
Proof.
  intros (Hg & Ha & Hs) [H1 H2]. split.
  - intros r c s v. rewrite Ha, Hs. apply H1.
  - intros r c g s. rewrite Hg, Ha. apply H2.
Qed.

Lemma allowed_shrunk_keeps b b' : allowed_shrunk b b' -> keeps_candidates_ok b b'.
Proof.
  intros [E Hsub] [H1 H2]. split.
  - intros r c s' v Hs' Hv.
    destruct (sets_shrunk_cell _ _ _ _ _ Hsub Hs') as (s & Hs & Hss).
    rewrite E. simpl. eapply H1; [exact Hs|]. by apply Hss.
  - intros r c g s' Hg Hne Hs'.
    destruct (sets_shrunk_cell _ _ _ _ _ Hsub Hs') as (s & Hs & Hss).
    rewrite E in Hg. simpl in Hg. specialize (H2 r c g s Hg Hne Hs). set_solver.
Qed.

Lemma perms_shrunk_keeps b b' : perms_shrunk b b' -> keeps_candidates_ok b b'.
Proof.
  intros (E & _ & _). apply same_cells_keeps. rewrite E. done.
Qed.

(** The closing loop of [Mark] leaves no key other than [val]. *)
Lemma collapse_loop ri ci val (keys : list Z) b u b' :
  for_ keys (fun i => if decide (i <> val) then delete_allowed ri ci i else ret tt) b
    = Some (u, b') ->
  cell_shrunk ri ci b b' /\
  forall s' v, cell (Allowed b') ri ci = Some s' -> v ∈ s' -> v ∈ keys -> v = val.
Proof.
  unfold for_. revert b u b'. induction keys as [|k keys IH]; intros b u b' Hrun; simpl in Hrun.
  - apply ret_Some in Hrun. simplify_eq. split; [reflexivity|].
    intros s' v _ _ Hv. by apply elem_of_nil in Hv.
  - apply bind_Some in Hrun as ([] & b1 & Hk & Hrest).
    apply IH in Hrest as [Hshr Hrest].
    assert (cell_shrunk ri ci b b1) as Hshr1.
    { destruct (decide (k <> val)); [by eapply delete_allowed_cell_shrunk|].
      apply ret_Some in Hk. simplify_eq. reflexivity. }
    split; [by etransitivity|].
    intros s' v Hs' Hv [->|Hin]%elem_of_cons; [|by eapply Hrest].
    destruct (decide (k <> val)) as [Hne|Heq]; [|by apply dec_stable in Heq].
    exfalso. apply delete_allowed_Some in Hk as (s & a1 & Hs & Ha1 & ->).
    apply cell_shrunk_allowed_shrunk in Hshr as [_ Hsub].
    destruct (sets_shrunk_cell _ _ _ _ _ Hsub Hs') as (s1 & Hs1 & Hss).
    simpl in Hs1. rewrite (cell_upd_cell _ _ _ _ _ ri ci Ha1), decide_True in Hs1 by done.
    simplify_eq. set_solver.
Qed.

Lemma Mark_keeps_candidates_ok ri ci val : preserves keeps_candidates_ok (Mark ri ci val).
Proof.
  intros b r b' Hrun Hok. unfold Mark in Hrun.
  apply bind_Some in Hrun as (changed & b1 & Hset & Hrun).
  apply Set'_Some in Hset as (old & Hold & Hset). destruct changed; simpl in Hrun.
  2:{ destruct Hset as [_ ->]. apply ret_Some in Hrun. by simplify_eq. }
  destruct Hset as (Hne & g & n & Hg & ->).
  apply bind_Some in Hrun as (sz & b2 & (sz' & Hsz & ?)%query_Some & Hrun). simplify_eq.
  apply bind_Some in Hrun as (nu & b2 & Hneigh & Hrun).
  apply bind_Some in Hrun as ([] & b3 & Hcollapse & Hrun%ret_Some). simplify_eq.
  assert (allowed_shrunk (with_Grid g (with_NumEmpty n b)) b2) as Hshr2.
  { eapply (preserves_for_flag allowed_shrunk); [|exact Hneigh]. intros i _.
    apply preserves_bind; [apply _| |intros n1; apply preserves_bind; [apply _| |]].
    - case_decide; [|apply preserves_ret; apply _].
      eapply preserves_weaken; [apply cell_shrunk_allowed_shrunk|].
      eapply reports_preserves, strike_reports.
    - case_decide; [|apply preserves_ret; apply _].
      eapply preserves_weaken; [apply cell_shrunk_allowed_shrunk|].
      eapply reports_preserves, strike_reports.
    - intros n2. apply preserves_ret; apply _. }
  apply collapse_loop in Hcollapse as [Hshr3 Hcollapsed].
  assert (allowed_shrunk (with_Grid g (with_NumEmpty n b)) b3) as [E Hsub].
  { etransitivity; [exact Hshr2|]. by eapply cell_shrunk_allowed_shrunk. }
  destruct Hok as [Hrange Hdec]. simpl in *. split.
  - intros r c s' v Hs' Hv.
    destruct (sets_shrunk_cell _ _ _ _ _ Hsub Hs') as (s & Hs & Hss).
    rewrite E. simpl. eapply Hrange; [exact Hs|]. by apply Hss.
  - intros r c x s' Hx Hxne Hs'. rewrite E in Hx. simpl in Hx.
    destruct (sets_shrunk_cell _ _ _ _ _ Hsub Hs') as (s & Hs & Hss).
    rewrite (cell_upd_cell _ _ _ _ _ r c Hg) in Hx.
    destruct (decide (r = ri /\ c = ci)) as [[-> ->]|Hother].
    + simplify_eq. intros v Hv. apply elem_of_singleton.
      eapply Hcollapsed; [exact Hs'|exact Hv|].
      apply elem_of_range. specialize (Hrange ri ci s v Hs (Hss v Hv)). lia.
    + specialize (Hdec r c x s Hx Hxne Hs). set_solver.
Qed.

#[global] Hint Resolve Mark_keeps_candidates_ok : preserves_db.

Lemma MarkMandatory_keeps_candidates_ok fuel :
  preserves keeps_candidates_ok (MarkMandatory fuel).
Proof.
  induction fuel as [|fuel IH]; simpl; [apply preserves_panic|].
  unfold MarkMandatory_pass. preserves_tac.
Qed.

Lemma solving_step_keeps_candidates_ok b b' :
  solving_step b b' -> keeps_candidates_ok b b'.
Proof.
  destruct 1 as [ri ci val b r b' H|fuel b r b' H|b r b' H|b r b' H|n b r b' H|n b r b' H].
  - by eapply Mark_keeps_candidates_ok.
  - by eapply MarkMandatory_keeps_candidates_ok.
  - by eapply allowed_shrunk_keeps, TrimAllowedFromPerms_reports.
  - by eapply perms_shrunk_keeps, TrimPermsFromAllowed_reports.
  - by eapply allowed_shrunk_keeps, TrimNakedSets_reports.
  - by eapply allowed_shrunk_keeps, TrimFoundGroups_reports.
Qed.

(** ** What the constructor leaves *)

Lemma idx_replicate {A} (n : nat) (x y : A) i : idx (replicate n x) i = Some y -> y = x.
Proof. intros [_ H]%idx_Some. by apply lookup_replicate in H as [-> _]. Qed.

Lemma cell_replicate {A} (n m : nat) (x y : A) r c :
  cell (replicate n (replicate m x)) r c = Some y -> y = x.
Proof.
  intros (row & Hr & Hc)%cell_Some. apply idx_replicate in Hr as ->.
  by apply idx_replicate in Hc.
Qed.

Lemma elem_of_NumSet n v : v ∈ NumSet n <-> 1 <= v <= n.
Proof. unfold NumSet. rewrite elem_of_list_to_set, elem_of_range. lia. Qed.

Lemma blank_board_Some size b :
  blank_board size = Some b ->
  0 <= size <= maxInt /\
  b = mkBoard (replicate (Z.to_nat size) (replicate (Z.to_nat size) 0))
              (NewAllowed size) (int (size * size)) size []
              (replicate (Z.to_nat (int (size * 4))) None) []
              (replicate (Z.to_nat size) None) (replicate (Z.to_nat size) None).
Proof.
  unfold blank_board, make. intros H.
  destruct (decide (int (size * 4) < 0 \/ maxInt < int (size * 4))); simpl in H; [done|].
  destruct (decide (size < 0 \/ maxInt < size)); simpl in H; [done|].
  simplify_eq. split; [lia|done].
Qed.

Lemma blank_board_candidates_ok size b : blank_board size = Some b -> candidates_ok b.
Proof.
  intros [_ ->]%blank_board_Some. split.
  - intros r c s v Hs Hv. simpl in *. apply cell_replicate in Hs as ->.
    by apply elem_of_NumSet.
  - intros r c g s Hg Hne. simpl in *. by apply cell_replicate in Hg as ->.
Qed.

Lemma AddObserver_Some o b u b' :
  AddObserver o b = Some (u, b') ->
  b' = b \/ exists os, b' = mkBoard (Grid b) (Allowed b) (NumEmpty b) (Size b)
                              (Observers b ++ [o]) os
                              (Perms b) (RowPerms b) (ColPerms b) /\
                      length os = length (ObsSorted b) /\ Count o <> 0.
Proof.
  unfold AddObserver. destruct (decide (Count o = 0)) as [|Hc].
  - intros H%ret_Some. left. by simplify_eq.
  - intros H. right.
    destruct (idx (ObsSorted b) _) as [[old|]|]; simpl in H; try done.
    destruct (upd (ObsSorted b) _ (Some o)) as [os|] eqn:Hos; simpl in H; [|done].
    simplify_eq. exists os. split; [done|]. split; [|done].
    apply len_upd in Hos. unfold len in Hos. lia.
Qed.

Lemma AddObserver_same_cells o : preserves same_cells (AddObserver o).
Proof.
  intros b u b' [->|(os & -> & _)]%AddObserver_Some; [reflexivity|].
  by split_and!.
Qed.

Lemma set_RowPerms_Some ri v b u b' :
  set_RowPerms ri v b = Some (u, b') <->
  exists rp, upd (RowPerms b) ri v = Some rp /\ b' = with_RowPerms rp b.
Proof.
  unfold set_RowPerms. destruct (upd (RowPerms b) ri v) as [rp|] eqn:H; simpl; split.
  - intros ?. simplify_eq. by exists rp.
  - intros (? & ? & ?). destruct u. by simplify_eq.
  - done.
  - by intros (? & ? & _).
Qed.

Lemma set_ColPerms_Some ci v b u b' :
  set_ColPerms ci v b = Some (u, b') <->
  exists cp, upd (ColPerms b) ci v = Some cp /\ b' = with_ColPerms cp b.
Proof.
  unfold set_ColPerms. destruct (upd (ColPerms b) ci v) as [cp|] eqn:H; simpl; split.
  - intros ?. simplify_eq. by exists cp.
  - intros (? & ? & ?). destruct u. by simplify_eq.
  - done.
  - by intros (? & ? & _).
Qed.

Lemma set_RowPerms_same_cells ri v : preserves same_cells (set_RowPerms ri v).
Proof. intros b u b' (rp & _ & ->)%set_RowPerms_Some. by split_and!. Qed.

Lemma set_ColPerms_same_cells ci v : preserves same_cells (set_ColPerms ci v).
Proof. intros b u b' (cp & _ & ->)%set_ColPerms_Some. by split_and!. Qed.

#[global] Hint Resolve set_RowPerms_same_cells set_ColPerms_same_cells : preserves_db.

Lemma PopulateRowColPerms_same_cells : preserves same_cells PopulateRowColPerms.
Proof. unfold PopulateRowColPerms. preserves_tac. Qed.

Lemma AddObserver_keeps_candidates_ok o : preserves keeps_candidates_ok (AddObserver o).
Proof.
  eapply preserves_weaken; [apply same_cells_keeps|apply AddObserver_same_cells].
Qed.

#[global] Hint Resolve AddObserver_keeps_candidates_ok : preserves_db.

Lemma load_inputs_keeps_candidates_ok inputs :
  preserves keeps_candidates_ok (load_inputs inputs).
Proof. unfold load_inputs. preserves_tac. Qed.

(** The steps of [BoardFromString], one after the other. *)
Lemma BoardFromString_Some input b :
  BoardFromString input = Some b ->
  exists b0 inputs u1 b1 perms u2 b2 u3,
    blank_board (len (input_lines input) - 2) = Some b0 /\
    parse_inputs (input_lines input) = Some inputs /\
    load_inputs inputs b0 = Some (u1, b1) /\
    PermuteN (Size b1) = Some perms /\
    PopulateRowColPerms
      (mkBoard (Grid b1) (Allowed b1) (NumEmpty b1) (Size b1) (Observers b1)
               (ObsSorted b1) perms (RowPerms b1) (ColPerms b1)) = Some (u2, b2) /\
    TrimAllowedFromPerms b2 = Some (u3, b).
Proof.
  unfold BoardFromString. intros H.
  apply option.bind_Some in H as (b0 & H0 & H).
  apply option.bind_Some in H as (inputs & Hin & H).
  apply option.bind_Some in H as ([u1 b1] & H1 & H).
  apply option.bind_Some in H as (perms & Hp & H).
  apply option.bind_Some in H as ([u2 b2] & H2 & H).
  apply option.bind_Some in H as ([u3 b3] & H3 & H).
  simplify_eq. by exists b0, inputs, u1, b1, perms, u2, b2, u3.
Qed.

Lemma BoardFromString_candidates_ok input b :
  BoardFromString input = Some b -> candidates_ok b.
Proof.
  intros (b0 & inputs & u1 & b1 & perms & u2 & b2 & u3 & H0 & _ & H1 & _ & H2 & H3)
    %BoardFromString_Some.
  apply blank_board_candidates_ok in H0.
  apply load_inputs_keeps_candidates_ok in H1. specialize (H1 H0).
  apply PopulateRowColPerms_same_cells, same_cells_keeps in H2.
  apply TrimAllowedFromPerms_reports in H3 as [H3%allowed_shrunk_keeps _].
  apply H3, H2. destruct H1 as [Hr Hd]. split; done.
Qed.




(** ** Early return against full sweep *)

Section stops.
Context (P : relation Board).

Lemma stops_ret_false : stops_at_first P (ret false).
Proof. intros b c b' H%ret_Some. by simplify_eq. Qed.

Lemma stops_query {A} (f : Board -> option A) (k : A -> M bool) :
  (forall a, stops_at_first P (k a)) -> stops_at_first P (bind (query f) k).
Proof.
  intros Hk b c b' (a & b1 & (a' & _ & ?)%query_Some & H2)%bind_Some.
  simplify_eq. by eapply Hk.
Qed.

Lemma stops_for_return {A} (l : list A) (body : A -> M bool) :
  (forall x, x ∈ l -> stops_at_first P (body x)) -> stops_at_first P (for_return l body).
Proof.
  induction l as [|x l IH]; intros H b c b' Hrun; simpl in Hrun.
  - apply ret_Some in Hrun. by simplify_eq.
  - apply bind_Some in Hrun as (cx & b1 & Hx & Hrest).
    apply H in Hx; [|left]. destruct cx.
    + apply ret_Some in Hrest. by simplify_eq.
    + subst b1. apply IH in Hrest; [done|]. intros y Hy. apply H. by right.
Qed.

Lemma stops_or_else (m1 m2 : M bool) :
  stops_at_first P m1 -> stops_at_first P m2 ->
  stops_at_first P (r <- m1 ;; if r : bool then ret true else m2)%board.
Proof.
  intros H1 H2 b c b' (r & b1 & Hm1 & Hrest)%bind_Some.
  apply H1 in Hm1. destruct r.
  - apply ret_Some in Hrest. by simplify_eq.
  - subst b1. by apply H2.
Qed.

End stops.

Lemma DisallowAll_stops r c toRemove :
  stops_at_first one_cell_struck (DisallowAll r c toRemove).
Proof.
  intros b ch b' [Hshr Hch]%DisallowAll_reports. destruct ch; [|done].
  destruct Hshr as [->|(s & s' & a' & Hs & Hsub & Ha' & ->)]; [lia|].
  exists r, c, s, s', a'. split_and!; try done.
  split; [done|]. intros Hsup. assert (s' = s) as -> by set_solver.
  rewrite (upd_cell_same _ _ _ _ Hs) in Ha'. simplify_eq.
  rewrite with_Allowed_same in Hch. lia.
Qed.

Lemma TrimNakedSets_stops n : stops_at_first one_cell_struck (TrimNakedSets n).
Proof.
  unfold TrimNakedSets. apply stops_query. intros sz. apply stops_query. intros indices.
  apply stops_or_else;
    repeat first
      [ apply DisallowAll_stops
      | apply stops_ret_false
      | apply stops_query; intros
      | apply stops_for_return; intros
      | match goal with
        | |- stops_at_first _ (if ?c then _ else _) => destruct c
        end ].
Qed.

Lemma shrinks_two_cells_sound (o : option Board) :
  shrinks_two_cells o = true ->
  exists b b',
    o = Some b /\
    TrimFoundGroups 2 b = Some (true, b') /\
    cell (Allowed b) 0 0 = Some {[2; 3; 4]} /\
    cell (Allowed b') 0 0 = Some {[2; 3]} /\
    cell (Allowed b) 0 1 = Some {[2; 3; 5]} /\
    cell (Allowed b') 0 1 = Some {[2; 3]}.
Proof.
  unfold shrinks_two_cells. destruct o as [b|]; [|discriminate].
  destruct (TrimFoundGroups 2 b) as [[[|] b']|] eqn:Hrun; [|discriminate..].
  intros H. exists b, b'.
  apply andb_true_iff in H as [H H4]. apply andb_true_iff in H as [H H3].
  apply andb_true_iff in H as [H1 H2].
  apply bool_decide_eq_true_1 in H1, H2, H3, H4. by split_and!.
Qed.

Lemma testRowFoundGroup_shrinks_two_cells :
  shrinks_two_cells testRowFoundGroup_board = true.
Proof. vm_compute. reflexivity. Qed.


(** ** The permutation generator *)

(** *** The enumeration *)

Lemma length_bind_const {A B} (f : A -> list B) (l : list A) (P : A -> Prop)
    `{!forall x, Decision (P x)} (n : nat) :
  (forall x, x ∈ l -> P x -> length (f x) = n) ->
  (forall x, x ∈ l -> ~ P x -> f x = []) ->
  length (l ≫= f) = (length (filter P l) * n)%nat.
Proof.
  induction l as [|x l IH]; intros Hin Hout; [done|].
  rewrite bind_cons, length_app, IH.
  - destruct (decide (P x)) as [Hx|Hx].
    + rewrite filter_cons_True by done. rewrite (Hin x) by (done || left). simpl. lia.
    + rewrite filter_cons_False by done. rewrite (Hout x) by (done || left). done.
  - intros y Hy. apply Hin. by right.
  - intros y Hy. apply Hout. by right.
Qed.

Lemma filter_ext_in {A} (P Q : A -> Prop)
    `{!forall x, Decision (P x)} `{!forall x, Decision (Q x)} (l : list A) :
  (forall x, x ∈ l -> P x <-> Q x) -> filter P l = filter Q l.
Proof.
  induction l as [|x l IH]; intros Hext; [done|].
  assert (filter P l = filter Q l) as E by (apply IH; intros y Hy; apply Hext; by right).
  destruct (decide (P x)) as [HP|HP].
  - rewrite (filter_cons_True P), (filter_cons_True Q), E; [done|..|done].
    by apply Hext; [left|].
  - rewrite (filter_cons_False P), (filter_cons_False Q), E; [done|..|done].
    intros HQ. apply HP. by apply Hext; [left|].
Qed.

Lemma filter_remove_one {A} `{EqDecision A} (P Q : A -> Prop)
    `{!forall x, Decision (P x)} `{!forall x, Decision (Q x)} (l : list A) (a : A) :
  NoDup l -> a ∈ l -> P a ->
  (forall x, Q x <-> P x /\ x <> a) ->
  S (length (filter Q l)) = length (filter P l).
Proof.
  intros Hnd Ha HPa HQ. induction Hnd as [|x l Hx Hnd IH].
  - by apply elem_of_nil in Ha.
  - apply elem_of_cons in Ha as [<-|Ha].
    + rewrite (filter_cons_True P) by done.
      rewrite (filter_cons_False Q) by (rewrite HQ; tauto). simpl. f_equal.
      f_equal. apply filter_ext_in. intros y Hy. rewrite HQ.
      split; [tauto|]. intros HP. split; [done|]. intros ->. done.
    + specialize (IH Ha). destruct (decide (P x)) as [HPx|HPx].
      * rewrite (filter_cons_True P) by done.
        rewrite (filter_cons_True Q) by (rewrite HQ; split; [done|]; intros ->; done).
        simpl. by rewrite IH.
      * rewrite (filter_cons_False P) by done.
        rewrite (filter_cons_False Q) by (rewrite HQ; tauto). done.
Qed.

Lemma idx_insert {A} (l : list A) (i j : Z) (x : A) :
  0 <= i < len l ->
  idx (<[Z.to_nat i := x]> l) j = if decide (j = i) then Some x else idx l j.
Proof.
  intros Hi. apply idx_upd. apply upd_Some. done.
Qed.

Lemma len_insert {A} (l : list A) (i : nat) (x : A) : len (<[i := x]> l) = len l.
Proof. unfold len. by rewrite length_insert. Qed.

Lemma unused_insert_true used i :
  idx used i = Some false -> S (unused (<[Z.to_nat i := true]> used)) = unused used.
Proof.
  intros Hi. pose proof (idx_lt _ _ _ Hi) as Hlt. unfold unused.
  rewrite len_insert.
  apply (filter_remove_one _ _ _ i).
  - apply NoDup_seqZ.
  - apply elem_of_range. lia.
  - done.
  - intros j. rewrite idx_insert by done.
    destruct (decide (j = i)) as [->|Hne]; [split; [done|tauto]|tauto].
Qed.

Lemma length_selections k used :
  length (selections k used) = falling (unused used) k.
Proof.
  revert used. induction k as [|k IH]; intros used; [done|]. simpl.
  rewrite (length_bind_const _ _ (fun i => idx used i = Some false)
             (falling (unused used - 1) k)).
  - done.
  - intros i _ Hi. rewrite Hi, length_fmap, IH.
    rewrite <- (unused_insert_true used i Hi). f_equal. lia.
  - intros i _ Hi. destruct (idx used i) as [[|]|]; done.
Qed.

Lemma elem_of_selections_S k used sel :
  sel ∈ selections (S k) used <->
  exists i sel', sel = i :: sel' /\ idx used i = Some false /\
                 sel' ∈ selections k (<[Z.to_nat i := true]> used).
Proof.
  simpl. rewrite list_elem_of_bind. split.
  - intros (i & Hsel & Hi). destruct (idx used i) as [[|]|] eqn:Hu;
      try by apply elem_of_nil in Hsel.
    apply list_elem_of_fmap in Hsel as (sel' & -> & Hsel'). by exists i, sel'.
  - intros (i & sel' & -> & Hu & Hsel'). exists i. rewrite Hu. split.
    + apply list_elem_of_fmap. by exists sel'.
    + apply elem_of_range. apply idx_lt in Hu. lia.
Qed.

(** A selection has [k] entries, all unused indices, none twice. *)
Lemma selections_sound k used sel :
  sel ∈ selections k used ->
  length sel = k /\ NoDup sel /\ forall i, i ∈ sel -> idx used i = Some false.
Proof.
  revert used sel. induction k as [|k IH]; intros used sel Hsel.
  - apply list_elem_of_singleton in Hsel as ->. split_and!; [done|constructor|].
    intros i Hi. by apply elem_of_nil in Hi.
  - apply elem_of_selections_S in Hsel as (i & sel' & -> & Hu & Hsel').
    apply IH in Hsel' as (Hlen & Hnd & Hall).
    pose proof (idx_lt _ _ _ Hu) as Hlt.
    assert (forall j, j ∈ sel' -> j <> i /\ idx used j = Some false) as Hall'.
    { intros j Hj. specialize (Hall j Hj). rewrite idx_insert in Hall by done.
      destruct (decide (j = i)); [done|]. done. }
    split_and!.
    + simpl. by rewrite Hlen.
    + constructor; [|done]. intros Hin. by apply Hall' in Hin as [? _].
    + intros j [->|Hj]%elem_of_cons; [done|]. by apply Hall'.
Qed.

(** Every such sequence is enumerated. *)
Lemma selections_complete k used sel :
  length sel = k -> NoDup sel -> (forall i, i ∈ sel -> idx used i = Some false) ->
  sel ∈ selections k used.
Proof.
  revert used sel. induction k as [|k IH]; intros used sel Hlen Hnd Hall.
  - destruct sel; [|done]. by apply list_elem_of_singleton.
  - destruct sel as [|i sel']; [done|]. apply elem_of_selections_S.
    exists i, sel'. apply NoDup_cons in Hnd as [Hi Hnd].
    assert (idx used i = Some false) as Hu by (apply Hall; left).
    split_and!; [done|done|]. apply IH; [by simplify_eq/=|done|].
    intros j Hj. rewrite idx_insert by (by eapply idx_lt).
    rewrite decide_False by (intros ->; done). apply Hall. by right.
Qed.

Lemma NoDup_selections k used : NoDup (selections k used).
Proof.
  revert used. induction k as [|k IH]; intros used; simpl.
  - apply NoDup_singleton.
  - apply NoDup_bind.
    + intros i j sel _ _ Hi Hj.
      destruct (idx used i) as [[|]|]; try by apply elem_of_nil in Hi.
      destruct (idx used j) as [[|]|]; try by apply elem_of_nil in Hj.
      apply list_elem_of_fmap in Hi as (s1 & -> & _).
      apply list_elem_of_fmap in Hj as (s2 & ? & _). by simplify_eq.
    + intros i _. destruct (idx used i) as [[|]|]; try apply NoDup_nil_2.
      apply NoDup_fmap_2; [|apply IH]. intros s1 s2 ?. by simplify_eq.
    + apply NoDup_seqZ.
Qed.

(** *** Appending *)

Lemma appends_nil {A} (out : list A) : appends out [] = Some out.
Proof. unfold appends. rewrite decide_True by (by left). by rewrite app_nil_r. Qed.

Lemma append_appends {A} (out : list A) (x : A) : append out x = appends out [x].
Proof.
  unfold append, appends, len. simpl.
  destruct (decide (Z.of_nat (length out) < maxInt)).
  - rewrite decide_True; [done|]. right. lia.
  - rewrite decide_False; [done|]. intros [?|?]; [done|lia].
Qed.

Lemma appends_cons {A} (out xs : list A) :
  xs <> [] ->
  appends out xs = if decide (len out + len xs <= maxInt) then Some (out ++ xs) else None.
Proof.
  intros Hne. unfold appends. destruct (decide (len out + len xs <= maxInt)).
  - by rewrite decide_True by (by right).
  - by rewrite decide_False by (intros [?|?]; done).
Qed.

Lemma len_app {A} (l1 l2 : list A) : len (l1 ++ l2) = len l1 + len l2.
Proof. unfold len. rewrite length_app. lia. Qed.

Lemma len_nonneg {A} (l : list A) : 0 <= len l.
Proof. unfold len. lia. Qed.

Lemma appends_app {A} (out xs ys : list A) :
  appends out (xs ++ ys) = out' ← appends out xs; appends out' ys.
Proof.
  destruct (decide (xs = [])) as [->|Hxs]; [by rewrite appends_nil|].
  destruct (decide (ys = [])) as [->|Hys].
  { rewrite app_nil_r. destruct (appends out xs) as [o|]; simpl; [|done].
    by rewrite appends_nil. }
  rewrite (appends_cons out (xs ++ ys)) by (by destruct xs).
  rewrite (appends_cons out xs) by done.
  pose proof (len_nonneg ys). pose proof (len_nonneg xs).
  destruct (decide (len out + len xs <= maxInt)) as [H1|H1]; simpl.
  - rewrite (appends_cons (out ++ xs) ys) by done. rewrite !len_app.
    destruct (decide (len out + (len xs + len ys) <= maxInt)).
    + rewrite decide_True by lia. by rewrite app_assoc.
    + by rewrite decide_False by lia.
  - rewrite len_app. by rewrite decide_False by lia.
Qed.

(** *** The recursion *)

Lemma completions_0 low used chosen : completions low 0 used chosen = [chosen].
Proof. unfold completions. simpl. by rewrite app_nil_r. Qed.

Lemma fmap_bind_list {A B C} (f : B -> C) (g : A -> list B) (l : list A) :
  f <$> (l ≫= g) = l ≫= fun x => f <$> g x.
Proof.
  induction l as [|x l IH]; [done|]. by rewrite !bind_cons, fmap_app, IH.
Qed.

Lemma bind_ext_in {A B} (f g : A -> list B) (l : list A) :
  (forall x, x ∈ l -> f x = g x) -> l ≫= f = l ≫= g.
Proof.
  induction l as [|x l IH]; intros H; [done|]. rewrite !bind_cons.
  rewrite (H x) by left. rewrite IH; [done|]. intros y Hy. apply H. by right.
Qed.

Lemma completions_S low k used chosen :
  completions low (S k) used chosen = range 0 (len used) ≫= branch low k used chosen.
Proof.
  unfold completions. simpl. rewrite fmap_bind_list.
  apply bind_ext_in. intros i _. unfold branch.
  destruct (idx used i) as [[|]|]; try done.
  unfold completions. rewrite <- !list_fmap_compose.
  apply list_fmap_ext. intros _ sel _. simpl. by rewrite <- app_assoc.
Qed.

Lemma permute_round_None deeper depth (l : list Z) :
  foldl (permute_round deeper depth) None l = None.
Proof. induction l as [|i l IH]; [done|]. simpl. exact IH. Qed.

Lemma upd_middle {A} (l1 l2 : list A) (x y : A) :
  upd (l1 ++ x :: l2) (len l1) y = Some (l1 ++ y :: l2).
Proof.
  apply upd_Some. unfold len. rewrite length_app. simpl. split; [lia|].
  rewrite Nat2Z.id. replace (length l1) with (length l1 + 0)%nat at 1 by lia.
  by rewrite insert_app_r.
Qed.

(** One round appends the completions of its branch and puts the
    generator back as it found it. *)
Lemma permute_round_eq deeper p chosen k out i :
  permuter_ok p chosen (S k) ->
  0 <= i < N p ->
  (forall p1 out1,
     permuter_ok p1 (chosen ++ [int (i + Lowest p)]) k ->
     N p1 = N p -> Lowest p1 = Lowest p ->
     deeper (p1, out1) =
       out' ← appends out1 (completions (Lowest p1) k (Used p1)
                              (chosen ++ [int (i + Lowest p)]));
       Some (p1, out')) ->
  permute_round deeper (len chosen) (Some (p, out)) i =
    out' ← appends out (branch (Lowest p) k (Used p) chosen i); Some (p, out').
Proof.
  intros (Hseq & Hused & HR & Hmax) Hi Hdeep. unfold permute_round, branch. simpl.
  simpl in Hseq.
  assert (is_Some (idx (Used p) i)) as [u Hu] by (apply idx_is_Some; lia).
  rewrite Hu. simpl. destruct u.
  { rewrite appends_nil. done. }
  rewrite Hseq. simpl. rewrite upd_middle. simpl.
  assert (upd (Used p) i true = Some (<[Z.to_nat i := true]> (Used p))) as ->
    by (apply upd_Some; split; [lia|done]).
  simpl. rewrite Hdeep; simpl; [| |done|done].
  - destruct (appends out _) as [out'|]; simpl; [|done].
    rewrite upd_middle. simpl.
    assert (upd (<[Z.to_nat i := true]> (Used p)) i false = Some (Used p)) as ->.
    { apply upd_Some. rewrite len_insert. split; [lia|].
      rewrite list_insert_insert_eq. apply idx_Some in Hu as [_ Hu].
      by rewrite list_insert_id. }
    simpl. rewrite <- Hseq. by destruct p.
  - split_and!; simpl; try done.
    + by rewrite <- app_assoc.
    + by rewrite len_insert.
    + rewrite len_app. unfold len at 2. simpl. lia.
Qed.

Lemma permute_loop_eq deeper p chosen k out (l : list Z) :
  permuter_ok p chosen (S k) ->
  (forall i, i ∈ l -> 0 <= i < N p) ->
  (forall i p1 out1,
     i ∈ l ->
     permuter_ok p1 (chosen ++ [int (i + Lowest p)]) k ->
     N p1 = N p -> Lowest p1 = Lowest p ->
     deeper (p1, out1) =
       out' ← appends out1 (completions (Lowest p1) k (Used p1)
                              (chosen ++ [int (i + Lowest p)]));
       Some (p1, out')) ->
  foldl (permute_round deeper (len chosen)) (Some (p, out)) l =
    out' ← appends out (l ≫= branch (Lowest p) k (Used p) chosen); Some (p, out').
Proof.
  intros Hok. revert out. induction l as [|i l IH]; intros out Hl Hdeep.
  - change (Some (p, out) = out' ← appends out []; Some (p, out')).
    by rewrite appends_nil.
  - rewrite bind_cons, appends_app. cbn [foldl].
    rewrite (permute_round_eq deeper p chosen k out i Hok).
    + destruct (appends out (branch _ _ _ _ i)) as [out1|]; simpl.
      * apply IH; [intros j Hj; apply Hl; by right|].
        intros j p1 o1 Hj. apply Hdeep. by right.
      * apply permute_round_None.
    + apply Hl. left.
    + intros p1 o1. apply Hdeep. left.
Qed.

(** [permute] appends the completions of the chosen values, in order,
    and returns the generator unchanged; it fails only when the output
    slice cannot take them. *)
Lemma permute_eq fuel k p chosen out :
  permuter_ok p chosen k -> (k <= fuel)%nat ->
  permute fuel (len chosen) (p, out) =
    out' ← appends out (completions (Lowest p) k (Used p) chosen); Some (p, out').
Proof.
  revert k p chosen out. induction fuel as [|fuel IH]; intros k p chosen out Hok Hk.
  - assert (k = 0%nat) as -> by lia. destruct Hok as (Hseq & _ & HR & _).
    simpl. rewrite decide_True by lia. simpl.
    rewrite completions_0, append_appends, Hseq. simpl. by rewrite app_nil_r.
  - destruct k as [|k].
    + destruct Hok as (Hseq & _ & HR & _). simpl. rewrite decide_True by lia. simpl.
      rewrite completions_0, append_appends, Hseq. simpl. by rewrite app_nil_r.
    + pose proof Hok as (Hseq & Hused & HR & Hmax). simpl.
      rewrite decide_False by lia. simpl.
      rewrite completions_S, Hused.
      apply (permute_loop_eq _ p chosen k out); [done|by intros i ?%elem_of_range|].
      intros i p1 out1 _ Hok1 _ _.
      pose proof (len_nonneg chosen).
      replace (int (len chosen + 1)) with (len (chosen ++ [int (i + Lowest p)])).
      * apply IH; [done|lia].
      * rewrite len_app. unfold len at 2. simpl. symmetry. apply int_small. lia.
Qed.

(** *** Counting *)

Lemma falling_fallingZ m k : Z.of_nat (falling m k) = fallingZ (Z.of_nat m) k.
Proof.
  revert m. induction k as [|k IH]; intros m; [done|]. simpl.
  rewrite Nat2Z.inj_mul, IH. destruct m as [|m]; [done|].
  do 2 f_equal. lia.
Qed.

Lemma fallingZ_nonneg m k : 0 <= m -> 0 <= fallingZ m k.
Proof.
  revert m. induction k as [|k IH]; intros m Hm; simpl; [lia|].
  destruct (decide (m = 0)) as [->|Hne]; [lia|].
  apply Z.mul_nonneg_nonneg; [lia|]. apply IH. lia.
Qed.

Lemma factorial_0 : factorial 0 = 1.
Proof. done. Qed.

Lemma factorial_succ n : 0 <= n -> factorial (n + 1) = (n + 1) * factorial n.
Proof.
  intros Hn. unfold factorial. replace (Z.to_nat (n + 1)) with (S (Z.to_nat n)) by lia.
  simpl. do 2 f_equal. lia.
Qed.

Lemma factorial_pos n : 0 <= n -> 1 <= factorial n.
Proof.
  intros Hn. pattern n. apply natlike_ind; [by rewrite factorial_0| |done].
  intros x Hx IH. rewrite <- Z.add_1_r, factorial_succ by done. nia.
Qed.

Lemma fallingZ_factorial m k :
  Z.of_nat k <= m -> fallingZ m k * factorial (m - Z.of_nat k) = factorial m.
Proof.
  revert m. induction k as [|k IH]; intros m Hk.
  - simpl. rewrite Z.sub_0_r. lia.
  - simpl. replace (m - Z.of_nat (S k)) with (m - 1 - Z.of_nat k) by lia.
    rewrite <- Z.mul_assoc, IH by lia.
    replace m with (m - 1 + 1) at 3 by lia. rewrite factorial_succ by lia.
    f_equal. lia.
Qed.

Lemma fallingZ_le_factorial m k : 0 <= m -> fallingZ m k <= factorial m.
Proof.
  intros Hm. destruct (decide (Z.of_nat k <= m)) as [Hk|Hk].
  - rewrite <- (fallingZ_factorial m k Hk).
    assert (1 <= factorial (m - Z.of_nat k)) by (apply factorial_pos; lia).
    pose proof (fallingZ_nonneg m k Hm). nia.
  - assert (fallingZ m k = 0) as ->; [|pose proof (factorial_pos m Hm); lia].
    revert m Hm Hk. induction k as [|k IH]; intros m Hm Hk; [lia|]. simpl.
    destruct (decide (m = 0)) as [->|Hne]; [done|]. rewrite IH by lia. lia.
Qed.

Lemma factorial_mono n m : 0 <= n <= m -> factorial n <= factorial m.
Proof.
  intros [Hn Hm].
  apply (Zlt_lower_bound_ind (fun x => factorial n <= factorial x) n); [|exact Hm].
  intros x IH Hx. destruct (decide (x = n)) as [->|Hne]; [lia|].
  replace x with (x - 1 + 1) by lia. rewrite factorial_succ by lia.
  assert (factorial n <= factorial (x - 1)) by (apply IH; lia).
  assert (1 <= factorial n) by (by apply factorial_pos). nia.
Qed.

Lemma factorial_20 : factorial 20 = 2432902008176640000.
Proof. vm_compute. reflexivity. Qed.

Lemma factorial_21 : factorial 21 = 51090942171709440000.
Proof. vm_compute. reflexivity. Qed.

(** Up to 20 the factorial fits an [int] and [fact] computes it; from
    21 on it does not fit. *)
Lemma factorial_small n : 0 <= n <= 20 -> 1 <= factorial n <= 2432902008176640000.
Proof.
  intros Hn. split; [apply factorial_pos; lia|].
  rewrite <- factorial_20. apply factorial_mono. lia.
Qed.

Lemma factorial_large n : 21 <= n -> maxInt < factorial n.
Proof.
  intros Hn. assert (factorial 21 <= factorial n) by (apply factorial_mono; lia).
  rewrite factorial_21 in *. unfold maxInt. lia.
Qed.

Lemma fact_from_factorial (k : nat) :
  (2 <= k <= 20)%nat -> fact_from k = factorial (Z.of_nat k).
Proof.
  intros Hk. induction k as [|k IH]; [lia|].
  destruct (decide (k = 1%nat)) as [->|Hne]; [done|].
  cbn [fact_from]. rewrite decide_False by lia. rewrite decide_False by lia.
  rewrite IH by lia. replace (Z.of_nat (S k)) with (Z.of_nat k + 1) by lia.
  rewrite factorial_succ by lia.
  pose proof (factorial_small (Z.of_nat k + 1)) as Hb.
  rewrite factorial_succ in Hb by lia. apply int_small. lia.
Qed.

Lemma fact_factorial n : 0 <= n <= 20 -> fact n = factorial n.
Proof.
  intros Hn. unfold fact. destruct (decide (n <= 1)) as [H1|H1].
  - assert (n = 0 \/ n = 1) as [->| ->] by lia; done.
  - rewrite fact_from_factorial by lia. f_equal. lia.
Qed.

Lemma fact_nonpositive n : n <= 1 -> fact n = 1.
Proof. intros Hn. unfold fact. by rewrite decide_True. Qed.

(** *** The entry points *)

Lemma filter_all {A} (P : A -> Prop) `{!forall x, Decision (P x)} (l : list A) :
  (forall x, x ∈ l -> P x) -> filter P l = l.
Proof.
  induction l as [|x l IH]; intros Hall; [done|].
  rewrite filter_cons_True by (apply Hall; left). f_equal.
  apply IH. intros y Hy. apply Hall. by right.
Qed.

Lemma unused_replicate (n : nat) : unused (replicate n false) = n.
Proof.
  unfold unused, len. rewrite length_replicate. rewrite filter_all.
  - unfold range. rewrite length_seqZ. lia.
  - intros i Hi%elem_of_range.
    apply idx_Some. split; [lia|]. apply lookup_replicate. split; [done|lia].
Qed.

Lemma len_completions low k used chosen :
  len (completions low k used chosen) = fallingZ (Z.of_nat (unused used)) k.
Proof.
  unfold completions, len. by rewrite length_fmap, length_selections, falling_fallingZ.
Qed.

Lemma make_Some {A} (n : Z) (x : A) :
  0 <= n <= maxInt -> make n x = Some (replicate (Z.to_nat n) x).
Proof. intros Hn. unfold make. by rewrite decide_False by lia. Qed.

(** The run of the generator inside [Permute], once its slices are
    made. *)
Lemma Permute_run low (n r : Z) :
  0 <= n -> 0 <= r <= maxInt ->
  permute (Z.to_nat r) 0
    (mkPermuter n r low (replicate (Z.to_nat r) 0) (replicate (Z.to_nat n) false), []) =
  out ← appends [] (completions low (Z.to_nat r) (replicate (Z.to_nat n) false) []);
  Some (mkPermuter n r low (replicate (Z.to_nat r) 0) (replicate (Z.to_nat n) false), out).
Proof.
  intros Hn Hr.
  set (p := mkPermuter n r low (replicate (Z.to_nat r) 0) (replicate (Z.to_nat n) false)).
  assert (permuter_ok p [] (Z.to_nat r)) as Hok.
  { split_and!; simpl; [done| | |].
    - unfold len. rewrite length_replicate. lia.
    - unfold len. simpl. lia.
    - unfold maxInt in Hr. lia. }
  exact (permute_eq (Z.to_nat r) (Z.to_nat r) p [] [] Hok (le_n _)).
Qed.

(** On a range of at most 20 values [Permute] returns the completions
    of the empty sequence. *)
Lemma Permute_eq low high r :
  0 <= high - low + 1 <= 20 -> 0 <= r <= high - low + 1 ->
  Permute low high r =
    Some (completions low (Z.to_nat r) (replicate (Z.to_nat (high - low + 1)) false) []).
Proof.
  intros Hn Hr. unfold Permute. set (n := high - low + 1) in *.
  replace (int (int (high - low) + 1)) with n by (subst n; unwrap; lia).
  replace (int (n - r)) with (n - r) by (unwrap; lia).
  rewrite !fact_factorial by lia.
  pose proof (factorial_small n Hn) as Hfn.
  assert (1 <= factorial (n - r) <= 2432902008176640000) as Hfr
    by (apply factorial_small; lia).
  unfold div. rewrite decide_False by lia. simpl.
  assert (0 <= factorial n ÷ factorial (n - r) <= factorial n) as Hq.
  { split; [apply Z.quot_pos; lia|]. rewrite Z.quot_div_nonneg by lia.
    apply Z.div_le_upper_bound; [lia|]. nia. }
  rewrite (int_small (factorial n ÷ _)) by lia.
  rewrite make_Some by (unfold maxInt; lia). simpl.
  rewrite make_Some by (unfold maxInt; lia). simpl.
  rewrite make_Some by (unfold maxInt; lia). simpl.
  rewrite Permute_run by (unfold maxInt; lia).
  rewrite appends_cons.
  - rewrite len_completions, unused_replicate, Z2Nat.id by lia.
    pose proof (fallingZ_le_factorial n (Z.to_nat r)).
    rewrite decide_True by (unfold len, maxInt; simpl; lia). done.
  - intros Hnil. apply (f_equal len) in Hnil.
    rewrite len_completions, unused_replicate, Z2Nat.id in Hnil by lia.
    pose proof (fallingZ_factorial n (Z.to_nat r)) as Hff.
    rewrite Hnil in Hff. unfold len in Hff. simpl in Hff. lia.
Qed.

Lemma PermuteN_unfold n : PermuteN n = Permute 1 n n.
Proof. reflexivity. Qed.

(** Beyond 20 values the sequences no longer fit a slice. *)
Lemma Permute_large n : 20 < n <= maxInt -> Permute 1 n n = None.
Proof.
  intros Hn. unfold Permute. unfold maxInt in Hn.
  replace (int (int (n - 1) + 1)) with n by (unwrap; lia).
  destruct (div _ _) as [cap|]; cbn [mbind option_bind]; [|done].
  destruct (make cap _) as [?|]; cbn [mbind option_bind]; [|done].
  rewrite !make_Some by (unfold maxInt; lia). cbn [mbind option_bind].
  rewrite Permute_run by (unfold maxInt; lia).
  assert (maxInt < len (completions 1 (Z.to_nat n) (replicate (Z.to_nat n) false) []))
    as Hbig.
  { rewrite len_completions, unused_replicate, Z2Nat.id by lia.
    apply (factorial_large n). lia. }
  unfold appends. rewrite decide_False; [done|].
  intros [Hd|Hd].
  - rewrite Hd in Hbig. unfold len, maxInt in Hbig. simpl in Hbig. lia.
  - pose proof (len_nonneg (@nil (list Z))). lia.
Qed.

(** [PermuteN] only returns for sizes whose factorial fits an [int]. *)
Lemma PermuteN_Some n perms :
  0 <= n <= maxInt -> PermuteN n = Some perms ->
  n <= 20 /\
  perms = completions 1 (Z.to_nat n) (replicate (Z.to_nat n) false) [].
Proof.
  intros Hn Hrun. rewrite PermuteN_unfold in Hrun.
  destruct (decide (n <= 20)) as [Hsmall|Hlarge].
  - rewrite Permute_eq in Hrun by lia. simplify_eq. split; [done|].
    by replace (n - 1 + 1) with n by lia.
  - rewrite Permute_large in Hrun by lia. done.
Qed.

(** *** What [Permute] returns *)

Lemma fmap_inj_on {A B} (f : A -> B) (l1 l2 : list A) :
  (forall x y, x ∈ l1 -> y ∈ l2 -> f x = f y -> x = y) ->
  f <$> l1 = f <$> l2 -> l1 = l2.
Proof.
  revert l2. induction l1 as [|x l1 IH]; intros [|y l2] Hinj Heq; try done.
  simpl in Heq. injection Heq as Hxy Hrest. f_equal.
  - apply Hinj; [left|left|done].
  - apply IH; [|done]. intros a b Ha Hb. apply Hinj; by right.
Qed.

(** For a range of at most 20 values and an arity up to its size,
    [Permute] returns the falling-factorial number of sequences,
    pairwise distinct, each of [r] distinct values of the range. *)
Lemma Permute_spec low high r :
  is_int low -> is_int high -> low <= high -> high - low + 1 <= 20 ->
  1 <= r <= high - low + 1 ->
  exists out,
    Permute low high r = Some out /\
    len out * factorial (high - low + 1 - r) = factorial (high - low + 1) /\
    NoDup out /\
    forall s, s ∈ out ->
      len s = r /\ NoDup s /\ forall x, x ∈ s -> low <= x <= high.
Proof.
  intros Hlow Hhigh Hle Hsmall Hr.
  eexists. split; [apply Permute_eq; lia|].
  remember (high - low + 1) as n eqn:Hn.
  set (used := replicate (Z.to_nat n) false).
  assert (forall i, idx used i = Some false -> 0 <= i < n /\ int (i + low) = i + low)
    as Hidx.
  { intros i Hi%idx_lt. unfold used, len in Hi. rewrite length_replicate in Hi.
    split; [lia|]. apply int_small.
    pose proof (proj1 (is_int_bounds _) Hlow). pose proof (proj1 (is_int_bounds _) Hhigh).
    lia. }
  assert (forall sel, sel ∈ selections (Z.to_nat r) used ->
            forall i, i ∈ sel -> 0 <= i < n /\ int (i + low) = i + low) as Hsel.
  { intros sel (_ & _ & Hall)%selections_sound i Hi. by apply Hidx, Hall. }
  assert (forall s1 s2, s1 ∈ selections (Z.to_nat r) used ->
            s2 ∈ selections (Z.to_nat r) used ->
            forall i j, i ∈ s1 -> j ∈ s2 -> int (i + low) = int (j + low) -> i = j)
    as Hinj.
  { intros s1 s2 H1 H2 i j Hi Hj Heq.
    destruct (Hsel s1 H1 i Hi) as [_ Ei]. destruct (Hsel s2 H2 j Hj) as [_ Ej]. lia. }
  split_and!.
  - rewrite len_completions. unfold used. rewrite unused_replicate, Z2Nat.id by lia.
    replace (n - r) with (n - Z.of_nat (Z.to_nat r)) by lia.
    apply fallingZ_factorial. lia.
  - unfold completions. apply NoDup_fmap_2_strong; [|apply NoDup_selections].
    intros s1 s2 H1 H2 Heq. simpl in Heq.
    eapply fmap_inj_on; [|exact Heq]. intros i j. by apply Hinj.
  - intros s (sel & -> & Hin)%list_elem_of_fmap. simpl.
    pose proof (selections_sound _ _ _ Hin) as (Hlen & Hnd & _).
    split_and!.
    + unfold len. rewrite length_fmap, Hlen. lia.
    + apply NoDup_fmap_2_strong; [|done]. intros i j Hi Hj. by apply (Hinj sel sel).
    + intros x (i & -> & Hi)%list_elem_of_fmap.
      destruct (Hsel sel Hin i Hi) as [Hrange ->]. lia.
Qed.

(** C2 fails on the code from 21 values on: the capacity that
    [Permute] first computes is [fact(21) / fact(20)], where [fact(21)]
    has wrapped to a negative number, and [make] panics on it. *)
Theorem Permute_overflow :
  fact 21 = -4249290049419214848 /\
  div (fact 21) (fact 20) = Some (-1) /\
  Permute 1 21 1 = None.
Proof. split_and!; vm_compute; reflexivity. Qed.

Example Permute_1_3_2 :
  Permute 1 3 2 = Some [[1; 2]; [1; 3]; [2; 1]; [2; 3]; [3; 1]; [3; 2]].
Proof. reflexivity. Qed.

(** * Further properties of the code *)

(** ** Characters and factorials *)

Lemma int_is_int (x : Z) : is_int (int x).
Proof.
  unfold is_int, int, wrap, minInt, maxInt.
  pose proof (Z.mod_pos_bound (x + 2 ^ (64 - 1)) (2 ^ 64)) as H.
  change (2 ^ (64 - 1)) with 9223372036854775808 in *.
  change (2 ^ 64) with 18446744073709551616 in *.
  change (2 ^ 63) with 9223372036854775808. lia.
Qed.

(** X1: [ChToInt] reads the characters '1'..'9' and 'a'..'z' as a
    number from 1 to 35 that [IntToCh] writes back as the same
    character, and reads every other rune, '0' and the blank among
    them, as 0. *)
Theorem ChToInt_spec (ch : Z) :
  (49 <= ch <= 57 \/ 97 <= ch <= 122 ->
     1 <= ChToInt ch <= 35 /\ IntToCh (ChToInt ch) = ch) /\
  (~ (49 <= ch <= 57 \/ 97 <= ch <= 122) -> ChToInt ch = 0).
Proof.
  split.
  - intros [Hd|Hl]; unfold ChToInt.
    + rewrite decide_True by lia. unwrap. split; [lia|].
      unfold IntToCh. rewrite decide_False by lia. unwrap. lia.
    + rewrite decide_False by lia. rewrite decide_True by lia. unwrap. split; [lia|].
      unfold IntToCh. rewrite decide_True by lia. unwrap. lia.
  - intros Hn. unfold ChToInt. rewrite !decide_False by lia. done.
Qed.

Lemma fact_from_is_int (k : nat) : is_int (fact_from k).
Proof.
  destruct k as [|k]; [by vm_compute|]. cbn [fact_from].
  repeat case_decide; try apply int_is_int; by vm_compute.
Qed.

(** X2: for a nonnegative n, [fact n] is the factorial of n exactly
    when n is at most 20; from 21 on the product has wrapped around. *)
Theorem fact_exact (n : Z) : 0 <= n -> fact n = factorial n <-> n <= 20.
Proof.
  intros Hn. split.
  - intros Heq. destruct (decide (n <= 20)) as [|Hbig]; [done|]. exfalso.
    pose proof (factorial_large n ltac:(lia)) as Hlarge.
    assert (is_int (fact n)) as Hint.
    { unfold fact. case_decide; [by vm_compute|apply fact_from_is_int]. }
    rewrite Heq in Hint. unfold is_int in Hint. lia.
  - intros Hsmall. apply fact_factorial. lia.
Qed.

Lemma fact_exact_witness : 0 <= 5 /\ (fact 5 = factorial 5 <-> 5 <= 20).
Proof. split; [lia | apply (fact_exact 5); lia]. Defined.

(** ** Comparing candidate sets *)

(** X3: [NumSetsEqual] answers true exactly when the two sets have the
    same members, although it only looks the members of the first up
    in the second. *)
Theorem NumSetsEqual_eq (a b : gset Z) : NumSetsEqual a b = true <-> a = b.
Proof.
  unfold NumSetsEqual. split.
  - case_decide as Hsz; [done|]. intros Hall.
    assert (a ⊆ b) as Hsub.
    { intros k Hk. rewrite forallb_forall in Hall.
      specialize (Hall k). rewrite <- list_elem_of_In, elem_of_elements in Hall.
      specialize (Hall Hk). by apply bool_decide_eq_true in Hall. }
    apply set_eq. intros x. split; [apply Hsub|]. intros Hx.
    destruct (decide (x ∈ a)) as [|Hna]; [done|]. exfalso.
    assert (a ⊂ b) as Hstrict by set_solver.
    apply subset_size in Hstrict. lia.
  - intros ->. rewrite decide_False by lia.
    apply forallb_forall. intros k Hk. apply bool_decide_eq_true.
    by rewrite <- list_elem_of_In, elem_of_elements in Hk.
Qed.

(** ** More on the permutation generator *)

Lemma falling_short (m k : nat) : (m < k)%nat -> falling m k = 0%nat.
Proof.
  revert m. induction k as [|k IH]; intros m Hm; [lia|].
  cbn [falling]. destruct m as [|m]; [done|].
  rewrite IH by lia. lia.
Qed.

Lemma idx_replicate_false (n : nat) (i : Z) :
  idx (replicate n false) i = Some false <-> 0 <= i < Z.of_nat n.
Proof.
  rewrite idx_Some, lookup_replicate. split; [intros (? & _ & ?)|intros [? ?]]; [lia|].
  split_and!; [done..|lia].
Qed.

(** The members of the completions of the empty sequence, when no
    value of the range wraps around. *)
Lemma elem_of_completions low (n k : nat) (s : list Z) :
  is_int low -> is_int (low + Z.of_nat n - 1) ->
  s ∈ completions low k (replicate n false) [] <->
  length s = k /\ NoDup s /\ forall x, x ∈ s -> low <= x < low + Z.of_nat n.
Proof.
  intros Hlow Hhigh.
  pose proof (proj1 (is_int_bounds _) Hlow) as Blow.
  pose proof (proj1 (is_int_bounds _) Hhigh) as Bhigh.
  assert (forall i, 0 <= i < Z.of_nat n -> int (i + low) = i + low) as Hint.
  { intros i Hi. apply int_small. lia. }
  unfold completions. rewrite list_elem_of_fmap. simpl. split.
  - intros (sel & -> & Hin).
    apply selections_sound in Hin as (Hlen & Hnd & Hall).
    assert (forall i, i ∈ sel -> 0 <= i < Z.of_nat n) as Hrange.
    { intros i Hi. by apply idx_replicate_false, Hall. }
    split_and!.
    + by rewrite length_fmap.
    + apply NoDup_fmap_2_strong; [|done]. intros i j Hi Hj.
      rewrite !Hint by auto. lia.
    + intros x (i & -> & Hi)%list_elem_of_fmap. rewrite Hint by auto.
      specialize (Hrange i Hi). lia.
  - intros (Hlen & Hnd & Hall).
    exists ((fun x => x - low) <$> s). split.
    + rewrite <- list_fmap_compose. symmetry. etrans; [|apply list_fmap_id].
      apply list_fmap_ext. intros j x Hx%list_elem_of_lookup_2. simpl.
      specialize (Hall x Hx). rewrite Hint by lia. lia.
    + apply selections_complete.
      * by rewrite length_fmap.
      * apply NoDup_fmap_2_strong; [|done]. intros; lia.
      * intros i (x & -> & Hx)%list_elem_of_fmap. apply idx_replicate_false.
        specialize (Hall x Hx). lia.
Qed.



Lemma make_None {A} (n : Z) (x : A) : n < 0 -> make n x = None.
Proof. intros Hn. unfold make. by rewrite decide_True by lia. Qed.




(** ** Exact effects of the deletions *)

Lemma narrow_Some r c f b b' :
  narrow r c f b = Some b' <->
  exists s a, cell (Allowed b) r c = Some s /\
              upd_cell (Allowed b) r c (f s) = Some a /\ b' = with_Allowed a b.
Proof.
  unfold narrow. destruct (cell (Allowed b) r c) as [s|]; simpl; [|naive_solver].
  destruct (upd_cell (Allowed b) r c (f s)) as [a|] eqn:E; simpl; naive_solver.
Qed.

Lemma narrow_is_Some r c f b s :
  cell (Allowed b) r c = Some s -> is_Some (narrow r c f b).
Proof.
  intros Hs. unfold narrow. rewrite Hs. simpl.
  destruct (proj2 (upd_cell_is_Some (Allowed b) r c (f s))) as [a ->]; [by eexists|].
  by eexists.
Qed.

Lemma narrow_None r c f b : cell (Allowed b) r c = None -> narrow r c f b = None.
Proof. intros Hs. unfold narrow. by rewrite Hs. Qed.

Lemma narrow_ext r c f g b s :
  cell (Allowed b) r c = Some s -> f s = g s -> narrow r c f b = narrow r c g b.
Proof. intros Hs Heq. unfold narrow. rewrite Hs. simpl. by rewrite Heq. Qed.

Lemma narrow_id r c f b s :
  cell (Allowed b) r c = Some s -> f s = s -> narrow r c f b = Some b.
Proof.
  intros Hs Heq. unfold narrow. rewrite Hs. simpl. rewrite Heq.
  rewrite (upd_cell_same _ _ _ _ Hs). simpl. by rewrite with_Allowed_same.
Qed.

Lemma narrow_cell r c f b b' r' c' :
  narrow r c f b = Some b' ->
  cell (Allowed b') r' c' =
    if decide (r' = r /\ c' = c) then f <$> cell (Allowed b) r c
    else cell (Allowed b) r' c'.
Proof.
  intros (s & a & Hs & Ha & ->)%narrow_Some. simpl.
  rewrite (cell_upd_cell _ _ _ _ _ r' c' Ha). case_decide; [|done]. by rewrite Hs.
Qed.

Lemma narrow_narrow r c f g b b1 :
  narrow r c f b = Some b1 -> narrow r c g b1 = narrow r c (g ∘ f) b.
Proof.
  intros H1. pose proof (narrow_cell _ _ _ _ _ r c H1) as Hc.
  rewrite decide_True in Hc by done.
  apply narrow_Some in H1 as (s & a & Hs & Ha & ->).
  rewrite Hs in Hc. simpl in Hc.
  unfold narrow at 1. simpl. rewrite Hc. simpl.
  unfold narrow. rewrite Hs. simpl.
  destruct (proj2 (upd_cell_is_Some a r c (g (f s)))) as [a2 Ha2].
  { rewrite (cell_upd_cell _ _ _ _ _ r c Ha), decide_True by done. by eexists. }
  rewrite Ha2, (upd_cell_twice _ _ _ _ _ _ _ Ha Ha2). done.
Qed.

(** [strike] removes the value from the one candidate set and tells
    whether it was there. *)
Lemma strike_eq r c v b :
  strike r c v b =
    s ← cell (Allowed b) r c;
    b' ← narrow r c (fun s => s ∖ {[v]}) b;
    Some (bool_decide (v ∈ s), b').
Proof.
  unfold strike. rewrite bind_eq. unfold query, IsAllowed.
  destruct (cell (Allowed b) r c) as [s|] eqn:Hs; simpl; [|done].
  case_bool_decide as Hin.
  - rewrite bind_eq. unfold delete_allowed, narrow. rewrite Hs. simpl.
    by destruct (upd_cell _ _ _ _).
  - rewrite (narrow_id _ _ _ _ s) by (done || set_solver). done.
Qed.

(** A loop that strikes the keys of [l] it does not skip. *)
Lemma strike_loop r c (skip : Z -> bool) (l : list Z) b s :
  cell (Allowed b) r c = Some s ->
  for_flag l (fun k => if skip k then ret false else strike r c k) b =
    b' ← narrow r c (fun s => s ∖ list_to_set (filter (fun k => skip k = false) l)) b;
    Some (bool_decide (s ∖ list_to_set (filter (fun k => skip k = false) l) ≠ s), b').
Proof.
  revert b s. induction l as [|k l IH]; intros b s Hs.
  - rewrite for_flag_nil. rewrite (narrow_id _ _ _ _ s) by (done || set_solver).
    simpl. rewrite bool_decide_eq_false_2; [done|]. intros H. apply H. set_solver.
  - rewrite for_flag_cons, bind_eq. destruct (skip k) eqn:Hk.
    + unfold ret at 1. rewrite bind_eq, (IH b s Hs).
      rewrite filter_cons_False by (by rewrite Hk).
      by destruct (narrow _ _ _ _).
    + rewrite filter_cons_True by done.
      rewrite strike_eq, Hs. simpl.
      destruct (narrow_is_Some r c (fun s => s ∖ {[k]}) b s Hs) as [b1 Hb1].
      rewrite Hb1. simpl.
      assert (cell (Allowed b1) r c = Some (s ∖ {[k]})) as Hs1.
      { rewrite (narrow_cell _ _ _ _ _ r c Hb1), decide_True, Hs by done. done. }
      rewrite bind_eq, (IH b1 _ Hs1), (narrow_narrow _ _ _ _ _ _ Hb1).
      set (D := list_to_set (filter (fun k0 => skip k0 = false) l) : gset Z).
      rewrite (narrow_ext r c _ (fun s => s ∖ ({[k]} ∪ D)) b s Hs) by set_solver.
      destruct (narrow r c (fun s => s ∖ ({[k]} ∪ D)) b) as [b2|]; simpl; [|done].
      unfold ret. do 2 f_equal.
      destruct (decide (k ∈ s)) as [Hin|Hout].
      * rewrite (bool_decide_eq_true_2 (k ∈ s)) by done. simpl. symmetry.
        apply bool_decide_eq_true_2. set_solver.
      * rewrite (bool_decide_eq_false_2 (k ∈ s)) by done. simpl.
        apply bool_decide_ext.
        replace (s ∖ {[k]}) with s by set_solver.
        replace (s ∖ ({[k]} ∪ D)) with (s ∖ D) by set_solver. done.
Qed.

(** X7: [DisallowAll] on a nonempty [toRemove] replaces the candidate
    set [s] of the cell by [s] without the members of [toRemove] and
    touches nothing else; it returns true exactly when that changes
    the set, and it panics when the cell is outside the grid.  With an
    empty [toRemove] it returns false without looking at the cell. *)
Theorem DisallowAll_exact ri ci (toRemove : gset Z) b :
  DisallowAll ri ci toRemove b =
    if decide (toRemove = ∅) then Some (false, b)
    else
      s ← cell (Allowed b) ri ci;
      b' ← narrow ri ci (fun s => s ∖ toRemove) b;
      Some (bool_decide (s ∖ toRemove ≠ s), b').
Proof.
  unfold DisallowAll. case_decide as He.
  - subst toRemove. rewrite elements_empty. apply for_flag_nil.
  - destruct (cell (Allowed b) ri ci) as [s|] eqn:Hs; simpl.
    + change (for_flag (elements toRemove) (fun k => strike ri ci k) b)
        with (for_flag (elements toRemove)
                (fun k => if (fun _ => false) k then ret false else strike ri ci k) b).
      rewrite (strike_loop ri ci (fun _ => false) _ b s Hs).
      rewrite filter_all by done. rewrite list_to_set_elements_L. done.
    + destruct (elements toRemove) as [|k l] eqn:El.
      { apply elements_empty_inv in El. apply leibniz_equiv in El. done. }
      rewrite for_flag_cons, bind_eq, strike_eq, Hs. done.
Qed.

(** X8: [DisallowOthers] replaces the candidate set [s] of the cell by
    the members of [s] that occur in [toKeep] and touches nothing
    else; it returns true exactly when some member of [s] was not in
    [toKeep], and it panics when the cell is outside the grid. *)
Theorem DisallowOthers_exact ri ci (toKeep : list Z) b :
  DisallowOthers ri ci toKeep b =
    s ← cell (Allowed b) ri ci;
    b' ← narrow ri ci (fun s => s ∩ list_to_set toKeep) b;
    Some (bool_decide (s ∩ list_to_set toKeep ≠ s), b').
Proof.
  unfold DisallowOthers. rewrite bind_eq. unfold query.
  destruct (cell (Allowed b) ri ci) as [s|] eqn:Hs; simpl; [|done].
  rewrite (strike_loop ri ci (fun k => existsb (fun v => bool_decide (v = k)) toKeep)
             _ b s Hs).
  set (D := list_to_set (filter _ (elements s)) : gset Z).
  assert (s ∖ D = s ∩ list_to_set toKeep) as HD.
  { apply set_eq. intros x. subst D.
    rewrite elem_of_difference, elem_of_intersection, elem_of_list_to_set,
      list_elem_of_filter, elem_of_elements, elem_of_list_to_set.
    assert (existsb (fun v => bool_decide (v = x)) toKeep = true <-> x ∈ toKeep) as Hex.
    { rewrite existsb_exists. split.
      - intros (v & Hv%list_elem_of_In & ->%bool_decide_eq_true). done.
      - intros Hx. exists x. split; [by apply list_elem_of_In|by apply bool_decide_eq_true]. }
    destruct (existsb _ toKeep); naive_solver. }
  rewrite (narrow_ext ri ci _ (fun s => s ∩ list_to_set toKeep) b s Hs) by done.
  by rewrite HD.
Qed.

(** ** Writing a cell and writing it back *)

Lemma int_add_int_l (x y : Z) : int (int x + y) = int (x + y).
Proof.
  unfold int, wrap. f_equal.
  replace ((x + 2 ^ (64 - 1)) mod 2 ^ 64 - 2 ^ (64 - 1) + y + 2 ^ (64 - 1))
    with ((x + 2 ^ (64 - 1)) mod 2 ^ 64 + y) by lia.
  rewrite Zplus_mod_idemp_l. f_equal. lia.
Qed.

Lemma int_sub_int_l (x y : Z) : int (int x - y) = int (x - y).
Proof. unfold Z.sub. apply int_add_int_l. Qed.

Lemma Set'_eq ri ci val old b g :
  Get ri ci b = Some old -> old <> val ->
  upd_cell (Grid b) ri ci val = Some g ->
  Set' ri ci val b =
    Some (true,
          with_Grid g
            (with_NumEmpty
               (if decide (old <> EMPTY /\ val = EMPTY) then int (NumEmpty b + 1)
                else if decide (old = EMPTY /\ val <> EMPTY) then int (NumEmpty b - 1)
                else NumEmpty b) b)).
Proof.
  intros Hget Hne Hg. unfold Set', bind, query. rewrite Hget.
  rewrite decide_False by done.
  repeat case_decide; simpl; rewrite Hg; simpl; unfold ret; try done; by destruct b.
Qed.

(** X9: writing a different value into a cell with [Set'] and then
    writing the old value back restores the board, counter of empty
    cells included; in particular [Unset] undoes a [Set'] on an empty
    cell. *)
Theorem Set_undo ri ci val old b :
  Get ri ci b = Some old -> old <> val -> is_int (NumEmpty b) ->
  (Set' ri ci val ;;; Set' ri ci old)%board b = Some (true, b) /\
  (old = EMPTY -> (Set' ri ci val ;;; Unset ri ci)%board b = Some (true, b)).
Proof.
  intros Hget Hne Hint.
  assert ((Set' ri ci val ;;; Set' ri ci old)%board b = Some (true, b)) as Hundo.
  { destruct (proj2 (upd_cell_is_Some (Grid b) ri ci val)) as [g Hg]; [by eexists|].
    rewrite bind_eq, (Set'_eq ri ci val old b g Hget Hne Hg).
    set (b1 := with_Grid g _).
    assert (Get ri ci b1 = Some val) as Hget1.
    { unfold Get. simpl. by rewrite (cell_upd_cell _ _ _ _ _ ri ci Hg), decide_True. }
    assert (upd_cell (Grid b1) ri ci old = Some (Grid b)) as Hg1.
    { simpl. destruct (proj2 (upd_cell_is_Some g ri ci old)) as [g2 Hg2].
      { rewrite (cell_upd_cell _ _ _ _ _ ri ci Hg), decide_True by done. by eexists. }
      pose proof (upd_cell_twice _ _ _ _ _ _ _ Hg Hg2) as Hback.
      rewrite (upd_cell_same _ _ _ _ Hget) in Hback. by simplify_eq. }
    rewrite (Set'_eq ri ci old val b1 (Grid b) Hget1 (not_eq_sym Hne) Hg1).
    f_equal. f_equal. subst b1. destruct b as [G A n sz O OS P RP CP]. simpl in *.
    unfold with_Grid, with_NumEmpty. simpl. f_equal.
    pose proof (proj1 (is_int_bounds _) Hint) as Hb.
    repeat case_decide; try tauto; try lia;
      rewrite ?int_add_int_l, ?int_sub_int_l;
      match goal with |- int ?x = _ => replace x with n by lia end;
      apply int_small; lia. }
  split; [done|]. intros ->. exact Hundo.
Qed.

Lemma Set_undo_witness :
  Get 1 0 board22 = Some 0 /\ 0 <> 2 /\ is_int (NumEmpty board22) /\
  (Set' 1 0 2 ;;; Set' 1 0 0)%board board22 = Some (true, board22) /\
  (0 = EMPTY -> (Set' 1 0 2 ;;; Unset 1 0)%board board22 = Some (true, board22)).
Proof.
  split; [reflexivity|]. split; [lia|]. split; [by vm_compute|].
  apply (Set_undo 1 0 2 0 board22); [reflexivity|lia|by vm_compute].
Defined.

(** ** Well-formed boards *)

Lemma square_cell {A} (n : Z) (g : list (list A)) r c :
  square n g -> 0 <= r < n -> 0 <= c < n -> is_Some (cell g r c).
Proof.
  intros [Hlen Hrows] Hr Hc.
  destruct (proj2 (idx_is_Some g r)) as [row Hrow]; [lia|].
  unfold cell. rewrite Hrow. simpl. apply idx_is_Some.
  rewrite Forall_forall in Hrows. rewrite (Hrows row); [done|].
  by eapply elem_of_idx.
Qed.

Lemma square_cell_inv {A} (n : Z) (g : list (list A)) r c x :
  square n g -> cell g r c = Some x -> 0 <= r < n /\ 0 <= c < n.
Proof.
  intros [Hlen Hrows] (row & Hrow & Hx)%cell_Some.
  rewrite Forall_forall in Hrows.
  pose proof (idx_lt _ _ _ Hrow). pose proof (idx_lt _ _ _ Hx).
  rewrite (Hrows row) in * by (by eapply elem_of_idx). lia.
Qed.

Lemma square_same_shape {A} (n : Z) (g g' : list (list A)) :
  same_shape g g' -> square n g -> square n g'.
Proof.
  intros H [Hlen Hrows]. split.
  - unfold len in *. by rewrite <- (Forall2_length _ _ _ H).
  - rewrite Forall_forall in *. intros row' [i Hi]%list_elem_of_lookup_1.
    destruct (Forall2_lookup_r _ _ _ _ _ H Hi) as (row & Hrow & Heq).
    unfold len in *. rewrite <- Heq. apply Hrows. by eapply list_elem_of_lookup_2.
Qed.

Lemma indices_ok_perm_le m o o' : perm_le o o' -> indices_ok m o -> indices_ok m o'.
Proof.
  destruct o as [l|], o' as [l'|]; simpl; try done.
  intros Hsub Hall. rewrite Forall_forall in *. intros x Hx. apply Hall.
  by eapply sublist_subseteq.
Qed.

Lemma indices_ok_lists_shrunk m p p' :
  lists_shrunk p p' -> Forall (indices_ok m) p -> Forall (indices_ok m) p'.
Proof.
  intros H Hall. rewrite Forall_forall in *. intros o' [i Hi]%list_elem_of_lookup_1.
  destruct (Forall2_lookup_r _ _ _ _ _ H Hi) as (o & Ho & Hle).
  eapply indices_ok_perm_le; [done|]. apply Hall. by eapply list_elem_of_lookup_2.
Qed.

(** Every solving operation keeps a board well-formed. *)
Lemma wf_evolves b b' : wf b -> evolves b b' -> wf b'.
Proof.
  intros (Hsz & Hg & Ha & Hos & Hrp & Hcp & Hp & Hri & Hci & Hobs)
         (ESz & EP & EO & EOS & Hshape & Hsets & Hrows & Hcols).
  unfold wf. rewrite ESz, EP, EO, EOS. split; [done|]. split_and!; try done.
  - by eapply square_same_shape.
  - eapply square_same_shape; [|done].
    eapply Forall2_impl; [exact Hsets|]. intros r r' H. by eapply Forall2_length.
  - unfold len in *. by rewrite <- (Forall2_length _ _ _ Hrows).
  - unfold len in *. by rewrite <- (Forall2_length _ _ _ Hcols).
  - by eapply indices_ok_lists_shrunk.
  - by eapply indices_ok_lists_shrunk.
Qed.

Lemma ok_evolves n P b b' : ok n P b -> evolves b b' -> ok n P b'.
Proof.
  intros (Hwf & Hn & HP) Hev. split; [by eapply wf_evolves|].
  destruct Hev as (ESz & EP & _). by rewrite ESz, EP.
Qed.

(** ** Computations that return *)

Section runs.
Context (I : Board -> Prop).

Lemma runs_ret {A} (a : A) : runs I (ret a).
Proof. intros b Hb. by exists a, b. Qed.

Lemma runs_bind {A B} (m : M A) (k : A -> M B) :
  runs I m -> (forall a, runs I (k a)) -> runs I (bind m k).
Proof.
  intros Hm Hk b Hb. destruct (Hm b Hb) as (a & b1 & Hrun & Hb1).
  destruct (Hk a b1 Hb1) as (r & b2 & Hrun2 & Hb2).
  exists r, b2. split; [|done]. rewrite bind_eq, Hrun. done.
Qed.

(** Reading a value that is known to satisfy [R] whatever the board. *)
Lemma runs_query {A B} (R : A -> Prop) (f : Board -> option A) (k : A -> M B) :
  (forall b, I b -> exists a, f b = Some a /\ R a) ->
  (forall a, R a -> runs I (k a)) ->
  runs I (bind (query f) k).
Proof.
  intros Hf Hk b Hb. destruct (Hf b Hb) as (a & Hfa & Ha).
  destruct (Hk a Ha b Hb) as (r & b2 & Hrun2 & Hb2).
  exists r, b2. split; [|done]. rewrite bind_eq. unfold query. by rewrite Hfa.
Qed.

Lemma runs_query_ret {A} (f : Board -> option A) :
  (forall b, I b -> is_Some (f b)) -> runs I (query f).
Proof.
  intros Hf b Hb. destruct (Hf b Hb) as [a Ha]. exists a, b.
  unfold query. by rewrite Ha.
Qed.

Lemma runs_for_acc {A S} (l : list A) (s : S) (body : A -> S -> M S) :
  (forall x s, x ∈ l -> runs I (body x s)) -> runs I (for_acc l s body).
Proof.
  revert s. induction l as [|x l IH]; intros s Hbody; simpl.
  - apply runs_ret.
  - apply runs_bind; [apply Hbody; left|].
    intros s'. apply IH. intros y s'' Hy. apply Hbody. by right.
Qed.

Lemma runs_for_ {A} (l : list A) (body : A -> M unit) :
  (forall x, x ∈ l -> runs I (body x)) -> runs I (for_ l body).
Proof. intros H. apply runs_for_acc. intros x _ Hx. by apply H. Qed.

Lemma runs_for_flag {A} (l : list A) (body : A -> M bool) :
  (forall x, x ∈ l -> runs I (body x)) -> runs I (for_flag l body).
Proof.
  intros H. apply runs_for_acc. intros x s Hx.
  apply runs_bind; [by apply H|]. intros c. apply runs_ret.
Qed.

Lemma runs_for_return {A} (l : list A) (body : A -> M bool) :
  (forall x, x ∈ l -> runs I (body x)) -> runs I (for_return l body).
Proof.
  induction l as [|x l IH]; intros Hbody; simpl.
  - apply runs_ret.
  - apply runs_bind; [apply Hbody; left|].
    intros [|]; [apply runs_ret|]. apply IH. intros y Hy. apply Hbody. by right.
Qed.

(** A computation that returns and is known to keep the board in the
    order [evolves] keeps an invariant that is closed under it. *)
Lemma runs_evolves {A} (m : M A) :
  (forall b b', I b -> evolves b b' -> I b') ->
  preserves evolves m ->
  (forall b, I b -> is_Some (m b)) ->
  runs I m.
Proof.
  intros Hclosed Hpres Hsome b Hb. destruct (Hsome b Hb) as [[a b'] Hrun].
  exists a, b'. split; [done|]. eapply Hclosed; [done|]. by eapply Hpres.
Qed.

End runs.

(** ** The operations return on well-formed boards *)

Lemma all_ok_is_Some {A} (ok : A -> option bool) (l : list A) :
  (forall x, x ∈ l -> is_Some (ok x)) -> is_Some (all_ok ok l).
Proof.
  induction l as [|x l IH]; intros H; simpl; [by eexists|].
  destruct (H x) as [[|] ->]; [left| |]; simpl; [|by eexists].
  apply IH. intros y Hy. apply H. by right.
Qed.

Lemma any_ok_is_Some {A} (ok : A -> option bool) (l : list A) :
  (forall x, x ∈ l -> is_Some (ok x)) -> is_Some (any_ok ok l).
Proof.
  induction l as [|x l IH]; intros H; simpl; [by eexists|].
  destruct (H x) as [[|] ->]; [left| |]; simpl; [by eexists|].
  apply IH. intros y Hy. apply H. by right.
Qed.

Lemma filter_ok_is_Some {A} (ok : A -> option bool) (l : list A) :
  (forall x, x ∈ l -> is_Some (ok x)) -> is_Some (filter_ok ok l).
Proof.
  induction l as [|x l IH]; intros H; simpl; [by eexists|].
  destruct (H x) as [k ->]; [left|]. simpl.
  destruct IH as [rest ->]; [|by eexists].
  intros y Hy. apply H. by right.
Qed.

Section ok_runs.
Context (n : Z) (P : list (list Z)).

Lemma ok_Allowed b r c :
  ok n P b -> 0 <= r < n -> 0 <= c < n -> is_Some (cell (Allowed b) r c).
Proof.
  intros ((_ & _ & Ha & _) & <- & _) Hr Hc. by eapply square_cell.
Qed.

Lemma ok_Grid b r c :
  ok n P b -> 0 <= r < n -> 0 <= c < n -> is_Some (cell (Grid b) r c).
Proof.
  intros ((_ & Hg & _) & <- & _) Hr Hc. by eapply square_cell.
Qed.

Lemma ok_Size b : ok n P b -> exists a, Some (Size b) = Some a /\ a = n.
Proof. intros (_ & <- & _). by eexists. Qed.

Lemma ok_perm b pi i :
  ok n P b -> 0 <= pi < len P -> 0 <= i < n ->
  exists p v, idx (Perms b) pi = Some p /\ idx p i = Some v.
Proof.
  intros ((_ & _ & _ & _ & _ & _ & Hp & _) & <- & <-) Hpi Hi.
  destruct (proj2 (idx_is_Some (Perms b) pi)) as [p Hp1]; [done|].
  rewrite Forall_forall in Hp. specialize (Hp p (elem_of_idx _ _ _ Hp1)).
  destruct (proj2 (idx_is_Some p i)) as [v Hv]; [lia|]. by exists p, v.
Qed.

Lemma ok_RowPerms b ri :
  ok n P b -> 0 <= ri < n ->
  exists rp, idx (RowPerms b) ri = Some rp /\ indices_ok (len P) rp.
Proof.
  intros ((_ & _ & _ & _ & Hlen & _ & _ & Hri & _) & <- & <-) Hr.
  destruct (proj2 (idx_is_Some (RowPerms b) ri)) as [rp Hrp]; [lia|].
  exists rp. split; [done|]. rewrite Forall_forall in Hri.
  apply Hri. by eapply elem_of_idx.
Qed.

Lemma ok_ColPerms b ci :
  ok n P b -> 0 <= ci < n ->
  exists cp, idx (ColPerms b) ci = Some cp /\ indices_ok (len P) cp.
Proof.
  intros ((_ & _ & _ & _ & _ & Hlen & _ & _ & Hci & _) & <- & <-) Hc.
  destruct (proj2 (idx_is_Some (ColPerms b) ci)) as [cp Hcp]; [lia|].
  exists cp. split; [done|]. rewrite Forall_forall in Hci.
  apply Hci. by eapply elem_of_idx.
Qed.

Lemma delete_allowed_runs r c v :
  0 <= r < n -> 0 <= c < n -> runs (ok n P) (delete_allowed r c v).
Proof.
  intros Hr Hc. apply runs_evolves; [apply ok_evolves|apply delete_allowed_evolves|].
  intros b Hb. destruct (ok_Allowed b r c Hb Hr Hc) as [s Hs].
  unfold delete_allowed. rewrite Hs. simpl.
  destruct (proj2 (upd_cell_is_Some (Allowed b) r c (s ∖ {[v]}))) as [a ->]; by eexists.
Qed.

Lemma strike_runs r c v :
  0 <= r < n -> 0 <= c < n -> runs (ok n P) (strike r c v).
Proof.
  intros Hr Hc. apply runs_evolves; [apply ok_evolves|apply strike_evolves|].
  intros b Hb. destruct (ok_Allowed b r c Hb Hr Hc) as [s Hs].
  rewrite strike_eq, Hs. simpl.
  destruct (narrow_is_Some r c (fun s => s ∖ {[v]}) b s Hs) as [b' ->]. by eexists.
Qed.

Lemma Set'_runs ri ci val :
  0 <= ri < n -> 0 <= ci < n -> runs (ok n P) (Set' ri ci val).
Proof.
  intros Hr Hc. apply runs_evolves; [apply ok_evolves|apply Set'_evolves|].
  intros b Hb. destruct (ok_Grid b ri ci Hb Hr Hc) as [old Hold].
  destruct (decide (old = val)) as [->|Hne].
  - unfold Set', bind, query, Get. rewrite Hold. rewrite decide_True by done. by eexists.
  - destruct (proj2 (upd_cell_is_Some (Grid b) ri ci val)) as [g Hg]; [by eexists|].
    rewrite (Set'_eq ri ci val old b g Hold Hne Hg). by eexists.
Qed.

Lemma Mark_runs ri ci val :
  0 <= ri < n -> 0 <= ci < n -> runs (ok n P) (Mark ri ci val).
Proof.
  intros Hr Hc. unfold Mark.
  apply runs_bind; [by apply Set'_runs|]. intros [|]; simpl; [|apply runs_ret].
  apply (runs_query _ (fun a => a = n)); [apply ok_Size|]. intros sz ->.
  apply runs_bind.
  - apply runs_for_flag. intros i Hi%elem_of_range.
    apply runs_bind; [case_decide; [by apply strike_runs|apply runs_ret]|]. intros n1.
    apply runs_bind; [case_decide; [by apply strike_runs|apply runs_ret]|]. intros n2.
    apply runs_ret.
  - intros nb. apply runs_bind; [|intros; apply runs_ret].
    apply runs_for_. intros i Hi. case_decide; [by apply delete_allowed_runs|apply runs_ret].
Qed.

Lemma MarkMandatory_pass_runs : runs (ok n P) MarkMandatory_pass.
Proof.
  unfold MarkMandatory_pass.
  apply (runs_query _ (fun a => a = n)).
  { intros b ((_ & _ & [Ha _] & _) & <- & _). by eexists. }
  intros nrows ->. apply runs_for_acc. intros ri flags Hri%elem_of_range.
  apply (runs_query _ (fun a => a = n)).
  { intros b ((_ & _ & [Hlen Ha] & _) & <- & _).
    destruct (proj2 (idx_is_Some (Allowed b) ri)) as [row Hrow]; [lia|].
    rewrite Hrow. simpl. eexists. split; [done|].
    rewrite Forall_forall in Ha. apply Ha. by eapply elem_of_idx. }
  intros ncols ->. apply runs_for_acc. intros ci flags' Hci%elem_of_range.
  apply (runs_query _ (fun _ => True)).
  { intros b Hb. destruct (ok_Allowed b ri ci Hb Hri Hci) as [s ->]. by eexists. }
  intros allowed _. case_decide; [apply runs_ret|].
  apply (runs_query _ (fun _ => True)).
  { intros b Hb. destruct (ok_Grid b ri ci Hb Hri Hci) as [g Hg].
    unfold Get. rewrite Hg. by eexists. }
  intros g _. case_decide; [apply runs_ret|].
  apply runs_bind; [by apply Mark_runs|]. intros r. apply runs_ret.
Qed.

Lemma perm_places_is_Some b perms pos v :
  ok n P b -> indices_ok (len P) (Some perms) -> 0 <= pos < n ->
  is_Some (perm_places perms pos v b).
Proof.
  intros Hb Hperms Hpos. unfold perm_places. apply any_ok_is_Some.
  intros pi Hpi. simpl in Hperms. rewrite Forall_forall in Hperms.
  destruct (ok_perm b pi pos Hb (Hperms pi Hpi) Hpos) as (p & x & -> & Hx).
  simpl. rewrite Hx. by eexists.
Qed.

Lemma unsupported_is_Some b ri ci v :
  ok n P b -> 0 <= ri < n -> 0 <= ci < n -> is_Some (unsupported ri ci v b).
Proof.
  intros Hb Hr Hc. unfold unsupported.
  destruct (ok_RowPerms b ri Hb Hr) as (rp & -> & Hrp). simpl.
  destruct (ok_ColPerms b ci Hb Hc) as (cp & Hcp & Hcpok).
  assert (is_Some (match cp with
                   | Some cp0 => negb <$> perm_places cp0 ri v b
                   | None => Some false
                   end)) as Hcol.
  { destruct cp as [cp|]; [|by eexists].
    destruct (perm_places_is_Some b cp ri v Hb Hcpok Hr) as [x ->]. by eexists. }
  destruct rp as [rp|]; simpl.
  - destruct (perm_places_is_Some b rp ci v Hb Hrp Hc) as [x ->]. simpl.
    destruct x; simpl; [|by eexists]. by rewrite Hcp.
  - by rewrite Hcp.
Qed.

Lemma trim_candidate_runs ri ci v :
  0 <= ri < n -> 0 <= ci < n -> runs (ok n P) (trim_candidate ri ci v).
Proof.
  intros Hr Hc b Hb. rewrite trim_candidate_eq.
  revert b Hb. apply (runs_query _ (fun _ => True)).
  { intros b Hb. destruct (unsupported_is_Some b ri ci v Hb Hr Hc) as [d ->]. by eexists. }
  intros [|] _; [|apply runs_ret].
  apply runs_bind; [by apply delete_allowed_runs|]. intros. apply runs_ret.
Qed.

Lemma TrimAllowedFromPerms_runs : runs (ok n P) TrimAllowedFromPerms.
Proof.
  unfold TrimAllowedFromPerms.
  apply (runs_query _ (fun a => a = n)); [apply ok_Size|]. intros sz ->.
  apply runs_for_flag. intros ri Hri%elem_of_range.
  apply runs_for_flag. intros ci Hci%elem_of_range.
  unfold trim_cell. apply (runs_query _ (fun _ => True)).
  { intros b Hb. destruct (ok_Allowed b ri ci Hb Hri Hci) as [s ->]. by eexists. }
  intros allowed _. apply runs_for_flag. intros v _. by apply trim_candidate_runs.
Qed.

Lemma perm_allowed_is_Some b (at_ : Z -> Z * Z) pi :
  ok n P b -> 0 <= pi < len P ->
  (forall i, 0 <= i < n -> 0 <= (at_ i).1 < n /\ 0 <= (at_ i).2 < n) ->
  is_Some (perm_allowed at_ pi b).
Proof.
  intros Hb Hpi Hat. unfold perm_allowed. apply all_ok_is_Some.
  intros i Hi%elem_of_range.
  assert (Size b = n) as Hsz by (by destruct Hb as (_ & ? & _)). rewrite Hsz in Hi.
  destruct (ok_perm b pi i Hb Hpi Hi) as (p & v & -> & Hv). simpl. rewrite Hv. simpl.
  destruct (Hat i Hi) as [H1 H2].
  destruct (ok_Allowed b _ _ Hb H1 H2) as [s Hs].
  unfold IsAllowed. rewrite Hs. by eexists.
Qed.

Lemma trim_perms_is_Some get set (at_ : Z -> Z -> Z * Z) li b :
  ok n P b -> len (get b) = n -> Forall (indices_ok (len P)) (get b) ->
  0 <= li < n ->
  (forall i, 0 <= i < n -> 0 <= (at_ li i).1 < n /\ 0 <= (at_ li i).2 < n) ->
  is_Some (trim_perms get set at_ li b).
Proof.
  intros Hb Hlen Hall Hli Hat. unfold trim_perms. rewrite bind_eq. unfold query.
  destruct (proj2 (idx_is_Some (get b) li)) as [rp Hrp]; [lia|]. rewrite Hrp.
  destruct rp as [rp|]; [|by eexists].
  rewrite Forall_forall in Hall. pose proof (Hall _ (elem_of_idx _ _ _ Hrp)) as Hok.
  simpl in Hok. rewrite Forall_forall in Hok.
  rewrite bind_eq.
  destruct (filter_ok_is_Some (fun pi => perm_allowed (at_ li) pi b) rp) as [np Hnp].
  { intros pi Hpi. apply perm_allowed_is_Some; auto. }
  rewrite Hnp. case_decide; [|by eexists].
  destruct (proj2 (upd_is_Some (get b) li (Some np))) as [l ->]; [lia|]. by eexists.
Qed.

Lemma TrimPermsFromAllowed_runs : runs (ok n P) TrimPermsFromAllowed.
Proof.
  unfold TrimPermsFromAllowed.
  apply (runs_query _ (fun a => a = n)).
  { intros b ((_ & _ & _ & _ & Hlen & _) & <- & _). by eexists. }
  intros nrows ->. apply runs_bind.
  { apply runs_for_flag. intros ri Hri%elem_of_range.
    apply runs_evolves; [apply ok_evolves| |].
    - eapply preserves_weaken; [apply perms_shrunk_evolves|].
      eapply reports_preserves, trim_perms_row_reports.
    - intros b Hb. apply trim_perms_is_Some; try done.
      + by destruct Hb as ((_ & _ & _ & _ & Hlen & _) & <- & _).
      + by destruct Hb as ((_ & _ & _ & _ & _ & _ & _ & Hri' & _) & _ & <-). }
  intros ch1. apply (runs_query _ (fun a => a = n)).
  { intros b ((_ & _ & _ & _ & _ & Hlen & _) & <- & _). by eexists. }
  intros ncols ->. apply runs_bind; [|intros; apply runs_ret].
  apply runs_for_flag. intros ci Hci%elem_of_range.
  apply runs_evolves; [apply ok_evolves| |].
  - eapply preserves_weaken; [apply perms_shrunk_evolves|].
    eapply reports_preserves, trim_perms_col_reports.
  - intros b Hb. apply trim_perms_is_Some; try done.
    + by destruct Hb as ((_ & _ & _ & _ & _ & Hlen & _) & <- & _).
    + by destruct Hb as ((_ & _ & _ & _ & _ & _ & _ & _ & Hci' & _) & _ & <-).
Qed.

End ok_runs.

(** ** The pattern heuristics and the solved check return *)

Lemma foldl_option_inv {A B} (Inv : A -> Prop) (f : option A -> B -> option A)
    (l : list B) (x0 : A) :
  Inv x0 ->
  (forall x y, Inv x -> y ∈ l -> exists x', f (Some x) y = Some x' /\ Inv x') ->
  exists x', foldl f (Some x0) l = Some x' /\ Inv x'.
Proof.
  revert x0. induction l as [|y l IH]; intros x0 H0 Hstep; simpl; [by exists x0|].
  destruct (Hstep x0 y H0) as (x1 & -> & H1); [left|].
  apply IH; [done|]. intros x z Hx Hz. apply Hstep; [done|by right].
Qed.

Lemma elem_of_zip_range {A} (l : list A) (k : Z) (x : A) :
  (k, x) ∈ zip (range 0 (len l)) l -> idx l k = Some x.
Proof.
  intros [i Hi]%list_elem_of_lookup_1.
  apply lookup_zip_with_Some in Hi as (k' & x' & ? & Hk & Hx). simplify_eq.
  unfold range in Hk. apply lookup_seqZ in Hk as [-> _].
  rewrite Z.add_0_l, idx_of_nat. done.
Qed.

Section ok_runs_heuristics.
Context (n : Z) (P : list (list Z)).

Lemma CheckNakedSet_is_Some (at_ : Z -> Z * Z) idxs b :
  ok n P b ->
  (forall i, i ∈ idxs -> 0 <= (at_ i).1 < n /\ 0 <= (at_ i).2 < n) ->
  exists r, CheckNakedSet at_ idxs b = Some r /\ (r = true -> idxs <> []).
Proof.
  intros Hb Hat. destruct idxs as [|i0 rest]; simpl; [by exists false|].
  destruct (Hat i0) as [H1 H2]; [left|].
  destruct (ok_Allowed n P b _ _ Hb H1 H2) as [a0 Ha0]. rewrite Ha0. simpl.
  case_decide; [by exists false|].
  match goal with
  | |- context [all_ok ?f rest] => destruct (all_ok_is_Some f rest) as [r Hr]
  end.
  { intros i Hi. destruct (Hat i) as [G1 G2]; [by right|].
    destruct (ok_Grid n P b _ _ Hb G1 G2) as [g ->]. simpl.
    case_decide; [by eexists|].
    destruct (ok_Allowed n P b _ _ Hb G1 G2) as [a ->]. simpl.
    by eexists. }
  exists r. split; [exact Hr|done].
Qed.

Lemma DisallowAll_runs ri ci toRemove :
  0 <= ri < n -> 0 <= ci < n -> runs (ok n P) (DisallowAll ri ci toRemove).
Proof.
  intros Hr Hc. unfold DisallowAll. apply runs_for_flag. intros k _.
  by apply strike_runs.
Qed.

Lemma DisallowOthers_runs ri ci toKeep :
  0 <= ri < n -> 0 <= ci < n -> runs (ok n P) (DisallowOthers ri ci toKeep).
Proof.
  intros Hr Hc. unfold DisallowOthers. apply (runs_query _ (fun _ => True)).
  { intros b Hb. destruct (ok_Allowed n P b ri ci Hb Hr Hc) as [s ->]. by eexists. }
  intros allowed _. apply runs_for_flag. intros k _.
  destruct (existsb _ _); [apply runs_ret|by apply strike_runs].
Qed.

(** The index sets and value sets that the heuristics range over. *)
Lemma ok_Permute b low r :
  ok n P b -> is_int low -> is_int (low + n - 1) -> 0 <= r <= n ->
  exists out,
    Permute low (low + n - 1) r = Some out /\
    forall s, s ∈ out -> len s = r /\ forall x, x ∈ s -> low <= x < low + n.
Proof.
  intros ((Hsz & _) & Hn & _) Hlow Hhigh Hr. rewrite Hn in Hsz.
  eexists. split; [apply Permute_eq; lia|].
  replace (low + n - 1 - low + 1) with n by lia.
  intros s Hs. apply elem_of_completions in Hs; [|done|].
  - destruct Hs as (Hlen & _ & Hall). split; [unfold len; lia|].
    intros x Hx. specialize (Hall x Hx). lia.
  - by rewrite Z2Nat.id by lia.
Qed.

Lemma TrimNakedSets_runs r : 0 <= r <= n -> runs (ok n P) (TrimNakedSets r).
Proof.
  intros Hr. unfold TrimNakedSets.
  apply (runs_query _ (fun a => a = n)); [apply ok_Size|]. intros sz ->.
  apply (runs_query _ (fun indices =>
           forall s, s ∈ indices -> forall x, x ∈ s -> 0 <= x < n)).
  { intros b Hb.
    destruct (ok_Permute b 0 r Hb) as (out & Hout & Hall);
      [by vm_compute|destruct Hb as ((? & _) & ? & _); apply is_int_bounds; lia|done|].
    assert (Size b = n) as -> by (by destruct Hb as (_ & ? & _)).
    rewrite int_small by (destruct Hb as ((? & _) & ? & _); lia).
    replace (n - 1) with (0 + n - 1) by lia. rewrite Hout.
    eexists. split; [done|]. intros s Hs x Hx.
    destruct (Hall s Hs) as [_ Hin]. specialize (Hin x Hx). lia. }
  intros indices Hind.
  apply runs_bind.
  - apply runs_for_return. intros ri Hri%elem_of_range.
    apply runs_for_return. intros idxs Hidxs.
    apply (runs_query _ (fun r => r = true -> idxs <> [])).
    { intros b Hb. apply CheckNakedSet_is_Some; [done|].
      intros i Hi. simpl. split; [done|]. by eapply Hind. }
    intros [|] Hne; [|apply runs_ret].
    apply runs_for_return. intros ci Hci%elem_of_range.
    destruct (SliceContains idxs ci); [apply runs_ret|].
    apply (runs_query _ (fun _ => True)).
    { intros b Hb. destruct idxs as [|i0 rest]; [by destruct Hne|].
      change (idx (i0 :: rest) 0) with (Some i0). simpl.
      destruct (ok_Allowed n P b ri i0 Hb) as [s ->]; [done| |by eexists].
      eapply Hind; [done|left]. }
    intros toRemove _. by apply DisallowAll_runs.
  - intros [|]; [apply runs_ret|].
    apply runs_for_return. intros ci Hci%elem_of_range.
    apply runs_for_return. intros idxs Hidxs.
    apply (runs_query _ (fun r => r = true -> idxs <> [])).
    { intros b Hb. apply CheckNakedSet_is_Some; [done|].
      intros i Hi. simpl. split; [|done]. by eapply Hind. }
    intros [|] Hne; [|apply runs_ret].
    apply runs_for_return. intros ri Hri%elem_of_range.
    destruct (SliceContains idxs ri); [apply runs_ret|].
    apply (runs_query _ (fun _ => True)).
    { intros b Hb. destruct idxs as [|i0 rest]; [by destruct Hne|].
      change (idx (i0 :: rest) 0) with (Some i0). simpl.
      destruct (ok_Allowed n P b i0 ci Hb) as [s ->]; [|done|by eexists].
      eapply Hind; [done|left]. }
    intros toRemove _. by apply DisallowAll_runs.
Qed.

Lemma CheckFoundGroup_is_Some (at_ : Z -> Z * Z) nums b :
  ok n P b -> nums <> [] ->
  (forall i, 0 <= i < n -> 0 <= (at_ i).1 < n /\ 0 <= (at_ i).2 < n) ->
  is_Some (CheckFoundGroup at_ nums b).
Proof.
  intros Hb Hne Hat. unfold CheckFoundGroup.
  assert (Size b = n) as -> by (by destruct Hb as (_ & ? & _)).
  match goal with
  | |- context [foldl ?f (Some ?x0) ?l] =>
      destruct (foldl_option_inv
                  (fun cells : list (gset Z) => length cells = length nums) f l x0)
        as (cells & Hfold & Hlen)
  end.
  { by rewrite length_replicate. }
  { intros cells pos Hcells Hpos%elem_of_range.
    apply foldl_option_inv; [done|].
    intros cs [k v] Hcs Hkv%elem_of_zip_range. simpl.
    destruct (Hat pos Hpos) as [H1 H2].
    destruct (ok_Allowed n P b _ _ Hb H1 H2) as [s Hs].
    unfold IsAllowed. rewrite Hs. simpl.
    destruct (bool_decide (v ∈ s)); [|by exists cs].
    apply idx_lt in Hkv.
    destruct (proj2 (idx_is_Some cs k)) as [c Hc]; [unfold len in *; lia|].
    rewrite Hc. simpl.
    destruct (proj2 (upd_is_Some cs k ({[pos]} ∪ c))) as [cs' Hcs'];
      [unfold len in *; lia|].
    exists cs'. split; [done|]. apply len_upd in Hcs'. unfold len in *. lia. }
  rewrite Hfold. cbn [mbind option_bind].
  assert (0 < length nums)%nat as Hpos by (destruct nums; [done|simpl; lia]).
  destruct (proj2 (idx_is_Some cells 0)) as [c0 Hc0]; [unfold len; lia|].
  rewrite Hc0. cbn [mbind option_bind]. case_decide; [by eexists|].
  apply all_ok_is_Some. intros i Hi%elem_of_range.
  destruct (proj2 (idx_is_Some cells i)) as [c ->]; [unfold len in *; lia|].
  cbn [mbind option_bind]. by eexists.
Qed.

Lemma keep_group_runs ri ci nums :
  nums <> [] -> 0 <= ri < n -> 0 <= ci < n -> runs (ok n P) (keep_group ri ci nums).
Proof.
  intros Hne Hr Hc. unfold keep_group. apply (runs_query _ (fun _ => True)).
  { intros b Hb. destruct nums as [|n0 rest]; [done|].
    change (idx (n0 :: rest) 0) with (Some n0). simpl.
    destruct (ok_Allowed n P b ri ci Hb Hr Hc) as [s Hs].
    unfold IsAllowed. rewrite Hs. by eexists. }
  intros [|] _; [by apply DisallowOthers_runs|apply runs_ret].
Qed.

Lemma TrimFoundGroups_runs r : 1 <= r <= n -> runs (ok n P) (TrimFoundGroups r).
Proof.
  intros Hr. unfold TrimFoundGroups.
  apply (runs_query _ (fun a => a = n)); [apply ok_Size|]. intros sz ->.
  apply (runs_query _ (fun numbers => forall s, s ∈ numbers -> s <> [])).
  { intros b Hb.
    destruct (ok_Permute b 1 r Hb) as (out & Hout & Hall);
      [by vm_compute|destruct Hb as ((? & _) & ? & _); apply is_int_bounds; lia|lia|].
    assert (Size b = n) as -> by (by destruct Hb as (_ & ? & _)).
    replace (1 + n - 1) with n in Hout by lia. rewrite Hout.
    eexists. split; [done|]. intros s Hs ->.
    destruct (Hall [] Hs) as [Hlen _]. unfold len in Hlen. simpl in Hlen. lia. }
  intros numbers Hnum. apply runs_for_flag. intros nums Hnums.
  specialize (Hnum nums Hnums). unfold found_group_sweep.
  apply runs_bind.
  - apply runs_for_flag. intros ri Hri%elem_of_range.
    apply (runs_query _ (fun _ => True)).
    { intros b Hb. destruct (CheckFoundGroup_is_Some (fun i => (ri, i)) nums b) as [x Hx];
        [done|done|simpl; intros; lia|].
      exists x. split; [exact Hx|done]. }
    intros [|] _; [|apply runs_ret].
    apply runs_for_flag. intros ci Hci%elem_of_range. by apply keep_group_runs.
  - intros c1. apply runs_bind; [|intros; apply runs_ret].
    apply runs_for_flag. intros ci Hci%elem_of_range.
    apply (runs_query _ (fun _ => True)).
    { intros b Hb. destruct (CheckFoundGroup_is_Some (fun i => (i, ci)) nums b) as [x Hx];
        [done|done|simpl; intros; lia|].
      exists x. split; [exact Hx|done]. }
    intros [|] _; [|apply runs_ret].
    apply runs_for_flag. intros ri Hri%elem_of_range. by apply keep_group_runs.
Qed.

End ok_runs_heuristics.

Lemma obs_scan_is_Some (k : nat) ri ci dr dc vis highest b :
  (forall j : nat, (j < k)%nat ->
     is_Some (Get (ri + Z.of_nat j * dr) (ci + Z.of_nat j * dc) b)) ->
  is_Some (obs_scan k ri ci dr dc vis highest b).
Proof.
  revert ri ci vis highest.
  induction k as [|k IH]; intros ri ci vis highest H; simpl; [by eexists|].
  destruct (H 0%nat) as [v Hv]; [lia|]. simpl in Hv.
  rewrite !Z.add_0_r in Hv. rewrite Hv. simpl.
  assert (forall j : nat, (j < k)%nat ->
            is_Some (Get (ri + dr + Z.of_nat j * dr) (ci + dc + Z.of_nat j * dc) b)) as H'.
  { intros j Hj. specialize (H (S j) ltac:(lia)).
    replace (ri + dr + Z.of_nat j * dr) with (ri + Z.of_nat (S j) * dr) by lia.
    replace (ci + dc + Z.of_nat j * dc) with (ci + Z.of_nat (S j) * dc) by lia.
    done. }
  case_decide; by apply IH.
Qed.

Lemma ObserverSatisfied_is_Some o b :
  wf b -> 0 <= Index o < Size b -> is_Some (ObserverSatisfied o b).
Proof.
  intros (Hsz & Hg & _) Ho. unfold ObserverSatisfied.
  assert (forall ri ci dr dc,
            (forall j : nat, (j < Z.to_nat (Size b))%nat ->
               0 <= ri + Z.of_nat j * dr < Size b /\ 0 <= ci + Z.of_nat j * dc < Size b) ->
            is_Some (vis ← obs_scan (Z.to_nat (Size b)) ri ci dr dc 0 0 b;
                     Some (bool_decide (vis = Count o)))) as Hscan.
  { intros ri ci dr dc Hin.
    destruct (obs_scan_is_Some (Z.to_nat (Size b)) ri ci dr dc 0 0 b) as [vis ->];
      [|by eexists].
    intros j Hj. destruct (Hin j Hj) as [H1 H2]. by eapply square_cell. }
  repeat case_decide; apply Hscan; intros j Hj; lia.
Qed.

Lemma Solved_is_Some b : wf b -> is_Some (Solved b).
Proof.
  intros Hwf. unfold Solved. case_decide; [by eexists|].
  pose proof Hwf as (_ & _ & _ & _ & _ & _ & _ & _ & _ & Hobs).
  induction (Observers b) as [|o os IH]; simpl; [by eexists|].
  apply Forall_cons in Hobs as [Ho Hos].
  destruct (ObserverSatisfied_is_Some o b Hwf Ho) as [[|] ->]; simpl; [|by eexists].
  by apply IH.
Qed.

(** ** The constructor builds a well-formed board *)

Global Instance maintains_preorder I : PreOrder (maintains I).
Proof.
  split; [intros b H; exact H|]. intros b1 b2 b3 H12 H23 H1. by apply H23, H12.
Qed.

Global Instance same_size_preorder : PreOrder same_size.
Proof.
  split; [intros b; reflexivity|].
  intros b1 b2 b3 H12 H23. unfold same_size in *. congruence.
Qed.

Lemma evolves_maintains {A} (I : Board -> Prop) (m : M A) :
  (forall b b', I b -> evolves b b' -> I b') ->
  preserves evolves m -> preserves (maintains I) m.
Proof. intros Hclosed Hpres b a b' Hrun Hb. eapply Hclosed; [done|]. by eapply Hpres. Qed.

Lemma foldl_option_None {A B} (f : option A -> B -> option A) (l : list B) :
  (forall y, f None y = None) -> foldl f None l = None.
Proof. intros Hf. induction l as [|y l IH]; simpl; [done|]. by rewrite Hf. Qed.

Lemma foldl_option_keeps {A B} (Inv : A -> Prop) (f : option A -> B -> option A)
    (l : list B) (x0 x' : A) :
  (forall y, f None y = None) ->
  (forall x y x', Inv x -> f (Some x) y = Some x' -> Inv x') ->
  Inv x0 -> foldl f (Some x0) l = Some x' -> Inv x'.
Proof.
  intros Hnone Hstep. revert x0. induction l as [|y l IH]; intros x0 H0 Hrun; simpl in Hrun.
  - by simplify_eq.
  - destruct (f (Some x0) y) as [x1|] eqn:E.
    + eapply IH; [|exact Hrun]. by eapply Hstep.
    + by rewrite foldl_option_None in Hrun.
Qed.

Lemma square_replicate {A} (n : Z) (x : A) :
  0 <= n -> square n (replicate (Z.to_nat n) (replicate (Z.to_nat n) x)).
Proof.
  intros Hn. split.
  - unfold len. rewrite length_replicate. lia.
  - apply Forall_replicate. unfold len. rewrite length_replicate. lia.
Qed.

Lemma square_upd_cell {A} (n : Z) (g g' : list (list A)) r c x :
  upd_cell g r c x = Some g' -> square n g -> square n g'.
Proof. intros H. apply square_same_shape. by eapply same_shape_upd_cell. Qed.

Lemma parse_inputs_square lines inputs :
  parse_inputs lines = Some inputs -> square (len lines) inputs.
Proof.
  unfold parse_inputs. intros H.
  eapply (foldl_option_keeps (square (len lines))); [| | |exact H].
  - intros y. apply foldl_option_None. done.
  - intros x y x' Hx. apply foldl_option_keeps; [done| |done].
    intros x1 cc x2 Hx1 Hupd. simpl in Hupd. by eapply square_upd_cell.
  - apply square_replicate. unfold len. lia.
Qed.

Lemma AddObserver_same_size o : preserves same_size (AddObserver o).
Proof. by intros b u b' [->|(os & -> & _)]%AddObserver_Some. Qed.

Lemma Mark_same_size ri ci val : preserves same_size (Mark ri ci val).
Proof. intros b r b' Hrun. by apply Mark_evolves in Hrun as (? & _). Qed.

Lemma load_inputs_same_size inputs : preserves same_size (load_inputs inputs).
Proof.
  unfold load_inputs.
  apply preserves_for_; [apply _|]. intros rr _.
  apply preserves_for_; [apply _|]. intros cc _.
  apply preserves_bind; [apply _|apply preserves_query; apply _|]. intros sz.
  repeat case_decide;
    first [ apply preserves_ret; apply _ | apply AddObserver_same_size | idtac ].
  apply preserves_bind; [apply _|apply Mark_same_size|].
  intros. apply preserves_ret; apply _.
Qed.

Lemma blank_board_wf size b :
  blank_board size = Some b -> size <= 20 -> ok size [] b.
Proof.
  intros [Hsz ->]%blank_board_Some Hsmall. split; [|done].
  unfold wf. simpl. split; [lia|].
  assert (len (replicate (Z.to_nat size) (None : option (list Z))) = size) as Hlen.
  { unfold len. rewrite length_replicate. lia. }
  split_and!; try done.
  - apply square_replicate. lia.
  - apply square_replicate. lia.
  - unfold len. rewrite length_replicate, int_small by lia. lia.
  - by apply Forall_replicate.
  - by apply Forall_replicate.
Qed.

Lemma AddObserver_maintains_ok n P o :
  0 <= Index o < n -> preserves (maintains (ok n P)) (AddObserver o).
Proof.
  intros Ho b u b' [->|(os & -> & Hlen & _)]%AddObserver_Some; [done|].
  intros ((Hsz & Hg & Ha & Hos & Hrp & Hcp & Hp & Hri & Hci & Hobs) & Hn & HP).
  split; [|done]. unfold wf. simpl. split; [done|]. split_and!; try done.
  - unfold len in *. lia.
  - apply Forall_app. split; [done|]. apply Forall_singleton. lia.
Qed.

Lemma load_inputs_maintains_ok n inputs :
  square (n + 2) inputs -> preserves (maintains (ok n [])) (load_inputs inputs).
Proof.
  intros [Hlen Hrows]. unfold load_inputs.
  apply preserves_for_; [apply _|]. intros [ri row] Hrr%elem_of_zip_range.
  apply preserves_for_; [apply _|]. intros [ci x] Hcc%elem_of_zip_range. simpl.
  rewrite Forall_forall in Hrows.
  pose proof (Hrows row (elem_of_idx _ _ _ Hrr)) as Hrow.
  apply idx_lt in Hrr, Hcc. simpl in Hcc. rewrite Hlen in Hrr. rewrite Hrow in Hcc.
  intros b u b' Hrun Hb.
  apply bind_Some in Hrun as (sz & b1 & (? & ? & ?)%query_Some & Hrun). simplify_eq.
  assert (Size b = n) as Hsz by (by destruct Hb as (_ & ? & _)). rewrite Hsz in Hrun.
  destruct (decide (ri = 0 \/ ri = n + 1)).
  - destruct (decide (ci = 0 \/ ci = n + 1)).
    + apply ret_Some in Hrun. by simplify_eq.
    + eapply (AddObserver_maintains_ok n []); [|exact Hrun|done]. simpl. lia.
  - destruct (decide (ci = 0 \/ ci = n + 1)).
    + eapply (AddObserver_maintains_ok n []); [|exact Hrun|done]. simpl. lia.
    + apply bind_Some in Hrun as (r & b2 & Hmark & Hrun%ret_Some). simplify_eq.
      eapply ok_evolves; [done|]. by eapply Mark_evolves.
Qed.

Lemma indices_ok_PermsForObs fwd bwd b :
  indices_ok (len (Perms b)) (PermsForObs fwd bwd b).
Proof.
  unfold PermsForObs.
  assert (indices_ok (len (Perms b))
            (Some (omap (fun ip : Z * list Z =>
                           if PermFitsObs ip.2 fwd bwd then Some ip.1 else None)
                        (zip (range 0 (len (Perms b))) (Perms b))))) as H.
  { simpl. apply Forall_forall. intros i ([k p] & Hkp & Hi)%list_elem_of_omap.
    simpl in Hi. destruct (PermFitsObs p fwd bwd); [|done]. simplify_eq.
    apply elem_of_zip_range in Hkp. by eapply idx_lt. }
  destruct fwd, bwd; done.
Qed.

Lemma set_RowPerms_maintains_ok n P ri (f : Board -> option (list Z)) :
  (forall b, indices_ok (len (Perms b)) (f b)) ->
  preserves (maintains (ok n P))
    (perms <- query (fun b => Some (f b)) ;; set_RowPerms ri perms)%board.
Proof.
  intros Hf b u b' Hrun Hb.
  apply bind_Some in Hrun as (perms & b1 & (? & ? & ?)%query_Some & Hrun). simplify_eq.
  apply set_RowPerms_Some in Hrun as (rp & Hrp & ->).
  destruct Hb as ((Hsz & Hg & Ha & Hos & Hlen & Hcp & Hp & Hri & Hci & Hobs) & Hn & HP).
  split; [|done]. unfold wf. simpl. split; [done|]. split_and!; try done.
  - by rewrite (len_upd _ _ _ _ Hrp).
  - apply upd_Some in Hrp as [_ ->]. by apply Forall_insert.
Qed.

Lemma set_ColPerms_maintains_ok n P ci (f : Board -> option (list Z)) :
  (forall b, indices_ok (len (Perms b)) (f b)) ->
  preserves (maintains (ok n P))
    (perms <- query (fun b => Some (f b)) ;; set_ColPerms ci perms)%board.
Proof.
  intros Hf b u b' Hrun Hb.
  apply bind_Some in Hrun as (perms & b1 & (? & ? & ?)%query_Some & Hrun). simplify_eq.
  apply set_ColPerms_Some in Hrun as (cp & Hcp & ->).
  destruct Hb as ((Hsz & Hg & Ha & Hos & Hrp & Hlen & Hp & Hri & Hci & Hobs) & Hn & HP).
  split; [|done]. unfold wf. simpl. split; [done|]. split_and!; try done.
  - by rewrite (len_upd _ _ _ _ Hcp).
  - apply upd_Some in Hcp as [_ ->]. by apply Forall_insert.
Qed.

Lemma PopulateRowColPerms_maintains_ok n P :
  preserves (maintains (ok n P)) PopulateRowColPerms.
Proof.
  unfold PopulateRowColPerms.
  apply preserves_bind; [apply _|apply preserves_query; apply _|]. intros sz.
  apply preserves_bind; [apply _| |intros pi; apply preserves_bind; [apply _| |]].
  - apply preserves_for_acc; [apply _|]. intros ri pi _.
    apply preserves_bind; [apply _|apply preserves_query; apply _|]. intros fwd.
    apply preserves_bind; [apply _|apply preserves_query; apply _|]. intros bwd.
    intros b a b' Hrun.
    apply (set_RowPerms_maintains_ok n P ri (PermsForObs fwd bwd)
             (indices_ok_PermsForObs fwd bwd) b tt b').
    apply bind_Some in Hrun as (perms & b1 & Hq & Hrun).
    apply bind_Some in Hrun as ([] & b2 & Hset & Hrun%ret_Some). simplify_eq.
    apply bind_Some. by exists perms, b1.
  - apply preserves_for_acc; [apply _|]. intros ci pi' _.
    apply preserves_bind; [apply _|apply preserves_query; apply _|]. intros fwd.
    apply preserves_bind; [apply _|apply preserves_query; apply _|]. intros bwd.
    intros b a b' Hrun.
    apply (set_ColPerms_maintains_ok n P ci (PermsForObs fwd bwd)
             (indices_ok_PermsForObs fwd bwd) b tt b').
    apply bind_Some in Hrun as (perms & b1 & Hq & Hrun).
    apply bind_Some in Hrun as ([] & b2 & Hset & Hrun%ret_Some). simplify_eq.
    apply bind_Some. by exists perms, b1.
  - intros. apply preserves_ret; apply _.
Qed.

(** The board the constructor returns, stage by stage. *)
Lemma BoardFromString_ok input b :
  BoardFromString input = Some b ->
  ok (len (input_lines input) - 2)
     (completions 1 (Z.to_nat (len (input_lines input) - 2))
        (replicate (Z.to_nat (len (input_lines input) - 2)) false) []) b.
Proof.
  intros (b0 & inputs & u1 & b1 & perms & u2 & b2 & u3 & H0 & Hin & H1 & Hp & H2 & H3)
    %BoardFromString_Some.
  set (n := len (input_lines input) - 2) in *.
  pose proof (blank_board_Some _ _ H0) as [Hn Eb0].
  assert (Size b1 = n) as Hsz1.
  { rewrite (load_inputs_same_size _ _ _ _ H1). by rewrite Eb0. }
  rewrite Hsz1 in Hp. apply PermuteN_Some in Hp as [Hsmall ->]; [|done].
  assert (ok n [] b1) as Hb1.
  { eapply (load_inputs_maintains_ok n); [|exact H1|by apply blank_board_wf].
    apply parse_inputs_square in Hin. by replace (n + 2) with (len (input_lines input)) by lia. }
  set (P := completions 1 (Z.to_nat n) (replicate (Z.to_nat n) false) []) in *.
  eapply ok_evolves; [|by eapply TrimAllowedFromPerms_evolves].
  eapply PopulateRowColPerms_maintains_ok; [exact H2|].
  destruct Hb1 as ((Hsz & Hg & Ha & Hos & Hrp & Hcp & _ & Hri & Hci & Hobs) & _ & Hnil).
  split; [|done]. unfold wf. simpl. rewrite Hnil in Hri, Hci.
  split; [done|]. split_and!; try done.
  - apply Forall_forall. intros p Hp. subst P.
    apply elem_of_completions in Hp as (Hlen & _); [| by vm_compute |].
    + unfold len. rewrite Hlen, Hsz1. lia.
    + apply is_int_bounds. lia.
  - eapply Forall_impl; [exact Hri|]. intros [l|]; [|done]. simpl.
    intros Hl. eapply Forall_impl; [exact Hl|]. unfold len. simpl. lia.
  - eapply Forall_impl; [exact Hci|]. intros [l|]; [|done]. simpl.
    intros Hl. eapply Forall_impl; [exact Hl|]. unfold len. simpl. lia.
Qed.

(** X10: a board that [BoardFromString] returns is well-formed: its
    size is the number of non-blank lines of the input less two and
    lies between 0 and 20, the grid and the table of candidate sets
    have [Size] rows of [Size] entries, there are four clue slots per
    unit of size and a permutation list for every row and column whose
    entries are indices into [Perms], every registered clue sits on a
    line of the grid, and [Perms] is what [PermuteN(Size)] returns. *)
Theorem BoardFromString_wf input b :
  BoardFromString input = Some b ->
  wf b /\ Size b = len (input_lines input) - 2 /\ PermuteN (Size b) = Some (Perms b).
Proof.
  intros (Hwf & Hsz & HP)%BoardFromString_ok. split; [done|]. split; [done|].
  rewrite HP, Hsz. unfold PermuteN. destruct Hwf as (Hn & _). rewrite Hsz in Hn.
  rewrite Permute_eq by lia.
  by replace (len (input_lines input) - 2 - 1 + 1) with (len (input_lines input) - 2) by lia.
Qed.

Lemma BoardFromString_wf_witness :
  exists b,
    BoardFromString puzzle_one = Some b /\
    wf b /\ Size b = len (input_lines puzzle_one) - 2 /\
    PermuteN (Size b) = Some (Perms b).
Proof.
  assert (exists b, BoardFromString puzzle_one = Some b) as [b Hb].
  { eexists. vm_compute. reflexivity. }
  exists b. split; [exact Hb|]. apply (BoardFromString_wf puzzle_one b Hb).
Defined.

(** ** Every round that reports a change makes progress *)

Global Instance advances_preorder : PreOrder advances.
Proof.
  split.
  - intros b. split; reflexivity.
  - intros b1 b2 b3 [H12 E12] [H23 E23]. split; [by etransitivity|lia].
Qed.

Lemma measure_advances b b' : advances b b' -> (measure b' <= measure b)%nat.
Proof.
  intros [(_ & _ & _ & _ & _ & Ha & Hr & Hc) He]. unfold measure.
  pose proof (allowed_total_mono _ _ Ha). pose proof (perms_total_mono _ _ Hr Hc). lia.
Qed.

Lemma allowed_shrunk_advances b b' : allowed_shrunk b b' -> advances b b'.
Proof.
  intros H. split; [by apply allowed_shrunk_evolves|].
  destruct H as [-> _]. done.
Qed.

Lemma perms_shrunk_advances b b' : perms_shrunk b b' -> advances b b'.
Proof.
  intros H. split; [by apply perms_shrunk_evolves|].
  destruct H as [-> _]. done.
Qed.

Lemma reports_allowed_measure (m : M bool) :
  reports allowed_shrunk allowed_total m -> reports advances measure m.
Proof.
  intros H b c b' Hrun. apply H in Hrun as [Hshr Hc].
  split; [by apply allowed_shrunk_advances|].
  destruct c; [|done]. destruct Hshr as [E _]. unfold measure.
  assert (perms_total b' = perms_total b /\ empties b' = empties b) as [-> ->]; [|lia].
  rewrite E. done.
Qed.

Lemma reports_perms_measure (m : M bool) :
  reports perms_shrunk perms_total m -> reports advances measure m.
Proof.
  intros H b c b' Hrun. apply H in Hrun as [Hshr Hc].
  split; [by apply perms_shrunk_advances|].
  destruct c; [|done]. destruct Hshr as [E _]. unfold measure.
  assert (allowed_total b' = allowed_total b /\ empties b' = empties b) as [-> ->]; [|lia].
  rewrite E. done.
Qed.

Lemma length_filter_insert {A} (Q : A -> Prop) `{!forall x, Decision (Q x)}
    (l : list A) (i : nat) (x y : A) :
  l !! i = Some x ->
  (length (filter Q (<[i := y]> l)) + (if decide (Q x) then 1 else 0) =
   length (filter Q l) + (if decide (Q y) then 1 else 0))%nat.
Proof.
  revert i. induction l as [|a l IH]; intros i Hi; [done|].
  destruct i as [|i]; simpl in *.
  - simplify_eq. rewrite !filter_cons. repeat case_decide; simpl; lia.
  - specialize (IH i Hi). rewrite !filter_cons.
    destruct (decide (Q x)), (decide (Q y)), (decide (Q a)); simpl in *; lia.
Qed.

(** Filling an empty cell leaves one empty cell less. *)
Lemma empties_upd_cell b r c val g :
  cell (Grid b) r c = Some EMPTY -> val <> EMPTY ->
  upd_cell (Grid b) r c val = Some g ->
  forall n, S (empties (with_Grid g (with_NumEmpty n b))) = empties b.
Proof.
  intros Hcell Hval (row & row' & Hrow & Hrow' & Hg)%upd_cell_Some n.
  unfold cell in Hcell. rewrite Hrow in Hcell. simpl in Hcell.
  apply upd_Some in Hrow' as [_ ->]. apply upd_Some in Hg as [_ ->].
  apply idx_Some in Hrow as [_ Hrow]. apply idx_Some in Hcell as [_ Hcell].
  unfold empties. simpl. rewrite list_fmap_insert.
  pose proof (sum_nat_insert
                ((fun row => length (filter (fun v => v = EMPTY) row)) <$> Grid b)
                (Z.to_nat r)
                (length (filter (fun v => v = EMPTY) row))
                (length (filter (fun v => v = EMPTY) (<[Z.to_nat c := val]> row)))) as Hsum.
  rewrite list_lookup_fmap, Hrow in Hsum. specialize (Hsum eq_refl).
  pose proof (length_filter_insert (fun v => v = EMPTY) row (Z.to_nat c) EMPTY val Hcell)
    as Hrowcount.
  rewrite decide_True in Hrowcount by done. rewrite decide_False in Hrowcount by done.
  lia.
Qed.

(** [Mark] is a [Set'] followed, when the cell changed, by deletions
    of candidates. *)
Lemma Mark_Some ri ci val b r b' :
  Mark ri ci val b = Some (r, b') ->
  exists changed b1,
    Set' ri ci val b = Some (changed, b1) /\
    if changed : bool then r.1 = true /\ allowed_shrunk b1 b'
    else r = (false, false) /\ b' = b1.
Proof.
  unfold Mark. intros (changed & b1 & Hset & Hrun)%bind_Some.
  exists changed, b1. split; [done|]. destruct changed; simpl in Hrun.
  2:{ apply ret_Some in Hrun. by simplify_eq. }
  apply bind_Some in Hrun as (sz & b2 & (sz' & Hsz & ?)%query_Some & Hrun). simplify_eq.
  apply bind_Some in Hrun as (nu & b2 & Hneigh & Hrun).
  apply bind_Some in Hrun as ([] & b3 & Hcollapse & Hrun%ret_Some). simplify_eq.
  split; [done|]. etransitivity.
  - eapply (preserves_for_flag allowed_shrunk); [|exact Hneigh]. intros i _.
    apply preserves_bind; [apply _| |intros n1; apply preserves_bind; [apply _| |]].
    + case_decide; [|apply preserves_ret; apply _].
      eapply preserves_weaken; [apply cell_shrunk_allowed_shrunk|].
      eapply reports_preserves, strike_reports.
    + case_decide; [|apply preserves_ret; apply _].
      eapply preserves_weaken; [apply cell_shrunk_allowed_shrunk|].
      eapply reports_preserves, strike_reports.
    + intros n2. apply preserves_ret; apply _.
  - apply collapse_loop in Hcollapse as [Hshr _]. by eapply cell_shrunk_allowed_shrunk.
Qed.

(** Marking an empty cell: a change fills the cell, no change leaves
    the board alone and reports no neighbour. *)
Lemma Mark_empty_reports ri ci val b r b' :
  Mark ri ci val b = Some (r, b') -> Get ri ci b = Some EMPTY ->
  advances b b' /\
  if r.1 then (measure b' < measure b)%nat else b' = b /\ r.2 = false.
Proof.
  intros (changed & b1 & Hset & Hrest)%Mark_Some Hget.
  apply Set'_Some in Hset as (old & Hold & Hset).
  rewrite Hget in Hold. simplify_eq. destruct changed.
  - destruct Hset as (Hne & g & n & Hg & ->). destruct Hrest as [-> Hshr].
    pose proof (empties_upd_cell b ri ci val g Hget (not_eq_sym Hne) Hg n) as Hemp.
    apply allowed_shrunk_advances in Hshr as Hadv.
    assert (advances b (with_Grid g (with_NumEmpty n b))) as Hadv0.
    { split; [|lia]. unfold evolves. simpl. split_and!; try reflexivity.
      by eapply same_shape_upd_cell. }
    split; [by etransitivity|].
    apply measure_advances in Hadv. unfold measure in *. simpl in *.
    change (allowed_total (with_Grid g (with_NumEmpty n b))) with (allowed_total b) in Hadv.
    change (perms_total (with_Grid g (with_NumEmpty n b))) with (perms_total b) in Hadv.
    lia.
  - destruct Hset as [_ ->]. destruct Hrest as [-> ->]. split; [reflexivity|done].
Qed.

Lemma for_acc_inv {A S} (Inv : S -> Board -> Prop) (l : list A) (body : A -> S -> M S)
    s b s' b' :
  (forall x s b s' b', x ∈ l -> Inv s b -> body x s b = Some (s', b') -> Inv s' b') ->
  Inv s b -> for_acc l s body b = Some (s', b') -> Inv s' b'.
Proof.
  intros Hbody. revert s b. induction l as [|x l IH]; intros s b Hinv Hrun; simpl in Hrun.
  - apply ret_Some in Hrun. by simplify_eq.
  - apply bind_Some in Hrun as (s1 & b1 & Hx & Hrest).
    eapply IH; [| |exact Hrest].
    + intros y s2 b2 s3 b3 Hy. apply Hbody. by right.
    + eapply Hbody; [left|exact Hinv|exact Hx].
Qed.

(** One pass of [MarkMandatory]: a change lowers the measure, no
    change leaves the board alone and asks for no further pass. *)
Lemma MarkMandatory_pass_reports b flags b' :
  MarkMandatory_pass b = Some (flags, b') ->
  advances b b' /\
  if flags.1 then (measure b' < measure b)%nat else b' = b /\ flags.2 = false.
Proof.
  unfold MarkMandatory_pass.
  intros (nrows & b0 & (? & ? & ?)%query_Some & Hrun)%bind_Some. simplify_eq.
  set (Inv := fun (flags : bool * bool) (bc : Board) =>
                advances b bc /\
                if flags.1 then (measure bc < measure b)%nat
                else bc = b /\ flags.2 = false).
  revert Hrun. apply (for_acc_inv Inv); [|by split; [reflexivity|]].
  intros ri fl bc fl' bc' _ Hinv Hrun.
  apply bind_Some in Hrun as (ncols & b0 & (? & ? & ?)%query_Some & Hrun). simplify_eq.
  revert Hrun. apply (for_acc_inv Inv); [|done].
  clear. intros ci fl bc fl' bc' _ [Hadv Hfl] Hrun.
  apply bind_Some in Hrun as (allowed & b0 & (? & ? & ?)%query_Some & Hrun). simplify_eq.
  case_decide; [apply ret_Some in Hrun; by simplify_eq|].
  apply bind_Some in Hrun as (g & b0 & (? & Hget & ?)%query_Some & Hrun). simplify_eq.
  case_decide as Hg; [apply ret_Some in Hrun; by simplify_eq|].
  subst.
  apply bind_Some in Hrun as (r & b1 & Hmark & Hrun%ret_Some). simplify_eq.
  apply Mark_empty_reports in Hmark as [Hadv1 Hr]; [|done].
  split; [by etransitivity|]. simpl.
  apply measure_advances in Hadv as Hle.
  destruct r as [[|] r2]; simpl in *.
  - rewrite orb_true_r. lia.
  - destruct Hr as [-> ->]. rewrite !orb_false_r. done.
Qed.

Lemma MarkMandatory_reports fuel : reports advances measure (MarkMandatory fuel).
Proof.
  induction fuel as [|fuel IH]; intros b c b' Hrun; simpl in Hrun; [done|].
  apply bind_Some in Hrun as (flags & b1 & Hpass & Hrun).
  apply bind_Some in Hrun as ([] & b2 & Hredo & Hrun%ret_Some).
  injection Hrun as -> ->.
  apply MarkMandatory_pass_reports in Hpass as [Hadv Hfl].
  destruct flags as [[|] redo]; simpl in *.
  - assert (advances b1 b2) as Hadv'.
    { destruct redo.
      - apply bind_Some in Hredo as (c' & b3 & Hrec & Hr%ret_Some). simplify_eq.
        by apply IH in Hrec as [? _].
      - apply ret_Some in Hredo. simplify_eq. reflexivity. }
    split; [by etransitivity|]. apply measure_advances in Hadv'. lia.
  - destruct Hfl as [-> ->]. apply ret_Some in Hredo. simplify_eq.
    split; [reflexivity|done].
Qed.

(** ** The solve driver terminates *)

Lemma MarkMandatory_fuel fuel fuel' b r :
  MarkMandatory fuel b = Some r -> (fuel <= fuel')%nat -> MarkMandatory fuel' b = Some r.
Proof.
  revert fuel' b r. induction fuel as [|fuel IH]; intros fuel' b r Hrun Hle; [done|].
  destruct fuel' as [|fuel']; [lia|]. simpl in *.
  rewrite bind_eq in *. destruct (MarkMandatory_pass b) as [[flags b1]|]; [|done].
  rewrite bind_eq in *. destruct (flags.2).
  - rewrite bind_eq in *.
    destruct (MarkMandatory fuel b1) as [[c b2]|] eqn:Hrec; [|done].
    rewrite (IH fuel' b1 (c, b2) Hrec) by lia. done.
  - done.
Qed.

Lemma MarkMandatory_false fuel b :
  MarkMandatory fuel b = Some (false, b) ->
  forall fuel', MarkMandatory (S fuel') b = Some (false, b).
Proof.
  destruct fuel as [|fuel]; [done|]. intros Hrun fuel'. simpl in *.
  rewrite bind_eq in *.
  destruct (MarkMandatory_pass b) as [[flags b1]|] eqn:Hpass; [|done].
  apply MarkMandatory_pass_reports in Hpass as [_ Hfl].
  rewrite bind_eq in Hrun.
  destruct (if flags.2 then _ else _) as [[[] b2]|]; [|done].
  unfold ret in Hrun. simplify_eq. cbn [fst snd] in *.
  destruct flags as [c redo]. simpl in *. subst c.
  destruct Hfl as [-> ->]. done.
Qed.

Section ok_solve.
Context (n : Z) (P : list (list Z)).

Lemma MarkMandatory_runs fuel b :
  ok n P b -> (measure b < fuel)%nat ->
  exists c b', MarkMandatory fuel b = Some (c, b') /\ ok n P b'.
Proof.
  revert b. induction fuel as [|fuel IH]; intros b Hb Hfuel; [lia|]. simpl.
  destruct (MarkMandatory_pass_runs n P b Hb) as (flags & b1 & Hpass & Hb1).
  rewrite bind_eq, Hpass.
  apply MarkMandatory_pass_reports in Hpass as [_ Hfl].
  destruct flags as [c [|]]; simpl in *.
  - destruct c; [|by destruct Hfl].
    destruct (IH b1 Hb1) as (c' & b2 & Hrec & Hb2); [lia|].
    rewrite !bind_eq, Hrec. by exists true, b2.
  - by exists c, b1.
Qed.

Lemma escalate_runs (rule : Z -> M bool) :
  (forall r, 2 <= r < n - 1 -> runs (ok n P) (rule r)) ->
  runs (ok n P) (escalate rule).
Proof.
  intros Hrule. unfold escalate.
  apply (runs_query _ (fun a => a = n)); [apply ok_Size|]. intros sz ->.
  apply runs_for_return. intros r Hr%elem_of_range. by apply Hrule.
Qed.

Lemma round_runs fuel b :
  ok n P b -> (measure b < fuel)%nat ->
  exists c b', round fuel b = Some (c, b') /\ ok n P b'.
Proof.
  intros Hb Hfuel. unfold round.
  destruct (MarkMandatory_runs fuel b Hb Hfuel) as (c1 & b1 & H1 & Hb1).
  rewrite bind_eq, H1. clear H1 Hfuel Hb. revert b1 Hb1.
  change (runs (ok n P)
            (c2 <- TrimAllowedFromPerms ;;
             c3 <- TrimPermsFromAllowed ;;
             let changed := c1 || c2 || c3 in
             changed <- (if negb changed then escalate TrimNakedSets else ret changed) ;;
             (if negb changed then escalate TrimFoundGroups else ret changed))%board).
  apply runs_bind; [apply TrimAllowedFromPerms_runs|]. intros c2.
  apply runs_bind; [apply TrimPermsFromAllowed_runs|]. intros c3. cbv zeta.
  apply runs_bind.
  - destruct (negb _); [|apply runs_ret].
    apply escalate_runs. intros r Hr. apply TrimNakedSets_runs. lia.
  - intros ch. destruct (negb ch); [|apply runs_ret].
    apply escalate_runs. intros r Hr. apply TrimFoundGroups_runs. lia.
Qed.

End ok_solve.

Lemma escalate_reports (rule : Z -> M bool) :
  (forall r, reports advances measure (rule r)) ->
  reports advances measure (escalate rule).
Proof.
  intros Hrule. unfold escalate. apply reports_query.
  intros sz. apply reports_for_return; [apply _|]. intros r _. apply Hrule.
Qed.

Lemma TrimNakedSets_advances r : reports advances measure (TrimNakedSets r).
Proof. apply reports_allowed_measure, TrimNakedSets_reports. Qed.

Lemma TrimFoundGroups_advances r : reports advances measure (TrimFoundGroups r).
Proof. apply reports_allowed_measure, TrimFoundGroups_reports. Qed.

(** A loop that leaves at the first true: when it ends with false on
    bodies that report their changes, every body returned false on the
    board it started from. *)
Lemma for_return_false {A} (R : relation Board) (mu : Board -> nat)
    (l : list A) (body : A -> M bool) b b' :
  (forall x, x ∈ l -> reports R mu (body x)) ->
  for_return l body b = Some (false, b') ->
  b' = b /\ forall x, x ∈ l -> body x b = Some (false, b).
Proof.
  intros Hbody. induction l as [|x l IH]; intros Hrun; simpl in Hrun.
  - apply ret_Some in Hrun. simplify_eq. split; [done|]. by intros x Hx%elem_of_nil.
  - apply bind_Some in Hrun as (stop & b1 & Hx & Hrun).
    destruct stop; [apply ret_Some in Hrun; by simplify_eq|].
    pose proof (Hbody x ltac:(left) _ _ _ Hx) as [_ ->].
    destruct IH as [-> Hall]; [|done|].
    { intros y Hy. apply Hbody. by right. }
    split; [done|]. intros y [->|Hy]%elem_of_cons; [done|by apply Hall].
Qed.

(** A round that reports a change lowers the measure; a round that
    reports none has run every rule on the board it started from, and
    every rule returned false. *)
Lemma round_reports fuel b c b' :
  round fuel b = Some (c, b') ->
  advances b b' /\
  if c then (measure b' < measure b)%nat
  else b' = b /\
       MarkMandatory fuel b = Some (false, b) /\
       TrimAllowedFromPerms b = Some (false, b) /\
       TrimPermsFromAllowed b = Some (false, b) /\
       escalate TrimNakedSets b = Some (false, b) /\
       escalate TrimFoundGroups b = Some (false, b).
Proof.
  unfold round. intros Hrun.
  apply bind_Some in Hrun as (c1 & b1 & H1 & Hrun).
  apply bind_Some in Hrun as (c2 & b2 & H2 & Hrun).
  apply bind_Some in Hrun as (c3 & b3 & H3 & Hrun). cbv zeta in Hrun.
  apply bind_Some in Hrun as (c4 & b4 & H4 & H5).
  pose proof (MarkMandatory_reports fuel _ _ _ H1) as [A1 R1].
  pose proof (reports_allowed_measure _ TrimAllowedFromPerms_reports _ _ _ H2) as [A2 R2].
  pose proof (reports_perms_measure _ TrimPermsFromAllowed_reports _ _ _ H3) as [A3 R3].
  assert (advances b3 b4 /\ if c4 then (measure b4 < measure b)%nat
                            else b4 = b3 /\ c1 || c2 || c3 = false) as [A4 R4].
  { pose proof (measure_advances _ _ A1). pose proof (measure_advances _ _ A2).
    pose proof (measure_advances _ _ A3).
    destruct (c1 || c2 || c3) eqn:E; simpl in H4.
    - apply ret_Some in H4. simplify_eq. split; [reflexivity|].
      destruct c1; [lia|]. destruct c2; [subst; lia|]. destruct c3; [subst; lia|done].
    - apply (escalate_reports _ TrimNakedSets_advances) in H4 as [A4 R4].
      split; [done|]. destruct c4; [|done].
      destruct c1, c2, c3; try done. subst. done. }
  assert (advances b4 b' /\ if c then (measure b' < measure b)%nat
                            else b' = b4 /\ c4 = false) as [A5 R5].
  { pose proof (measure_advances _ _ A4).
    pose proof (measure_advances _ _ A1). pose proof (measure_advances _ _ A2).
    pose proof (measure_advances _ _ A3).
    destruct c4; simpl in H5.
    - apply ret_Some in H5. simplify_eq. split; [reflexivity|lia].
    - apply (escalate_reports _ TrimFoundGroups_advances) in H5 as [A5 R5].
      split; [done|]. destruct c; [lia|done]. }
  split; [by repeat (etransitivity; [eassumption|])|].
  destruct c; [done|]. destruct R5 as [-> ->]. destruct R4 as [-> Hc].
  destruct c1, c2, c3; try done. destruct R1, R2, R3. subst.
  simpl in H4, H5. done.
Qed.

Lemma round_escalated (rule : Z -> M bool) b :
  (forall r, reports advances measure (rule r)) ->
  escalate rule b = Some (false, b) ->
  forall r, 2 <= r < Size b - 1 -> rule r b = Some (false, b).
Proof.
  intros Hrule Hrun r Hr. unfold escalate in Hrun.
  apply bind_Some in Hrun as (sz & b1 & (? & ? & ?)%query_Some & Hrun). simplify_eq.
  eapply for_return_false in Hrun as [_ Hall]; [|intros; apply Hrule].
  apply Hall. by apply elem_of_range.
Qed.

Lemma round_stalled fuel b b' :
  round (S fuel) b = Some (false, b') -> b' = b /\ stalled b.
Proof.
  intros Hrun. apply round_reports in Hrun as [_ (-> & H1 & H2 & H3 & H4 & H5)].
  split; [done|]. split_and!; try done.
  - by eapply MarkMandatory_false.
  - by apply (round_escalated _ _ TrimNakedSets_advances).
  - by apply (round_escalated _ _ TrimFoundGroups_advances).
Qed.

Lemma AutoSolve_loop_eq fuel b :
  AutoSolve_loop (S fuel) true b =
    match Solved b with
    | Some None => Some (tt, b)
    | Some (Some _) => (ch <- round (S fuel) ;; AutoSolve_loop fuel ch)%board b
    | None => None
    end.
Proof.
  cbn [AutoSolve_loop negb]. rewrite bind_eq. unfold query.
  destruct (Solved b) as [[e|]|]; [|done..].
  unfold round, bind.
  destruct (MarkMandatory (S fuel) b) as [[c1 b1]|]; [|done].
  destruct (TrimAllowedFromPerms b1) as [[c2 b2]|]; [|done].
  destruct (TrimPermsFromAllowed b2) as [[c3 b3]|]; [|done].
  cbv zeta. destruct (negb (c1 || c2 || c3)).
  - destruct (escalate TrimNakedSets b3) as [[c4 b4]|]; done.
  - unfold ret. done.
Qed.

Lemma AutoSolve_loop_fuel fuel fuel' changed b r :
  AutoSolve_loop fuel changed b = Some r -> (fuel <= fuel')%nat ->
  AutoSolve_loop fuel' changed b = Some r.
Proof.
  revert fuel' changed b r.
  induction fuel as [|fuel IH]; intros fuel' changed b r Hrun Hle.
  - destruct changed.
    + cbn [AutoSolve_loop negb] in Hrun. rewrite bind_eq in Hrun. unfold query in Hrun.
      destruct fuel' as [|fuel'']; [done|]. rewrite AutoSolve_loop_eq.
      destruct (Solved b) as [[e|]|]; done.
    + destruct fuel'; done.
  - destruct fuel' as [|fuel']; [lia|]. destruct changed; [|done].
    rewrite AutoSolve_loop_eq in *.
    destruct (Solved b) as [[e|]|]; [|done..].
    apply bind_Some in Hrun as (ch & b1 & Hround & Hrest).
    apply bind_Some. exists ch, b1. split; [|apply IH; [done|lia]].
    unfold round in *. rewrite bind_eq in *.
    destruct (MarkMandatory (S fuel) b) as [[c1 b2]|] eqn:Hmm; [|done].
    by rewrite (MarkMandatory_fuel _ (S fuel') _ _ Hmm) by lia.
Qed.

Lemma AutoSolve_loop_runs n P fuel b :
  ok n P b -> (measure b < fuel)%nat ->
  exists b', AutoSolve_loop fuel true b = Some (tt, b') /\ ok n P b' /\
             (Solved b' = Some None \/ stalled b').
Proof.
  revert b. induction fuel as [|fuel IH]; intros b Hb Hfuel; [lia|].
  rewrite AutoSolve_loop_eq.
  destruct (Solved_is_Some b) as [[e|] Hs]; [by destruct Hb| |]; rewrite Hs.
  2:{ exists b. split; [done|]. split; [done|]. by left. }
  destruct (round_runs n P (S fuel) b Hb Hfuel) as (ch & b1 & Hround & Hb1).
  rewrite bind_eq, Hround. destruct ch.
  - apply round_reports in Hround as [_ Hlt]. apply IH; [done|lia].
  - apply round_stalled in Hround as [-> Hst].
    exists b. split; [by destruct fuel|]. split; [done|]. by right.
Qed.

Lemma reachable_wf b : reachable b -> wf b.
Proof.
  intros (input & b0 & [Hwf _]%BoardFromString_ok & Hsteps).
  eapply wf_evolves; [done|]. by apply solving_steps_evolves.
Qed.

(** X11: on every board reachable from the constructor, [AutoSolve]
    returns: with any fuel above the measure of the board (candidates
    plus permutation-list entries plus empty cells) the model of its
    loop ends, without a panic, on one and the same well-formed board;
    what it returns is what [Solved] says of that board, and either
    that is nil or no rule changes the board any more. *)
Theorem AutoSolve_terminates b :
  reachable b ->
  exists r b',
    (forall fuel, (measure b < fuel)%nat -> AutoSolve fuel b = Some (r, b')) /\
    wf b' /\ Solved b' = Some r /\ (r = None \/ stalled b').
Proof.
  intros Hwf%reachable_wf.
  assert (ok (Size b) (Perms b) b) as Hok by done.
  destruct (AutoSolve_loop_runs _ _ (S (measure b)) b Hok) as (b' & Hloop & Hok' & Hend);
    [lia|].
  destruct (Solved_is_Some b') as [r Hr]; [by destruct Hok'|].
  exists r, b'. split_and!.
  - intros fuel Hfuel. unfold AutoSolve. rewrite bind_eq.
    rewrite (AutoSolve_loop_fuel _ fuel _ _ _ Hloop) by lia.
    unfold query. by rewrite Hr.
  - by destruct Hok'.
  - done.
  - destruct Hend as [Hsolved|Hst]; [left|by right].
    rewrite Hsolved in Hr. by simplify_eq.
Qed.

Lemma AutoSolve_terminates_witness :
  exists b,
    reachable b /\
    exists r b',
      (forall fuel, (measure b < fuel)%nat -> AutoSolve fuel b = Some (r, b')) /\
      wf b' /\ Solved b' = Some r /\ (r = None \/ stalled b').
Proof.
  assert (exists b, BoardFromString puzzle_one = Some b) as [b Hb].
  { eexists. vm_compute. reflexivity. }
  assert (reachable b) as Hreach.
  { exists puzzle_one, b. split; [exact Hb|]. apply rtc_refl. }
  exists b. split; [exact Hreach|]. apply (AutoSolve_terminates b Hreach).
Defined.



(** ** Set sizes the driver never asks for *)

Lemma Permute_negative low high r : r < 0 -> Permute low high r = None.
Proof.
  intros Hr. unfold Permute.
  destruct (div _ _) as [cap|]; simpl; [|done].
  destruct (make cap _) as [?|]; simpl; [|done].
  by rewrite (make_None r) by done.
Qed.

Lemma for_return_all_false {A} (l : list A) (body : A -> M bool) b :
  (forall x, x ∈ l -> body x b = Some (false, b)) ->
  for_return l body b = Some (false, b).
Proof.
  induction l as [|x l IH]; intros H; simpl; [done|].
  rewrite bind_eq, (H x) by left. apply IH. intros y Hy. apply H. by right.
Qed.

Lemma foldl_const {A B} (x : A) (l : list B) : foldl (fun acc _ => acc) x l = x.
Proof. induction l as [|y l IH]; simpl; done. Qed.

(** X13: the pattern heuristics at the sizes [AutoSolve] never passes:
    with a negative size both panic (in [Permute]); with size 0
    [TrimNakedSets] returns false and changes nothing, while
    [TrimFoundGroups] panics on every well-formed board that has a
    row, because [CheckRowFoundGroup] indexes an empty slice. *)
Theorem heuristics_small_sizes b :
  wf b ->
  (forall n, n < 0 -> TrimNakedSets n b = None /\ TrimFoundGroups n b = None) /\
  TrimNakedSets 0 b = Some (false, b) /\
  (1 <= Size b -> TrimFoundGroups 0 b = None).
Proof.
  intros (Hsz & _). split_and!.
  - intros n Hn. unfold TrimNakedSets, TrimFoundGroups.
    rewrite !bind_eq. unfold query. cbv beta iota. rewrite !bind_eq.
    by rewrite !Permute_negative by done.
  - unfold TrimNakedSets. rewrite bind_eq. unfold query. rewrite bind_eq.
    rewrite int_small by lia. rewrite Permute_eq by lia. rewrite completions_0.
    rewrite bind_eq. rewrite for_return_all_false.
    + apply for_return_all_false. intros ci _. simpl. done.
    + intros ri _. simpl. done.
  - intros Hone. unfold TrimFoundGroups. rewrite bind_eq. unfold query. rewrite bind_eq.
    rewrite Permute_eq by lia. rewrite completions_0.
    rewrite for_flag_cons, bind_eq. unfold found_group_sweep. rewrite bind_eq.
    rewrite (range_split 0 (Size b) 0) by lia.
    change (range 0 0) with (@nil Z). rewrite app_nil_l.
    rewrite for_flag_cons, bind_eq, bind_eq. unfold query.
    unfold CheckRowFoundGroup, CheckFoundGroup. simpl.
    rewrite foldl_const. done.
Qed.

Lemma heuristics_small_sizes_witness :
  exists b,
    wf b /\
    (forall n, n < 0 -> TrimNakedSets n b = None /\ TrimFoundGroups n b = None) /\
    TrimNakedSets 0 b = Some (false, b) /\
    (1 <= Size b -> TrimFoundGroups 0 b = None).
Proof.
  assert (exists b, BoardFromString puzzle_one = Some b) as [b Hb].
  { eexists. vm_compute. reflexivity. }
  pose proof (BoardFromString_ok _ _ Hb) as [Hwf _].
  exists b. split; [exact Hwf|]. apply (heuristics_small_sizes b Hwf).
Defined.

(** ** The counter of empty cells *)

Lemma sum_nat_bound (l : list nat) (k : nat) :
  Forall (fun x => (x <= k)%nat) l -> (sum_nat l <= length l * k)%nat.
Proof.
  induction 1 as [|x l Hx _ IH]; simpl; [lia|]. unfold sum_nat in *. simpl. lia.
Qed.

Lemma empties_bound b : wf b -> Z.of_nat (empties b) <= 400.
Proof.
  intros (Hsz & [Hlen Hrows] & _). unfold empties.
  pose proof (sum_nat_bound
                ((fun row => length (filter (fun v => v = EMPTY) row)) <$> Grid b)
                (Z.to_nat (Size b))) as Hsum.
  rewrite length_fmap in Hsum. unfold len in *.
  assert (length (Grid b) = Z.to_nat (Size b)) as Hl by lia. rewrite Hl in Hsum.
  assert (Z.to_nat (Size b) * Z.to_nat (Size b) <= 400)%nat by nia.
  etrans; [apply inj_le, Hsum|lia].
  apply Forall_fmap. eapply Forall_impl; [exact Hrows|]. intros row Hrow. simpl.
  pose proof (length_filter (fun v => v = EMPTY) row). unfold len in Hrow. lia.
Qed.

Lemma empties_upd_cell_gen b b' r c old val :
  cell (Grid b) r c = Some old ->
  upd_cell (Grid b) r c val = Some (Grid b') ->
  (empties b' + (if decide (old = EMPTY) then 1 else 0) =
   empties b + (if decide (val = EMPTY) then 1 else 0))%nat.
Proof.
  intros Hcell (row & row' & Hrow & Hrow' & Hg)%upd_cell_Some.
  unfold cell in Hcell. rewrite Hrow in Hcell. simpl in Hcell.
  apply upd_Some in Hrow' as [_ ->]. apply upd_Some in Hg as [_ Hg].
  apply idx_Some in Hrow as [_ Hrow]. apply idx_Some in Hcell as [_ Hcell].
  unfold empties. rewrite Hg, list_fmap_insert.
  pose proof (sum_nat_insert
                ((fun row => length (filter (fun v => v = EMPTY) row)) <$> Grid b)
                (Z.to_nat r)
                (length (filter (fun v => v = EMPTY) row))
                (length (filter (fun v => v = EMPTY) (<[Z.to_nat c := val]> row)))) as Hsum.
  rewrite list_lookup_fmap, Hrow in Hsum. specialize (Hsum eq_refl).
  pose proof (length_filter_insert (fun v => v = EMPTY) row (Z.to_nat c) old val Hcell)
    as Hrowcount.
  lia.
Qed.

Lemma Set'_counted ri ci val :
  preserves (maintains (fun b => wf b /\ counted b)) (Set' ri ci val).
Proof.
  intros b ch b' Hrun [Hwf Hcount].
  split; [eapply wf_evolves; [done|by eapply Set'_evolves]|].
  pose proof (Set'_Some _ _ _ _ _ _ Hrun) as (old & Hget & Hset). destruct ch.
  2:{ by destruct Hset as [_ ->]. }
  destruct Hset as (Hne & g & n0 & Hg & _).
  rewrite (Set'_eq ri ci val old b g Hget Hne Hg) in Hrun.
  injection Hrun as Hb'.
  assert (upd_cell (Grid b) ri ci val = Some (Grid b')) as Hg' by (by rewrite <- Hb').
  pose proof (empties_upd_cell_gen b b' ri ci old val Hget Hg') as Hemp.
  pose proof (empties_bound b Hwf) as Hbound.
  unfold counted in *. rewrite <- Hb' at 1. cbn [NumEmpty with_Grid with_NumEmpty].
  repeat case_decide; try tauto; rewrite ?int_small by lia; lia.
Qed.

Lemma allowed_shrunk_counted b b' :
  allowed_shrunk b b' -> maintains (fun b => wf b /\ counted b) b b'.
Proof.
  intros Hshr [Hwf Hcount].
  split; [eapply wf_evolves; [done|by apply allowed_shrunk_evolves]|].
  destruct Hshr as [E _]. unfold counted in *. rewrite E. done.
Qed.

Lemma perms_shrunk_counted b b' :
  perms_shrunk b b' -> maintains (fun b => wf b /\ counted b) b b'.
Proof.
  intros Hshr [Hwf Hcount].
  split; [eapply wf_evolves; [done|by apply perms_shrunk_evolves]|].
  destruct Hshr as [E _]. unfold counted in *. rewrite E. done.
Qed.

Lemma Mark_counted ri ci val :
  preserves (maintains (fun b => wf b /\ counted b)) (Mark ri ci val).
Proof.
  intros b r b' (changed & b1 & Hset & Hrest)%Mark_Some Hb.
  apply Set'_counted in Hset. specialize (Hset Hb). destruct changed.
  - destruct Hrest as [_ Hshr]. by eapply allowed_shrunk_counted.
  - by destruct Hrest as [_ ->].
Qed.

Lemma MarkMandatory_pass_counted :
  preserves (maintains (fun b => wf b /\ counted b)) MarkMandatory_pass.
Proof.
  unfold MarkMandatory_pass.
  apply preserves_bind; [apply _|apply preserves_query; apply _|]. intros nrows.
  apply preserves_for_acc; [apply _|]. intros ri flags _.
  apply preserves_bind; [apply _|apply preserves_query; apply _|]. intros ncols.
  apply preserves_for_acc; [apply _|]. intros ci flags' _.
  apply preserves_bind; [apply _|apply preserves_query; apply _|]. intros allowed.
  case_decide; [apply preserves_ret; apply _|].
  apply preserves_bind; [apply _|apply preserves_query; apply _|]. intros g.
  case_decide; [apply preserves_ret; apply _|].
  apply preserves_bind; [apply _|apply Mark_counted|]. intros r.
  apply preserves_ret; apply _.
Qed.

Lemma MarkMandatory_counted fuel :
  preserves (maintains (fun b => wf b /\ counted b)) (MarkMandatory fuel).
Proof.
  induction fuel as [|fuel IH]; simpl; [apply preserves_panic|].
  apply preserves_bind; [apply _|apply MarkMandatory_pass_counted|]. intros flags.
  apply preserves_bind; [apply _| |intros; apply preserves_ret; apply _].
  destruct (flags.2); [|apply preserves_ret; apply _].
  apply preserves_bind; [apply _|apply IH|]. intros. apply preserves_ret; apply _.
Qed.

Lemma solving_step_counted b b' :
  solving_step b b' -> maintains (fun b => wf b /\ counted b) b b'.
Proof.
  destruct 1 as [ri ci val b r b' H|fuel b r b' H|b r b' H|b r b' H|n b r b' H|n b r b' H].
  - by eapply Mark_counted.
  - by eapply MarkMandatory_counted.
  - apply allowed_shrunk_counted. by eapply TrimAllowedFromPerms_reports.
  - apply perms_shrunk_counted. by eapply TrimPermsFromAllowed_reports.
  - apply allowed_shrunk_counted. by eapply TrimNakedSets_reports.
  - apply allowed_shrunk_counted. by eapply TrimFoundGroups_reports.
Qed.

Lemma empties_replicate (n : nat) :
  sum_nat ((fun row => length (filter (fun v => v = EMPTY) row)) <$>
             replicate n (replicate n 0)) = (n * n)%nat.
Proof.
  assert (length (filter (fun v => v = EMPTY) (replicate n 0)) = n) as Hrow.
  { rewrite filter_all; [by rewrite length_replicate|].
    intros v Hv. by apply elem_of_replicate in Hv as [-> _]. }
  rewrite fmap_replicate, Hrow.
  generalize n at 1 3. intros k. induction k as [|k IH]; simpl; [done|].
  unfold sum_nat in *. simpl. lia.
Qed.

Lemma AddObserver_counted o :
  preserves (maintains (fun b => counted b)) (AddObserver o).
Proof.
  intros b u b' H Hc. apply AddObserver_Some in H as [->|(os & -> & _)]; exact Hc.
Qed.

Lemma load_inputs_counted n inputs :
  square (n + 2) inputs ->
  preserves (maintains (fun b => ok n [] b /\ counted b)) (load_inputs inputs).
Proof.
  intros [Hlen Hrows]. unfold load_inputs.
  apply preserves_for_; [apply _|]. intros [ri row] Hrr%elem_of_zip_range.
  apply preserves_for_; [apply _|]. intros [ci x] Hcc%elem_of_zip_range. simpl.
  rewrite Forall_forall in Hrows.
  pose proof (Hrows row (elem_of_idx _ _ _ Hrr)) as Hrow.
  apply idx_lt in Hrr, Hcc. simpl in Hcc. rewrite Hlen in Hrr. rewrite Hrow in Hcc.
  intros b u b' Hrun [Hb Hc].
  apply bind_Some in Hrun as (sz & b1 & (? & ? & ?)%query_Some & Hrun). simplify_eq.
  assert (Size b = n) as Hsz by (by destruct Hb as (_ & ? & _)). rewrite Hsz in Hrun.
  destruct (decide (ri = 0 \/ ri = n + 1)).
  - destruct (decide (ci = 0 \/ ci = n + 1)).
    + apply ret_Some in Hrun. by simplify_eq.
    + split; [|by eapply AddObserver_counted].
      eapply (AddObserver_maintains_ok n []); [|exact Hrun|done]. simpl. lia.
  - destruct (decide (ci = 0 \/ ci = n + 1)).
    + split; [|by eapply AddObserver_counted].
      eapply (AddObserver_maintains_ok n []); [|exact Hrun|done]. simpl. lia.
    + apply bind_Some in Hrun as (r & b2 & Hmark & Hrun%ret_Some). simplify_eq.
      split; [eapply ok_evolves; [done|by eapply Mark_evolves]|].
      eapply Mark_counted; [exact Hmark|]. split; [by destruct Hb|done].
Qed.

Lemma PopulateRowColPerms_counted : preserves (maintains counted) PopulateRowColPerms.
Proof.
  assert (forall ri v, preserves (maintains counted) (set_RowPerms ri v)) as Hrow.
  { intros ri v b u b' (rp & _ & ->)%set_RowPerms_Some Hc. exact Hc. }
  assert (forall ci v, preserves (maintains counted) (set_ColPerms ci v)) as Hcol.
  { intros ci v b u b' (cp & _ & ->)%set_ColPerms_Some Hc. exact Hc. }
  unfold PopulateRowColPerms.
  apply preserves_bind; [apply _|apply preserves_query; apply _|]. intros sz.
  apply preserves_bind; [apply _| |intros pi; apply preserves_bind; [apply _| |]].
  - apply preserves_for_acc; [apply _|]. intros ri pi _.
    repeat (apply preserves_bind; [apply _|apply preserves_query; apply _|]; intros ?).
    apply preserves_bind; [apply _|apply Hrow|]. intros. apply preserves_ret; apply _.
  - apply preserves_for_acc; [apply _|]. intros ci pi' _.
    repeat (apply preserves_bind; [apply _|apply preserves_query; apply _|]; intros ?).
    apply preserves_bind; [apply _|apply Hcol|]. intros. apply preserves_ret; apply _.
  - intros. apply preserves_ret; apply _.
Qed.

Lemma BoardFromString_counted input b : BoardFromString input = Some b -> counted b.
Proof.
  intros Hb. pose proof (BoardFromString_ok _ _ Hb) as (Hwf & Hsz & _).
  apply BoardFromString_Some in Hb
    as (b0 & inputs & u1 & b1 & perms & u2 & b2 & u3 & H0 & Hin & H1 & Hp & H2 & H3).
  set (n := len (input_lines input) - 2) in *.
  assert (n <= 20) as Hsmall by (destruct Hwf as (? & _); lia).
  pose proof (blank_board_wf _ _ H0 Hsmall) as Hok0.
  assert (counted b0) as Hc0.
  { apply blank_board_Some in H0 as [Hn ->]. unfold counted, empties. simpl.
    rewrite empties_replicate. rewrite int_small by nia. lia. }
  assert (counted b1) as Hc1.
  { eapply (load_inputs_counted n inputs); [|exact H1|done].
    apply parse_inputs_square in Hin.
    by replace (n + 2) with (len (input_lines input)) by lia. }
  apply PopulateRowColPerms_counted in H2. specialize (H2 Hc1).
  apply TrimAllowedFromPerms_reports in H3 as [[E _] _].
  unfold counted in *. rewrite E. done.
Qed.

(** X14: on every board reachable from the constructor by solving
    operations, [NumEmpty] is the number of cells of the grid that
    hold [EMPTY]; so the first test of [Solved] passes exactly when no
    cell is empty. *)
Theorem reachable_counted b :
  reachable b ->
  NumEmpty b = Z.of_nat (empties b) /\
  (NumEmpty b = 0 <-> forall r c g, cell (Grid b) r c = Some g -> g <> EMPTY).
Proof.
  intros (input & b0 & H0 & Hsteps).
  assert (wf b /\ counted b) as [Hwf Hc].
  { pose proof (BoardFromString_ok _ _ H0) as [Hwf0 _].
    pose proof (BoardFromString_counted _ _ H0) as Hc0.
    clear H0. induction Hsteps as [b|b1 b2 b3 H12 _ IH]; [done|].
    apply IH; by eapply solving_step_counted. }
  split; [exact Hc|]. rewrite Hc. unfold empties. split.
  - intros Hzero r c g (row & Hrow & Hg)%cell_Some ->.
    assert (sum_nat ((fun row => length (filter (fun v => v = EMPTY) row)) <$> Grid b)
            = 0%nat) as Hsum by lia.
    assert (forall l : list nat, sum_nat l = 0%nat -> forall x, x ∈ l -> x = 0%nat) as Hall.
    { clear. induction l as [|y l IH]; intros Hs x Hx; [by apply elem_of_nil in Hx|].
      unfold sum_nat in *. simpl in Hs. apply elem_of_cons in Hx as [->|Hx]; [lia|].
      apply IH; [lia|done]. }
    assert (length (filter (fun v => v = EMPTY) row) = 0%nat) as Hnone.
    { apply (Hall _ Hsum). apply list_elem_of_fmap. exists row. split; [done|].
      by eapply elem_of_idx. }
    apply length_zero_iff_nil in Hnone.
    assert (EMPTY ∈ filter (fun v => v = EMPTY) row) as Hin.
    { apply list_elem_of_filter. split; [done|]. by eapply elem_of_idx. }
    rewrite Hnone in Hin. by apply elem_of_nil in Hin.
  - intros Hfull. f_equal.
    assert (forall l : list nat, (forall x, x ∈ l -> x = 0%nat) -> sum_nat l = 0%nat) as Hall.
    { clear. induction l as [|y l IH]; intros H; [done|].
      unfold sum_nat in *. simpl. rewrite (H y) by left. simpl.
      apply IH. intros x Hx. apply H. by right. }
    rewrite Hall; [done|]. intros x (row & -> & Hrow)%list_elem_of_fmap.
    apply length_zero_iff_nil.
    destruct (filter (fun v => v = EMPTY) row) as [|v l] eqn:E; [done|]. exfalso.
    assert (v ∈ filter (fun v => v = EMPTY) row) as Hv by (rewrite E; left).
    apply list_elem_of_filter in Hv as [-> [j Hj]%list_elem_of_lookup_1].
    apply list_elem_of_lookup_1 in Hrow as [i Hi].
    apply (Hfull (Z.of_nat i) (Z.of_nat j) EMPTY); [|done].
    apply cell_Some. exists row. by rewrite !idx_of_nat.
Qed.

Lemma reachable_counted_witness :
  exists b,
    reachable b /\
    NumEmpty b = Z.of_nat (empties b) /\
    (NumEmpty b = 0 <-> forall r c g, cell (Grid b) r c = Some g -> g <> EMPTY).
Proof.
  assert (exists b, BoardFromString puzzle_one = Some b) as [b Hb].
  { eexists. vm_compute. reflexivity. }
  assert (reachable b) as Hreach.
  { exists puzzle_one, b. split; [exact Hb|]. apply rtc_refl. }
  exists b. split; [exact Hreach|]. apply (reachable_counted b Hreach).
Defined.

(** ** Latin squares *)

Lemma column_idx sol c col r : column sol c = Some col -> idx col r = cell sol r c.
Proof.
  unfold column. intros H%mapM_Some. unfold cell.
  destruct (idx sol r) as [row|] eqn:Hrow; simpl.
  - apply idx_Some in Hrow as [Hr Hrow].
    destruct (Forall2_lookup_l _ _ _ _ _ H Hrow) as (v & Hv & Hrv).
    rewrite Hrv. apply idx_Some. done.
  - apply idx_None in Hrow. apply idx_None.
    apply Forall2_length in H. unfold len in *. lia.
Qed.

Lemma Permutation_seqZ_lookup (l : list Z) (n : Z) :
  l ≡ₚ seqZ 1 n ->
  length l = Z.to_nat n /\ NoDup l /\ forall v, v ∈ l <-> 1 <= v <= n.
Proof.
  intros Hp. split_and!.
  - rewrite Hp. apply length_seqZ.
  - rewrite Hp. apply NoDup_seqZ.
  - intros v. rewrite Hp, elem_of_seqZ. lia.
Qed.

Lemma latin_row n sol : latin n sol -> forall r, 0 <= r < n -> latin_line n sol (fun i => (r, i)).
Proof.
  intros (Hlen & Hrows & _) r Hr.
  destruct (proj2 (idx_is_Some sol r)) as [row Hrow]; [lia|].
  destruct (Permutation_seqZ_lookup row n (Hrows r row Hrow)) as (Hl & Hnd & Hin).
  assert (forall i v, cell sol r i = Some v <-> idx row i = Some v) as Hcell.
  { intros i v. unfold cell. rewrite Hrow. done. }
  split_and!; simpl.
  - intros i Hi. destruct (proj2 (idx_is_Some row i)) as [v Hv]; [unfold len; lia|].
    exists v. split; [by apply Hcell|]. apply Hin. by eapply elem_of_idx.
  - intros i j v Hi Hj Hvi%Hcell Hvj%Hcell.
    apply idx_Some in Hvi as [_ Hvi]. apply idx_Some in Hvj as [_ Hvj].
    pose proof (NoDup_lookup _ _ _ _ Hnd Hvi Hvj). lia.
  - intros v Hv. apply Hin in Hv as [k Hk]%list_elem_of_lookup_1.
    exists (Z.of_nat k). split.
    + apply lookup_lt_Some in Hk. lia.
    + apply Hcell. by rewrite idx_of_nat.
Qed.

Lemma latin_column n sol : latin n sol -> forall c, 0 <= c < n -> latin_line n sol (fun i => (i, c)).
Proof.
  intros (Hlen & _ & Hcols) c Hc.
  destruct (Hcols c Hc) as (col & Hcol & Hperm).
  destruct (Permutation_seqZ_lookup col n Hperm) as (Hl & Hnd & Hin).
  assert (forall i v, cell sol i c = Some v <-> idx col i = Some v) as Hcell.
  { intros i v. by rewrite (column_idx _ _ _ i Hcol). }
  split_and!; simpl.
  - intros i Hi. destruct (proj2 (idx_is_Some col i)) as [v Hv]; [unfold len; lia|].
    exists v. split; [by apply Hcell|]. apply Hin. by eapply elem_of_idx.
  - intros i j v Hi Hj Hvi%Hcell Hvj%Hcell.
    apply idx_Some in Hvi as [_ Hvi]. apply idx_Some in Hvj as [_ Hvj].
    pose proof (NoDup_lookup _ _ _ _ Hnd Hvi Hvj). lia.
  - intros v Hv. apply Hin in Hv as [k Hk]%list_elem_of_lookup_1.
    exists (Z.of_nat k). split.
    + apply lookup_lt_Some in Hk. lia.
    + apply Hcell. by rewrite idx_of_nat.
Qed.

Lemma latin_cell_inv n sol r c v :
  latin n sol -> cell sol r c = Some v -> 0 <= r < n /\ 0 <= c < n /\ 1 <= v <= n.
Proof.
  intros (Hlen & Hrows & _) (row & Hrow & Hv)%cell_Some.
  destruct (Permutation_seqZ_lookup row n (Hrows r row Hrow)) as (Hl & _ & Hin).
  pose proof (idx_lt _ _ _ Hrow). pose proof (idx_lt _ _ _ Hv).
  split; [lia|]. split; [unfold len in *; lia|]. apply Hin. by eapply elem_of_idx.
Qed.

(** A set as large as a list of pairwise different members of it has
    no other member. *)
Lemma pigeonhole (vs : list Z) (A : gset Z) :
  NoDup vs -> (forall v, v ∈ vs -> v ∈ A) -> length vs = size A ->
  forall a, a ∈ A -> a ∈ vs.
Proof.
  intros Hnd Hsub Hlen a Ha.
  destruct (decide (a ∈ vs)) as [|Hna]; [done|]. exfalso.
  assert (list_to_set vs ⊂ A) as Hstrict.
  { split.
    - intros v Hv%elem_of_list_to_set. by apply Hsub.
    - intros Hback. apply Hna. specialize (Hback a Ha).
      by apply elem_of_list_to_set in Hback. }
  apply subset_size in Hstrict. rewrite size_list_to_set in Hstrict by done. lia.
Qed.

Lemma NumSetsEqual_true (a b : gset Z) : NumSetsEqual a b = true -> a = b.
Proof.
  unfold NumSetsEqual. case_decide as Hsz; [done|]. intros Hall.
  assert (forall k, k ∈ a -> k ∈ b) as Hsub.
  { intros k Hk. rewrite forallb_forall in Hall.
    specialize (Hall k). rewrite <- list_elem_of_In, elem_of_elements in Hall.
    specialize (Hall Hk). by apply bool_decide_eq_true in Hall. }
  apply set_eq. intros x. split; [apply Hsub|]. intros Hx.
  rewrite <- (elem_of_elements a). apply (pigeonhole (elements a) b); [| | |done].
  - apply NoDup_elements.
  - intros v Hv%elem_of_elements. by apply Hsub.
  - done.
Qed.

(** ** The propagation rules keep every solution *)

Lemma latin_unique_row n sol r c c' v :
  latin n sol -> cell sol r c = Some v -> cell sol r c' = Some v -> c = c'.
Proof.
  intros Hlat H1 H2.
  destruct (latin_cell_inv _ _ _ _ _ Hlat H1) as (Hr & Hc & _).
  destruct (latin_cell_inv _ _ _ _ _ Hlat H2) as (_ & Hc' & _).
  destruct (latin_row n sol Hlat r Hr) as (_ & Hinj & _).
  by apply (Hinj c c' v).
Qed.

Lemma latin_unique_column n sol r r' c v :
  latin n sol -> cell sol r c = Some v -> cell sol r' c = Some v -> r = r'.
Proof.
  intros Hlat H1 H2.
  destruct (latin_cell_inv _ _ _ _ _ Hlat H1) as (Hr & Hc & _).
  destruct (latin_cell_inv _ _ _ _ _ Hlat H2) as (Hr' & _ & _).
  destruct (latin_column n sol Hlat c Hc) as (_ & Hinj & _).
  by apply (Hinj r r' v).
Qed.

Lemma sound_for_evolves sol b b' :
  sound_for sol b -> evolves b b' -> admits sol b' -> sound_for sol b'.
Proof.
  intros (Hwf & Hlat & _) Hev Hadm. split; [by eapply wf_evolves|]. split; [|done].
  destruct Hev as (-> & _). done.
Qed.

(** Replacing one candidate set by a set that still has the value of
    the solution. *)
Lemma upd_allowed_admits sol r c s s' a' b :
  admits sol b -> cell (Allowed b) r c = Some s ->
  upd_cell (Allowed b) r c s' = Some a' ->
  (forall v, cell sol r c = Some v -> v ∈ s -> v ∈ s') ->
  admits sol (with_Allowed a' b).
Proof.
  intros (Ha & Hg & Hr & Hc) Hs Ha' Hkeep. split_and!; try done.
  intros r' c' v Hv. simpl. rewrite (cell_upd_cell _ _ _ _ _ r' c' Ha').
  destruct (Ha r' c' v Hv) as (s0 & Hs0 & Hin).
  case_decide as Heq; [|by exists s0].
  destruct Heq as [-> ->]. exists s'. split; [done|]. simplify_eq. by apply Hkeep.
Qed.

Lemma delete_allowed_sound sol r c n :
  (forall b, sound_for sol b -> cell sol r c <> Some n) ->
  preserves (maintains (sound_for sol)) (delete_allowed r c n).
Proof.
  intros Hne b u b' Hrun Hb.
  eapply sound_for_evolves; [done|by eapply delete_allowed_evolves|].
  apply delete_allowed_Some in Hrun as (s & a' & Hs & Ha' & ->).
  eapply upd_allowed_admits; [by destruct Hb as (_ & _ & ?)|done|done|].
  intros v Hv Hin. apply elem_of_difference. split; [done|].
  intros ->%elem_of_singleton. by apply (Hne b Hb).
Qed.

Lemma strike_sound sol r c n :
  (forall b, sound_for sol b -> cell sol r c <> Some n) ->
  preserves (maintains (sound_for sol)) (strike r c n).
Proof.
  intros Hne. unfold strike.
  apply preserves_bind; [apply _|apply preserves_query; apply _|]. intros [|].
  - apply preserves_bind; [apply _|by apply delete_allowed_sound|].
    intros. apply preserves_ret; apply _.
  - apply preserves_ret; apply _.
Qed.

Lemma Set'_sound sol ri ci val :
  (forall b, sound_for sol b -> cell sol ri ci = Some val) ->
  preserves (maintains (sound_for sol)) (Set' ri ci val).
Proof.
  intros Hval b ch b' Hrun Hb. specialize (Hval b Hb).
  eapply sound_for_evolves; [done|by eapply Set'_evolves|].
  apply Set'_Some in Hrun as (old & Hget & Hset). destruct ch.
  2:{ destruct Hset as [_ ->]. by destruct Hb as (_ & _ & ?). }
  destruct Hset as (Hne & g & n & Hg & ->).
  destruct Hb as (_ & _ & Ha & Hgr & Hr & Hc). split_and!; try done.
  intros r c x Hx Hxne. simpl in Hx. rewrite (cell_upd_cell _ _ _ _ _ r c Hg) in Hx.
  case_decide as Heq; [|by apply Hgr].
  destruct Heq as [-> ->]. by simplify_eq.
Qed.

(** Marking a cell with the value the solution has there. *)
Lemma Mark_sound sol ri ci val :
  (forall b, sound_for sol b -> cell sol ri ci = Some val) ->
  preserves (maintains (sound_for sol)) (Mark ri ci val).
Proof.
  intros Hval. unfold Mark.
  apply preserves_bind; [apply _|by apply Set'_sound|]. intros [|]; simpl.
  2:{ apply preserves_ret; apply _. }
  apply preserves_bind; [apply _|apply preserves_query; apply _|]. intros sz.
  apply preserves_bind; [apply _| |intros nb; apply preserves_bind; [apply _| |]].
  - apply preserves_for_flag; [apply _|]. intros i _.
    apply preserves_bind; [apply _| |intros n1; apply preserves_bind; [apply _| |]].
    + case_decide as Hi; [|apply preserves_ret; apply _].
      apply strike_sound. intros b Hb Hcell. apply Hi.
      pose proof Hb as (_ & Hlat & _).
      eapply latin_unique_column; [exact Hlat|exact Hcell|]. exact (Hval b Hb).
    + case_decide as Hi; [|apply preserves_ret; apply _].
      apply strike_sound. intros b Hb Hcell. apply Hi.
      pose proof Hb as (_ & Hlat & _).
      eapply latin_unique_row; [exact Hlat|exact Hcell|]. exact (Hval b Hb).
    + intros. apply preserves_ret; apply _.
  - apply preserves_for_; [apply _|]. intros i _.
    case_decide as Hi; [|apply preserves_ret; apply _].
    apply delete_allowed_sound. intros b Hb Hcell.
    rewrite (Hval b Hb) in Hcell. by simplify_eq.
  - intros. apply preserves_ret; apply _.
Qed.

Lemma latin_cell_ex n sol r c :
  latin n sol -> 0 <= r < n -> 0 <= c < n -> exists v, cell sol r c = Some v /\ 1 <= v <= n.
Proof.
  intros Hlat Hr Hc. destruct (latin_row n sol Hlat r Hr) as (Hex & _).
  apply (Hex c Hc).
Qed.

Lemma MarkMandatory_pass_sound sol :
  preserves (maintains (sound_for sol)) MarkMandatory_pass.
Proof.
  unfold MarkMandatory_pass.
  apply preserves_bind; [apply _|apply preserves_query; apply _|]. intros nrows.
  apply preserves_for_acc; [apply _|]. intros ri flags _.
  apply preserves_bind; [apply _|apply preserves_query; apply _|]. intros ncols.
  apply preserves_for_acc; [apply _|]. intros ci flags' _.
  intros b x b' Hrun Hb.
  apply bind_Some in Hrun as (allowed & b0 & (? & Hallowed & ?)%query_Some & Hrun).
  simplify_eq.
  case_decide as Hsize; [apply ret_Some in Hrun; by simplify_eq|].
  apply bind_Some in Hrun as (g & b0 & (? & Hget & ?)%query_Some & Hrun). simplify_eq.
  case_decide; [apply ret_Some in Hrun; by simplify_eq|].
  apply bind_Some in Hrun as (r & b1 & Hmark & Hrun%ret_Some). simplify_eq.
  pose proof Hb as (Hwf & Hlat & Hadm).
  destruct Hwf as (_ & _ & Hsq & _).
  destruct (square_cell_inv _ _ _ _ _ Hsq Hallowed) as [Hri Hci].
  destruct (latin_cell_ex _ _ ri ci Hlat Hri Hci) as (v & Hv & _).
  destruct Hadm as (Ha & _). destruct (Ha ri ci v Hv) as (s & Hs & Hin).
  rewrite Hallowed in Hs. injection Hs as <-.
  apply size_1_elem_of in Hsize as [k Hk]. apply leibniz_equiv in Hk.
  rewrite Hk in Hmark, Hin.
  rewrite elements_singleton in Hmark. apply elem_of_singleton in Hin. subst v.
  eapply (Mark_sound sol ri ci k); [|exact Hmark|exact Hb].
  intros. exact Hv.
Qed.

Lemma MarkMandatory_sound sol fuel :
  preserves (maintains (sound_for sol)) (MarkMandatory fuel).
Proof.
  induction fuel as [|fuel IH]; simpl; [apply preserves_panic|].
  apply preserves_bind; [apply _|apply MarkMandatory_pass_sound|]. intros flags.
  apply preserves_bind; [apply _| |intros; apply preserves_ret; apply _].
  destruct (flags.2); [|apply preserves_ret; apply _].
  apply preserves_bind; [apply _|apply IH|]. intros. apply preserves_ret; apply _.
Qed.

Lemma delete_allowed_sound_at sol r c n b u b' :
  delete_allowed r c n b = Some (u, b') -> sound_for sol b ->
  cell sol r c <> Some n -> sound_for sol b'.
Proof.
  intros Hrun Hb Hne. eapply (delete_allowed_sound sol r c n); [|exact Hrun|exact Hb].
  intros. exact Hne.
Qed.

(** A value of the solution is supported by the permutation lists of
    its row and of its column. *)
Lemma sound_for_supported sol b r c v rp cp :
  sound_for sol b -> cell sol r c = Some v ->
  idx (RowPerms b) r = Some rp -> idx (ColPerms b) c = Some cp ->
  supports rp c v b /\ supports cp r v b.
Proof.
  intros (Hwf & Hlat & _ & _ & Hrows & Hcols) Hv Hrp Hcp.
  destruct (latin_cell_inv _ _ _ _ _ Hlat Hv) as (Hr & Hc & _).
  pose proof Hv as (row & Hrow & Hrv)%cell_Some.
  destruct Hlat as (_ & _ & Hcolumn). destruct (Hcolumn c Hc) as (col & Hcol & _).
  split.
  - destruct rp as [l|]; [|done]. simpl.
    destruct (Hrows r l row Hrp Hrow) as (pi & Hpi & Hperm). by exists pi, row.
  - destruct cp as [l|]; [|done]. simpl.
    destruct (Hcols c l col Hcp Hcol) as (pi & Hpi & Hperm). exists pi, col.
    split; [done|]. split; [done|]. by rewrite (column_idx _ _ _ r Hcol).
Qed.

Lemma trim_candidate_sound sol ri ci n :
  preserves (maintains (sound_for sol)) (trim_candidate ri ci n).
Proof.
  intros b x b' Hrun Hb. rewrite trim_candidate_eq in Hrun.
  apply bind_Some in Hrun as (d0 & b0 & (d & Hd & [= -> ->])%query_Some & Hrun).
  destruct d; [|apply ret_Some in Hrun; by simplify_eq].
  apply bind_Some in Hrun as ([] & b1 & Hdel & Hrun%ret_Some). simplify_eq.
  eapply delete_allowed_sound_at; [exact Hdel|exact Hb|]. intros Hv.
  pose proof Hb as (Hwf & Hlat & _).
  destruct (latin_cell_inv _ _ _ _ _ Hlat Hv) as (Hr & Hc & _).
  destruct (ok_RowPerms _ _ b ri (conj Hwf (conj eq_refl eq_refl)) Hr) as (rp & Hrp & _).
  destruct (ok_ColPerms _ _ b ci (conj Hwf (conj eq_refl eq_refl)) Hc) as (cp & Hcp & _).
  apply (unsupported_true ri ci n b rp cp Hd Hrp Hcp).
  by eapply sound_for_supported.
Qed.

Lemma TrimAllowedFromPerms_sound sol :
  preserves (maintains (sound_for sol)) TrimAllowedFromPerms.
Proof.
  unfold TrimAllowedFromPerms.
  apply preserves_bind; [apply _|apply preserves_query; apply _|]. intros sz.
  apply preserves_for_flag; [apply _|]. intros ri _.
  apply preserves_for_flag; [apply _|]. intros ci _. unfold trim_cell.
  apply preserves_bind; [apply _|apply preserves_query; apply _|]. intros allowed.
  apply preserves_for_flag; [apply _|]. intros n _. apply trim_candidate_sound.
Qed.

Lemma all_ok_all_true {A} (ok : A -> option bool) (l : list A) :
  (forall x, x ∈ l -> ok x = Some true) -> all_ok ok l = Some true.
Proof.
  induction l as [|x l IH]; intros H; simpl; [done|].
  rewrite (H x) by left. simpl. apply IH. intros y Hy. apply H. by right.
Qed.

Lemma filter_ok_keeps {A} (ok : A -> option bool) (l l' : list A) x :
  filter_ok ok l = Some l' -> x ∈ l -> ok x = Some true -> x ∈ l'.
Proof.
  revert l'. induction l as [|y l IH]; intros l' Hrun Hx Hok; [by apply elem_of_nil in Hx|].
  simpl in Hrun. destruct (ok y) as [k|] eqn:Hy; simpl in Hrun; [|done].
  destruct (filter_ok ok l) as [rest|]; simpl in Hrun; [|done]. simplify_eq.
  apply elem_of_cons in Hx as [->|Hx].
  - rewrite Hok in Hy. simplify_eq. left.
  - destruct k; [right|]; by apply IH.
Qed.

(** The permutation of a line of the solution passes the test of
    [TrimPermsFromAllowed]. *)
Lemma perm_allowed_solution sol b (at_ : Z -> Z * Z) pi line :
  sound_for sol b -> idx (Perms b) pi = Some line ->
  (forall i, 0 <= i < Size b -> idx line i = cell sol (at_ i).1 (at_ i).2) ->
  (forall i, 0 <= i < Size b -> is_Some (cell sol (at_ i).1 (at_ i).2)) ->
  perm_allowed at_ pi b = Some true.
Proof.
  intros (_ & _ & Ha & _) Hpi Hline Hex. unfold perm_allowed.
  apply all_ok_all_true. intros i Hi%elem_of_range.
  rewrite Hpi. simpl. rewrite (Hline i Hi).
  destruct (Hex i Hi) as [v Hv]. rewrite Hv. simpl.
  destruct (Ha _ _ _ Hv) as (s & Hs & Hin).
  unfold IsAllowed. rewrite Hs. simpl. by rewrite bool_decide_eq_true_2.
Qed.

Lemma trim_perms_row_sound sol li :
  preserves (maintains (sound_for sol))
    (trim_perms RowPerms with_RowPerms (fun ri i => (ri, i)) li).
Proof.
  intros b x b' Hrun Hb.
  eapply sound_for_evolves; [done| |].
  { eapply perms_shrunk_evolves, trim_perms_row_reports, Hrun. }
  unfold trim_perms in Hrun.
  apply bind_Some in Hrun as (rp0 & b0 & (rp & Hrp & [= -> ->])%query_Some & Hrun).
  pose proof Hb as (Hwf & Hlat & Hadm).
  destruct rp as [l|]; [|apply ret_Some in Hrun; by simplify_eq].
  apply bind_Some in Hrun as (np0 & b0 & (np & Hnp & [= -> ->])%query_Some & Hrun).
  case_decide; [|apply ret_Some in Hrun; by simplify_eq].
  destruct (upd (RowPerms b) li (Some np)) as [rps|] eqn:Hupd; simpl in Hrun; [|done].
  simplify_eq. destruct Hadm as (Ha & Hg & Hrows & Hcols). split_and!; try done.
  intros r l' row Hr Hrow. simpl in Hr. rewrite (idx_upd _ _ _ _ r Hupd) in Hr.
  case_decide as Heq; [|by eapply Hrows].
  subst r. simplify_eq. destruct (Hrows li l row Hrp Hrow) as (pi & Hpi & Hperm).
  exists pi. split; [|done]. eapply filter_ok_keeps; [exact Hnp|done|].
  destruct Hlat as (Hlen & Hperms & _).
  destruct (Permutation_seqZ_lookup row _ (Hperms li row Hrow)) as (Hl & _).
  eapply perm_allowed_solution; [exact Hb|exact Hperm| |]; simpl.
  - intros i Hi. unfold cell. by rewrite Hrow.
  - intros i Hi. unfold cell. rewrite Hrow. simpl. apply idx_is_Some. unfold len. lia.
Qed.

Lemma trim_perms_col_sound sol li :
  preserves (maintains (sound_for sol))
    (trim_perms ColPerms with_ColPerms (fun ci i => (i, ci)) li).
Proof.
  intros b x b' Hrun Hb.
  eapply sound_for_evolves; [done| |].
  { eapply perms_shrunk_evolves, trim_perms_col_reports, Hrun. }
  unfold trim_perms in Hrun.
  apply bind_Some in Hrun as (cp0 & b0 & (cp & Hcp & [= -> ->])%query_Some & Hrun).
  pose proof Hb as (Hwf & Hlat & Hadm).
  destruct cp as [l|]; [|apply ret_Some in Hrun; by simplify_eq].
  apply bind_Some in Hrun as (np0 & b0 & (np & Hnp & [= -> ->])%query_Some & Hrun).
  case_decide; [|apply ret_Some in Hrun; by simplify_eq].
  destruct (upd (ColPerms b) li (Some np)) as [cps|] eqn:Hupd; simpl in Hrun; [|done].
  simplify_eq. destruct Hadm as (Ha & Hg & Hrows & Hcols). split_and!; try done.
  intros c l' col Hc Hcol. simpl in Hc. rewrite (idx_upd _ _ _ _ c Hupd) in Hc.
  case_decide as Heq; [|by eapply Hcols].
  subst c. simplify_eq. destruct (Hcols li l col Hcp Hcol) as (pi & Hpi & Hperm).
  exists pi. split; [|done]. eapply filter_ok_keeps; [exact Hnp|done|].
  assert (0 <= li < Size b) as Hli.
  { destruct Hwf as (_ & _ & _ & _ & _ & Hlen & _). apply idx_lt in Hcp. lia. }
  destruct (latin_column _ _ Hlat li Hli) as (Hex & _).
  eapply perm_allowed_solution; [exact Hb|exact Hperm| |]; simpl.
  - intros i Hi. by rewrite (column_idx _ _ _ i Hcol).
  - intros i Hi. destruct (Hex i Hi) as (v & Hv & _). by eexists.
Qed.

Lemma TrimPermsFromAllowed_sound sol :
  preserves (maintains (sound_for sol)) TrimPermsFromAllowed.
Proof.
  unfold TrimPermsFromAllowed.
  apply preserves_bind; [apply _|apply preserves_query; apply _|]. intros nrows.
  apply preserves_bind; [apply _| |intros ch1].
  { apply preserves_for_flag; [apply _|]. intros ri _. apply trim_perms_row_sound. }
  apply preserves_bind; [apply _|apply preserves_query; apply _|]. intros ncols.
  apply preserves_bind; [apply _| |intros; apply preserves_ret; apply _].
  apply preserves_for_flag; [apply _|]. intros ci _. apply trim_perms_col_sound.
Qed.

(** ** The pattern heuristics keep every solution *)

Lemma stops_query_val {A} (P : relation Board) (f : Board -> option A) (k : A -> M bool) :
  (forall a, stops_at_first (fun b b' => f b = Some a -> P b b') (k a)) ->
  stops_at_first P (bind (query f) k).
Proof.
  intros Hk b c b' (a & b1 & (a' & Hf & ?)%query_Some & H2)%bind_Some.
  simplify_eq. specialize (Hk _ _ _ _ H2). destruct c; [by apply Hk|done].
Qed.

Lemma make_out {A} (n : Z) (x : A) : n < 0 \/ maxInt < n -> make n x = None.
Proof. intros Hn. unfold make. by rewrite decide_True. Qed.

(** What [Permute] returns whenever it returns. *)
Lemma Permute_Some low high r out :
  Permute low high r = Some out ->
  0 <= int (int (high - low) + 1) /\ 0 <= r /\
  out = completions low (Z.to_nat r)
          (replicate (Z.to_nat (int (int (high - low) + 1))) false) [].
Proof.
  unfold Permute. generalize (int (int (high - low) + 1)). intros n Hrun.
  destruct (div _ _) as [cap|]; cbn [mbind option_bind] in Hrun; [|done].
  destruct (make cap _) as [?|]; cbn [mbind option_bind] in Hrun; [|done].
  destruct (decide (r < 0 \/ maxInt < r)) as [Hr|Hr].
  { by rewrite (make_out r) in Hrun. }
  destruct (decide (n < 0 \/ maxInt < n)) as [Hn|Hn].
  { rewrite (make_out n) in Hrun by done. destruct (make r 0); done. }
  rewrite !make_Some in Hrun by lia. cbn [mbind option_bind] in Hrun.
  rewrite Permute_run in Hrun by lia.
  unfold appends in Hrun. case_decide; [|done]. simpl in Hrun. simplify_eq.
  split; [lia|]. split; [lia|done].
Qed.

Lemma all_ok_true_inv {A} (ok : A -> option bool) (l : list A) :
  all_ok ok l = Some true -> forall x, x ∈ l -> ok x = Some true.
Proof.
  induction l as [|y l IH]; intros H x Hx; [by apply elem_of_nil in Hx|].
  simpl in H. destruct (ok y) as [[|]|] eqn:Hy; simpl in H; try done.
  apply elem_of_cons in Hx as [->|Hx]; [done|by apply IH].
Qed.

Lemma CheckNakedSet_true at_ idxs b :
  CheckNakedSet at_ idxs b = Some true ->
  exists i0 rest A,
    idxs = i0 :: rest /\
    cell (Allowed b) (at_ i0).1 (at_ i0).2 = Some A /\
    len idxs = Z.of_nat (size A) /\
    forall i, i ∈ idxs -> cell (Allowed b) (at_ i).1 (at_ i).2 = Some A.
Proof.
  destruct idxs as [|i0 rest]; [done|]. intros H. cbn [CheckNakedSet] in H.
  destruct (cell (Allowed b) (at_ i0).1 (at_ i0).2) as [A|] eqn:HA;
    cbn [mbind option_bind] in H; [|done].
  case_decide as Hlen; [done|].
  exists i0, rest, A. split; [done|]. split; [done|]. split; [done|].
  intros i [->|Hi]%elem_of_cons; [done|].
  pose proof (all_ok_true_inv _ _ H i Hi) as Hok. cbn beta in Hok.
  destruct (cell (Grid b) (at_ i).1 (at_ i).2) as [g|]; cbn [mbind option_bind] in Hok;
    [|done].
  case_decide; [done|].
  destruct (cell (Allowed b) (at_ i).1 (at_ i).2) as [a|]; cbn [mbind option_bind] in Hok;
    [|done].
  simplify_eq. f_equal. by apply NumSetsEqual_true.
Qed.

Lemma NoDup_Forall2_inj {A B} (R : A -> B -> Prop) (l : list A) (k : list B) :
  (forall x y z, x ∈ l -> y ∈ l -> R x z -> R y z -> x = y) ->
  NoDup l -> Forall2 R l k -> NoDup k.
Proof.
  intros Hinj Hnd H. induction H as [|x z l k Hxz H IH]; [constructor|].
  apply NoDup_cons in Hnd as [Hx Hnd]. apply NoDup_cons. split.
  - intros Hz. apply list_elem_of_lookup_1 in Hz as [i Hi].
    destruct (Forall2_lookup_r _ _ _ _ _ H Hi) as (y & Hy & Hyz).
    apply list_elem_of_lookup_2 in Hy.
    assert (x = y) as -> by (apply (Hinj x y z); [left|by right|done|done]).
    done.
  - apply IH; [|done]. intros a b c Ha Hb. apply Hinj; by right.
Qed.

(** The cells of a naked set hold all the values of its candidate
    set, so no other cell of the line has one of them. *)
Lemma naked_set_sound sol b (at_ : Z -> Z * Z) idxs pos i0 A k :
  sound_for sol b -> latin_line (Size b) sol at_ ->
  CheckNakedSet at_ idxs b = Some true ->
  NoDup idxs -> (forall i, i ∈ idxs -> 0 <= i < Size b) ->
  0 <= pos < Size b -> pos ∉ idxs ->
  idx idxs 0 = Some i0 -> cell (Allowed b) (at_ i0).1 (at_ i0).2 = Some A ->
  k ∈ A -> cell sol (at_ pos).1 (at_ pos).2 <> Some k.
Proof.
  intros (_ & _ & Ha & _) (Hex & Hinj & _) Hcheck Hnd Hrange Hpos Hout Hi0 HA Hk Hsol.
  apply CheckNakedSet_true in Hcheck as (i0' & rest & A' & -> & HA' & Hlen & Hall).
  change (idx (i0' :: rest) 0) with (Some i0') in Hi0.
  injection Hi0 as ->. assert (A' = A) as -> by congruence. clear HA'.
  assert (exists vs, Forall2 (fun i v => cell sol (at_ i).1 (at_ i).2 = Some v)
                       (i0 :: rest) vs) as [vs Hvs].
  { clear -Hex Hrange. induction (i0 :: rest) as [|i l IH]; [by exists []|].
    destruct IH as [vs Hvs]; [intros j Hj; apply Hrange; by right|].
    destruct (Hex i) as (v & Hv & _); [apply Hrange; left|].
    exists (v :: vs). by constructor. }
  assert (k ∈ vs) as Hkvs.
  { apply (pigeonhole vs A); [| | |done].
    - eapply NoDup_Forall2_inj; [|exact Hnd|exact Hvs].
      intros x y z Hx Hy Hxz Hyz. apply (Hinj x y z); auto.
    - intros v [j Hj]%list_elem_of_lookup_1.
      destruct (Forall2_lookup_r _ _ _ _ _ Hvs Hj) as (i & Hi & Hiv).
      destruct (Ha _ _ _ Hiv) as (s & Hs & Hin).
      rewrite (Hall i) in Hs by (by eapply list_elem_of_lookup_2). by simplify_eq.
    - apply Forall2_length in Hvs. unfold len in Hlen. lia. }
  apply list_elem_of_lookup_1 in Hkvs as [j Hj].
  destruct (Forall2_lookup_r _ _ _ _ _ Hvs Hj) as (i & Hi & Hik).
  apply list_elem_of_lookup_2 in Hi.
  apply Hout. rewrite (Hinj pos i k); auto.
Qed.

Lemma DisallowAll_sound_at sol r c T b x b' :
  DisallowAll r c T b = Some (x, b') -> sound_for sol b ->
  (forall k, k ∈ T -> cell sol r c <> Some k) -> sound_for sol b'.
Proof.
  intros Hrun Hb Hne. unfold DisallowAll in Hrun.
  eapply (preserves_for_flag (maintains (sound_for sol))); [|exact Hrun|exact Hb].
  intros k Hk%elem_of_elements. apply strike_sound. intros _ _. by apply Hne.
Qed.

Lemma SliceContains_false l x : SliceContains l x = false -> x ∉ l.
Proof.
  unfold SliceContains. intros H Hx.
  assert (existsb (fun y => bool_decide (y = x)) l = true); [|congruence].
  apply existsb_exists. exists x. split; [by apply list_elem_of_In|].
  by apply bool_decide_eq_true.
Qed.

(** The index sets the naked-set rule ranges over. *)
Lemma TrimNakedSets_indices b n indices idxs :
  wf b -> Permute 0 (int (Size b - 1)) n = Some indices -> idxs ∈ indices ->
  NoDup idxs /\ forall i, i ∈ idxs -> 0 <= i < Size b.
Proof.
  intros (Hsz & _) (_ & _ & ->)%Permute_Some Hin.
  rewrite (int_small (Size b - 1)) in Hin by lia.
  replace (int (Size b - 1 - 0) + 1) with (Size b) in Hin by (unwrap; lia).
  rewrite int_small in Hin by lia.
  apply elem_of_completions in Hin as (_ & Hnd & Hall).
  - split; [done|]. intros i Hi. specialize (Hall i Hi). lia.
  - by vm_compute.
  - apply is_int_bounds. lia.
Qed.

Lemma TrimNakedSets_sound sol n :
  stops_at_first (maintains (sound_for sol)) (TrimNakedSets n).
Proof.
  unfold TrimNakedSets. apply stops_query. intros sz.
  apply stops_query_val. intros indices.
  apply stops_or_else.
  - apply stops_for_return. intros ri _.
    apply stops_for_return. intros idxs Hidxs.
    apply stops_query_val. intros [|]; [|apply stops_ret_false].
    apply stops_for_return. intros ci _.
    destruct (SliceContains idxs ci) eqn:Hci; [apply stops_ret_false|].
    apply stops_query_val. intros toRemove.
    intros b c b' Hrun. destruct c.
    2:{ by apply DisallowAll_reports in Hrun as [_ ->]. }
    intros Hrem Hcheck Hperm Hb.
    destruct (idx idxs 0) as [i0|] eqn:Hi0; cbn [mbind option_bind] in Hrem; [|done].
    pose proof Hb as (Hwf & Hlat & _).
    destruct (TrimNakedSets_indices b n indices idxs Hwf Hperm Hidxs) as [Hnd Hrange].
    eapply DisallowAll_sound_at; [exact Hrun|exact Hb|].
    intros k Hk Hsol.
    destruct (latin_cell_inv _ _ _ _ _ Hlat Hsol) as (Hri & Hcirange & _).
    apply (naked_set_sound sol b (fun i => (ri, i)) idxs ci i0 toRemove k); try done.
    + by apply latin_row.
    + by apply SliceContains_false.
  - apply stops_for_return. intros ci _.
    apply stops_for_return. intros idxs Hidxs.
    apply stops_query_val. intros [|]; [|apply stops_ret_false].
    apply stops_for_return. intros ri _.
    destruct (SliceContains idxs ri) eqn:Hri; [apply stops_ret_false|].
    apply stops_query_val. intros toRemove.
    intros b c b' Hrun. destruct c.
    2:{ by apply DisallowAll_reports in Hrun as [_ ->]. }
    intros Hrem Hcheck Hperm Hb.
    destruct (idx idxs 0) as [i0|] eqn:Hi0; cbn [mbind option_bind] in Hrem; [|done].
    pose proof Hb as (Hwf & Hlat & _).
    destruct (TrimNakedSets_indices b n indices idxs Hwf Hperm Hidxs) as [Hnd Hrange].
    eapply DisallowAll_sound_at; [exact Hrun|exact Hb|].
    intros k Hk Hsol.
    destruct (latin_cell_inv _ _ _ _ _ Hlat Hsol) as (Hrirange & Hci & _).
    apply (naked_set_sound sol b (fun i => (i, ci)) idxs ri i0 toRemove k); try done.
    + by apply latin_column.
    + by apply SliceContains_false.
Qed.

Lemma foldl_option_post {A B} (Inv : list B -> A -> Prop) (f : option A -> B -> option A)
    (l : list B) (x0 x' : A) :
  (forall y, f None y = None) ->
  (forall seen y x x1, Inv seen x -> f (Some x) y = Some x1 -> Inv (seen ++ [y]) x1) ->
  Inv [] x0 -> foldl f (Some x0) l = Some x' -> Inv l x'.
Proof.
  intros Hnone Hstep H0. revert x'.
  induction l as [|y l IH] using rev_ind; intros x' H.
  - simpl in H. by simplify_eq.
  - rewrite foldl_app in H. simpl in H.
    destruct (foldl f (Some x0) l) as [xm|] eqn:Hm; [|by rewrite Hnone in H].
    eapply Hstep; [|exact H]. by apply IH.
Qed.

Lemma zip_range_elem {A} (l : list A) (k : Z) (x : A) :
  idx l k = Some x -> (k, x) ∈ zip (range 0 (len l)) l.
Proof.
  intros H. pose proof (idx_lt _ _ _ H) as Hk. apply idx_Some in H as [Hk0 H].
  apply list_elem_of_lookup. exists (Z.to_nat k).
  apply lookup_zip_with_Some. exists k, x. split; [done|]. split; [|done].
  unfold range. apply lookup_seqZ. lia.
Qed.

(** When the found-group test succeeds, one set of [len numbers]
    positions holds every position at which a number of the group is
    still a candidate. *)
Lemma CheckFoundGroup_true at_ nums b :
  CheckFoundGroup at_ nums b = Some true ->
  exists C : gset Z,
    Z.of_nat (size C) = len nums /\
    forall k v pos, idx nums k = Some v -> 0 <= pos < Size b ->
      IsAllowed (at_ pos).1 (at_ pos).2 v b = Some true -> pos ∈ C.
Proof.
  unfold CheckFoundGroup. intros H.
  match type of H with
  | context [foldl ?f (Some ?x0) ?l] =>
      destruct (foldl f (Some x0) l) as [cells|] eqn:Hfold
  end; cbn [mbind option_bind] in H; [|done].
  destruct (idx cells 0) as [c0|] eqn:Hc0; cbn [mbind option_bind] in H; [|done].
  case_decide as Hsize; [done|].
  exists c0. split; [done|]. intros k v pos Hk Hpos Hallowed.
  set (Inv := fun (seen : list Z) (cs : list (gset Z)) =>
              forall k v pos, idx nums k = Some v -> pos ∈ seen ->
                IsAllowed (at_ pos).1 (at_ pos).2 v b = Some true ->
                exists s, idx cs k = Some s /\ pos ∈ s).
  assert (Inv (range 0 (Size b)) cells) as Hinv.
  { refine (foldl_option_post Inv _ _ _ _ _ _ _ Hfold).
    - intros p. by apply foldl_option_None.
    - clear. intros seen p x x1 Hx Hstep.
      set (InvI := fun (seenk : list (Z * Z)) (c : list (gset Z)) =>
                (forall k s, idx x k = Some s -> exists s', idx c k = Some s' /\ s ⊆ s') /\
                (forall k v, (k, v) ∈ seenk ->
                   IsAllowed (at_ p).1 (at_ p).2 v b = Some true ->
                   exists s, idx c k = Some s /\ p ∈ s)).
      assert (InvI (zip (range 0 (len nums)) nums) x1) as [Hgrow Hnew].
      { refine (foldl_option_post InvI _ _ _ _ _ _ _ Hstep).
        - by intros [].
        - clear. intros seenk [k0 v0] c c1 [Hgrow Hnew] Hstep.
          cbn [mbind option_bind fst snd] in Hstep.
          assert (forall k s, idx c k = Some s -> exists s', idx c1 k = Some s' /\ s ⊆ s')
            as Hc1.
          { destruct (IsAllowed _ _ v0 b) as [[|]|]; cbn [mbind option_bind] in Hstep;
              [|simplify_eq; by eauto|done].
            destruct (idx c k0) as [s0|] eqn:Hs0; cbn [mbind option_bind] in Hstep; [|done].
            intros k s Hs. rewrite (idx_upd _ _ _ _ k Hstep).
            case_decide as Hk; [|by eauto]. subst k. simplify_eq.
            eexists. split; [done|set_solver]. }
          split.
          + intros k s Hs. destruct (Hgrow k s Hs) as (s' & Hs' & Hsub).
            destruct (Hc1 k s' Hs') as (s'' & Hs'' & Hsub'). exists s''.
            split; [done|set_solver].
          + intros k v [Hkv|[= -> ->]%list_elem_of_singleton]%elem_of_app Ha.
            * destruct (Hnew k v Hkv Ha) as (s & Hs & Hin).
              destruct (Hc1 k s Hs) as (s' & Hs' & Hsub). exists s'.
              split; [done|set_solver].
            * rewrite Ha in Hstep. cbn [mbind option_bind] in Hstep.
              destruct (idx c k0) as [s0|] eqn:Hs0; cbn [mbind option_bind] in Hstep;
                [|done].
              rewrite (idx_upd _ _ _ _ k0 Hstep), decide_True by done.
              eexists. split; [done|set_solver].
        - split; [by eauto|]. by intros k v Hkv%elem_of_nil. }
      intros k v pos Hk [Hpos| ->%list_elem_of_singleton]%elem_of_app Ha.
      + destruct (Hx k v pos Hk Hpos Ha) as (s & Hs & Hin).
        destruct (Hgrow k s Hs) as (s' & Hs' & Hsub). exists s'. split; [done|set_solver].
      + apply (Hnew k v); [|done]. by apply zip_range_elem.
    - by intros k' v' pos' _ Hpos'%elem_of_nil. }
  destruct (Hinv k v pos Hk) as (s & Hs & Hin); [by apply elem_of_range|done|].
  destruct (decide (k = 0)) as [->|Hk0]; [by simplify_eq|].
  pose proof (idx_lt _ _ _ Hk) as Hlt.
  pose proof (all_ok_true_inv _ _ H k) as Hok. cbn beta in Hok.
  rewrite Hs in Hok. cbn [mbind option_bind] in Hok.
  assert (s = c0) as <-; [|done].
  apply NumSetsEqual_true. apply (inj Some). apply Hok. apply elem_of_range. lia.
Qed.

(** In a line that passes the found-group test, a cell that still
    admits a number of the group holds a number of the group. *)
Lemma found_group_sound sol b (at_ : Z -> Z * Z) nums pos n0 v :
  sound_for sol b -> latin_line (Size b) sol at_ ->
  CheckFoundGroup at_ nums b = Some true ->
  NoDup nums -> (forall x, x ∈ nums -> 1 <= x <= Size b) ->
  idx nums 0 = Some n0 -> 0 <= pos < Size b ->
  IsAllowed (at_ pos).1 (at_ pos).2 n0 b = Some true ->
  cell sol (at_ pos).1 (at_ pos).2 = Some v -> v ∈ nums.
Proof.
  intros (_ & _ & Ha & _) (_ & Hinj & Hsurj) Hcheck Hnd Hrange Hn0 Hpos Hallowed Hv.
  apply CheckFoundGroup_true in Hcheck as (C & Hsize & Hall).
  assert (exists ps, Forall2 (fun x p => 0 <= p < Size b /\
                                cell sol (at_ p).1 (at_ p).2 = Some x) nums ps)
    as [ps Hps].
  { clear -Hsurj Hrange. induction nums as [|x l IH]; [by exists []|].
    destruct IH as [ps Hps]; [intros y Hy; apply Hrange; by right|].
    destruct (Hsurj x) as (p & Hp & Hx); [apply Hrange; left|].
    exists (p :: ps). by constructor. }
  assert (pos ∈ ps) as Hin.
  { apply (pigeonhole ps C).
    - eapply NoDup_Forall2_inj; [|exact Hnd|exact Hps].
      intros x y p _ _ [_ Hx] [_ Hy]. congruence.
    - intros p [j Hj]%list_elem_of_lookup_1.
      destruct (Forall2_lookup_r _ _ _ _ _ Hps Hj) as (x & Hx & Hp & Hsol).
      apply (Hall (Z.of_nat j) x p); [by rewrite idx_of_nat|done|].
      destruct (Ha _ _ _ Hsol) as (s & Hs & Hxs).
      apply IsAllowed_Some. exists s. split; [done|]. by rewrite bool_decide_eq_true_2.
    - apply Forall2_length in Hps. unfold len in Hsize. lia.
    - by apply (Hall 0 n0 pos). }
  apply list_elem_of_lookup_1 in Hin as [j Hj].
  destruct (Forall2_lookup_r _ _ _ _ _ Hps Hj) as (x & Hx & _ & Hsol).
  apply list_elem_of_lookup_2 in Hx. congruence.
Qed.

Lemma DisallowOthers_sound_at sol r c keep b x b' :
  DisallowOthers r c keep b = Some (x, b') -> sound_for sol b ->
  (forall v, cell sol r c = Some v -> v ∈ keep) -> sound_for sol b'.
Proof.
  intros (allowed & b1 & (a' & _ & [= -> ->])%query_Some & Hrun)%bind_Some Hb Hkeep.
  eapply (preserves_for_flag (maintains (sound_for sol))); [|exact Hrun|exact Hb].
  intros k _. cbn beta.
  destruct (existsb (fun v => bool_decide (v = k)) keep) eqn:Hk;
    [apply preserves_ret; apply _|].
  apply strike_sound. intros _ _ Hsol. apply Hkeep in Hsol.
  assert (existsb (fun v => bool_decide (v = k)) keep = true); [|congruence].
  apply existsb_exists. exists k. split; [by apply list_elem_of_In|].
  by apply bool_decide_eq_true.
Qed.

(** The value sets the found-group rule ranges over. *)
Lemma TrimFoundGroups_numbers b n numbers nums :
  wf b -> Permute 1 (Size b) n = Some numbers -> nums ∈ numbers ->
  NoDup nums /\ forall v, v ∈ nums -> 1 <= v <= Size b.
Proof.
  intros (Hsz & _) (_ & _ & ->)%Permute_Some Hin.
  replace (int (int (Size b - 1) + 1)) with (Size b) in Hin by (unwrap; lia).
  apply elem_of_completions in Hin as (_ & Hnd & Hall).
  - split; [done|]. intros i Hi. specialize (Hall i Hi). lia.
  - by vm_compute.
  - apply is_int_bounds. lia.
Qed.

(** One cell of a line that passed the found-group test on the board
    [b1], visited on a later board of the same sweep. *)
Lemma keep_group_sound sol b1 (at_ : Z -> Z * Z) nums pos :
  sound_for sol b1 ->
  (forall i, latin (Size b1) sol ->
     0 <= (at_ i).1 < Size b1 -> 0 <= (at_ i).2 < Size b1 ->
     0 <= i < Size b1 /\ latin_line (Size b1) sol at_) ->
  CheckFoundGroup at_ nums b1 = Some true ->
  NoDup nums -> (forall x, x ∈ nums -> 1 <= x <= Size b1) ->
  preserves (maintains (fun x => sound_for sol x /\ allowed_shrunk b1 x))
            (keep_group (at_ pos).1 (at_ pos).2 nums).
Proof.
  intros Hb1 Hat Hcheck Hnd Hrange b c b' Hrun [Hb Hshrunk].
  split.
  2:{ etrans; [exact Hshrunk|]. eapply cell_shrunk_allowed_shrunk.
      by apply keep_group_reports in Hrun as [? _]. }
  apply bind_Some in Hrun as (a & b0 & (a' & Ha & [= -> ->])%query_Some & Hrun).
  destruct a'; [|apply ret_Some in Hrun; by simplify_eq].
  destruct (idx nums 0) as [n0|] eqn:Hn0; cbn [mbind option_bind] in Ha; [|done].
  eapply DisallowOthers_sound_at; [exact Hrun|exact Hb|].
  intros v Hv.
  apply IsAllowed_Some in Ha as (s' & Hs' & Hin). symmetry in Hin.
  apply bool_decide_eq_true in Hin.
  destruct Hshrunk as [_ Hshrunk].
  destruct (sets_shrunk_cell _ _ _ _ _ Hshrunk Hs') as (s & Hs & Hsub).
  pose proof Hb1 as ((_ & _ & Hsq & _) & _).
  destruct (square_cell_inv _ _ _ _ _ Hsq Hs) as [Hr Hc].
  destruct (Hat pos) as [Hpos Hline]; [by destruct Hb1 as (_ & ? & _)|done|done|].
  apply (found_group_sound sol b1 at_ nums pos n0 v); try done.
  apply IsAllowed_Some. exists s. split; [done|].
  rewrite bool_decide_eq_true_2; [done|set_solver].
Qed.

Lemma TrimFoundGroups_sound sol n :
  preserves (maintains (sound_for sol)) (TrimFoundGroups n).
Proof.
  intros b0 c b' Hrun Hb0.
  apply bind_Some in Hrun as (? & ? & (sz & _ & [= -> ->])%query_Some & Hrun).
  apply bind_Some in Hrun as (? & ? & (numbers & Hperm & [= -> ->])%query_Some & Hrun).
  cut (sound_for sol b' /\ Size b' = Size b0); [by intros []|].
  eapply (preserves_for_flag
            (maintains (fun x => sound_for sol x /\ Size x = Size b0)));
    [|exact Hrun|done].
  intros nums Hnums. unfold found_group_sweep.
  destruct (TrimFoundGroups_numbers b0 n numbers nums) as [Hnd Hrange];
    [by destruct Hb0|done|done|].
  assert (forall b1 at_ (l : list Z),
            (forall i, latin (Size b1) sol ->
               0 <= (at_ i).1 < Size b1 -> 0 <= (at_ i).2 < Size b1 ->
               0 <= i < Size b1 /\ latin_line (Size b1) sol at_) ->
            forall c1 b2,
            (ok <- query (CheckFoundGroup at_ nums) ;;
             if ok : bool
             then for_flag l (fun i => keep_group (at_ i).1 (at_ i).2 nums)
             else ret false)%board b1 = Some (c1, b2) ->
            sound_for sol b1 /\ Size b1 = Size b0 ->
            sound_for sol b2 /\ Size b2 = Size b0) as Hline.
  { intros b1 at_ l Hat c1 b2 Hline [Hb1 Hsize].
    apply bind_Some in Hline as (? & ? & (ok & Hcheck & [= -> ->])%query_Some & Hline).
    destruct ok; [|apply ret_Some in Hline; by simplify_eq].
    cut (sound_for sol b2 /\ allowed_shrunk b1 b2).
    { intros [? Hsh]. split; [done|].
      apply allowed_shrunk_evolves in Hsh as [-> _]. done. }
    eapply (preserves_for_flag
              (maintains (fun x => sound_for sol x /\ allowed_shrunk b1 x)));
      [|exact Hline|done].
    intros i _. apply keep_group_sound; try done.
    intros x Hx. rewrite Hsize. by apply Hrange. }
  apply preserves_bind; [apply _| |].
  { apply preserves_for_flag; [apply _|]. intros ri _ b1 c1 b2 Hrow.
    unfold maintains.
    apply (Hline b1 (fun i => (ri, i)) (range 0 sz)) with (c1 := c1); [|exact Hrow].
    intros i Hlat Hr Hc. split; [done|]. by apply latin_row. }
  intros c1. apply preserves_bind; [apply _| |intros c2; apply preserves_ret; apply _].
  apply preserves_for_flag; [apply _|]. intros ci _ b1 c2 b2 Hcol.
  unfold maintains.
  apply (Hline b1 (fun i => (i, ci)) (range 0 sz)) with (c1 := c2); [|exact Hcol].
  intros i Hlat Hr Hc. split; [done|]. by apply latin_column.
Qed.

(** ** The automatic solver keeps every solution *)

Lemma stops_preserves (P : relation Board) `{!Reflexive P} (m : M bool) :
  stops_at_first P m -> preserves P m.
Proof.
  intros H b c b' Hrun. specialize (H _ _ _ Hrun). destruct c; [done|by subst].
Qed.

Lemma escalate_sound sol (rule : Z -> M bool) :
  (forall r, preserves (maintains (sound_for sol)) (rule r)) ->
  preserves (maintains (sound_for sol)) (escalate rule).
Proof.
  intros Hrule. unfold escalate.
  apply preserves_bind; [apply _|apply preserves_query; apply _|]. intros sz.
  apply preserves_for_return; [apply _|]. intros r _. apply Hrule.
Qed.

Lemma AutoSolve_loop_sound sol fuel changed :
  preserves (maintains (sound_for sol)) (AutoSolve_loop fuel changed).
Proof.
  revert changed. induction fuel as [|fuel IH]; intros [|]; cbn [AutoSolve_loop negb];
    try (apply preserves_ret; apply _).
  - apply preserves_bind; [apply _|apply preserves_query; apply _|].
    intros [e|]; [|apply preserves_ret; apply _]. by intros b a b' Hrun.
  - apply preserves_bind; [apply _|apply preserves_query; apply _|].
    intros [e|]; [|apply preserves_ret; apply _].
    apply preserves_bind; [apply _|apply MarkMandatory_sound|]. intros c1.
    apply preserves_bind; [apply _|apply TrimAllowedFromPerms_sound|]. intros c2.
    apply preserves_bind; [apply _|apply TrimPermsFromAllowed_sound|]. intros c3.
    apply preserves_bind; [apply _| |intros c4; apply preserves_bind; [apply _| |]].
    + destruct (negb _); [|apply preserves_ret; apply _].
      apply escalate_sound. intros r. apply stops_preserves; [apply _|].
      apply TrimNakedSets_sound.
    + destruct (negb _); [|apply preserves_ret; apply _].
      apply escalate_sound. intros r. apply TrimFoundGroups_sound.
    + apply IH.
Qed.

Lemma empties_zero b r c g :
  empties b = 0%nat -> cell (Grid b) r c = Some g -> g <> EMPTY.
Proof.
  unfold empties. intros Hsum (row & Hrow & Hg)%cell_Some ->.
  assert (forall l : list nat, sum_nat l = 0%nat -> forall x, x ∈ l -> x = 0%nat) as Hall.
  { clear. induction l as [|y l IH]; intros Hs x Hx; [by apply elem_of_nil in Hx|].
    unfold sum_nat in *. simpl in Hs. apply elem_of_cons in Hx as [->|Hx]; [lia|].
    apply IH; [lia|done]. }
  assert (length (filter (fun v => v = EMPTY) row) = 0%nat) as Hnone.
  { apply (Hall _ Hsum). apply list_elem_of_fmap. exists row. split; [done|].
    by eapply elem_of_idx. }
  apply length_zero_iff_nil in Hnone.
  assert (EMPTY ∈ filter (fun v => v = EMPTY) row) as Hin.
  { apply list_elem_of_filter. split; [done|]. by eapply elem_of_idx. }
  rewrite Hnone in Hin. by apply elem_of_nil in Hin.
Qed.

(** Two square grids with the same cells are the same grid. *)
Lemma square_ext {A} (n : Z) (g g' : list (list A)) :
  square n g -> square n g' ->
  (forall r c x, cell g r c = Some x -> cell g' r c = Some x) -> g = g'.
Proof.
  intros [Hlen Hrows] [Hlen' Hrows'] Hcell.
  apply list_eq_same_length with (length g); [unfold len in *; lia..|].
  intros i row row' Hi Hrow Hrow'.
  rewrite Forall_forall in Hrows, Hrows'.
  pose proof (Hrows row (list_elem_of_lookup_2 _ _ _ Hrow)) as Hr.
  pose proof (Hrows' row' (list_elem_of_lookup_2 _ _ _ Hrow')) as Hr'.
  apply list_eq_same_length with (length row); [unfold len in *; lia..|].
  intros j x x' Hj Hx Hx'.
  assert (cell g (Z.of_nat i) (Z.of_nat j) = Some x) as Hc.
  { apply cell_Some. exists row. by rewrite !idx_of_nat. }
  apply Hcell in Hc. apply cell_Some in Hc as (row'' & Hr'' & Hx'').
  rewrite idx_of_nat in Hr''. rewrite idx_of_nat in Hx''. congruence.
Qed.

Lemma latin_square n sol : latin n sol -> square n sol.
Proof.
  intros (Hlen & Hrows & _). split; [done|]. apply Forall_forall.
  intros row [i Hi]%list_elem_of_lookup_1.
  rewrite <- idx_of_nat in Hi. apply Hrows in Hi.
  apply Permutation_length in Hi. unfold len. rewrite Hi, length_seqZ.
  destruct Hlen. pose proof (len_nonneg sol). unfold len in *. lia.
Qed.

(** A sound board without empty cells is the solution. *)
Lemma sound_for_full sol b :
  sound_for sol b -> counted b -> NumEmpty b = 0 -> Grid b = sol.
Proof.
  intros (Hwf & Hlat & _ & Hgrid & _) Hc Hzero.
  destruct Hwf as (_ & Hsq & _).
  apply (square_ext (Size b)); [done|by apply latin_square|].
  intros r c g Hg. apply Hgrid; [done|].
  eapply empties_zero; [|exact Hg]. unfold counted in Hc. lia.
Qed.

(** ** The constructor keeps every solution *)

Lemma load_inputs_cells inputs :
  load_inputs inputs =
  for_ (zip (range 0 (len inputs)) inputs) (fun rr =>
    for_ (zip (range 0 (len rr.2)) rr.2) (fun cc => load_cell rr.1 cc.1 cc.2)).
Proof. reflexivity. Qed.

Lemma load_cell_Some ri ci v b u b' :
  load_cell ri ci v b = Some (u, b') ->
  b' = b \/
  (exists o, AddObserver o b = Some (tt, b') /\
     (Type_ o = OBS_ROW /\ Index o = ri - 1 /\ ri <> 0 /\ ri <> Size b + 1 \/
      Type_ o = OBS_COL /\ Index o = ci - 1 /\ ci <> 0 /\ ci <> Size b + 1)) \/
  (ri <> 0 /\ ri <> Size b + 1 /\ ci <> 0 /\ ci <> Size b + 1 /\
   exists r, Mark (ri - 1) (ci - 1) v b = Some (r, b')).
Proof.
  intros (? & ? & (sz & [= <-] & [= -> ->])%query_Some & Hrun)%bind_Some.
  destruct u. destruct (decide (ri = 0 \/ ri = Size b + 1)).
  - destruct (decide (ci = 0 \/ ci = Size b + 1)).
    + apply ret_Some in Hrun. left. by simplify_eq.
    + right. left. eexists. split; [exact Hrun|]. right. simpl. lia.
  - destruct (decide (ci = 0 \/ ci = Size b + 1)).
    + right. left. eexists. split; [exact Hrun|]. left. simpl. lia.
    + apply bind_Some in Hrun as (r & b2 & Hmark & [= <-]%ret_Some).
      right. right. split_and!; try lia. by exists r.
Qed.

Lemma Mark_Grid ri ci v b r b' :
  Mark ri ci v b = Some (r, b') -> upd_cell (Grid b) ri ci v = Some (Grid b').
Proof.
  intros (changed & b1 & Hset & Hrest)%Mark_Some.
  apply Set'_Some in Hset as (old & Hget & Hset). destruct changed.
  - destruct Hset as (_ & g & n & Hg & ->). destruct Hrest as [_ [-> _]]. done.
  - destruct Hset as [-> ->]. destruct Hrest as [_ ->]. by apply upd_cell_same.
Qed.

(** A fresh cell marked [EMPTY] is left alone. *)
Lemma Mark_EMPTY ri ci b r b' :
  cell (Grid b) ri ci = Some EMPTY -> Mark ri ci EMPTY b = Some (r, b') -> b' = b.
Proof.
  intros Hfresh (changed & b1 & Hset & Hrest)%Mark_Some.
  apply Set'_Some in Hset as (old & Hget & Hset). unfold Get in Hget.
  destruct changed.
  - destruct Hset as (Hne & _). congruence.
  - destruct Hset as [_ ->]. by destruct Hrest as [_ ->].
Qed.

Lemma load_cell_Grid ri ci v b u b' :
  load_cell ri ci v b = Some (u, b') ->
  forall r c, (r, c) <> (ri - 1, ci - 1) -> cell (Grid b') r c = cell (Grid b) r c.
Proof.
  intros [->|[(o & [->|(os & -> & _)]%AddObserver_Some & _)|(_ & _ & _ & _ & r0 & Hmark)]]
    %load_cell_Some r c Hne; try done.
  apply Mark_Grid in Hmark. rewrite (cell_upd_cell _ _ _ _ _ r c Hmark).
  rewrite decide_False; [done|]. intros [-> ->]. done.
Qed.

Lemma sound_for_frame sol b b' :
  sound_for sol b -> wf b' -> Size b' = Size b ->
  Grid b' = Grid b -> Allowed b' = Allowed b -> Perms b' = Perms b ->
  RowPerms b' = RowPerms b -> ColPerms b' = ColPerms b -> sound_for sol b'.
Proof.
  intros (_ & Hlat & Ha) Hwf Hs Hg Hal Hp Hr Hc.
  split; [done|]. rewrite Hs. split; [done|].
  unfold admits. by rewrite Hg, Hal, Hp, Hr, Hc.
Qed.

Lemma load_cell_loaded n ri ci v b u b' :
  0 <= ri <= n + 1 -> 0 <= ci <= n + 1 ->
  load_cell ri ci v b = Some (u, b') -> loaded n b ->
  (forall g, cell (Grid b) (ri - 1) (ci - 1) = Some g -> g = EMPTY) ->
  loaded n b'.
Proof.
  intros Hri Hci Hrun [Hok Hsound] Hfresh.
  assert (Size b = n) as Hsz by (by destruct Hok as (_ & ? & _)).
  apply load_cell_Some in Hrun
    as [->|[(o & Hadd & Ho)|(Hr0 & Hr1 & Hc0 & Hc1 & r0 & Hmark)]]; [done| |].
  - assert (ok n [] b') as Hok'.
    { eapply (AddObserver_maintains_ok n []); [|exact Hadd|done]. lia. }
    split; [done|]. intros sol Hlat Hagree.
    apply AddObserver_Some in Hadd as [->|(os & -> & _)]; [by apply Hsound|].
    eapply sound_for_frame; [by apply (Hsound sol)|by destruct Hok'|done..].
  - assert (ok n [] b') as Hok'.
    { eapply ok_evolves; [done|]. by eapply Mark_evolves. }
    split; [done|]. intros sol Hlat Hagree.
    pose proof (Mark_Grid _ _ _ _ _ _ Hmark) as Hg.
    destruct (ok_Grid n [] b (ri - 1) (ci - 1)) as [g0 Hg0]; [done|lia|lia|].
    pose proof (Hfresh g0 Hg0) as ->.
    assert (sound_for sol b) as Hb.
    { apply Hsound; [done|]. intros r c g Hcell Hne. apply Hagree; [|done].
      rewrite (cell_upd_cell _ _ _ _ _ r c Hg). rewrite decide_False; [done|].
      intros [-> ->]. congruence. }
    destruct (decide (v = EMPTY)) as [->|Hv].
    { by rewrite (Mark_EMPTY _ _ _ _ _ Hg0 Hmark). }
    eapply (Mark_sound sol (ri - 1) (ci - 1) v); [|exact Hmark|exact Hb].
    intros _ _. apply Hagree; [|done].
    rewrite (cell_upd_cell _ _ _ _ _ _ _ Hg). by rewrite decide_True.
Qed.

(** A loop over entries with distinct keys, where each entry's
    precondition is only disturbed by its own iteration. *)
Lemma for_keyed {A} (key : A -> Z) (I : Board -> Prop) (Pre : A -> Board -> Prop)
    (l : list A) (body : A -> M unit) :
  NoDup (key <$> l) ->
  (forall x b u b', x ∈ l -> I b -> Pre x b -> body x b = Some (u, b') -> I b') ->
  (forall x y b u b', x ∈ l -> y ∈ l -> key x <> key y ->
     body x b = Some (u, b') -> Pre y b -> Pre y b') ->
  forall b u b', I b -> (forall y, y ∈ l -> Pre y b) ->
    for_ l body b = Some (u, b') -> I b'.
Proof.
  induction l as [|x l IH]; intros Hnd Hstep Hkeep b u b' HI Hpre Hrun.
  - apply ret_Some in Hrun. by simplify_eq.
  - apply bind_Some in Hrun as (u1 & b1 & Hx & Hrest).
    rewrite fmap_cons in Hnd. apply NoDup_cons in Hnd as [Hx_new Hnd].
    assert (forall y, y ∈ l -> key x <> key y) as Hne.
    { intros y Hy Heq. apply Hx_new. rewrite Heq. apply list_elem_of_fmap. by exists y. }
    apply (IH Hnd) with (b := b1) (u := u); try done.
    + intros y c v c' Hy. apply Hstep. by right.
    + intros y z c v c' Hy Hz. apply Hkeep; by right.
    + eapply Hstep; [left|exact HI|apply Hpre; left|exact Hx].
    + intros y Hy. eapply (Hkeep x y); [left|by right|by apply Hne|exact Hx|].
      apply Hpre. by right.
    + destruct u1. exact Hrest.
Qed.

Lemma NoDup_zip_range {A} (l : list A) : NoDup ((zip (range 0 (len l)) l).*1).
Proof.
  rewrite fst_zip; [apply NoDup_seqZ|].
  unfold range, len. rewrite length_seqZ. lia.
Qed.

Lemma load_inputs_loaded n inputs b u b' :
  square (n + 2) inputs -> load_inputs inputs b = Some (u, b') ->
  loaded n b -> (forall r c g, cell (Grid b) r c = Some g -> g = EMPTY) ->
  loaded n b'.
Proof.
  intros [Hlen Hrows] Hrun Hb Hfresh. rewrite load_inputs_cells in Hrun.
  rewrite Forall_forall in Hrows.
  refine (for_keyed fst (loaded n)
            (fun rr b => forall c g, cell (Grid b) (rr.1 - 1) c = Some g -> g = EMPTY)
            _ _ (NoDup_zip_range _) _ _ b u b' Hb _ Hrun).
  - intros [ri row] b1 u1 b2 Hrr%elem_of_zip_range Hb1 Hpre Hrow. cbn [fst snd] in *.
    pose proof (Hrows row (elem_of_idx _ _ _ Hrr)) as Hrowlen.
    apply idx_lt in Hrr. rewrite Hlen in Hrr.
    refine (for_keyed fst (loaded n)
              (fun cc b => forall g, cell (Grid b) (ri - 1) (cc.1 - 1) = Some g -> g = EMPTY)
              _ _ (NoDup_zip_range _) _ _ b1 u1 b2 Hb1 _ Hrow).
    + intros [ci v] b3 u3 b4 Hcc%elem_of_zip_range Hb3 Hpre3 Hcell. cbn [fst snd] in *.
      apply idx_lt in Hcc. rewrite Hrowlen in Hcc.
      eapply (load_cell_loaded n ri ci v); [lia|lia|exact Hcell|exact Hb3|exact Hpre3].
    + intros [ci v] [cj w] b3 u3 b4 _ _ Hne Hcell Hpre3 g. cbn [fst snd] in *.
      rewrite (load_cell_Grid _ _ _ _ _ _ Hcell); [apply Hpre3|].
      intros [= ?]. lia.
    + intros [ci v] _ g. apply Hpre.
  - intros [ri row] [rj row'] b1 u1 b2 _ _ Hne Hrow Hpre c g. cbn [fst snd] in *.
    revert c g.
    refine (for_acc_inv
              (fun _ bx => forall c g, cell (Grid bx) (rj - 1) c = Some g -> g = EMPTY)
              _ _ tt b1 u1 b2 _ Hpre Hrow).
    intros [ci v] [] b3 u3 b4 _ Hpre3 Hcell c g. cbn [fst snd] in *.
    rewrite (load_cell_Grid _ _ _ _ _ _ Hcell); [apply Hpre3|].
    intros [= ? ?]. lia.
  - intros [ri row] _ c g. apply Hfresh.
Qed.

(** ** Observers and their slots *)

Lemma AddObserver_slot o b u b' :
  AddObserver o b = Some (u, b') ->
  b' = b \/
  (idx (ObsSorted b) (slot (Size b) o) = Some None /\
   upd (ObsSorted b) (slot (Size b) o) (Some o) = Some (ObsSorted b') /\
   Observers b' = Observers b ++ [o] /\ Size b' = Size b).
Proof.
  unfold AddObserver. case_decide; [intros ?%ret_Some; left; by simplify_eq|].
  fold (slot (Size b) o).
  destruct (idx (ObsSorted b) (slot (Size b) o)) as [[old|]|] eqn:Hold;
    cbn [mbind option_bind]; try done.
  destruct (upd (ObsSorted b) (slot (Size b) o) (Some o)) as [os|] eqn:Hos;
    cbn [mbind option_bind]; [|done].
  intros [= <- <-]. right. done.
Qed.

Lemma load_cell_filed ri ci v b u b' :
  load_cell ri ci v b = Some (u, b') -> filed b -> filed b'.
Proof.
  intros [->|[(o & Hadd & Ho)|(_ & _ & _ & _ & r0 & Hmark)]]%load_cell_Some Hb; [done| |].
  - apply AddObserver_slot in Hadd as [->|(_ & Hos & Hobs & Hsz)]; [done|].
    intros ind o' Hind. rewrite (idx_upd _ _ _ _ ind Hos) in Hind.
    rewrite Hobs, Hsz. case_decide as Heq.
    + simplify_eq. split; [set_solver|]. split; [|done]. destruct Ho as [Ho|Ho]; tauto.
    + destruct (Hb ind o' Hind) as (? & ? & ?). split; [set_solver|done].
  - apply Mark_evolves in Hmark as (Hsz & _ & Hobs & Hos & _).
    unfold filed. by rewrite Hsz, Hobs, Hos.
Qed.

Lemma load_inputs_filed inputs : preserves (maintains filed) (load_inputs inputs).
Proof.
  rewrite load_inputs_cells.
  apply preserves_for_; [apply _|]. intros [ri row] _.
  apply preserves_for_; [apply _|]. intros [ci v] _ b u b' Hrun. cbn [fst snd] in Hrun.
  exact (load_cell_filed _ _ _ _ _ _ Hrun).
Qed.

(** ** What [PopulateRowColPerms] stores *)

Lemma PermsForObs_ext fwd bwd b b' :
  Perms b' = Perms b -> PermsForObs fwd bwd b' = PermsForObs fwd bwd b.
Proof. intros H. unfold PermsForObs. by rewrite H. Qed.

Lemma populate_rows (k : nat) : forall lo pi b pi' b',
  for_acc (seqZ lo (Z.of_nat k)) pi (fun ri pi =>
     fwd <- query (fun b => idx (ObsSorted b) pi) ;;
     bwd <- query (fun b => idx (ObsSorted b) (pi + 1)) ;;
     perms <- query (fun b => Some (PermsForObs fwd bwd b)) ;;
     set_RowPerms ri perms ;;;
     ret (pi + 2))%board b = Some (pi', b') ->
  pi' = pi + 2 * Z.of_nat k /\
  exists rp, b' = with_RowPerms rp b /\
    (forall r, r < lo -> idx rp r = idx (RowPerms b) r) /\
    forall j, 0 <= j < Z.of_nat k ->
      exists fwd bwd, idx (ObsSorted b) (pi + 2 * j) = Some fwd /\
                      idx (ObsSorted b) (pi + 2 * j + 1) = Some bwd /\
                      idx rp (lo + j) = Some (PermsForObs fwd bwd b).
Proof.
  induction k as [|k IH]; intros lo pi b pi' b' Hrun.
  - apply ret_Some in Hrun. simplify_eq. split; [lia|].
    exists (RowPerms b). split; [by destruct b|]. split; [done|]. lia.
  - rewrite seqZ_cons in Hrun by lia.
    replace (Z.pred (Z.of_nat (S k))) with (Z.of_nat k) in Hrun by lia.
    cbn [for_acc] in Hrun.
    apply bind_Some in Hrun as (pi1 & b1 & Hbody & Hrest).
    apply bind_Some in Hbody as (? & ? & (fwd & Hfwd & [= -> ->])%query_Some & Hbody).
    apply bind_Some in Hbody as (? & ? & (bwd & Hbwd & [= -> ->])%query_Some & Hbody).
    apply bind_Some in Hbody as (? & ? & (perms & [= <-] & [= -> ->])%query_Some & Hbody).
    apply bind_Some in Hbody as ([] & b2 & Hset & [= -> ->]%ret_Some).
    unfold set_RowPerms in Hset.
    destruct (upd (RowPerms b) lo (PermsForObs fwd bwd b)) as [rp1|] eqn:Hrp1;
      cbn [mbind option_bind] in Hset; [|done].
    injection Hset as <-.
    apply IH in Hrest as (-> & rp & -> & Hframe & Hrows).
    split; [lia|]. exists rp. split; [done|]. split.
    + intros r Hr. rewrite Hframe by lia. cbn [RowPerms with_RowPerms].
      rewrite (idx_upd _ _ _ _ r Hrp1). rewrite decide_False by lia. done.
    + intros j Hj. destruct (decide (j = 0)) as [->|Hj0].
      * exists fwd, bwd. rewrite !Z.mul_0_r, !Z.add_0_r.
        split; [done|]. split; [done|].
        rewrite Hframe by lia. cbn [RowPerms with_RowPerms].
        rewrite (idx_upd _ _ _ _ lo Hrp1). by rewrite decide_True.
      * destruct (Hrows (j - 1)) as (f & w & Hf & Hw & Hidx); [lia|].
        cbn [ObsSorted with_RowPerms] in Hf, Hw.
        exists f, w.
        replace (pi + 2 * j) with (pi + 2 + 2 * (j - 1)) by lia.
        split; [done|]. split; [done|].
        replace (lo + j) with (Z.succ lo + (j - 1)) by lia. rewrite Hidx.
        f_equal.
Qed.

Lemma populate_cols (k : nat) : forall lo pi b pi' b',
  for_acc (seqZ lo (Z.of_nat k)) pi (fun ci pi =>
     fwd <- query (fun b => idx (ObsSorted b) pi) ;;
     bwd <- query (fun b => idx (ObsSorted b) (pi + 1)) ;;
     perms <- query (fun b => Some (PermsForObs fwd bwd b)) ;;
     set_ColPerms ci perms ;;;
     ret (pi + 2))%board b = Some (pi', b') ->
  pi' = pi + 2 * Z.of_nat k /\
  exists rp, b' = with_ColPerms rp b /\
    (forall r, r < lo -> idx rp r = idx (ColPerms b) r) /\
    forall j, 0 <= j < Z.of_nat k ->
      exists fwd bwd, idx (ObsSorted b) (pi + 2 * j) = Some fwd /\
                      idx (ObsSorted b) (pi + 2 * j + 1) = Some bwd /\
                      idx rp (lo + j) = Some (PermsForObs fwd bwd b).
Proof.
  induction k as [|k IH]; intros lo pi b pi' b' Hrun.
  - apply ret_Some in Hrun. simplify_eq. split; [lia|].
    exists (ColPerms b). split; [by destruct b|]. split; [done|]. lia.
  - rewrite seqZ_cons in Hrun by lia.
    replace (Z.pred (Z.of_nat (S k))) with (Z.of_nat k) in Hrun by lia.
    cbn [for_acc] in Hrun.
    apply bind_Some in Hrun as (pi1 & b1 & Hbody & Hrest).
    apply bind_Some in Hbody as (? & ? & (fwd & Hfwd & [= -> ->])%query_Some & Hbody).
    apply bind_Some in Hbody as (? & ? & (bwd & Hbwd & [= -> ->])%query_Some & Hbody).
    apply bind_Some in Hbody as (? & ? & (perms & [= <-] & [= -> ->])%query_Some & Hbody).
    apply bind_Some in Hbody as ([] & b2 & Hset & [= -> ->]%ret_Some).
    unfold set_ColPerms in Hset.
    destruct (upd (ColPerms b) lo (PermsForObs fwd bwd b)) as [rp1|] eqn:Hrp1;
      cbn [mbind option_bind] in Hset; [|done].
    injection Hset as <-.
    apply IH in Hrest as (-> & rp & -> & Hframe & Hrows).
    split; [lia|]. exists rp. split; [done|]. split.
    + intros r Hr. rewrite Hframe by lia. cbn [ColPerms with_ColPerms].
      rewrite (idx_upd _ _ _ _ r Hrp1). rewrite decide_False by lia. done.
    + intros j Hj. destruct (decide (j = 0)) as [->|Hj0].
      * exists fwd, bwd. rewrite !Z.mul_0_r, !Z.add_0_r.
        split; [done|]. split; [done|].
        rewrite Hframe by lia. cbn [ColPerms with_ColPerms].
        rewrite (idx_upd _ _ _ _ lo Hrp1). by rewrite decide_True.
      * destruct (Hrows (j - 1)) as (f & w & Hf & Hw & Hidx); [lia|].
        cbn [ObsSorted with_ColPerms] in Hf, Hw.
        exists f, w.
        replace (pi + 2 * j) with (pi + 2 + 2 * (j - 1)) by lia.
        split; [done|]. split; [done|].
        replace (lo + j) with (Z.succ lo + (j - 1)) by lia. rewrite Hidx.
        f_equal.
Qed.

Lemma PopulateRowColPerms_Some b u b' :
  PopulateRowColPerms b = Some (u, b') -> 0 <= Size b ->
  exists rp cp,
    b' = with_ColPerms cp (with_RowPerms rp b) /\
    (forall r, 0 <= r < Size b ->
       exists fwd bwd, idx (ObsSorted b) (2 * r) = Some fwd /\
                       idx (ObsSorted b) (2 * r + 1) = Some bwd /\
                       idx rp r = Some (PermsForObs fwd bwd b)) /\
    (forall c, 0 <= c < Size b ->
       exists fwd bwd, idx (ObsSorted b) (2 * Size b + 2 * c) = Some fwd /\
                       idx (ObsSorted b) (2 * Size b + 2 * c + 1) = Some bwd /\
                       idx cp c = Some (PermsForObs fwd bwd b)).
Proof.
  intros Hrun Hsz. unfold PopulateRowColPerms in Hrun.
  apply bind_Some in Hrun as (? & ? & (sz & [= <-] & [= -> ->])%query_Some & Hrun).
  apply bind_Some in Hrun as (pi & b1 & Hrows & Hrun).
  apply bind_Some in Hrun as (pi' & b2 & Hcols & [= _ ->]%ret_Some).
  remember (Z.to_nat (Size b)) as k eqn:Ek.
  assert (Size b = Z.of_nat k) as Hk by lia.
  unfold range in Hrows, Hcols. rewrite Z.sub_0_r, Hk in Hrows, Hcols.
  apply populate_rows in Hrows as (-> & rp & -> & _ & Hrp).
  apply populate_cols in Hcols as (_ & cp & -> & _ & Hcp).
  rewrite Hk.
  exists rp, cp. split; [done|]. split.
  - intros r Hr. destruct (Hrp r Hr) as (f & w & Hf & Hw & Hidx).
    exists f, w. rewrite !Z.add_0_l in *. done.
  - intros c Hc. destruct (Hcp c Hc) as (f & w & Hf & Hw & Hidx).
    exists f, w. rewrite !Z.add_0_l in *. cbn [ObsSorted with_RowPerms] in Hf, Hw.
    split; [done|]. split; [done|]. rewrite Hidx. done.
Qed.

(** ** A line of a solution fits the clues at its ends *)

Lemma scan_line b (q : list Z) ri ci dr dc count :
  length q = Z.to_nat (Size b) ->
  (forall (k : nat) v, q !! k = Some v ->
     Get (ri + Z.of_nat k * dr) (ci + Z.of_nat k * dc) b = Some v) ->
  (vis ← obs_scan (Z.to_nat (Size b)) ri ci dr dc 0 0 b;
   Some (bool_decide (vis = count))) = Some true ->
  fits_scan q count 0 0 = true.
Proof.
  intros <- Hq Hsat. rewrite (obs_scan_visible q) in Hsat by done.
  cbn [mbind option_bind] in Hsat. rewrite fits_scan_visible. congruence.
Qed.

Lemma obs_scan_ext n : forall ri ci dr dc vis highest b b',
  Grid b = Grid b' ->
  obs_scan n ri ci dr dc vis highest b = obs_scan n ri ci dr dc vis highest b'.
Proof.
  induction n as [|n IH]; intros ri ci dr dc vis highest b b' Hg; [done|].
  cbn [obs_scan]. unfold Get. rewrite Hg.
  destruct (cell (Grid b') ri ci) as [val|]; cbn [mbind option_bind]; [|done].
  case_decide; by apply IH.
Qed.

Lemma ObserverSatisfied_ext o b b' :
  Size b = Size b' -> Grid b = Grid b' ->
  ObserverSatisfied o b = ObserverSatisfied o b'.
Proof.
  intros Hs Hg. unfold ObserverSatisfied. rewrite Hs.
  destruct (if decide (Type_ o = OBS_ROW) then _ else _) as [[[ri ci] dr] dc].
  by rewrite (obs_scan_ext _ _ _ _ _ _ _ b b').
Qed.

Lemma reverse_idx (q : list Z) (k : nat) v :
  reverse q !! k = Some v -> idx q (Z.of_nat (length q) - 1 - Z.of_nat k) = Some v.
Proof.
  intros H. pose proof (lookup_lt_Some _ _ _ H) as Hlt. rewrite length_reverse in Hlt.
  rewrite reverse_lookup in H by done.
  replace (Z.of_nat (length q) - 1 - Z.of_nat k) with (Z.of_nat (length q - S k)) by lia.
  by rewrite idx_of_nat.
Qed.

(** The observers at the two ends of a line, read through the line's
    cells [at_ 0], [at_ 1], ... *)
Lemma line_fits sol b (q : list Z) (fwd bwd : option Observer)
    (r0 c0 dr dc : Z) :
  length q = Z.to_nat (Size b) ->
  (forall i v, idx q i = Some v -> cell sol (r0 + i * dr) (c0 + i * dc) = Some v) ->
  (forall o, fwd = Some o ->
     obs_scan (Z.to_nat (Size b)) r0 c0 dr dc 0 0 (with_Grid sol b) = Some (Count o)) ->
  (forall o, bwd = Some o ->
     obs_scan (Z.to_nat (Size b)) (r0 + (Size b - 1) * dr) (c0 + (Size b - 1) * dc)
              (- dr) (- dc) 0 0 (with_Grid sol b) = Some (Count o)) ->
  PermFitsObs q fwd bwd = true.
Proof.
  intros Hlen Hq Hfwd Hbwd. unfold PermFitsObs. apply andb_true_intro. split.
  - destruct fwd as [o|]; [|done]. apply (scan_line (with_Grid sol b) q r0 c0 dr dc).
    + done.
    + intros k v Hk. unfold Get. cbn [Grid with_Grid]. apply Hq. by rewrite idx_of_nat.
    + cbn [Size with_Grid]. rewrite (Hfwd o eq_refl). cbn [mbind option_bind].
      by rewrite bool_decide_eq_true_2.
  - destruct bwd as [o|]; [|done].
    apply (scan_line (with_Grid sol b) (reverse q)
             (r0 + (Size b - 1) * dr) (c0 + (Size b - 1) * dc) (- dr) (- dc)).
    + by rewrite length_reverse.
    + intros k v Hk%reverse_idx. unfold Get. cbn [Grid with_Grid].
      pose proof (idx_lt _ _ _ Hk) as Hlt. apply Hq in Hk.
      assert (Z.of_nat (length q) = Size b) as E by lia. rewrite E in Hk.
      replace (r0 + (Size b - 1) * dr + Z.of_nat k * - dr)
        with (r0 + (Size b - 1 - Z.of_nat k) * dr) by lia.
      replace (c0 + (Size b - 1) * dc + Z.of_nat k * - dc)
        with (c0 + (Size b - 1 - Z.of_nat k) * dc) by lia.
      done.
    + cbn [Size with_Grid]. rewrite (Hbwd o eq_refl). cbn [mbind option_bind].
      by rewrite bool_decide_eq_true_2.
Qed.

Lemma ObserverSatisfied_true o b :
  ObserverSatisfied o b = Some true ->
  (Type_ o = OBS_ROW -> Direction o <> OBS_BWD ->
     obs_scan (Z.to_nat (Size b)) (Index o) 0 0 1 0 0 b = Some (Count o)) /\
  (Type_ o = OBS_ROW -> Direction o = OBS_BWD ->
     obs_scan (Z.to_nat (Size b)) (Index o) (Size b - 1) 0 (-1) 0 0 b = Some (Count o)) /\
  (Type_ o = OBS_COL -> Direction o <> OBS_BWD ->
     obs_scan (Z.to_nat (Size b)) 0 (Index o) 1 0 0 0 b = Some (Count o)) /\
  (Type_ o = OBS_COL -> Direction o = OBS_BWD ->
     obs_scan (Z.to_nat (Size b)) (Size b - 1) (Index o) (-1) 0 0 0 b = Some (Count o)).
Proof.
  unfold ObserverSatisfied. intros H.
  assert (forall ri ci dr dc,
            (vis ← obs_scan (Z.to_nat (Size b)) ri ci dr dc 0 0 b;
             Some (bool_decide (vis = Count o))) = Some true ->
            obs_scan (Z.to_nat (Size b)) ri ci dr dc 0 0 b = Some (Count o)) as Hscan.
  { intros ri ci dr dc Hs. destruct (obs_scan _ ri ci dr dc 0 0 b) as [vis|];
      cbn [mbind option_bind] in Hs; [|done].
    injection Hs as Hs. apply bool_decide_eq_true in Hs. by subst. }
  split_and!; intros Ht Hd.
  - rewrite decide_True, decide_False in H by done. by apply Hscan.
  - rewrite decide_True, decide_True in H by done. by apply Hscan.
  - rewrite decide_False, decide_True, decide_False in H by (rewrite ?Ht; done).
    by apply Hscan.
  - rewrite decide_False, decide_True, decide_True in H by (rewrite ?Ht; done).
    by apply Hscan.
Qed.

Lemma filed_slot b ind o :
  filed b -> wf b -> idx (ObsSorted b) ind = Some (Some o) ->
  o ∈ Observers b /\ (Type_ o = OBS_ROW \/ Type_ o = OBS_COL) /\
  0 <= Index o < Size b /\ ind = slot (Size b) o.
Proof.
  intros Hf Hwf Hind. destruct (Hf ind o Hind) as (Hin & Ht & Hs).
  destruct Hwf as (_ & _ & _ & _ & _ & _ & _ & _ & _ & Hobs).
  rewrite Forall_forall in Hobs. pose proof (Hobs o Hin). done.
Qed.

Lemma row_fits sol b r row fwd bwd :
  filed b -> wf b -> latin (Size b) sol ->
  (forall o, o ∈ Observers b -> ObserverSatisfied o (with_Grid sol b) = Some true) ->
  idx sol r = Some row -> 0 <= r < Size b ->
  idx (ObsSorted b) (2 * r) = Some fwd -> idx (ObsSorted b) (2 * r + 1) = Some bwd ->
  PermFitsObs row fwd bwd = true.
Proof.
  intros Hf Hwf Hlat Hsat Hrow Hr Hfwd Hbwd.
  pose proof (proj1 (proj2 Hlat) r row Hrow) as Hperm.
  apply Permutation_seqZ_lookup in Hperm as (Hlen & _).
  apply (line_fits sol b row fwd bwd r 0 0 1); [done| | |].
  - intros i v Hi. rewrite Z.mul_0_r, Z.mul_1_r, Z.add_0_r, Z.add_0_l.
    apply cell_Some. by exists row.
  - intros o ->. destruct (filed_slot _ _ _ Hf Hwf Hfwd) as (Hin & Ht & Hidx & Hs).
    unfold slot in Hs.
    destruct (ObserverSatisfied_true o _ (Hsat o Hin)) as (H1 & _).
    cbn [Size with_Grid] in H1.
    repeat case_decide; try lia. replace r with (Index o) by lia. by apply H1.
  - intros o ->. destruct (filed_slot _ _ _ Hf Hwf Hbwd) as (Hin & Ht & Hidx & Hs).
    unfold slot in Hs.
    destruct (ObserverSatisfied_true o _ (Hsat o Hin)) as (_ & H2 & _).
    cbn [Size with_Grid] in H2.
    rewrite Z.mul_0_r, Z.mul_1_r, Z.add_0_r, Z.add_0_l. change (- 0) with 0.
    repeat case_decide; try lia. replace r with (Index o) by lia. by apply H2.
Qed.

Lemma col_fits sol b c col fwd bwd :
  filed b -> wf b -> latin (Size b) sol ->
  (forall o, o ∈ Observers b -> ObserverSatisfied o (with_Grid sol b) = Some true) ->
  column sol c = Some col -> 0 <= c < Size b ->
  idx (ObsSorted b) (2 * Size b + 2 * c) = Some fwd ->
  idx (ObsSorted b) (2 * Size b + 2 * c + 1) = Some bwd ->
  PermFitsObs col fwd bwd = true.
Proof.
  intros Hf Hwf Hlat Hsat Hcol Hc Hfwd Hbwd.
  destruct (proj2 (proj2 Hlat) c Hc) as (col' & Hcol' & Hperm).
  assert (col' = col) as -> by congruence.
  apply Permutation_seqZ_lookup in Hperm as (Hlen & _).
  apply (line_fits sol b col fwd bwd 0 c 1 0); [done| | |].
  - intros i v Hi. rewrite Z.mul_0_r, Z.mul_1_r, Z.add_0_r, Z.add_0_l.
    by rewrite <- (column_idx sol c col i Hcol).
  - intros o ->. destruct (filed_slot _ _ _ Hf Hwf Hfwd) as (Hin & Ht & Hidx & Hs).
    unfold slot in Hs.
    destruct (ObserverSatisfied_true o _ (Hsat o Hin)) as (_ & _ & H3 & _).
    cbn [Size with_Grid] in H3.
    repeat case_decide; try lia; destruct Ht as [Ht|Ht]; try done.
    replace c with (Index o) by lia. by apply H3.
  - intros o ->. destruct (filed_slot _ _ _ Hf Hwf Hbwd) as (Hin & Ht & Hidx & Hs).
    unfold slot in Hs.
    destruct (ObserverSatisfied_true o _ (Hsat o Hin)) as (_ & _ & _ & H4).
    cbn [Size with_Grid] in H4.
    rewrite Z.mul_0_r, Z.mul_1_r, Z.add_0_r, Z.add_0_l. change (- 0) with 0.
    repeat case_decide; try lia; destruct Ht as [Ht|Ht]; try done.
    replace c with (Index o) by lia. by apply H4.
Qed.

Lemma PermsForObs_elem fwd bwd b l pi p :
  PermsForObs fwd bwd b = Some l -> idx (Perms b) pi = Some p ->
  PermFitsObs p fwd bwd = true -> pi ∈ l.
Proof.
  intros Hl Hp Hfit.
  assert (l = omap (fun ip : Z * list Z =>
                      if PermFitsObs ip.2 fwd bwd then Some ip.1 else None)
                   (zip (range 0 (len (Perms b))) (Perms b))) as ->.
  { unfold PermsForObs in Hl. destruct fwd, bwd; by simplify_eq. }
  apply list_elem_of_omap. exists (pi, p). split; [by apply zip_range_elem|].
  cbn [fst snd]. by rewrite Hfit.
Qed.

(** ** The board [BoardFromString] returns admits every solution *)

Lemma blank_board_loaded size b :
  blank_board size = Some b -> size <= 20 ->
  loaded size b /\ filed b /\
  forall r c g, cell (Grid b) r c = Some g -> g = EMPTY.
Proof.
  intros Hb Hsmall. pose proof (blank_board_wf _ _ Hb Hsmall) as Hok.
  apply blank_board_Some in Hb as [Hsz ->]. split_and!.
  - split; [done|]. intros sol Hlat _. split; [by destruct Hok|].
    split; [done|]. cbn [Size Grid Allowed RowPerms ColPerms Perms]. split_and!.
    + intros r c v Hv. destruct (latin_cell_inv _ _ _ _ _ Hlat Hv) as (Hr & Hc & Hrange).
      destruct (ok_Allowed size [] _ r c Hok Hr Hc) as [s Hs].
      exists s. split; [done|]. cbn [Allowed] in Hs. unfold NewAllowed in Hs.
      apply cell_replicate in Hs as ->. by apply elem_of_NumSet.
    + cbn [Grid]. intros r c g Hg%cell_replicate Hne. done.
    + cbn [RowPerms]. intros r l row Hl%idx_replicate. done.
    + cbn [ColPerms]. intros c l col Hl%idx_replicate. done.
  - intros ind o Hind%idx_replicate. done.
  - intros r c g Hg%cell_replicate. done.
Qed.

Lemma latin_row_in_perms n (row : list Z) :
  0 <= n <= 20 -> row ≡ₚ seqZ 1 n ->
  exists pi, idx (completions 1 (Z.to_nat n) (replicate (Z.to_nat n) false) []) pi
             = Some row.
Proof.
  intros Hn (Hlen & Hnd & Hall)%Permutation_seqZ_lookup.
  assert (row ∈ completions 1 (Z.to_nat n) (replicate (Z.to_nat n) false) []) as Hin.
  { apply elem_of_completions; [by vm_compute|apply is_int_bounds; lia|].
    split; [done|]. split; [done|]. intros x Hx%Hall. lia. }
  apply list_elem_of_lookup_1 in Hin as [i Hi]. exists (Z.of_nat i).
  by rewrite idx_of_nat.
Qed.

Lemma BoardFromString_sound input b sol :
  BoardFromString input = Some b -> solution sol b -> sound_for sol b.
Proof.
  intros (b0 & inputs & u1 & b1 & perms & u2 & b2 & u3 & H0 & Hin & H1 & Hp & H2 & H3)
    %BoardFromString_Some (Hlat & Hagree & Hsat).
  set (n := len (input_lines input) - 2) in *.
  pose proof (blank_board_Some _ _ H0) as [Hn Eb0].
  assert (Size b1 = n) as Hsz1.
  { rewrite (load_inputs_same_size _ _ _ _ H1). by rewrite Eb0. }
  rewrite Hsz1 in Hp. apply PermuteN_Some in Hp as [Hsmall ->]; [|done].
  destruct (blank_board_loaded _ _ H0 Hsmall) as (Hl0 & Hf0 & Hfresh).
  assert (square (n + 2) inputs) as Hsq.
  { apply parse_inputs_square in Hin.
    by replace (n + 2) with (len (input_lines input)) by lia. }
  pose proof (load_inputs_loaded n inputs b0 u1 b1 Hsq H1 Hl0 Hfresh) as [Hok1 Hsound1].
  pose proof (load_inputs_filed inputs b0 u1 b1 H1 Hf0) as Hf1.
  set (P := completions 1 (Z.to_nat n) (replicate (Z.to_nat n) false) []) in *.
  set (b1' := mkBoard (Grid b1) (Allowed b1) (NumEmpty b1) (Size b1) (Observers b1)
                      (ObsSorted b1) P (RowPerms b1) (ColPerms b1)) in *.
  assert (ok n P b1') as Hok1'.
  { destruct Hok1 as ((Hsz & Hg & Ha & Hos & Hrp & Hcp & _ & Hri & Hci & Hobs) & _ & Hnil).
    split; [|done]. unfold wf. simpl. rewrite Hnil in Hri, Hci.
    split; [done|]. split_and!; try done.
    - apply Forall_forall. intros p Hp. subst P.
      apply elem_of_completions in Hp as (Hlen & _); [| by vm_compute |].
      + unfold len. rewrite Hlen, Hsz1. lia.
      + apply is_int_bounds. lia.
    - eapply Forall_impl; [exact Hri|]. intros [l|]; [|done]. simpl.
      intros Hl. eapply Forall_impl; [exact Hl|]. unfold len. simpl. lia.
    - eapply Forall_impl; [exact Hci|]. intros [l|]; [|done]. simpl.
      intros Hl. eapply Forall_impl; [exact Hl|]. unfold len. simpl. lia. }
  assert (ok n P b2) as Hok2.
  { by eapply PopulateRowColPerms_maintains_ok. }
  apply PopulateRowColPerms_Some in H2 as (rp & cp & Eb2 & Hrp & Hcp);
    [|cbn [Size b1']; lia].
  pose proof (TrimAllowedFromPerms_reports _ _ _ H3) as [[Eb _] _].
  assert (Size b = n) as Hsz.
  { rewrite Eb, Eb2. done. }
  assert (Grid b = Grid b1) as Hgrid by (rewrite Eb, Eb2; done).
  assert (Observers b = Observers b1) as Hobs by (rewrite Eb, Eb2; done).
  rewrite Hsz in Hlat. rewrite Hgrid in Hagree.
  assert (forall o, o ∈ Observers b1 ->
            ObserverSatisfied o (with_Grid sol b1) = Some true) as Hsat1.
  { intros o Ho. rewrite <- Hobs in Ho.
    rewrite <- (Hsat o Ho). apply ObserverSatisfied_ext; [|done].
    cbn [Size with_Grid]. lia. }
  pose proof (Hsound1 sol Hlat Hagree) as (Hwf1 & _ & Ha1 & Hg1 & _).
  eapply TrimAllowedFromPerms_sound; [exact H3|].
  split; [by destruct Hok2|].
  assert (Size b2 = n) as -> by (by destruct Hok2 as (_ & ? & _)).
  split; [done|].
  rewrite Eb2. unfold admits. cbn [Allowed Grid RowPerms ColPerms Perms
                                   with_ColPerms with_RowPerms b1'].
  split_and!; try done.
  - intros r l row Hl Hrow.
    assert (0 <= r < n) as Hr.
    { apply idx_lt in Hrow. destruct Hlat as (<- & _). done. }
    destruct (Hrp r) as (fwd & bwd & Hfwd & Hbwd & Hidx); [cbn [Size b1']; lia|].
    cbn [ObsSorted b1'] in Hfwd, Hbwd. rewrite Hidx in Hl. injection Hl as Hl.
    destruct (latin_row_in_perms n row) as [pi Hpi]; [lia| |].
    { by apply (proj1 (proj2 Hlat) r). }
    exists pi. split; [|done].
    apply (PermsForObs_elem fwd bwd b1' l pi row Hl Hpi).
    apply (row_fits sol b1 r row); try done; by rewrite Hsz1.
  - intros c l col Hl Hcol.
    assert (0 <= c < n) as Hc.
    { apply idx_lt in Hl. destruct Hok2 as ((_ & _ & _ & _ & _ & Hlen & _) & Hs2 & _).
      rewrite Eb2 in Hlen, Hs2. cbn [ColPerms Size with_ColPerms with_RowPerms b1'] in *.
      lia. }
    destruct (Hcp c) as (fwd & bwd & Hfwd & Hbwd & Hidx); [cbn [Size b1']; lia|].
    cbn [ObsSorted Size b1'] in Hfwd, Hbwd. rewrite Hidx in Hl. injection Hl as Hl.
    destruct (proj2 (proj2 Hlat) c Hc) as (col' & Hcol' & Hperm).
    assert (col' = col) as -> by congruence.
    destruct (latin_row_in_perms n col) as [pi Hpi]; [lia|done|].
    exists pi. split; [|done].
    apply (PermsForObs_elem fwd bwd b1' l pi col Hl Hpi).
    apply (col_fits sol b1 c col); try done; by rewrite Hsz1.
Qed.

(** ** Solving a puzzle that has a solution *)

Lemma escalate_counted (rule : Z -> M bool) :
  (forall r, preserves (maintains (fun b => wf b /\ counted b)) (rule r)) ->
  preserves (maintains (fun b => wf b /\ counted b)) (escalate rule).
Proof.
  intros Hrule. unfold escalate.
  apply preserves_bind; [apply _|apply preserves_query; apply _|]. intros sz.
  apply preserves_for_return; [apply _|]. intros r _. apply Hrule.
Qed.

Lemma AutoSolve_loop_counted fuel changed :
  preserves (maintains (fun b => wf b /\ counted b)) (AutoSolve_loop fuel changed).
Proof.
  revert changed. induction fuel as [|fuel IH]; intros [|]; cbn [AutoSolve_loop negb];
    try (apply preserves_ret; apply _).
  - apply preserves_bind; [apply _|apply preserves_query; apply _|].
    intros [e|]; [|apply preserves_ret; apply _]. by intros b a b' Hrun.
  - apply preserves_bind; [apply _|apply preserves_query; apply _|].
    intros [e|]; [|apply preserves_ret; apply _].
    apply preserves_bind; [apply _| |intros c1].
    { intros b c b' H. apply solving_step_counted. by eapply step_MarkMandatory. }
    apply preserves_bind; [apply _| |intros c2].
    { intros b c b' H. apply solving_step_counted. by eapply step_TrimAllowedFromPerms. }
    apply preserves_bind; [apply _| |intros c3].
    { intros b c b' H. apply solving_step_counted. by eapply step_TrimPermsFromAllowed. }
    apply preserves_bind; [apply _| |intros c4; apply preserves_bind; [apply _| |]].
    + destruct (negb _); [|apply preserves_ret; apply _].
      apply escalate_counted. intros r b c b' H.
      apply solving_step_counted. by eapply step_TrimNakedSets.
    + destruct (negb _); [|apply preserves_ret; apply _].
      apply escalate_counted. intros r b c b' H.
      apply solving_step_counted. by eapply step_TrimFoundGroups.
    + apply IH.
Qed.

Lemma puzzle_clue_solution b :
  BoardFromString puzzle_clue = Some b -> solution [[1; 2]; [2; 1]] b.
Proof.
  intros H. vm_compute in H. injection H as <-.
  unfold solution. cbn [Size Grid Observers]. split_and!.
  - split; [done|]. split.
    + intros r row [_ Hr]%idx_Some.
      destruct (Z.to_nat r) as [|[|[|k]]]; simplify_eq/=; [done|apply perm_swap].
    + intros c Hc. assert (c = 0 \/ c = 1) as [-> | ->] by lia.
      * by exists [1; 2].
      * exists [2; 1]. split; [done|apply perm_swap].
  - intros r c g Hg. change [[0; 0]; [0; 0]] with (replicate 2 (replicate 2 0)) in Hg.
    by apply cell_replicate in Hg as ->.
  - intros o ->%list_elem_of_singleton. by vm_compute.
Qed.

(** X15: the board [BoardFromString] returns rules out no solution of
    the puzzle.  For every Latin square that agrees with the given
    cells and satisfies all the observers, each cell's candidate set
    holds the square's value, and every row and column list that is
    not nil holds the index of the square's row or column in
    [Perms]. *)
Theorem BoardFromString_admits_solutions input b sol :
  BoardFromString input = Some b -> solution sol b ->
  (forall r c v, cell sol r c = Some v ->
     exists s, cell (Allowed b) r c = Some s /\ v ∈ s) /\
  (forall r l row, idx (RowPerms b) r = Some (Some l) -> idx sol r = Some row ->
     exists pi, pi ∈ l /\ idx (Perms b) pi = Some row) /\
  (forall c l col, idx (ColPerms b) c = Some (Some l) -> column sol c = Some col ->
     exists pi, pi ∈ l /\ idx (Perms b) pi = Some col).
Proof.
  intros Hb Hsol.
  destruct (BoardFromString_sound input b sol Hb Hsol) as (_ & _ & Ha & _ & Hr & Hc).
  done.
Qed.

Lemma BoardFromString_admits_solutions_witness :
  exists b,
    BoardFromString puzzle_clue = Some b /\ solution [[1; 2]; [2; 1]] b /\
    (forall r c v, cell [[1; 2]; [2; 1]] r c = Some v ->
       exists s, cell (Allowed b) r c = Some s /\ v ∈ s) /\
    (forall r l row, idx (RowPerms b) r = Some (Some l) ->
       idx [[1; 2]; [2; 1]] r = Some row ->
       exists pi, pi ∈ l /\ idx (Perms b) pi = Some row) /\
    (forall c l col, idx (ColPerms b) c = Some (Some l) ->
       column [[1; 2]; [2; 1]] c = Some col ->
       exists pi, pi ∈ l /\ idx (Perms b) pi = Some col).
Proof.
  assert (exists b, BoardFromString puzzle_clue = Some b) as [b Hb].
  { eexists. vm_compute. reflexivity. }
  exists b. split; [exact Hb|]. split; [exact (puzzle_clue_solution b Hb)|].
  exact (BoardFromString_admits_solutions puzzle_clue b _ Hb (puzzle_clue_solution b Hb)).
Defined.

(** X16: the five rules of the automatic solver are sound.  On a well
    formed board that admits the Latin square [sol] (its values are
    candidates, its lines are among the permutation lists, the filled
    cells agree with it), whatever [MarkMandatory],
    [TrimAllowedFromPerms], [TrimPermsFromAllowed], [TrimNakedSets] or
    [TrimFoundGroups] returns, the board it leaves still admits
    [sol]. *)
Theorem rules_keep_solutions sol b :
  sound_for sol b ->
  (forall fuel c b', MarkMandatory fuel b = Some (c, b') -> sound_for sol b') /\
  (forall c b', TrimAllowedFromPerms b = Some (c, b') -> sound_for sol b') /\
  (forall c b', TrimPermsFromAllowed b = Some (c, b') -> sound_for sol b') /\
  (forall n c b', TrimNakedSets n b = Some (c, b') -> sound_for sol b') /\
  (forall n c b', TrimFoundGroups n b = Some (c, b') -> sound_for sol b').
Proof.
  intros Hb. split_and!.
  - intros fuel c b' H. by eapply MarkMandatory_sound.
  - intros c b' H. by eapply TrimAllowedFromPerms_sound.
  - intros c b' H. by eapply TrimPermsFromAllowed_sound.
  - intros n c b' H.
    eapply (stops_preserves _ _ (TrimNakedSets_sound sol n)); [exact H|exact Hb].
  - intros n c b' H. by eapply TrimFoundGroups_sound.
Qed.

Lemma rules_keep_solutions_witness :
  exists b,
    sound_for [[1; 2]; [2; 1]] b /\
    (forall fuel c b', MarkMandatory fuel b = Some (c, b') ->
       sound_for [[1; 2]; [2; 1]] b') /\
    (forall c b', TrimAllowedFromPerms b = Some (c, b') ->
       sound_for [[1; 2]; [2; 1]] b') /\
    (forall c b', TrimPermsFromAllowed b = Some (c, b') ->
       sound_for [[1; 2]; [2; 1]] b') /\
    (forall n c b', TrimNakedSets n b = Some (c, b') ->
       sound_for [[1; 2]; [2; 1]] b') /\
    (forall n c b', TrimFoundGroups n b = Some (c, b') ->
       sound_for [[1; 2]; [2; 1]] b').
Proof.
  assert (exists b, BoardFromString puzzle_clue = Some b) as [b Hb].
  { eexists. vm_compute. reflexivity. }
  pose proof (BoardFromString_sound _ _ _ Hb (puzzle_clue_solution b Hb)) as Hsound.
  exists b. split; [exact Hsound|].
  exact (rules_keep_solutions _ b Hsound).
Defined.

(** X17: [AutoSolve] never contradicts a solution.  If the puzzle read
    by [BoardFromString] has the solution [sol], then on the board
    [AutoSolve] leaves every filled cell holds the value of [sol] and
    every candidate set still holds it; and when [AutoSolve] reports
    success (a nil error) the grid is [sol], so the solution is the
    only one. *)
Theorem AutoSolve_sound input b0 sol fuel r b' :
  BoardFromString input = Some b0 -> solution sol b0 ->
  AutoSolve fuel b0 = Some (r, b') ->
  (forall ri ci g, cell (Grid b') ri ci = Some g -> g <> EMPTY ->
     cell sol ri ci = Some g) /\
  (forall ri ci v, cell sol ri ci = Some v ->
     exists s, cell (Allowed b') ri ci = Some s /\ v ∈ s) /\
  (r = None -> Grid b' = sol /\ forall sol', solution sol' b0 -> sol' = sol).
Proof.
  intros Hb0 Hsol Hrun.
  apply bind_Some in Hrun as ([] & b1 & Hloop & (r' & Hsolved & [= <- <-])%query_Some).
  assert (forall s, solution s b0 -> sound_for s b') as Hall.
  { intros s Hs. eapply AutoSolve_loop_sound; [exact Hloop|].
    by apply (BoardFromString_sound input). }
  assert (wf b' /\ counted b') as [Hwf Hc].
  { eapply AutoSolve_loop_counted; [exact Hloop|]. split.
    - by destruct (BoardFromString_ok _ _ Hb0).
    - by eapply BoardFromString_counted. }
  pose proof (Hall sol Hsol) as Hsound.
  pose proof Hsound as (_ & _ & Ha & Hg & _).
  split; [exact Hg|]. split; [exact Ha|]. intros ->.
  assert (NumEmpty b' = 0) as Hzero.
  { unfold Solved in Hsolved. case_decide as Hz; [done|]. lia. }
  split; [by apply sound_for_full|].
  intros sol' Hsol'. rewrite <- (sound_for_full sol b' Hsound Hc Hzero).
  symmetry. apply sound_for_full; [by apply Hall|done|done].
Qed.

Lemma AutoSolve_sound_witness :
  exists b0 b',
    BoardFromString puzzle_clue = Some b0 /\ solution [[1; 2]; [2; 1]] b0 /\
    AutoSolve 100 b0 = Some (None, b') /\
    (forall ri ci g, cell (Grid b') ri ci = Some g -> g <> EMPTY ->
       cell [[1; 2]; [2; 1]] ri ci = Some g) /\
    (forall ri ci v, cell [[1; 2]; [2; 1]] ri ci = Some v ->
       exists s, cell (Allowed b') ri ci = Some s /\ v ∈ s) /\
    (@None error = None ->
       Grid b' = [[1; 2]; [2; 1]] /\
       forall sol', solution sol' b0 -> sol' = [[1; 2]; [2; 1]]).
Proof.
  assert (exists b, BoardFromString puzzle_clue = Some b) as [b Hb].
  { eexists. vm_compute. reflexivity. }
  assert (exists b', AutoSolve 100 b = Some (None, b')) as [b' Hb'].
  { vm_compute in Hb. injection Hb as <-. eexists. vm_compute. reflexivity. }
  exists b, b'. split; [exact Hb|]. split; [exact (puzzle_clue_solution b Hb)|].
  split; [exact Hb'|].
  exact (AutoSolve_sound puzzle_clue b _ 100 None b' Hb (puzzle_clue_solution b Hb) Hb').
Defined.
